(** * dice-roller-parser: the evaluator of parsed dice rolls

    A shallow embedding of [DiceRoller] (the class that rolls a parsed
    roll20 expression), of the helpers of [async_map_funcs] and of
    [DiscordRollRenderer].

    Conventions of the embedding.
    - A JavaScript [number] is a rational ([Q]).  The product of a sample
      and the number of faces, from which [generateDiceRoll] and
      [generateFateRoll] take the face, is rounded to the nearest double as
      the source rounds it ([Js.mul]), and [toFixed] is as ECMA-262 has it,
      exponent form included.  The other arithmetic (sums of values, the
      operators of an expression, the math functions) is exact.  [NaN] and
      the infinities are not represented: where the source would produce
      one of them (division or remainder by zero, a power with a
      fractional exponent) the evaluation ends in [Unmodelled].  Integer
      valued fields that only ever hold array indexes, counters or parsed
      integers ([order], [roll], [successes], [failures]) are in [Z].
    - [this.randFunction] is a stream [nat -> number] together with the
      number of samples already drawn, which is part of the threaded state.
    - [this.cached] is part of the threaded state as well: the entries
      stored so far, over the names that every object inherits from
      [Object.prototype], which the source's lookup finds too.
    - An [async] method is a computation in the monad [M]: it threads the
      state and either returns, throws, or runs out of the fuel given to the
      only unbounded loop of the program (the [while] of [getReRollMethod]).
      The calls that [async_map] hands to [Promise.all] run one after the
      other, in the order of the array; how the event loop interleaves them
      is not represented.
    - Array methods that mutate in place ([sort], [splice], field writes on
      the elements) become functions that return the new list.
    - A method of the renderer returns a string or throws.  The string of a
      number (in a template literal, or added to a string) is a parameter
      [show] of the renderer: the digits of a double are not represented. *)

From Stdlib Require Import ZArith QArith Qround Qabs Qminmax Qpower.
From Stdlib Require Import List String Ascii Bool Lia Lqa Permutation Sorted.
From Stdlib Require Import DecimalString.
Import ListNotations.

Set Warnings "-register-all".

Local Open Scope Z_scope.
Local Open Scope string_scope.

(** ** Numbers *)

Abbreviation number := Q (only parsing).

Module Js.

Definition ofZ (z : Z) : number := inject_Z z.
Definition ofNat (n : nat) : number := inject_Z (Z.of_nat n).

Definition le (a b : number) : bool := Qle_bool a b.
Definition lt (a b : number) : bool := negb (Qle_bool b a).
Definition eq (a b : number) : bool := Qeq_bool a b.

(** [2 ^ k], for any integer [k]. *)
Definition pow2 (k : Z) : number := ((2 # 1) ^ k)%Q.

(** [floor (log2 x)], for [0 < x]. *)
Definition ilog2 (x : number) : Z :=
  let k := Z.log2 (Qnum x) - Z.log2 (Zpos (Qden x)) in
  if Qle_bool (pow2 k) x then k else k - 1.

(** The integer nearest to [t], the even one on a tie. *)
Definition rne (t : number) : Z :=
  let f := Qfloor t in
  let r := (t - inject_Z f)%Q in
  if Qle_bool r (1 # 2)
  then if Qle_bool (1 # 2) r then (if Z.even f then f else f + 1) else f
  else f + 1.

(** The exponent of the last bit of a double whose exponent is [e]: 52
    places below [e], and never below [-1074]. *)
Definition lastBit (e : Z) : Z := Z.max (e - 52) (-1074).

(** The double nearest to the real [x] (IEEE 754 binary64, round to
    nearest, ties to even): [x] is rounded to 53 significant bits, or to a
    multiple of [2 ^ -1074] when it is below [2 ^ -1022].  The infinities
    are not represented: a magnitude of [2 ^ 1024] and above is rounded
    all the same. *)
Definition round64 (x : number) : number :=
  if Qeq_bool x 0 then 0%Q
  else
    let a := Qabs x in
    let q := lastBit (ilog2 a) in
    let y := (inject_Z (rne (a / pow2 q)) * pow2 q)%Q in
    if Qle_bool 0 x then y else (- y)%Q.

(** [a * b] on doubles: the product, rounded. *)
Definition mul (a b : number) : number := round64 (a * b)%Q.

(** The number of decimal digits of [n], for [0 < n]. *)
Fixpoint digitsFrom (fuel : nat) (n : Z) : Z :=
  match fuel with
  | O => 1
  | S fuel' => if (n <? 10)%Z then 1 else 1 + digitsFrom fuel' (n / 10)
  end.

Definition digits10 (n : Z) : Z := digitsFrom (Z.to_nat (Z.log2 n)) n.

(** The first digit of [ToString(x)] for a double [x] of [1e21] and above
    (an integer, of [d] digits): [ToString] takes the least [k] for which
    some [s] of [k] digits and some [n] have [s * 10 ^ (n - k)] round to
    [x], and prints [s] (ECMA-262, Number::toString).  The lengths are
    tried in increasing order, from [k] on; a double needs no more than 17
    digits. *)
Fixpoint leadFrom (fuel : nat) (k : Z) (xi d : Z) (x : number) : Z :=
  match fuel with
  | O => xi / 10 ^ (d - 1)
  | S fuel' =>
      let scale := 10 ^ (d - k) in
      let s := xi / scale in
      if Qeq_bool (round64 (inject_Z (s * scale))) x then s / 10 ^ (k - 1)
      else if (s + 1 <? 10 ^ k)%Z && Qeq_bool (round64 (inject_Z ((s + 1) * scale))) x
           then (s + 1) / 10 ^ (k - 1)
           else leadFrom fuel' (k + 1) xi d x
  end.

Definition shortestLead (x : number) : Z :=
  let xi := Qfloor x in
  let d := digits10 xi in
  if Qeq_bool (round64 (inject_Z (10 ^ d))) x then 1
  else leadFrom 17 1 xi d x.

(** [parseInt(x.toFixed(), 10)] for a double [x].  Below [1e21], [toFixed]
    with no digits prints the integer nearest to [x], the larger one in
    absolute value on a tie.  From [1e21] on it prints [ToString(x)], which
    is in exponent form ([d.ddde+n] or [de+n]), and [parseInt] reads the
    digit before the point or the exponent (ECMA-262,
    Number.prototype.toFixed and parseInt). *)
Definition toFixed0 (x : number) : Z :=
  let a := Qabs x in
  let n := if Qle_bool (1000000000000000000000 # 1) a
           then shortestLead a
           else Qfloor (a + (1 # 2))%Q in
  if Qle_bool 0 x then n else - n.

Definition floor (x : number) : number := inject_Z (Qfloor x).
Definition ceil (x : number) : number := inject_Z (Qceiling x).
(** [Math.round] rounds ties towards plus infinity. *)
Definition round (x : number) : number := inject_Z (Qfloor (x + (1 # 2))%Q).
Definition abs (x : number) : number := Qabs x.

Definition trunc (x : number) : Z :=
  if Qle_bool 0 x then Qfloor x else Qceiling x.

(** [Array.from({ length: x }, ...)]: the length is [x] truncated, and 0
    when [x] is negative. *)
Definition toLength (x : number) : nat := Z.to_nat (trunc x).

(** The operators that can leave the rationals return [None] there. *)
Definition div (a b : number) : option number :=
  if Qeq_bool b 0 then None else Some (a / b)%Q.

Definition rem (a b : number) : option number :=
  if Qeq_bool b 0 then None
  else Some (a - b * inject_Z (trunc (a / b)))%Q.

Definition isInteger (x : number) : bool := Qeq_bool x (inject_Z (Qfloor x)).

Definition pow (a b : number) : option number :=
  if isInteger b then
    if Qeq_bool a 0 && Qle_bool b 0 && negb (Qeq_bool b 0) then None
    else Some (Qpower a (Qfloor b))
  else None.

(** [Array.prototype.sort(cmp)]: a stable sort; [x] is placed before the
    first element it does not compare greater than. *)
Section Sort.
Context {T : Type}.
Variable cmp : T -> T -> number.

Fixpoint insert (x : T) (l : list T) : list T :=
    match l with
    | [] => [x]
    | y :: l' => if Qle_bool (cmp x y) 0 then x :: l else y :: insert x l'
    end.

Definition sort (l : list T) : list T := fold_right insert [] l.
End Sort.

End Js.

(** ** Parsed rolls (the input), as the evaluator reads them *)

Inductive SuccessFailureCritKind := success_k | failure_k | crit_k | critfail_k.
Inductive KeepDropKind := keep_k | drop_k.
Inductive ReRollKind := explode_k | compound_k | penetrate_k | reroll_k | rerollOnce_k.

Record SortRollType := { asc : bool }.

(** [RootType]: one constructor per value of [input.type] that [rollType]
    switches on, [FateExpr] for the [{ type: "fate" }] die of a fate roll
    and [OtherType] for any other discriminator.  Every node has the
    optional [label]. *)
Inductive RootType : Type :=
| NumberType (value : number) (label : option string)
| InlineExpression (expr : RootType) (label : option string)
| FullRoll (count : RootType) (die : RootType)
           (mods : option (list ModType)) (targets : option (list ModType))
           (match_ : option MatchModType) (sort : option SortRollType)
           (label : option string)
| RollExpressionType (head : RootType) (ops : list MathType) (label : option string)
| MathExpression (head : RootType) (ops : list MathType) (label : option string)
| GroupedRoll (rolls : list RootType) (mods : option (list ModType))
              (label : option string)
| MathFunctionExpression (op : string) (expr : RootType) (label : option string)
| CustomReplacementExpression (called : string) (expr : RootType)
                              (label : option string)
| FateExpr (label : option string)
| OtherType (type : string) (label : option string)
with MathType : Type :=
| mkMath (op : string) (tail : RootType)
with ModType : Type :=
| SuccessFailureCritModType (type : SuccessFailureCritKind) (mod_ : string)
                            (expr : RootType)
| KeepDropModType (type : KeepDropKind) (highlow : option string) (expr : RootType)
| ReRollMod (type : ReRollKind) (target : option TargetMod)
| OtherMod (type : string)
with TargetMod : Type :=
| mkTarget (mod_ : string) (value : RootType)
with MatchModType : Type :=
| mkMatch (min : number) (count : bool) (mod_ : option string)
          (expr : option RootType).

Definition label_of (input : RootType) : option string :=
  match input with
  | NumberType _ l | InlineExpression _ l | FullRoll _ _ _ _ _ _ l
  | RollExpressionType _ _ l | MathExpression _ _ l | GroupedRoll _ _ l
  | MathFunctionExpression _ _ l | CustomReplacementExpression _ _ l
  | FateExpr l | OtherType _ l => l
  end.

Definition modTypeName (m : ModType) : string :=
  match m with
  | SuccessFailureCritModType success_k _ _ => "success"
  | SuccessFailureCritModType failure_k _ _ => "failure"
  | SuccessFailureCritModType crit_k _ _ => "crit"
  | SuccessFailureCritModType critfail_k _ _ => "critfail"
  | KeepDropModType keep_k _ _ => "keep"
  | KeepDropModType drop_k _ _ => "drop"
  | ReRollMod explode_k _ => "explode"
  | ReRollMod compound_k _ => "compound"
  | ReRollMod penetrate_k _ => "penetrate"
  | ReRollMod reroll_k _ => "reroll"
  | ReRollMod rerollOnce_k _ => "rerollOnce"
  | OtherMod t => t
  end.

(** ** Rolled results (the output) *)

Module Roll.

(** The fields every result has ([RollBase] of the source), with the
  optional [drop] flag ([false] while it is not set). *)
Record RollCommon := mkCommon {
value : number;
valid : bool;
success : option bool;
successes : Z;
failures : Z;
order : Z;
label : option string;
drop : bool
}.

Definition set_value (v : number) (c : RollCommon) : RollCommon :=
mkCommon v (valid c) (success c) (successes c) (failures c) (order c) (label c) (drop c).
Definition set_valid (b : bool) (c : RollCommon) : RollCommon :=
mkCommon (value c) b (success c) (successes c) (failures c) (order c) (label c) (drop c).
Definition set_success (b : option bool) (c : RollCommon) : RollCommon :=
mkCommon (value c) (valid c) b (successes c) (failures c) (order c) (label c) (drop c).
Definition set_successes (n : Z) (c : RollCommon) : RollCommon :=
mkCommon (value c) (valid c) (success c) n (failures c) (order c) (label c) (drop c).
Definition set_failures (n : Z) (c : RollCommon) : RollCommon :=
mkCommon (value c) (valid c) (success c) (successes c) n (order c) (label c) (drop c).
Definition set_order (n : Z) (c : RollCommon) : RollCommon :=
mkCommon (value c) (valid c) (success c) (successes c) (failures c) n (label c) (drop c).
Definition set_label (l : option string) (c : RollCommon) : RollCommon :=
mkCommon (value c) (valid c) (success c) (successes c) (failures c) (order c) l (drop c).
Definition set_drop (b : bool) (c : RollCommon) : RollCommon :=
mkCommon (value c) (valid c) (success c) (successes c) (failures c) (order c) (label c) b.

Inductive CriticalType := crit_success | crit_failure.

(** The [type] of one rolled die with the fields only that type has: a
  ["roll"] ([DieRoll] of the source) has [die] and [critical], a
  ["fateroll"] ([FateDieRoll]) has neither. *)
Inductive DieRollType :=
| roll_t (die : number) (critical : option CriticalType)
| fateroll_t.

(** One rolled die ([DieRollBase]); the optional flags [reroll] and
  [explode] are [false] while they are not set. *)
Record DieRollBase := mkDieRoll {
base : RollCommon;
type : DieRollType;
roll : Z;
matched : bool;
reroll : bool;
explode : bool
}.

Definition upd_base (f : RollCommon -> RollCommon) (r : DieRollBase) : DieRollBase :=
mkDieRoll (f (base r)) (type r) (roll r) (matched r) (reroll r) (explode r).
Definition set_type (t : DieRollType) (r : DieRollBase) : DieRollBase :=
mkDieRoll (base r) t (roll r) (matched r) (reroll r) (explode r).
Definition set_roll (n : Z) (r : DieRollBase) : DieRollBase :=
mkDieRoll (base r) (type r) n (matched r) (reroll r) (explode r).
Definition set_matched (b : bool) (r : DieRollBase) : DieRollBase :=
mkDieRoll (base r) (type r) (roll r) b (reroll r) (explode r).
Definition set_reroll (b : bool) (r : DieRollBase) : DieRollBase :=
mkDieRoll (base r) (type r) (roll r) (matched r) b (explode r).
Definition set_explode (b : bool) (r : DieRollBase) : DieRollBase :=
mkDieRoll (base r) (type r) (roll r) (matched r) (reroll r) b.

End Roll.
Import Roll.

(** The results of [rollType], by their [type] field: ["roll"]/["fateroll"]
    ([DieRollLeaf], which only occurs in a pool of a group), ["number"],
    ["fate"], ["die"], ["diceexpressionroll"], ["grouproll"],
    ["expressionroll"], ["mathfunction"], ["replacement"]. *)
Inductive RollBase : Type :=
| DieRollLeaf (r : DieRollBase)
| NumberRoll (c : RollCommon)
| FateMarker (c : RollCommon)
| DiceRollResult (c : RollCommon) (count : RollBase) (die : RollBase)
                 (rolls : list DieRollBase) (matched : bool)
| DiceExpressionRoll (c : RollCommon) (dice : list RollBase) (ops : list string)
| GroupRoll (c : RollCommon) (dice : list RollBase)
| ExpressionRoll (c : RollCommon) (dice : list RollBase) (ops : list string)
| MathFunctionRoll (c : RollCommon) (expr : RollBase) (op : string)
| ReplacementRoll (c : RollCommon) (called : string) (expr : RollBase).

Definition common (r : RollBase) : RollCommon :=
  match r with
  | DieRollLeaf l => base l
  | NumberRoll c | FateMarker c | DiceRollResult c _ _ _ _
  | DiceExpressionRoll c _ _ | GroupRoll c _ | ExpressionRoll c _ _
  | MathFunctionRoll c _ _ | ReplacementRoll c _ _ => c
  end.

Definition upd_common (f : RollCommon -> RollCommon) (r : RollBase) : RollBase :=
  match r with
  | DieRollLeaf l => DieRollLeaf (upd_base f l)
  | NumberRoll c => NumberRoll (f c)
  | FateMarker c => FateMarker (f c)
  | DiceRollResult c n d rs m => DiceRollResult (f c) n d rs m
  | DiceExpressionRoll c ds os => DiceExpressionRoll (f c) ds os
  | GroupRoll c ds => GroupRoll (f c) ds
  | ExpressionRoll c ds os => ExpressionRoll (f c) ds os
  | MathFunctionRoll c e o => MathFunctionRoll (f c) e o
  | ReplacementRoll c n e => ReplacementRoll (f c) n e
  end.

Definition typeName (r : RollBase) : string :=
  match r with
  | DieRollLeaf l => match type l with roll_t _ _ => "roll" | fateroll_t => "fateroll" end
  | NumberRoll _ => "number"
  | FateMarker _ => "fate"
  | DiceRollResult _ _ _ _ _ => "die"
  | DiceExpressionRoll _ _ _ => "diceexpressionroll"
  | GroupRoll _ _ => "grouproll"
  | ExpressionRoll _ _ _ => "expressionroll"
  | MathFunctionRoll _ _ _ => "mathfunction"
  | ReplacementRoll _ _ _ => "replacement"
  end.

(** What the modifiers shared by dice and groups need of an entry
    ([T extends RollBase] in the source). *)
Class RollLike (T : Type) := {
  getBase : T -> RollCommon;
  updBase : (RollCommon -> RollCommon) -> T -> T
}.

#[export] Instance RollLike_DieRollBase : RollLike DieRollBase :=
  {| getBase := base; updBase := upd_base |}.
#[export] Instance RollLike_RollBase : RollLike RollBase :=
  {| getBase := common; updBase := upd_common |}.
(** An entry together with the position it had when a pool was formed. *)
#[export] Instance RollLike_tagged {T} `{RollLike T} : RollLike (nat * T) :=
  {| getBase := fun p => getBase (snd p);
     updBase := fun f p => (fst p, updBase f (snd p)) |}.

(** ** The roller: configuration, state and the monad of its methods *)

(** The fields of [DiceRoller] set by the constructor.  A replacement
    resolver that rejects is [None]. *)
Record DiceRoller := {
  randFunction : nat -> number;
  replacementFunctions : string -> option (number -> number);
  maxRollCount : number
}.

(** What changes while rolling: how many samples [randFunction] has
    returned, and [this.cached]. *)
Record State := mkState {
  drawn : nat;
  cached : list (string * (number -> number))
}.

Inductive Error :=
| UnableToRender (type : string)
| TooManyDice
| ModNotRecognised (type : string)
| InvalidRerollTarget
| CannotReroll (type : string)
| JsTypeError (what : string)
| ResolverRejected (called : string).

Inductive Outcome (A : Type) :=
| Ok (a : A) (s : State)
| Throw (e : Error)
| OutOfFuel
| Unmodelled.
Arguments Ok {A} a s.
Arguments Throw {A} e.
Arguments OutOfFuel {A}.
Arguments Unmodelled {A}.

Definition M (A : Type) := State -> Outcome A.

Definition ret {A} (a : A) : M A := fun s => Ok a s.
Definition bind {A B} (m : M A) (k : A -> M B) : M B :=
  fun s => match m s with
           | Ok a s' => k a s'
           | Throw e => Throw e
           | OutOfFuel => OutOfFuel
           | Unmodelled => Unmodelled
           end.
Definition throw {A} (e : Error) : M A := fun _ => Throw e.
Definition unmodelled {A} : M A := fun _ => Unmodelled.
Definition outOfFuel {A} : M A := fun _ => OutOfFuel.
Definition liftOption {A} (o : option A) : M A :=
  match o with Some a => ret a | None => unmodelled end.

Declare Scope roller_scope.
Delimit Scope roller_scope with roller.
Notation "x <- m ;; k" := (bind m (fun x => k))
  (at level 61, m at next level, right associativity) : roller_scope.
Notation "' p <- m ;; k" := (bind m (fun x => let p := x in k))
  (at level 61, p pattern, m at next level, right associativity) : roller_scope.
Local Open Scope roller_scope.

(** ** async_map_funcs *)

Section async_map_funcs.
Context {T U : Type}.

Section Reduce.
Variable func : U -> T -> Z -> M U.
Fixpoint async_reduce_from (index : Z) (array : list T) (init : U) : M U :=
    match array with
    | [] => ret init
    | element :: rest =>
      init' <- func init element index ;;
      async_reduce_from (index + 1) rest init'
    end.
End Reduce.

Definition async_reduce (array : list T) (func : U -> T -> Z -> M U) (init : U)
  : M U := async_reduce_from func 0 array init.

(** [Promise.all(array.map(func))], with the calls run one after the
    other in the order of the array. *)
Section Map.
Variable func : T -> Z -> M U.
Fixpoint async_map_from (index : Z) (array : list T) : M (list U) :=
    match array with
    | [] => ret []
    | element :: rest =>
      u <- func element index ;;
      us <- async_map_from (index + 1) rest ;;
      ret (u :: us)
    end.
End Map.

Definition async_map (array : list T) (func : T -> Z -> M U) : M (list U) :=
  async_map_from func 0 array.
End async_map_funcs.

Section async_filter.
Context {T : Type}.
Variable func : T -> Z -> M bool.
Fixpoint async_filter_from (index : Z) (array : list T) : M (list T) :=
  match array with
  | [] => ret []
  | element :: rest =>
      keep <- func element index ;;
      newArr <- async_filter_from (index + 1) rest ;;
      ret (if keep then element :: newArr else newArr)
  end.
End async_filter.

Definition async_filter {T} (array : list T) (func : T -> Z -> M bool)
  : M (list T) := async_filter_from func 0 array.

(** [Array.from({ length }, (_, i) => f(i))] for an [f] that draws from
    the random source. *)
Section ArrayFrom.
Context {T : Type}.
Variable f : Z -> M T.
Fixpoint arrayFrom_from (i : Z) (length : nat) : M (list T) :=
  match length with
  | O => ret []
  | S n => x <- f i ;; xs <- arrayFrom_from (i + 1) n ;; ret (x :: xs)
  end.
End ArrayFrom.
Definition arrayFrom {T} (length : nat) (f : Z -> M T) : M (list T) :=
  arrayFrom_from f 0 length.

(** ** Methods that do not recurse into the parsed roll *)

(** The object built by [generateDiceRoll] from the sample [r] that
    [this.randFunction()] returned: the face is
    [parseInt((r * die).toFixed(), 10) + 1], on the product as the double
    it is. *)
Definition dieRollOf (die : number) (order : Z) (r : number) : DieRollBase :=
  let roll := Js.toFixed0 (Js.mul r die) + 1 in
  let critical :=
    if Js.eq (Js.ofZ roll) die then Some crit_success
    else if (roll =? 1)%Z then Some crit_failure
    else None in
  {| base := {| value := Js.ofZ roll; valid := true; success := None;
                successes := 0; failures := 0; order := order;
                label := None; drop := false |};
     type := roll_t die critical; roll := roll;
     matched := false; reroll := false; explode := false |}.

(** The object built by [generateFateRoll]: the face is
    [Math.floor(r * 3) - 1], on the product as the double it is. *)
Definition fateRollOf (order : Z) (r : number) : DieRollBase :=
  let roll := Qfloor (Js.mul r 3) - 1 in
  {| base := {| value := Js.ofZ roll; valid := true; success := None;
                successes := 0; failures := 0; order := order;
                label := None; drop := false |};
     type := fateroll_t; roll := roll;
     matched := false; reroll := false; explode := false |}.

Section Roller.
Variable this : DiceRoller.

(** One call of [this.randFunction()]. *)
Definition rand : M number :=
  fun s => Ok (randFunction this (drawn s)) (mkState (S (drawn s)) (cached s)).

Definition successTest (mod_ : string) (target roll : number) : bool :=
  if mod_ =? ">" then Js.le target roll
  else if mod_ =? "<" then Js.le roll target
  else Js.eq roll target.

(** [successTest] when the target may be [undefined]: every comparison
    of a number with [undefined] is false. *)
Definition successTestU (mod_ : string) (target : option number) (roll : number)
  : bool :=
  match target with
  | Some t => successTest mod_ t roll
  | None => false
  end.

Definition generateDiceRoll (die : number) (order : Z) : M DieRollBase :=
  r <- rand ;; ret (dieRollOf die order r).

Definition generateFateRoll (order : Z) : M DieRollBase :=
  r <- rand ;; ret (fateRollOf order r).

(** [reRoll]: the [default] branch of its switch cannot be taken by a
    [DieRollBase], whose [type] is ["roll"] or ["fateroll"]. *)
Definition reRoll (roll : DieRollBase) (order : Z) : M DieRollBase :=
  match type roll with
  | roll_t die _ => generateDiceRoll die order
  | fateroll_t => generateFateRoll order
  end.

End Roller.

(** ** The modifier pipeline *)

Definition ModMethod := list DieRollBase -> M (list DieRollBase).

Definition boolNum (b : bool) : number := if b then 1%Q else 0%Q.

(** The loop shared by [getKeepMethod] and [getDropMethod]:
    [while (i < rolls.length && dropped < toDrop)], on the entries from
    index [i] on. *)
Fixpoint dropLoop {T} `{RollLike T} (toDrop : number) (dropped : Z) (rolls : list T)
  : list T :=
  match rolls with
  | [] => []
  | r :: rest =>
      if Js.lt (Js.ofZ dropped) toDrop then
        if valid (getBase r)
        then updBase (fun c => set_drop true (set_valid false c)) r
               :: dropLoop toDrop (dropped + 1) rest
        else r :: dropLoop toDrop dropped rest
      else rolls
  end.

Definition countValid {T} `{RollLike T} (rolls : list T) : Z :=
  fold_left (fun value roll => (if valid (getBase roll) then 1 else 0) + value) rolls 0.

(** The function returned by [getKeepMethod], for the value of [mod.expr]. *)
Definition keepRolls {T} `{RollLike T} (highlow : option string)
    (lookup : T -> number) (exprValue : number) (rolls : list T) : list T :=
  match rolls with
  | [] => rolls
  | _ =>
      let byValue :=
        Js.sort (fun a b => match highlow with
                            | Some "l" => (lookup b - lookup a)%Q
                            | _ => (lookup a - lookup b)%Q
                            end) rolls in
      let rolls :=
        Js.sort (fun a b => (boolNum (valid (getBase a)) - boolNum (valid (getBase b)))%Q)
                byValue in
      let toKeep := Qmax (Qmin exprValue (Js.ofNat (List.length rolls))) 0 in
      let toDrop := (Js.ofZ (countValid rolls) - toKeep)%Q in
      dropLoop toDrop 0 rolls
  end.

(** The function returned by [getDropMethod]. *)
Definition dropRolls {T} `{RollLike T} (highlow : option string)
    (lookup : T -> number) (exprValue : number) (rolls : list T) : list T :=
  let rolls :=
    Js.sort (fun a b => match highlow with
                        | Some "h" => (lookup b - lookup a)%Q
                        | _ => (lookup a - lookup b)%Q
                        end) rolls in
  let toDrop := Qmax (Qmin exprValue (Js.ofNat (List.length rolls))) 0 in
  dropLoop toDrop 0 rolls.

(** [.sort((a, b) => a.order - b.order)] *)
Definition sortByOrder (rolls : list DieRollBase) : list DieRollBase :=
  Js.sort (fun a b => Js.ofZ (order (base a) - order (base b))) rolls.

(** [applySort] *)
Fixpoint reindex (i : Z) (rolls : list DieRollBase) : list DieRollBase :=
  match rolls with
  | [] => []
  | r :: rest => upd_base (set_order i) r :: reindex (i + 1) rest
  end.

Definition applySort (rolls : list DieRollBase) (mod_ : SortRollType)
  : list DieRollBase :=
  reindex 0 (Js.sort (fun a b => if asc mod_ then Js.ofZ (roll a - roll b)
                                 else Js.ofZ (roll b - roll a)) rolls).

Definition set_critical (c : option CriticalType) (r : DieRollBase) : DieRollBase :=
  match type r with
  | roll_t d _ => set_type (roll_t d c) r
  | fateroll_t => r
  end.

Definition critical (r : DieRollBase) : option CriticalType :=
  match type r with
  | roll_t _ c => c
  | fateroll_t => None
  end.

Definition isTrue (o : option bool) : bool :=
  match o with Some true => true | _ => false end.

Definition isCrit (which : CriticalType) (c : option CriticalType) : bool :=
  match which, c with
  | crit_success, Some crit_success => true
  | crit_failure, Some crit_failure => true
  | _, _ => false
  end.

Section Modifiers.
Variable this : DiceRoller.
(** Fuel for the [while] loop of [getReRollMethod]. *)
Variable fuel : nat.

(** [targetMethod] of explode, compound and penetrate, for the resolved
    [mod.target] (the comparator with the value of its expression). *)
Definition explodeTarget (target : option (string * number)) (roll : DieRollBase)
  : bool :=
  match target with
  | Some (mod_, targetValue) => successTest mod_ targetValue (Js.ofZ (Roll.roll roll))
  | None =>
      successTest "=" (match type roll with
                       | fateroll_t => 1%Q
                       | roll_t die _ => die
                       end) (Js.ofZ (Roll.roll roll))
  end.

(** [targetMethod({ roll } as DieRollBase)]: the object has no [type] and
    no [die], so without [mod.target] the target is [undefined]. *)
Definition explodeTargetBare (target : option (string * number)) (roll : number)
  : bool :=
  match target with
  | Some (mod_, targetValue) => successTest mod_ targetValue roll
  | None => successTestU "=" None roll
  end.

(** [while (targetMethod(roll) && explodeCount++ < 1000)] of
    [getExplodeMethod] and [getPenetrateMethod], for the entry at index
    [i]; [budget] is [1000 - explodeCount].  Returns the entry followed by
    the rolls spliced in after it, and the index of the last of them.
    [adjust] is what the method does to a new roll before the splice:
    nothing in explode, [newRoll.value -= 1] in penetrate. *)
Fixpoint explodeWhile (adjust : DieRollBase -> DieRollBase)
    (target : option (string * number))
    (budget : nat) (roll : DieRollBase) (i : Z) : M (list DieRollBase * Z) :=
  if explodeTarget target roll then
    match budget with
    | O => ret ([roll], i)
    | S budget' =>
        let roll := set_explode true roll in
        newRoll <- reRoll this roll (i + 1) ;;
        let newRoll := adjust newRoll in
        '(rest, i') <- explodeWhile adjust target budget' newRoll (i + 1) ;;
        ret (roll :: rest, i')
    end
  else ret ([roll], i).

(** [for (let i = 0; i < rolls.length; i++)] of the same two methods, on
    the entries from index [i] on. *)
Fixpoint explodeFor (adjust : DieRollBase -> DieRollBase)
    (target : option (string * number)) (i : Z)
    (rolls : list DieRollBase) : M (list DieRollBase) :=
  match rolls with
  | [] => ret []
  | roll :: rest =>
      '(chain, i') <- explodeWhile adjust target 1000
                                   (upd_base (set_order i) roll) i ;;
      tail <- explodeFor adjust target (i' + 1) rest ;;
      ret (chain ++ tail)%list
  end.

Definition penetrated (newRoll : DieRollBase) : DieRollBase :=
  upd_base (fun c => set_value (value c - 1)%Q c) newRoll.

(** The function returned by [getExplodeMethod]. *)
Definition explodeRolls (target : option (string * number)) : ModMethod :=
  fun rolls =>
    match rolls with
    | [] => throw (JsTypeError "rolls[0] is undefined")
    | r0 :: _ =>
        if match type r0 with
           | roll_t die _ =>
               explodeTargetBare target 1%Q && explodeTargetBare target die
           | fateroll_t => false
           end
        then throw InvalidRerollTarget
        else explodeFor (fun newRoll => newRoll) target 0 rolls
    end.

(** The function returned by [getPenetrateMethod]. *)
Definition penetrateRolls (target : option (string * number)) : ModMethod :=
  fun rolls =>
    match rolls with
    | [] =>
        match target with
        | Some _ => throw (JsTypeError "rolls[0] is undefined")
        | None => ret []
        end
    | r0 :: _ =>
        if match target, type r0 with
           | Some (mod_, targetValue), roll_t _ _ =>
               explodeTarget target r0 && successTest mod_ targetValue 1%Q
           | _, _ => false
           end
        then throw InvalidRerollTarget
        else explodeFor penetrated target 0 rolls
    end.

(** The [while] of [getCompoundMethod]: returns the final [rollValue]. *)
Fixpoint compoundWhile (target : option (string * number)) (budget : nat)
    (roll : DieRollBase) (i : Z) (rollValue : Z) : M Z :=
  if explodeTarget target roll then
    match budget with
    | O => ret rollValue
    | S budget' =>
        newRoll <- reRoll this roll (i + 1) ;;
        compoundWhile target budget' newRoll i (rollValue + Roll.roll newRoll)
    end
  else ret rollValue.

(** The [for] of [getCompoundMethod].  [roll.explode = true] writes to
    [rolls[i]] in the first iteration of the [while] and to the discarded
    new roll in the later ones. *)
Fixpoint compoundFor (target : option (string * number)) (i : Z)
    (rolls : list DieRollBase) : M (list DieRollBase) :=
  match rolls with
  | [] => ret []
  | roll :: rest =>
      rollValue <- compoundWhile target 1000 roll i (Roll.roll roll) ;;
      let roll := if explodeTarget target roll then set_explode true roll else roll in
      let roll := set_roll rollValue (upd_base (set_value (Js.ofZ rollValue)) roll) in
      tail <- compoundFor target (i + 1) rest ;;
      ret (roll :: tail)
  end.

(** The function returned by [getCompoundMethod]. *)
Definition compoundRolls (target : option (string * number)) : ModMethod :=
  fun rolls =>
    match rolls with
    | [] => throw (JsTypeError "rolls[0] is undefined")
    | r0 :: _ =>
        if match type r0 with
           | roll_t die _ =>
               explodeTargetBare target 1%Q && explodeTargetBare target die
           | fateroll_t => false
           end
        then throw InvalidRerollTarget
        else compoundFor target 0 rolls
    end.

(** [targetMethod] of reroll and rerollOnce: [successTest] bound to the
    resolved target, or to ["="] and 1. *)
Definition rerollTarget (target : option (string * number)) (roll : number) : bool :=
  match target with
  | Some (mod_, targetValue) => successTest mod_ targetValue roll
  | None => successTest "=" 1%Q roll
  end.

Definition rerollGuard (target : option (string * number)) (rolls : list DieRollBase)
  : M unit :=
  match rolls with
  | [] => throw (JsTypeError "rolls[0] is undefined")
  | r0 :: _ =>
      if match type r0 with
         | roll_t die _ => rerollTarget target 1%Q && rerollTarget target die
         | fateroll_t => false
         end
      then throw InvalidRerollTarget
      else ret tt
  end.

Definition markRerolled (roll : DieRollBase) : DieRollBase :=
  upd_base (set_valid false) (set_reroll true roll).

(** [while (targetMethod(rolls[i].roll))] of [getReRollMethod] for the
    entry at index [i]: the entry followed by its replacements, and the
    index of the last of them. *)
Fixpoint rerollWhile (target : option (string * number)) (fuel : nat)
    (roll : DieRollBase) (i : Z) : M (list DieRollBase * Z) :=
  if rerollTarget target (Js.ofZ (Roll.roll roll)) then
    match fuel with
    | O => outOfFuel
    | S fuel' =>
        let roll := markRerolled roll in
        newRoll <- reRoll this roll (i + 1) ;;
        '(rest, i') <- rerollWhile target fuel' newRoll (i + 1) ;;
        ret (roll :: rest, i')
    end
  else ret ([roll], i).

Fixpoint rerollFor (target : option (string * number)) (i : Z)
    (rolls : list DieRollBase) : M (list DieRollBase) :=
  match rolls with
  | [] => ret []
  | roll :: rest =>
      '(chain, i') <- rerollWhile target fuel roll i ;;
      tail <- rerollFor target (i' + 1) rest ;;
      ret (chain ++ tail)%list
  end.

(** The function returned by [getReRollMethod]. *)
Definition rerollRolls (target : option (string * number)) : ModMethod :=
  fun rolls => _ <- rerollGuard target rolls ;; rerollFor target 0 rolls.

(** The [for] of [getReRollOnceMethod]. *)
Fixpoint rerollOnceFor (target : option (string * number)) (i : Z)
    (rolls : list DieRollBase) : M (list DieRollBase) :=
  match rolls with
  | [] => ret []
  | roll :: rest =>
      if rerollTarget target (Js.ofZ (Roll.roll roll)) then
        let roll := markRerolled roll in
        newRoll <- reRoll this roll (i + 1) ;;
        tail <- rerollOnceFor target (i + 2) rest ;;
        ret (roll :: newRoll :: tail)
      else
        tail <- rerollOnceFor target (i + 1) rest ;;
        ret (roll :: tail)
  end.

(** The function returned by [getReRollOnceMethod]. *)
Definition rerollOnceRolls (target : option (string * number)) : ModMethod :=
  fun rolls => _ <- rerollGuard target rolls ;; rerollOnceFor target 0 rolls.

(** The functions returned by [getSuccessMethod] and [getFailureMethod]. *)
Definition successRolls {T} `{RollLike T} (mod_ : string) (lookup : T -> number)
    (exprValue : number) (rolls : list T) : list T :=
  map (fun roll =>
         if negb (valid (getBase roll)) then roll
         else if successTest mod_ exprValue (lookup roll)
              then updBase (fun c => set_successes (successes c + 1) c) roll
              else roll) rolls.

Definition failureRolls {T} `{RollLike T} (mod_ : string) (lookup : T -> number)
    (exprValue : number) (rolls : list T) : list T :=
  map (fun roll =>
         if negb (valid (getBase roll)) then roll
         else if successTest mod_ exprValue (lookup roll)
              then updBase (fun c => set_failures (failures c + 1) c) roll
              else roll) rolls.

(** The functions returned by [getCritSuccessMethod] ([which] is
    ["success"]) and [getCritFailureMethod] (["failure"]). *)
Definition critRolls (which : CriticalType) (mod_ : string)
    (lookup : DieRollBase -> number) (exprValue : number)
    (rolls : list DieRollBase) : list DieRollBase :=
  map (fun roll =>
         if negb (valid (base roll)) then roll
         else match type roll with
              | fateroll_t => roll
              | roll_t _ _ =>
                  if isTrue (success (base roll)) then roll
                  else if successTest mod_ exprValue (lookup roll)
                       then set_critical (Some which) roll
                       else if isCrit which (critical roll)
                            then set_critical None roll
                            else roll
              end) rolls.

End Modifiers.

(** ** The evaluator *)

(** [rolls.reduce((sum, roll) => (!roll.valid ? sum : sum + roll.value), 0)] *)
Definition sumValid {T} `{RollLike T} (rolls : list T) : number :=
  fold_left (fun sum roll => if negb (valid (getBase roll)) then sum
                             else (sum + value (getBase roll))%Q) rolls 0%Q.

(** What [applyGroupMods] leaves behind: the array it returns, the final
    content of the array it was given (sorted in place by the modifiers
    that ran while it was still the current array), the entries in the
    order they were given, and the three variables it assigns. *)
Record GroupModsResult (T : Type) := {
  gm_dice : list T;
  gm_inputArray : list T;
  gm_entries : list T;
  gm_hasTarget : bool;
  gm_successes : Z;
  gm_failures : Z
}.
Arguments gm_dice {T} _.
Arguments gm_inputArray {T} _.
Arguments gm_entries {T} _.
Arguments gm_hasTarget {T} _.
Arguments gm_successes {T} _.
Arguments gm_failures {T} _.

Definition tagged {T} (l : list T) : list (nat * T) := combine (seq 0 (List.length l)) l.

Definition entryOf {T} (final : list (nat * T)) (id : nat) : list T :=
  map snd (filter (fun p => Nat.eqb (fst p) id) final).

Definition isTargetMod (m : ModType) : bool :=
  match m with
  | SuccessFailureCritModType success_k _ _
  | SuccessFailureCritModType failure_k _ _ => true
  | _ => false
  end.

(** [sort] works in place and returns its array, [map] returns a new one. *)
Definition sortsInPlace (m : ModType) : bool :=
  match m with
  | KeepDropModType _ _ _ => true
  | _ => false
  end.

(** [die.type === "die" ? die.rolls : die.dice], spread into an array. *)
Definition diceOf (die : RollBase) : M (list RollBase) :=
  match die with
  | DiceRollResult _ _ _ rolls _ => ret (map DieRollLeaf rolls)
  | DiceExpressionRoll _ dice _ | GroupRoll _ dice | ExpressionRoll _ dice _ =>
      ret dice
  | _ => throw (JsTypeError "die.dice is not iterable")
  end.

Definition isNumberRoll (r : RollBase) : bool :=
  match r with NumberRoll _ => true | _ => false end.

Fixpoint concatDice (dice : list RollBase) : M (list RollBase) :=
  match dice with
  | [] => ret []
  | die :: rest =>
      ds <- diceOf die ;;
      arr <- concatDice rest ;;
      ret (ds ++ arr)%list
  end.

(** The pool of a group whose single member is a ["diceexpressionroll"]
    with the children [dice]:
    [dice.filter((die) => die.type !== "number").reduce(...)]. *)
Definition expressionPool (dice : list RollBase) : M (list RollBase) :=
  concatDice (filter (fun die => negb (isNumberRoll die)) dice).

Definition leafOr (dflt : DieRollBase) (r : RollBase) : DieRollBase :=
  match r with DieRollLeaf l => l | _ => dflt end.

Fixpoint leavesOf (rolls : list DieRollBase) (entries : list RollBase)
  : list DieRollBase :=
  match rolls, entries with
  | r :: rolls', e :: entries' => leafOr r e :: leavesOf rolls' entries'
  | _, _ => rolls
  end.

(** The entries of the pool are the objects held by the arrays of the
    member's children: [restoreDice] gives the children with the entries as
    the modifiers left them ([entries] in the order of the pool). *)
Fixpoint restoreDice (dice : list RollBase) (entries : list RollBase)
  : list RollBase :=
  match dice with
  | [] => []
  | die :: rest =>
      match die with
      | DiceRollResult c n d rolls m =>
          let k := List.length rolls in
          DiceRollResult c n d (leavesOf rolls (firstn k entries)) m
            :: restoreDice rest (skipn k entries)
      | DiceExpressionRoll c ds os =>
          let k := List.length ds in
          DiceExpressionRoll c (firstn k entries) os :: restoreDice rest (skipn k entries)
      | GroupRoll c ds =>
          let k := List.length ds in
          GroupRoll c (firstn k entries) :: restoreDice rest (skipn k entries)
      | ExpressionRoll c ds os =>
          let k := List.length ds in
          ExpressionRoll c (firstn k entries) os :: restoreDice rest (skipn k entries)
      | _ => die :: restoreDice rest entries
      end
  end.

(** [this.cached] is a plain object ([{}]): besides the names stored in
    it, it answers for the names it inherits from [Object.prototype]
    (ECMA-262, with the accessor and the four methods of its Annex B). *)
Definition objectPrototypeNames : list string :=
  ["constructor"; "hasOwnProperty"; "isPrototypeOf"; "propertyIsEnumerable";
   "toLocaleString"; "toString"; "valueOf"; "__proto__";
   "__defineGetter__"; "__defineSetter__"; "__lookupGetter__"; "__lookupSetter__"].

Definition inherited (called : string) : bool :=
  existsb (String.eqb called) objectPrototypeNames.

(** What [this.cached[called]] is: a function stored under the name, a
    member of [Object.prototype] (which is truthy), or [undefined]. *)
Inductive CacheEntry :=
| Stored (f : number -> number)
| Inherited
| Absent.

Definition getCached (called : string) : M CacheEntry :=
  fun s => Ok (match find (fun p => fst p =? called) (cached s) with
               | Some p => Stored (snd p)
               | None => if inherited called then Inherited else Absent
               end) s.

(** [replaceFunction(roll.value)] when [replaceFunction] is the member
    [called] of [Object.prototype]: it is called with a number and without
    [this].  [toString], [isPrototypeOf] and [constructor] return a string,
    a boolean and an object, which are no values of a roll here;
    [__proto__] is no function, and the other members throw on the missing
    [this]. *)
Definition callInherited {A} (called : string) : M A :=
  if (called =? "toString") || (called =? "isPrototypeOf")
     || (called =? "constructor")
  then unmodelled
  else if called =? "__proto__"
       then throw (JsTypeError "replaceFunction is not a function")
       else throw (JsTypeError "Cannot convert undefined or null to object").

Definition setCached (called : string) (f : number -> number) : M unit :=
  fun s => Ok tt (mkState (drawn s) ((called, f) :: cached s)).

Definition truthy (l : option string) : bool :=
  match l with
  | Some "" | None => false
  | Some _ => true
  end.

(** [map.set(roll.roll, (map.get(roll.roll) || 0) + 1)] on a [Map] kept in
    insertion order. *)
Fixpoint countRoll (map : list (Z * Z)) (key : Z) : list (Z * Z) :=
  match map with
  | [] => [(key, 1)]
  | (k, n) :: rest => if (k =? key)%Z then (k, n + 1) :: rest
                      else (k, n) :: countRoll rest key
  end.

(** [rolls.filter((roll) => matches.has(roll.roll))
          .forEach((roll) => (roll.matched = true))], on one roll. *)
Definition markMatched (matches : list Z) (roll : DieRollBase) : DieRollBase :=
  if existsb (Z.eqb (Roll.roll roll)) matches then set_matched true roll else roll.

Definition newCommon (value : number) (success : option bool) (successes failures : Z)
  : RollCommon :=
  {| value := value; valid := true; success := success; successes := successes;
     failures := failures; order := 0; label := None; drop := false |}.

Section Evaluator.
Variable this : DiceRoller.
Variable fuel : nat.

Section Methods.
(** The recursive calls of [this.rollType]. *)
Variable rollType : RootType -> M RollBase.

Definition resolveTarget (target : option TargetMod)
    : M (option (string * number)) :=
    match target with
    | Some (mkTarget mod_ value) =>
      targetValue <- rollType value ;;
      ret (Some (mod_, Roll.value (common targetValue)))
    | None => ret None
    end.

Definition getSuccessMethod {T} `{RollLike T} (mod_ : string) (expr : RootType)
    (lookup : T -> number) : M (list T -> M (list T)) :=
    exprResult <- rollType expr ;;
    ret (fun rolls => ret (successRolls mod_ lookup (value (common exprResult)) rolls)).

Definition getFailureMethod {T} `{RollLike T} (mod_ : string) (expr : RootType)
    (lookup : T -> number) : M (list T -> M (list T)) :=
    exprResult <- rollType expr ;;
    ret (fun rolls => ret (failureRolls mod_ lookup (value (common exprResult)) rolls)).

Definition getCritSuccessMethod (mod_ : string) (expr : RootType)
    (lookup : DieRollBase -> number) : M ModMethod :=
    exprResult <- rollType expr ;;
    ret (fun rolls =>
         ret (critRolls crit_success mod_ lookup (value (common exprResult)) rolls)).

Definition getCritFailureMethod (mod_ : string) (expr : RootType)
    (lookup : DieRollBase -> number) : M ModMethod :=
    exprResult <- rollType expr ;;
    ret (fun rolls =>
         ret (critRolls crit_failure mod_ lookup (value (common exprResult)) rolls)).

Definition getKeepMethod {T} `{RollLike T} (highlow : option string)
    (expr : RootType) (lookup : T -> number) : M (list T -> M (list T)) :=
    exprResult <- rollType expr ;;
    ret (fun rolls => ret (keepRolls highlow lookup (value (common exprResult)) rolls)).

Definition getDropMethod {T} `{RollLike T} (highlow : option string)
    (expr : RootType) (lookup : T -> number) : M (list T -> M (list T)) :=
    exprResult <- rollType expr ;;
    ret (fun rolls => ret (dropRolls highlow lookup (value (common exprResult)) rolls)).

Definition getExplodeMethod (target : option TargetMod) : M ModMethod :=
    targetValue <- resolveTarget target ;; ret (explodeRolls this targetValue).

Definition getCompoundMethod (target : option TargetMod) : M ModMethod :=
    targetValue <- resolveTarget target ;; ret (compoundRolls this targetValue).

Definition getPenetrateMethod (target : option TargetMod) : M ModMethod :=
    targetValue <- resolveTarget target ;; ret (penetrateRolls this targetValue).

Definition getReRollMethod (target : option TargetMod) : M ModMethod :=
    targetValue <- resolveTarget target ;; ret (rerollRolls this fuel targetValue).

Definition getReRollOnceMethod (target : option TargetMod) : M ModMethod :=
    targetValue <- resolveTarget target ;; ret (rerollOnceRolls this targetValue).

Definition getModMethod (mod_ : ModType) : M ModMethod :=
    let lookup := fun roll : DieRollBase => Js.ofZ (Roll.roll roll) in
    match mod_ with
    | SuccessFailureCritModType success_k m expr => getSuccessMethod m expr lookup
    | SuccessFailureCritModType failure_k m expr => getFailureMethod m expr lookup
    | SuccessFailureCritModType crit_k m expr => getCritSuccessMethod m expr lookup
    | SuccessFailureCritModType critfail_k m expr => getCritFailureMethod m expr lookup
    | KeepDropModType keep_k highlow expr =>
      method <- getKeepMethod highlow expr lookup ;;
      ret (fun rolls => kept <- method rolls ;; ret (sortByOrder kept))
    | KeepDropModType drop_k highlow expr =>
      method <- getDropMethod highlow expr lookup ;;
      ret (fun rolls => dropped <- method rolls ;; ret (sortByOrder dropped))
    | ReRollMod explode_k target => getExplodeMethod target
    | ReRollMod compound_k target => getCompoundMethod target
    | ReRollMod penetrate_k target => getPenetrateMethod target
    | ReRollMod reroll_k target => getReRollMethod target
    | ReRollMod rerollOnce_k target => getReRollOnceMethod target
    | OtherMod t => throw (ModNotRecognised t)
    end.

Definition applyMod (rolls : list DieRollBase) (mod_ : ModType)
    : M (list DieRollBase) :=
    method <- getModMethod mod_ ;; method rolls.

Definition getGroupModMethod {T} `{RollLike T} (mod_ : ModType)
    : M (list T -> M (list T)) :=
    let lookup := fun roll : T => value (getBase roll) in
    match mod_ with
    | SuccessFailureCritModType success_k m expr => getSuccessMethod m expr lookup
    | SuccessFailureCritModType failure_k m expr => getFailureMethod m expr lookup
    | KeepDropModType keep_k highlow expr => getKeepMethod highlow expr lookup
    | KeepDropModType drop_k highlow expr => getDropMethod highlow expr lookup
    | _ => throw (ModNotRecognised (modTypeName mod_))
    end.

Definition applyGroupMod {T} `{RollLike T} (rolls : list T) (mod_ : ModType)
    : M (list T) :=
    method <- getGroupModMethod mod_ ;; method rolls.

(** [applyGroupMods] of [rollGroup].  The entries carry their position
    in [dice] so that the array given and the entries it holds can be
    read back after the modifiers have run. *)
Definition applyGroupMods {T} `{RollLike T} (mods : list ModType) (dice : list T)
    : M (GroupModsResult T) :=
    let hasTarget := existsb isTargetMod mods in
    let ids := seq 0 (List.length dice) in
    '(arr, (_, inputOrder)) <-
    async_reduce mods
      (fun '(arr, (same, inputOrder)) mod_ _ =>
         arr' <- applyGroupMod arr mod_ ;;
         let same' := same && sortsInPlace mod_ in
         ret (arr', (same', if same' then map fst arr' else inputOrder)))
      (tagged dice, (true, ids)) ;;
    let final :=
    if hasTarget
    then map (updBase (fun c =>
                let v := successes c - failures c in
                set_success (Some (0 <? v)%Z) (set_value (Js.ofZ v) c))) arr
    else arr in
    ret {| gm_dice := map snd final;
         gm_inputArray := flat_map (entryOf final) inputOrder;
         gm_entries := flat_map (entryOf final) ids;
         gm_hasTarget := hasTarget;
         gm_successes :=
           if hasTarget
           then fold_left (fun n die => n + successes (getBase die)) arr 0
           else 0;
         gm_failures :=
           if hasTarget
           then fold_left (fun n die => n + failures (getBase die)) arr 0
           else 0 |}.

Definition groupResult (rolls : list RollBase) (hasTarget : bool)
    (successes failures : Z) : RollBase :=
    let value := sumValid rolls in
    GroupRoll (newCommon value (if hasTarget then Some (Js.lt 0%Q value) else None)
                       successes failures) rolls.

Definition rollGroup (rolls : list RootType) (mods : option (list ModType))
    : M RollBase :=
    rolls <- async_map rolls
             (fun roll order =>
                r <- rollType roll ;; ret (upd_common (set_order order) r)) ;;
    match mods with
    | None => ret (groupResult rolls false 0 0)
    | Some mods =>
      let whole :=
        res <- applyGroupMods mods rolls ;;
        ret (groupResult (gm_dice res) (gm_hasTarget res)
                         (gm_successes res) (gm_failures res)) in
      match rolls with
      | [roll] =>
          match roll with
          | DiceRollResult c n d rs m =>
              res <- applyGroupMods mods rs ;;
              let roll := DiceRollResult (set_value (sumValid (gm_dice res)) c)
                                         n d (gm_inputArray res) m in
              ret (groupResult [roll] (gm_hasTarget res)
                               (gm_successes res) (gm_failures res))
          | DiceExpressionRoll c ds os =>
              dice <- expressionPool ds ;;
              res <- applyGroupMods mods dice ;;
              let roll := DiceExpressionRoll (set_value (sumValid (gm_dice res)) c)
                                             (restoreDice ds (gm_entries res)) os in
              ret (groupResult [roll] (gm_hasTarget res)
                               (gm_successes res) (gm_failures res))
          | _ => whole
          end
      | _ => whole
      end
    end.

(** The part of [rollDie] that follows the modifiers: [input.targets]. *)
Definition scoreRoll (roll : DieRollBase) : DieRollBase :=
    upd_base (fun c => let v := successes c - failures c in
                     set_success (Some (0 <? v)%Z) (set_value (Js.ofZ v) c)) roll.

Definition matchTest (match_ : MatchModType) (val : Z) : M bool :=
    match match_ with
    | mkMatch _ _ (Some m) (Some expr) =>
      if truthy (Some m) then
        r <- rollType expr ;;
        ret (successTest m (value (common r)) (Js.ofZ val))
      else ret true
    | _ => ret true
    end.

Definition rollDie (count die : RootType)
    (mods targets : option (list ModType)) (match_ : option MatchModType)
    (sort : option SortRollType) : M RollBase :=
    count <- rollType count ;;
    if Js.lt (maxRollCount this) (value (common count))
    then throw TooManyDice
    else
    '(die, rolls) <-
      match die with
      | FateExpr _ =>
          rolls <- arrayFrom (Js.toLength (value (common count)))
                             (fun i => generateFateRoll this i) ;;
          ret (FateMarker {| value := 0%Q; valid := false; success := None;
                             successes := 0; failures := 0; order := 0;
                             label := None; drop := false |}, rolls)
      | _ =>
          die <- rollType die ;;
          rolls <- arrayFrom (Js.toLength (value (common count)))
                             (fun i => generateDiceRoll this (value (common die)) i) ;;
          ret (die, rolls)
      end ;;
    rolls <- match mods with
             | Some mods =>
                 async_reduce mods
                   (fun moddedRolls mod_ _ => applyMod moddedRolls mod_) rolls
             | None => ret rolls
             end ;;
    '(rolls, successes, failures) <-
      match targets with
      | Some targets =>
          rolls <- async_reduce targets
                     (fun moddedRolls target _ => applyMod moddedRolls target)
                     rolls ;;
          ret (map scoreRoll rolls,
               fold_left (fun n roll => n + Roll.successes (base roll)) rolls 0,
               fold_left (fun n roll => n + Roll.failures (base roll)) rolls 0)
      | None => ret (rolls, 0, 0)
      end ;;
    '(rolls, matched, matchCount) <-
      match match_ with
      | Some (mkMatch min count m expr as match_) =>
          let counts :=
            fold_left (fun map roll => countRoll map (Roll.roll roll)) rolls [] in
          entries <-
            async_filter
              (filter (fun e => Js.le min (Js.ofZ (snd e))) counts)
              (fun e _ => matchTest match_ (fst e)) ;;
          let matches := map fst entries in
          let rolls := map (markMatched matches) rolls in
          ret (rolls, count, if count then Z.of_nat (List.length matches) else 0)
      | None => ret (rolls, false, 0)
      end ;;
    let rolls := match sort with
                 | Some sort => applySort rolls sort
                 | None => rolls
                 end in
    let value := sumValid rolls in
    ret (DiceRollResult
           (newCommon (if matched then Js.ofZ matchCount else value)
                      (match targets with
                       | Some _ => Some (Js.lt 0%Q value)
                       | None => None
                       end) successes failures)
           count die rolls matched).

(** [rollDiceExpr]: the fold keeps the running value with [rolls] and
    [ops], the two arrays the callback pushes to. *)
Definition rollDiceExpr (head : RootType) (ops : list MathType) : M RollBase :=
    headRoll <- rollType head ;;
    '(value, (rolls, ops)) <-
    async_reduce ops
      (fun '(headValue, (rolls, ops)) math order =>
         match math with
         | mkMath op tail =>
             tailRoll <- rollType tail ;;
             let tailRoll := upd_common (set_order order) tailRoll in
             let tailValue := Roll.value (common tailRoll) in
             ret (if op =? "+" then (headValue + tailValue)%Q
                  else if op =? "-" then (headValue - tailValue)%Q
                  else headValue,
                  (rolls ++ [tailRoll], ops ++ [op])%list)
         end)
      (Roll.value (common headRoll), ([headRoll], [])) ;;
    ret (DiceExpressionRoll (newCommon value None 0 0) rolls ops).

Definition rollExpression (head : RootType) (ops : list MathType) : M RollBase :=
    headRoll <- rollType head ;;
    '(value, (rolls, ops)) <-
    async_reduce ops
      (fun '(headValue, (rolls, ops)) math _ =>
         match math with
         | mkMath op tail =>
             tailRoll <- rollType tail ;;
             let tailValue := Roll.value (common tailRoll) in
             v <- (if op =? "+" then ret (headValue + tailValue)%Q
                   else if op =? "-" then ret (headValue - tailValue)%Q
                   else if op =? "*" then ret (headValue * tailValue)%Q
                   else if op =? "/" then liftOption (Js.div headValue tailValue)
                   else if op =? "%" then liftOption (Js.rem headValue tailValue)
                   else if op =? "**" then liftOption (Js.pow headValue tailValue)
                   else ret headValue) ;;
             ret (v, (rolls ++ [tailRoll], ops ++ [op])%list)
         end)
      (Roll.value (common headRoll), ([headRoll], [])) ;;
    ret (ExpressionRoll (newCommon value None 0 0) rolls ops).

(** [doReplacement].  The resolver is asked when [this.cached[called]] is
    falsy, that is for a name that is neither stored nor inherited. *)
Definition doReplacement (called : string) (expr : RootType) : M RollBase :=
    roll <- rollType expr ;;
    hit <- getCached called ;;
    replaceFunction <-
    match hit with
    | Stored f => ret f
    | Inherited => callInherited called
    | Absent =>
        match replacementFunctions this called with
        | Some f => _ <- setCached called f ;; ret f
        | None => throw (ResolverRejected called)
        end
    end ;;
    let value := replaceFunction (Roll.value (common roll)) in
    ret (ReplacementRoll (newCommon value (Some true) 0 0) called roll).

Definition rollFunction (op : string) (expr : RootType) : M RollBase :=
    expr <- rollType expr ;;
    let v := Roll.value (common expr) in
    let value :=
    if op =? "floor" then Js.floor v
    else if op =? "ceil" then Js.ceil v
    else if op =? "round" then Js.round v
    else if op =? "abs" then Js.abs v
    else v in
    ret (MathFunctionRoll (newCommon value None 0 0) expr op).

End Methods.

(** [rollType]: the switch on [input.type], then the label. *)
Fixpoint rollType (input : RootType) : M RollBase :=
  response <-
    match input with
    | RollExpressionType head ops _ => rollDiceExpr rollType head ops
    | GroupedRoll rolls mods _ => rollGroup rollType rolls mods
    | FullRoll count die mods targets match_ sort _ =>
        rollDie rollType count die mods targets match_ sort
    | MathExpression head ops _ => rollExpression rollType head ops
    | MathFunctionExpression op expr _ => rollFunction rollType op expr
    | CustomReplacementExpression called expr _ => doReplacement rollType called expr
    | InlineExpression expr _ => rollType expr
    | NumberType value label =>
        ret (NumberRoll {| value := value; valid := true; success := None;
                           successes := 0; failures := 0; order := 0;
                           label := label; drop := false |})
    | FateExpr _ => throw (UnableToRender "fate")
    | OtherType type _ => throw (UnableToRender type)
    end ;;
  ret (if truthy (label_of input)
       then upd_common (set_label (label_of input)) response
       else response).

(** [rollParsed] *)
Definition rollParsed (parsed : RootType) : M RollBase := rollType parsed.

End Evaluator.

(** ** Rollers and parsed rolls used in the examples *)

Definition start : State := mkState 0 [].

(** [new DiceRoller(samples)]: the default resolver (the identity
    transform for every name) and the default limit of 1000 rolls. *)
Definition rollerOf (samples : nat -> number) : DiceRoller :=
  {| randFunction := samples;
     replacementFunctions := fun _ => Some (fun x => x);
     maxRollCount := 1000%Q |}.

Definition lit (z : Z) : RootType := NumberType (inject_Z z) None.

(** [count]d[faces] with the modifiers [mods]. *)
Definition dice (count faces : Z) (mods : option (list ModType)) : RootType :=
  FullRoll (lit count) (lit faces) mods None None None None.

(** ** Notions used to state the properties *)

(** The function [doReplacement] applies for the name [called] in the state
    [s]: the one stored in [this.cached], or else, for a name that
    [this.cached] does not inherit, the one the resolver returns. *)
Definition resolved (this : DiceRoller) (called : string) (s : State)
  : option (number -> number) :=
  match find (fun p => fst p =? called) (cached s) with
  | Some p => Some (snd p)
  | None => if inherited called then None else replacementFunctions this called
  end.

(** A parsed roll on which no success or failure target is applied: a die
    without [targets], a group whose modifiers are neither ["success"] nor
    ["failure"], and any other node. *)
Definition withoutTarget (input : RootType) : bool :=
  match input with
  | FullRoll _ _ _ targets _ _ _ =>
      match targets with None => true | Some _ => false end
  | GroupedRoll _ mods _ =>
      match mods with None => true | Some ms => negb (existsb isTargetMod ms) end
  | _ => true
  end.

(** The node that a node under Inline nodes stands for. *)
Fixpoint unwrapInline (input : RootType) : RootType :=
  match input with
  | InlineExpression expr _ => unwrapInline expr
  | _ => input
  end.

(** [[[double(3)]]]: an Inline node around a Replacement. *)
Definition inlineDouble : RootType :=
  InlineExpression (CustomReplacementExpression "double" (lit 3) None) None.

(** The resolver of this roller doubles, whatever the name. *)
Definition doublingRoller : DiceRoller :=
  {| randFunction := fun _ => 0%Q;
     replacementFunctions := fun _ => Some (fun x => (2 * x)%Q);
     maxRollCount := 1000%Q |}.

(** The children of an aggregate result: the rolled dice of a ["die"], the
    [dice] of a group or of an expression. *)
Definition children (r : RollBase) : list RollBase :=
  match r with
  | DiceRollResult _ _ _ rolls _ => map DieRollLeaf rolls
  | DiceExpressionRoll _ dice _ | GroupRoll _ dice | ExpressionRoll _ dice _ => dice
  | _ => []
  end.

Definition sumQ (l : list number) : number := fold_right Qplus 0%Q l.

(** "The sum of [value] over its children that have [valid = true]". *)
Definition sumOfValidChildren (r : RollBase) : number :=
  sumQ (map (fun c => value (common c)) (filter (fun c => valid (common c)) (children r))).

(** "The flattened pool of that member's individual die-outcome entries
    (recursing through nested Dice-Expression children and skipping plain
    Number children)", as C8 words it.  The wording leaves the other kinds
    of children open; they are kept as they are. *)
Fixpoint dieOutcomes (r : RollBase) : list RollBase :=
  match r with
  | DiceRollResult _ _ _ rolls _ => map DieRollLeaf rolls
  | DiceExpressionRoll _ dice _ => flat_map dieOutcomes dice
  | NumberRoll _ => []
  | other => [other]
  end.

(** The keep modifier of a group for the count [k] ([mod.expr] already
    evaluated): [getKeepMethod(mod, (roll) => roll.value)]. *)
Definition groupKeep (highlow : option string) (k : number) (rolls : list RollBase)
  : list RollBase :=
  keepRolls highlow (fun roll => value (common roll)) k rolls.

Definition keepHighest (k : Z) : ModType :=
  KeepDropModType keep_k (Some "h") (lit k).

(** What [reRoll] returns for the sample [r]. *)
Definition rollAgain (roll : DieRollBase) (order : Z) (r : number) : DieRollBase :=
  match type roll with
  | roll_t die _ => dieRollOf die order r
  | fateroll_t => fateRollOf order r
  end.

(** A property of rolled dice that no modifier breaks: it holds of a die
    rolled again from one that has it, and it does not depend on the fields
    the modifiers write ([matched], which only [rollDie] writes, is not one
    of them). *)
Record Preserved (P : DieRollBase -> Prop) : Prop := {
  pres_again : forall x order r, P x -> P (rollAgain x order r);
  pres_base : forall f x, P x -> P (upd_base f x);
  pres_explode : forall b x, P x -> P (set_explode b x);
  pres_reroll : forall b x, P x -> P (set_reroll b x);
  pres_roll : forall n x, P x -> P (set_roll n x);
  pres_critical : forall c x, P x -> P (set_critical c x)
}.

(** The distinct faces of the rolls flagged [matched]. *)
Definition matchedFaces (rolls : list DieRollBase) : list Z :=
  nodup Z.eq_dec (map roll (filter matched rolls)).

Definition sumZ (l : list Z) : Z := fold_right Z.add 0 l.

(** The operators of [rollDiceExpr] and of [rollExpression]. *)
Definition diceOp (op : string) (a b : number) : option number :=
  if op =? "+" then Some (a + b)%Q
  else if op =? "-" then Some (a - b)%Q
  else Some a.

Definition mathOp (op : string) (a b : number) : option number :=
  if op =? "+" then Some (a + b)%Q
  else if op =? "-" then Some (a - b)%Q
  else if op =? "*" then Some (a * b)%Q
  else if op =? "/" then Js.div a b
  else if op =? "%" then Js.rem a b
  else if op =? "**" then Js.pow a b
  else Some a.

(** The operators applied from left to right, starting from [acc]. *)
Fixpoint foldOps (apply : string -> number -> number -> option number)
    (acc : number) (ops : list string) (vals : list number) : option number :=
  match ops, vals with
  | [], [] => Some acc
  | op :: ops', v :: vals' =>
      match apply op acc v with
      | Some acc' => foldOps apply acc' ops' vals'
      | None => None
      end
  | _, _ => None
  end.

Definition foldDice (apply : string -> number -> number -> option number)
    (dice : list RollBase) (ops : list string) : option number :=
  match dice with
  | [] => None
  | head :: tails =>
      foldOps apply (value (common head)) ops (map (fun r => value (common r)) tails)
  end.

(** The value of [e] is its successes less its failures. *)
Definition scored (e : RollCommon) : Prop :=
  value e = Js.ofZ (successes e - failures e).

(** What holds of a result with the fields [c] whose targets were applied
    to [entries]. *)
Definition targetRule (c : RollCommon) (entries : list RollCommon) : Prop :=
  Forall scored entries /\
  successes c = sumZ (map successes entries) /\
  failures c = sumZ (map failures entries) /\
  (Forall (fun e => valid e = true) entries ->
   (value c == Js.ofZ (successes c - failures c))%Q).

(** What holds of a Group with the fields [c] and the members [dice] to
    which a target was applied.  The target was applied to the members, or,
    when the only member is a Die result, to its rolls; nothing is said
    when the only member is a Dice-Expression. *)
Definition groupTargetRule (c : RollCommon) (dice : list RollBase) : Prop :=
  match dice with
  | [DiceExpressionRoll _ _ _] => True
  | [DiceRollResult _ _ _ rolls _] => targetRule c (map base rolls)
  | _ => targetRule c (map common dice)
  end.

(** What holds of the value of an aggregate result (C4 as amended). *)
Definition aggregateRule (r : RollBase) : Prop :=
  match r with
  | DiceRollResult c _ _ rolls matched =>
      (if matched
       then value c = Js.ofNat (List.length (matchedFaces rolls))
       else (value c == sumOfValidChildren r)%Q) /\
      (success c <> None ->
       Forall (fun x => value (base x)
                        = Js.ofZ (successes (base x) - failures (base x))) rolls /\
       successes c = sumZ (map (fun x => successes (base x)) rolls) /\
       failures c = sumZ (map (fun x => failures (base x)) rolls) /\
       (matched = false ->
        Forall (fun x => valid (base x) = true) rolls ->
        (value c == Js.ofZ (successes c - failures c))%Q))
  | GroupRoll c dice =>
      (value c == sumOfValidChildren r)%Q /\
      (success c <> None -> groupTargetRule c dice)
  | DiceExpressionRoll c dice ops =>
      Forall (fun x => valid (common x) = true) dice /\
      foldDice diceOp dice ops = Some (value c) /\
      (Forall (fun op => op = "+") ops -> (value c == sumOfValidChildren r)%Q)
  | ExpressionRoll c dice ops =>
      Forall (fun x => valid (common x) = true) dice /\
      foldDice mathOp dice ops = Some (value c) /\
      (Forall (fun op => op = "+") ops -> (value c == sumOfValidChildren r)%Q)
  | _ => True
  end.

Definition opOf (math : MathType) : string :=
  match math with mkMath op _ => op end.

(** [{2, 1}>1]: a group of two members with a success target. *)
Definition twoMembersAtLeastOne : RootType :=
  GroupedRoll [lit 2; lit 1]
              (Some [SuccessFailureCritModType success_k ">" (lit 1)]) None.

(** [(1d6 + 9) + 1d6]: a dice expression whose head is a dice expression. *)
Definition nestedExpression : RootType :=
  RollExpressionType
    (RollExpressionType (dice 1 6 None) [mkMath "+" (lit 9)] None)
    [mkMath "+" (dice 1 6 None)] None.

(** The first sample gives the face 2 on a die of 6, the others the face 6. *)
Definition lowThenHigh : DiceRoller :=
  rollerOf (fun n => match n with O => 1 # 10 | _ => 8 # 10 end).

(** [n] is a die rolled again from [r]: what [reRoll] builds from [r], at
    some position and for some sample. *)
Definition Fresh (r n : DieRollBase) : Prop :=
  exists order sample, n = rollAgain r order sample.

(** The face of [r] passes the target of a reroll. *)
Definition rerollMatches (target : option (string * number)) (r : DieRollBase) : bool :=
  rerollTarget target (Js.ofZ (roll r)).

(** Reroll-once, as C6 words it: an entry that matches is marked and is
    followed by exactly one new roll, which is left as rolled whatever its
    face; the other entries are left as they are. *)
Inductive RerolledOnce (target : option (string * number))
  : list DieRollBase -> list DieRollBase -> Prop :=
| once_nil : RerolledOnce target [] []
| once_keep r rolls out :
    rerollMatches target r = false ->
    RerolledOnce target rolls out ->
    RerolledOnce target (r :: rolls) (r :: out)
| once_replace r n rolls out :
    rerollMatches target r = true ->
    Fresh r n ->
    RerolledOnce target rolls out ->
    RerolledOnce target (r :: rolls) (markRerolled r :: n :: out).

(** Plain reroll: an entry is followed by its replacements; each of them
    but the last matches and is marked, the last does not match. *)
Inductive RerollChain (target : option (string * number))
  : DieRollBase -> list DieRollBase -> Prop :=
| chain_stop r :
    rerollMatches target r = false ->
    RerollChain target r [r]
| chain_next r n rest :
    rerollMatches target r = true ->
    Fresh r n ->
    RerollChain target n rest ->
    RerollChain target r (markRerolled r :: rest).

Inductive Rerolled (target : option (string * number))
  : list DieRollBase -> list DieRollBase -> Prop :=
| rerolled_nil : Rerolled target [] []
| rerolled_cons r rolls chain out :
    RerollChain target r chain ->
    Rerolled target rolls out ->
    Rerolled target (r :: rolls) (chain ++ out).

(** A source with [k] samples that roll a 1 on a die, then samples that
    roll a 4 on a die of 6. *)
Definition onesThenFour (k : nat) : DiceRoller :=
  rollerOf (fun i => if (i <? k)%nat then 0%Q else 1 # 2).

Definition oneOfSix : DieRollBase := dieRollOf (inject_Z 6) 0 0%Q.

(** The double nearest to 0.3 ([0x1.3333333333333p-2]), and a source that
    returns it every time. *)
Definition threeTenths : number := (5404319552844595 # 18014398509481984)%Q.

Definition alwaysThreeTenths : DiceRoller := rollerOf (fun _ => threeTenths).

(** What keep and drop do to an entry they discard. *)
Definition dropped {T} `{RollLike T} (x : T) : T :=
  updBase (fun c => set_drop true (set_valid false c)) x.

(** [y] is [x], as it was or discarded. *)
Definition KeptOrDropped {T} `{RollLike T} (x y : T) : Prop :=
  y = x \/ y = dropped x.

(** The face of a rolled die, the [lookup] of [getModMethod]. *)
Definition face (roll : DieRollBase) : number := Js.ofZ (Roll.roll roll).

(** The keep modifier of a die for the count [k] ([mod.expr] already
    evaluated): the function [getModMethod] returns for ["keep"]. *)
Definition dieKeep (highlow : option string) (k : number) (rolls : list DieRollBase)
  : list DieRollBase :=
  sortByOrder (keepRolls highlow face k rolls).

(** ** Notions and examples that the properties are stated with *)

(** The rolls 4, 1 and 6 of a die of 6. *)
Definition threeRolls : list DieRollBase :=
  [dieRollOf (inject_Z 6) 0 (1 # 2); dieRollOf (inject_Z 6) 1 0;
   dieRollOf (inject_Z 6) 2 (3 # 4)].

(** [y] is [x] as it was, or [x] discarded when it was valid. *)
Definition KeptOrNewlyDropped {T} `{RollLike T} (x y : T) : Prop :=
  y = x \/ (valid (getBase x) = true /\ y = dropped x).

(** A roll of 1 that has been rerolled, then the rolls 4 and 6. *)
Definition rerolledThenTwo : list DieRollBase :=
  [markRerolled (dieRollOf (inject_Z 6) 0 0); dieRollOf (inject_Z 6) 1 (1 # 2);
   dieRollOf (inject_Z 6) 2 (3 # 4)].

(** [rolls] with one less in the [value] of every roll that follows an
    exploded roll, and of the first one when [after] is set; the faces
    ([roll]) are left as they are. *)
Fixpoint lessOneAfterExplode (after : bool) (rolls : list DieRollBase)
  : list DieRollBase :=
  match rolls with
  | [] => []
  | r :: rest =>
      (if after then penetrated r else r) :: lessOneAfterExplode (explode r) rest
  end.

(** The die an entry was rolled with: the number of faces of a ["roll"],
    nothing for a ["fateroll"]. *)
Definition dieOf (x : DieRollBase) : option number :=
  match type x with
  | roll_t die _ => Some die
  | fateroll_t => None
  end.

(** The first sample rolls a 6 on a die of 6, the others a 1. *)
Definition sixThenOnes : DiceRoller :=
  rollerOf (fun n => match n with O => 5 # 6 | _ => 0%Q end).

(** A roll of 6 on a die of 6. *)
Definition aSix : DieRollBase := dieRollOf (inject_Z 6) 0 (5 # 6).

(** The samples roll 4, 1 and then 6 on a die of 6. *)
Definition fourOneSix : DiceRoller :=
  rollerOf (fun n => match n with O => 1 # 2 | 1%nat => 0%Q | _ => 3 # 4 end).

(** [3d6>4] *)
Definition threeD6AtLeast4 : RootType :=
  FullRoll (lit 3) (lit 6) None
    (Some [SuccessFailureCritModType success_k ">" (NumberType 4%Q None)])
    None None None.

(** [map.get(key) || 0] *)
Definition countOf (m : list (Z * Z)) (key : Z) : Z :=
  match find (fun e => (fst e =? key)%Z) m with
  | Some e => snd e
  | None => 0
  end.

(** The samples roll 4, 1, 4 and then 6 on a die of 6. *)
Definition fourOneFourSix : DiceRoller :=
  rollerOf (fun n => match n with
                     | O => 1 # 2 | 1%nat => 0%Q | 2%nat => 1 # 2 | _ => 3 # 4
                     end).

(** [4d6] with a match of at least two equal faces, counted. *)
Definition fourD6Matched : RootType :=
  FullRoll (lit 4) (lit 6) None None (Some (mkMatch 2%Q true None None)) None None.

(** [3d6>4f1] *)
Definition threeD6AtLeast4Fail1 : RootType :=
  FullRoll (lit 3) (lit 6) None
    (Some [SuccessFailureCritModType success_k ">" (NumberType 4%Q None);
           SuccessFailureCritModType failure_k "=" (NumberType 1%Q None)])
    None None None.

(** The critical that [generateDiceRoll] gives a roll of the face and die
    of [x]. *)
Definition naturalCritical (x : DieRollBase) : option CriticalType :=
  match type x with
  | roll_t die _ =>
      if Js.eq (Js.ofZ (roll x)) die then Some crit_success
      else if (roll x =? 1)%Z then Some crit_failure
      else None
  | fateroll_t => None
  end.

(** [3d6cs>4] *)
Definition threeD6CritAbove4 : RootType :=
  FullRoll (lit 3) (lit 6)
    (Some [SuccessFailureCritModType crit_k ">" (NumberType 4%Q None)])
    None None None None.

(** What it is for [P] to hold of the parsed rolls inside a target, a
    modifier, a list of modifiers, a match and an operand. *)

Section RootTypeShape.
Variable P : RootType -> Prop.

Definition onTarget (t : option TargetMod) : Prop :=
  match t with Some (mkTarget _ v) => P v | None => True end.

Definition onMod (m : ModType) : Prop :=
  match m with
  | SuccessFailureCritModType _ _ e => P e
  | KeepDropModType _ _ e => P e
  | ReRollMod _ t => onTarget t
  | OtherMod _ => True
  end.

Definition onMods (ms : option (list ModType)) : Prop :=
  match ms with Some l => Forall onMod l | None => True end.

Definition onMatch (m : option MatchModType) : Prop :=
  match m with Some (mkMatch _ _ _ (Some e)) => P e | _ => True end.

Definition onMath (m : MathType) : Prop :=
  match m with mkMath _ tail => P tail end.

End RootTypeShape.

(** [this.cached[called]] in the state [s]. *)
Definition cachedFor (called : string) (s : State) : option (number -> number) :=
  option_map snd (find (fun p => fst p =? called) (cached s)).

(** From [s] to [s'] the random source only advanced, every function that
    was cached still is, and every function that is cached now was cached
    before or is what the resolver answers for its name. *)
Record StateGrows (this : DiceRoller) (s s' : State) : Prop := {
  grows_drawn : (drawn s <= drawn s')%nat;
  grows_kept : forall called f,
      cachedFor called s = Some f -> cachedFor called s' = Some f;
  grows_new : forall called f,
      cachedFor called s' = Some f ->
      cachedFor called s = Some f \/ replacementFunctions this called = Some f
}.

(** A computation that, when it returns, has only let the state grow. *)
Definition Grows (this : DiceRoller) {A} (m : M A) : Prop :=
  forall s a s', m s = Ok a s' -> StateGrows this s s'.

(** A computation that returns a method: it lets the state grow, and so
    does the method it returns on any rolls. *)
Definition GrowsMethod (this : DiceRoller) {T} (m : M (list T -> M (list T))) : Prop :=
  forall s method s',
    m s = Ok method s' ->
    StateGrows this s s' /\ forall rolls, Grows this (method rolls).

(** A roller whose resolver rejects every name. *)
Definition rejectingRoller : DiceRoller :=
  {| randFunction := fun _ => 0%Q;
     replacementFunctions := fun _ => None;
     maxRollCount := 1000%Q |}.

(** The elements of an array, each with its index. *)
Definition indexedFrom {T} (index : Z) (array : list T) : list (T * Z) :=
  combine array (map (fun k => index + Z.of_nat k) (seq 0 (List.length array))).

Definition indexed {T} (array : list T) : list (T * Z) := indexedFrom 0 array.

(** ** DiscordRollRenderer *)

Inductive RenderError :=
| UnableToRenderRoll
| RenderTypeError (what : string).

(** What a render method does: it returns a string or throws.
    [RenderUndefined] stands for the [undefined] that [renderGroupExpr]
    returns for a dice expression without dice, which [DiceRoller] never
    builds; what the callers do with it is not represented. *)
Inductive Rendering (A : Type) :=
| Rendered (a : A)
| RenderThrows (e : RenderError)
| RenderUndefined.
Arguments Rendered {A} a.
Arguments RenderThrows {A} e.
Arguments RenderUndefined {A}.

Definition andThen {A B} (r : Rendering A) (k : A -> Rendering B) : Rendering B :=
  match r with
  | Rendered a => k a
  | RenderThrows e => RenderThrows e
  | RenderUndefined => RenderUndefined
  end.

Definition isTilde (c : ascii) : bool := Ascii.eqb c "~".

(** [render.replace(/~~/g, "")]: the matches are found from left to right
    and do not overlap. *)
Fixpoint removeStrikes (s : string) : string :=
  match s with
  | EmptyString => EmptyString
  | String c t =>
      match t with
      | EmptyString => String c EmptyString
      | String c' rest =>
          if isTilde c && isTilde c' then removeStrikes rest
          else String c (removeStrikes t)
      end
  end.

(** [replies.join(sep)] *)
Definition join (sep : string) (replies : list string) : string :=
  String.concat sep replies.

Section Renderer.
(** The string of a number, as a template literal or [+ ""] gives it. *)
Variable show : number -> string.

Definition labelled (c : RollCommon) : bool := truthy (label c).

Definition labelText (c : RollCommon) : string :=
  match label c with Some l => l | None => "" end.

(** [renderRoll] *)
Definition renderRoll (roll : DieRollBase) : string :=
  let face := show (Js.ofZ (Roll.roll roll)) in
  let rollDisplay :=
    if negb (valid (base roll)) then "~~" ++ face ++ "~~"
    else if isTrue (success (base roll)) && Js.eq (value (base roll)) 1%Q
         then "**" ++ face ++ "**"
    else if isTrue (success (base roll)) && Js.eq (value (base roll)) (-1)%Q
         then "*" ++ face ++ "*"
    else face in
  let rollDisplay := if matched roll then "__" ++ rollDisplay ++ "__" else rollDisplay in
  if labelled (base roll) then " (" ++ rollDisplay ++ ")" else rollDisplay.

(** [renderFateRoll] *)
Definition renderFateRoll (roll : DieRollBase) : string :=
  let rollValue :=
    if (Roll.roll roll =? 0)%Z then "0"
    else if (0 <? Roll.roll roll)%Z then "+" else "-" in
  let rollDisplay :=
    if negb (valid (base roll)) then "~~" ++ rollValue ++ "~~"
    else if isTrue (success (base roll)) && Js.eq (value (base roll)) 1%Q
         then "**" ++ rollValue ++ "**"
    else if isTrue (success (base roll)) && Js.eq (value (base roll)) (-1)%Q
         then "*" ++ rollValue ++ "*"
    else show (Js.ofZ (Roll.roll roll)) in
  let rollDisplay := if matched roll then "__" ++ rollDisplay ++ "__" else rollDisplay in
  if labelled (base roll) then " (" ++ rollDisplay ++ ")" else rollDisplay.

(** [doRender] of one rolled die: the cases ["roll"] and ["fateroll"]. *)
Definition renderLeaf (roll : DieRollBase) : string :=
  match type roll with
  | roll_t _ _ => renderRoll roll
  | fateroll_t => renderFateRoll roll
  end.

(** What follows the [switch] of [doRender]. *)
Definition finish (c : RollCommon) (root : bool) (render : string) : string :=
  let render :=
    if negb (valid c) then "~~" ++ removeStrikes render ++ "~~" else render in
  if root then render
  else if labelled c then "(" ++ labelText c ++ ": " ++ render ++ ")"
       else "(" ++ render ++ ")".

(** The pushes of [renderExpression] when there are several dice. *)
Fixpoint interleave (replies ops : list string) : list string :=
  match replies with
  | [] => []
  | [last] => [last]
  | reply :: rest => reply :: hd "" ops :: interleave rest (tl ops)
  end.

Definition isNumberOrFate (r : RollBase) : bool :=
  match r with NumberRoll _ | FateMarker _ => true | _ => false end.

Fixpoint doRender (roll : RollBase) (root : bool) : Rendering string :=
  let renderAll :=
    fix renderAll (dice : list RollBase) : Rendering (list string) :=
      match dice with
      | [] => Rendered []
      | die :: rest =>
          andThen (doRender die false) (fun reply =>
          andThen (renderAll rest) (fun replies =>
          Rendered (reply :: replies)))
      end in
  match roll with
  | DiceExpressionRoll c dice _ =>
      (* renderGroupExpr *)
      andThen (renderAll dice) (fun replies =>
      match replies with
      | [] => RenderUndefined
      | [reply] => Rendered (finish c root reply)
      | _ => Rendered (finish c root
                         ("(" ++ join " + " replies ++ ") = " ++ show (value c)))
      end)
  | GroupRoll c dice =>
      (* renderGroup *)
      andThen (renderAll dice) (fun replies =>
      Rendered (finish c root ("{ " ++ join " + " replies ++ " } = " ++ show (value c))))
  | DiceRollResult c count die rolls matched =>
      (* renderDie *)
      let reply := "(" ++ join ", " (map renderLeaf rolls) ++ ")" in
      andThen
        (if negb (isNumberOrFate die) || negb (isNumberRoll count)
         then andThen (doRender count false) (fun n =>
              andThen (doRender die false) (fun d =>
              Rendered (reply ++ "[*Rolling: " ++ n ++ "d" ++ d ++ "*]")))
         else Rendered reply)
        (fun reply =>
           Rendered (finish c root
                       (reply ++ " = " ++ show (value c)
                        ++ (if matched then " Matches" else ""))))
  | ExpressionRoll c dice ops =>
      (* renderExpression *)
      match dice with
      | [] => RenderThrows (RenderTypeError "expr.dice[0] is undefined")
      | [die] =>
          if isNumberRoll die then Rendered (finish c root (show (value c)))
          else andThen (doRender die false) (fun reply =>
               Rendered (finish c root reply))
      | _ =>
          andThen (renderAll dice) (fun replies =>
          Rendered (finish c root
                      (join " " (interleave replies ops ++ ["="; show (value c)]))))
      end
  | DieRollLeaf r => Rendered (renderLeaf r)
  | NumberRoll c =>
      Rendered (show (value c)
                ++ (if labelled c then " (" ++ labelText c ++ ")" else ""))
  | FateMarker _ => Rendered "F"
  | MathFunctionRoll _ _ _ | ReplacementRoll _ _ _ => RenderThrows UnableToRenderRoll
  end.

(** [render] *)
Definition render (roll : RollBase) : Rendering string := doRender roll true.

End Renderer.

(** ["~~"] occurs in [s]. *)
Fixpoint hasStrike (s : string) : bool :=
  match s with
  | EmptyString => false
  | String c t =>
      match t with
      | EmptyString => false
      | String c' _ => (isTilde c && isTilde c') || hasStrike t
      end
  end.

(** The results [doRender] wraps after its [switch]. *)
Definition isAggregate (r : RollBase) : bool :=
  match r with
  | DiceRollResult _ _ _ _ _ | DiceExpressionRoll _ _ _ | GroupRoll _ _
  | ExpressionRoll _ _ _ => true
  | _ => false
  end.

(** The string of a number that is an integer: its decimal digits. *)
Definition showInt (n : number) : string :=
  NilZero.string_of_int (Z.to_int (Qfloor n)).

(** [{2d6kh1, 20}kh1] *)
Definition groupOfKeptDieAndTwenty : RootType :=
  GroupedRoll [dice 2 6 (Some [keepHighest 1]); lit 20] (Some [keepHighest 1]) None.

(** The samples roll 1 and then 4 on a die of 6. *)
Definition oneThenFour : DiceRoller :=
  rollerOf (fun n => match n with O => 0%Q | _ => 1 # 2 end).

(** A parsed roll that evaluates to a function or a replacement result:
    such a node, possibly inside inline expressions. *)
Fixpoint rollsToFunction (input : RootType) : bool :=
  match input with
  | MathFunctionExpression _ _ _ | CustomReplacementExpression _ _ _ => true
  | InlineExpression expr _ => rollsToFunction expr
  | _ => false
  end.

(** * Properties *)

(** ** The monad *)

Lemma bind_Ok {A B} (m : M A) (k : A -> M B) s b s' :
  bind m k s = Ok b s' ->
  exists a s1, m s = Ok a s1 /\ k a s1 = Ok b s'.
Proof.
  unfold bind. destruct (m s) as [a s1| | |]; try discriminate.
  intros H. exists a, s1. split; [reflexivity | exact H].
Qed.

Lemma bind_Ok_intro {A B} (m : M A) (k : A -> M B) s a s1 :
  m s = Ok a s1 -> bind m k s = k a s1.
Proof. intros H. unfold bind. rewrite H. reflexivity. Qed.

Lemma ret_Ok {A} (a b : A) s s' : ret a s = Ok b s' -> a = b /\ s = s'.
Proof. unfold ret. intros H. injection H as -> ->. split; reflexivity. Qed.

Tactic Notation "bind_inv" hyp(H) "as" simple_intropattern(p) ident(s) ident(E) :=
  apply bind_Ok in H; destruct H as [p [s [E H]]].

Ltac ret_inv H :=
  apply ret_Ok in H; destruct H as [H ?]; subst.

(** ** The success test (C9) *)

(** C9.  The shared success test: under [">"] it holds exactly when the
    value is at least the target, under ["<"] exactly when the value is at
    most the target, and under ["="] or any other comparator exactly when
    the value equals the target.  It is a function of its three arguments
    alone: it takes no roller and no state. *)
Theorem successTest_comparators (target value : number) :
  (successTest ">" target value = true <-> (target <= value)%Q) /\
  (successTest "<" target value = true <-> (value <= target)%Q) /\
  (forall mod_ : string,
      mod_ <> ">" -> mod_ <> "<" ->
      (successTest mod_ target value = true <-> (value == target)%Q)).
Proof.
  split; [| split].
  - unfold successTest, Js.le. simpl. apply Qle_bool_iff.
  - unfold successTest, Js.le. simpl. apply Qle_bool_iff.
  - intros mod_ Hgt Hlt. unfold successTest, Js.eq.
    destruct (String.eqb_spec mod_ ">") as [E|_]; [contradiction|].
    destruct (String.eqb_spec mod_ "<") as [E|_]; [contradiction|].
    apply Qeq_bool_iff.
Qed.

Lemma successTest_comparators_witness :
  successTest "=" 4%Q 4%Q = true /\ successTest "at-least" 4%Q 5%Q = false.
Proof.
  split.
  - apply (proj2 (proj2 (successTest_comparators 4%Q 4%Q)) "=");
      [discriminate | discriminate | reflexivity].
  - destruct (successTest "at-least" 4%Q 5%Q) eqn:E; [| reflexivity].
    apply (proj2 (proj2 (successTest_comparators 4%Q 5%Q)) "at-least") in E;
      [discriminate E | discriminate | discriminate].
Defined.

(** ** The shape of what each method returns *)

Section Shapes.
Variable this : DiceRoller.
Variable fuel : nat.
Variable rt : RootType -> M RollBase.

Lemma rollDie_result count die mods targets match_ sort s r s' :
  rollDie this fuel rt count die mods targets match_ sort s = Ok r s' ->
  exists cnt d rolls successes failures (matched : bool) matchCount,
    r = DiceRollResult
          (newCommon (if matched then Js.ofZ matchCount else sumValid rolls)
                     (match targets with
                      | Some _ => Some (Js.lt 0%Q (sumValid rolls))
                      | None => None
                      end) successes failures)
          cnt d rolls matched.
Proof.
  unfold rollDie. intros H.
  bind_inv H as cnt s1 E1.
  destruct (Js.lt _ _); [discriminate|].
  bind_inv H as [d rolls0] s2 E2.
  bind_inv H as rolls1 s3 E3.
  bind_inv H as [[rolls2 su] fa] s4 E4.
  bind_inv H as [[rolls3 matched] matchCount] s5 E5.
  ret_inv H.
  eexists _, _, _, _, _, _, _. reflexivity.
Qed.

Lemma applyGroupMods_hasTarget {T} `{RollLike T} ms (dice : list T) s res s' :
  applyGroupMods rt ms dice s = Ok res s' ->
  gm_hasTarget res = existsb isTargetMod ms.
Proof.
  unfold applyGroupMods. intros Hm.
  bind_inv Hm as [arr [same io]] s1 E1.
  ret_inv Hm. reflexivity.
Qed.

Lemma rollGroup_result rolls mods s r s' :
  rollGroup rt rolls mods s = Ok r s' ->
  exists dice (hasTarget : bool) successes failures,
    r = groupResult dice hasTarget successes failures /\
    (hasTarget = true ->
     exists ms, mods = Some ms /\ existsb isTargetMod ms = true).
Proof.
  unfold rollGroup. intros H.
  bind_inv H as members s1 E1.
  destruct mods as [ms|].
  - assert (Hwhole :
              forall b s2,
                bind (applyGroupMods rt ms members)
                     (fun res => ret (groupResult (gm_dice res) (gm_hasTarget res)
                                                  (gm_successes res) (gm_failures res)))
                     s1 = Ok b s2 ->
                exists dice (hasTarget : bool) successes failures,
                  b = groupResult dice hasTarget successes failures /\
                  (hasTarget = true ->
                   exists ms', Some ms = Some ms' /\ existsb isTargetMod ms' = true)).
    { intros b s2 Hb. bind_inv Hb as res s3 E3. ret_inv Hb.
      eexists _, _, _, _. split; [reflexivity|].
      intros Ht. exists ms. split; [reflexivity|].
      rewrite <- (applyGroupMods_hasTarget _ _ _ _ _ E3). exact Ht. }
    destruct members as [|roll [|roll2 rest]]; try (apply Hwhole in H; exact H).
    destruct roll; try (apply Hwhole in H; exact H).
    + bind_inv H as res s3 E3. ret_inv H.
      eexists _, _, _, _. split; [reflexivity|].
      intros Ht. exists ms. split; [reflexivity|].
      rewrite <- (applyGroupMods_hasTarget _ _ _ _ _ E3). exact Ht.
    + bind_inv H as pool s3 E3. bind_inv H as res s4 E4. ret_inv H.
      eexists _, _, _, _. split; [reflexivity|].
      intros Ht. exists ms. split; [reflexivity|].
      rewrite <- (applyGroupMods_hasTarget _ _ _ _ _ E4). exact Ht.
  - ret_inv H. eexists _, _, _, _. split; [reflexivity|]. discriminate.
Qed.

Lemma rollDiceExpr_result head ops s r s' :
  rollDiceExpr rt head ops s = Ok r s' ->
  exists value dice ops', r = DiceExpressionRoll (newCommon value None 0 0) dice ops'.
Proof.
  unfold rollDiceExpr. intros H.
  bind_inv H as headRoll s1 E1. bind_inv H as [v [rolls os]] s2 E2. ret_inv H.
  eexists _, _, _. reflexivity.
Qed.

Lemma rollExpression_result head ops s r s' :
  rollExpression rt head ops s = Ok r s' ->
  exists value dice ops', r = ExpressionRoll (newCommon value None 0 0) dice ops'.
Proof.
  unfold rollExpression. intros H.
  bind_inv H as headRoll s1 E1. bind_inv H as [v [rolls os]] s2 E2. ret_inv H.
  eexists _, _, _. reflexivity.
Qed.

Lemma rollFunction_result op expr s r s' :
  rollFunction rt op expr s = Ok r s' ->
  exists value e, r = MathFunctionRoll (newCommon value None 0 0) e op.
Proof.
  unfold rollFunction. intros H.
  bind_inv H as e s1 E1. ret_inv H. eexists _, _. reflexivity.
Qed.

Lemma doReplacement_result called expr s r s' :
  doReplacement this rt called expr s = Ok r s' ->
  exists value e, r = ReplacementRoll (newCommon value (Some true) 0 0) called e.
Proof.
  unfold doReplacement. intros H.
  bind_inv H as e s1 E1. bind_inv H as hit s2 E2. bind_inv H as f s3 E3. ret_inv H.
  eexists _, _. reflexivity.
Qed.

End Shapes.

(** ** Replacement nodes (C10) *)

Lemma rollType_unfold this fuel input :
  rollType this fuel input =
  (response <-
     match input with
     | RollExpressionType head ops _ => rollDiceExpr (rollType this fuel) head ops
     | GroupedRoll rolls mods _ => rollGroup (rollType this fuel) rolls mods
     | FullRoll count die mods targets match_ sort _ =>
         rollDie this fuel (rollType this fuel) count die mods targets match_ sort
     | MathExpression head ops _ => rollExpression (rollType this fuel) head ops
     | MathFunctionExpression op expr _ => rollFunction (rollType this fuel) op expr
     | CustomReplacementExpression called expr _ =>
         doReplacement this (rollType this fuel) called expr
     | InlineExpression expr _ => rollType this fuel expr
     | NumberType value label =>
         ret (NumberRoll {| value := value; valid := true; success := None;
                            successes := 0; failures := 0; order := 0;
                            label := label; drop := false |})
     | FateExpr _ => throw (UnableToRender "fate")
     | OtherType type _ => throw (UnableToRender type)
     end ;;
   ret (if truthy (label_of input)
        then upd_common (set_label (label_of input)) response
        else response))%roller.
Proof. destruct input; reflexivity. Qed.

Lemma common_set_label l r :
  common (upd_common (set_label l) r) = set_label l (common r).
Proof. destruct r; reflexivity. Qed.

Lemma common_labelled (b : bool) l r :
  common (if b then upd_common (set_label l) r else r)
  = if b then set_label l (common r) else common r.
Proof. destruct b; [apply common_set_label | reflexivity]. Qed.

Lemma success_labelled (b : bool) l r :
  success (common (if b then upd_common (set_label l) r else r)) = success (common r).
Proof. rewrite common_labelled. destruct b; reflexivity. Qed.

Lemma valid_labelled (b : bool) l r :
  valid (common (if b then upd_common (set_label l) r else r)) = valid (common r).
Proof. rewrite common_labelled. destruct b; reflexivity. Qed.

(** C10 as stated fails on the code.  The Inline node around the
    Replacement [double(3)] is no Replacement node and has no target, and
    its result has [success = true]: an Inline node returns the result of
    the node it wraps. *)
Lemma inline_node_has_its_child_success :
  exists r s',
    rollType doublingRoller 0 inlineDouble start = Ok r s' /\
    withoutTarget inlineDouble = true /\
    success (common r) = Some true /\
    success (common r) <> None.
Proof.
  eexists _, _. split; [reflexivity|].
  repeat split. discriminate.
Qed.

(** C10 (amended).  A Replacement node whose child evaluates and whose
    transform is resolved (it is stored in [this.cached], or the name is
    not one that [this.cached] inherits and the resolver answers) always
    returns a result with [success = true] and [valid = true] (its value is
    the transform of the child's value), although no target was applied.
    The result of an Inline node is the result of the node it wraps, and
    the result of every other node without a target has
    [success = null]: whatever is rolled, the result has [success = true]
    and [valid = true] when the node under the Inline nodes is a
    Replacement, and [success = null] when that node is another one without
    a target. *)
Theorem replacement_success_is_true (this : DiceRoller) (fuel : nat) :
  (forall called expr label s roll s1 f,
      rollType this fuel expr s = Ok roll s1 ->
      resolved this called s1 = Some f ->
      exists r s2,
        rollType this fuel (CustomReplacementExpression called expr label) s = Ok r s2 /\
        success (common r) = Some true /\
        valid (common r) = true /\
        value (common r) = f (value (common roll))) /\
  (forall input s r s',
      rollType this fuel input s = Ok r s' ->
      match unwrapInline input with
      | CustomReplacementExpression _ _ _ =>
          success (common r) = Some true /\ valid (common r) = true
      | node => withoutTarget node = true -> success (common r) = None
      end).
Proof.
  split.
  - intros called expr label s roll s1 f Hroll Hres.
    rewrite rollType_unfold. cbn [label_of].
    unfold doReplacement, bind. rewrite Hroll.
    unfold resolved in Hres. unfold getCached.
    destruct (find (fun p => fst p =? called) (cached s1)) as [p|].
    + injection Hres as <-.
      unfold ret. eexists _, _. split; [reflexivity|].
      rewrite common_labelled. destruct (truthy label); repeat split; reflexivity.
    + destruct (inherited called); [discriminate|]. rewrite Hres.
      unfold ret, setCached. eexists _, _. split; [reflexivity|].
      rewrite common_labelled. destruct (truthy label); repeat split; reflexivity.
  - intros input. induction input; intros s r s' H;
      rewrite rollType_unfold in H;
      bind_inv H as resp s1 E; unfold ret in H; injection H as <- <-;
      cbn [unwrapInline label_of withoutTarget];
      rewrite ?success_labelled, ?valid_labelled.
    + unfold ret in E. injection E as <- <-. intros _. reflexivity.
    + specialize (IHinput _ _ _ E).
      destruct (unwrapInline input); rewrite ?success_labelled, ?valid_labelled;
        exact IHinput.
    + apply rollDie_result in E.
      destruct E as (cnt & d & rolls & su & fa & matched & mc & ->).
      intros Ht. destruct targets; [discriminate|]. reflexivity.
    + apply rollDiceExpr_result in E. destruct E as (v & ds & os & ->).
      intros _. reflexivity.
    + apply rollExpression_result in E. destruct E as (v & ds & os & ->).
      intros _. reflexivity.
    + apply rollGroup_result in E.
      destruct E as (ds & ht & su & fa & -> & Hht).
      intros Ht. destruct ht.
      * destruct (Hht eq_refl) as (ms & -> & Hex). rewrite Hex in Ht. discriminate.
      * reflexivity.
    + apply rollFunction_result in E. destruct E as (v & e & ->).
      intros _. reflexivity.
    + apply doReplacement_result in E. destruct E as (v & e & ->).
      split; reflexivity.
    + discriminate.
    + discriminate.
Qed.

Lemma replacement_success_is_true_witness :
  (exists r s2,
      rollType doublingRoller 0
               (CustomReplacementExpression "double" (lit 3) None) start = Ok r s2 /\
      success (common r) = Some true /\
      valid (common r) = true /\
      value (common r) = (2 * inject_Z 3)%Q) /\
  (exists r s',
      rollType doublingRoller 0 inlineDouble start = Ok r s' /\
      success (common r) = Some true /\ valid (common r) = true) /\
  (withoutTarget (lit 3) = true -> success (common (NumberRoll
      {| value := inject_Z 3; valid := true; success := None; successes := 0;
         failures := 0; order := 0; label := None; drop := false |})) = None).
Proof.
  split; [| split].
  - exact (proj1 (replacement_success_is_true doublingRoller 0)
                 "double" (lit 3) None start _ _ _ eq_refl eq_refl).
  - eexists _, _. split; [reflexivity|].
    exact (proj2 (replacement_success_is_true doublingRoller 0)
                 inlineDouble start _ _ eq_refl).
  - exact (proj2 (replacement_success_is_true doublingRoller 0)
                 (lit 3) start _ _ eq_refl).
Defined.

(** ** Faces of a standard die (C1) *)

(** C1 (defect of the code).  Rolling [1d2] with a source that returns
    0.875: [generateDiceRoll] computes [(0.875 * 2).toFixed()], which is
    ["2"], and adds 1, so the only trial has the face 3, above the 2 faces
    of the die.  A face is expected in 1..faces. *)
Theorem generateDiceRoll_face_above_faces :
  exists c count die r s',
    rollType (rollerOf (fun _ => 7 # 8)) 0 (dice 1 2 None) start
    = Ok (DiceRollResult c count die [r] false) s' /\
    value (common die) = inject_Z 2 /\
    roll r = 3 /\
    value c = inject_Z 3.
Proof.
  eexists _, _, _, _, _. split; [reflexivity|].
  repeat split; reflexivity.
Qed.

(** ** The guard against targets that always match (C2) *)

(** C2 (defect of the code).  Rolling [1d1!], [1d1!!] and [1d1!p] with a
    source that returns 0: the die has one face, the default target
    ("equals the number of faces") matches both 1 and the number of faces,
    and no method throws.  Explode and penetrate splice new rolls in until
    the cap of 1000, compound adds 1000 faces to the first roll.  The guard
    of reroll, on the same die with its own default target ("equals 1"),
    does throw. *)
Theorem default_target_is_not_guarded :
  (exists c count die rolls s',
      rollType (rollerOf (fun _ => 0%Q)) 0
               (dice 1 1 (Some [ReRollMod explode_k None])) start
      = Ok (DiceRollResult c count die rolls false) s' /\
      List.length rolls = 1001%nat) /\
  (exists c count die r s',
      rollType (rollerOf (fun _ => 0%Q)) 0
               (dice 1 1 (Some [ReRollMod compound_k None])) start
      = Ok (DiceRollResult c count die [r] false) s' /\
      roll r = 1001 /\ drawn s' = 1001%nat) /\
  (exists c count die rolls s',
      rollType (rollerOf (fun _ => 0%Q)) 0
               (dice 1 1 (Some [ReRollMod penetrate_k None])) start
      = Ok (DiceRollResult c count die rolls false) s' /\
      List.length rolls = 1001%nat) /\
  rollType (rollerOf (fun _ => 0%Q)) 0
           (dice 1 1 (Some [ReRollMod reroll_k None])) start
  = Throw InvalidRerollTarget.
Proof.
  split; [| split; [| split]].
  - eexists _, _, _, _, _. split; [vm_compute; reflexivity|].
    vm_compute. reflexivity.
  - eexists _, _, _, _, _. split; [vm_compute; reflexivity|].
    split; vm_compute; reflexivity.
  - eexists _, _, _, _, _. split; [vm_compute; reflexivity|].
    vm_compute. reflexivity.
  - reflexivity.
Qed.

(** ** Keep (C3) *)

(** C3 (defect of the code).  The group [{3, 1, 2}kh1]: one member stays
    valid and the two others are dropped, but the members come back in the
    order of the sort by value (1, 2, 3, with [order] 1, 2, 0), not in the
    order they were given.  [getModMethod] sorts by [order] after
    [getKeepMethod]; [getGroupModMethod] does not. *)
Theorem group_keep_leaves_members_sorted :
  exists c dice s',
    rollType (rollerOf (fun _ => 0%Q)) 0
             (GroupedRoll [lit 3; lit 1; lit 2] (Some [keepHighest 1]) None) start
    = Ok (GroupRoll c dice) s' /\
    map (fun r => value (common r)) dice = [inject_Z 1; inject_Z 2; inject_Z 3] /\
    map (fun r => order (common r)) dice = [1; 2; 0] /\
    map (fun r => valid (common r)) dice = [false; false; true] /\
    map (fun r => drop (common r)) dice = [true; true; false].
Proof.
  eexists _, _, _. split; [reflexivity|].
  repeat split; reflexivity.
Qed.

(** ** Lengths under compound and explode (C7) *)

(** C7 (defect of the code).  Rolling [0d6!!]: the die has no trial, and
    the function returned by [getCompoundMethod] reads [rolls[0].type]
    before its loop, which throws a TypeError; it does not return the empty
    sequence.  The function returned by [getExplodeMethod] does the same. *)
Theorem compound_of_no_trial_throws :
  rollType (rollerOf (fun _ => 0%Q)) 0
           (dice 0 6 (Some [ReRollMod compound_k None])) start
  = Throw (JsTypeError "rolls[0] is undefined") /\
  compoundRolls (rollerOf (fun _ => 0%Q)) None [] start
  = Throw (JsTypeError "rolls[0] is undefined") /\
  explodeRolls (rollerOf (fun _ => 0%Q)) None [] start
  = Throw (JsTypeError "rolls[0] is undefined").
Proof. repeat split. Qed.

(** ** Lists, sums and the sort *)

Lemma insert_Permutation {T} (cmp : T -> T -> number) x l :
  Permutation (Js.insert cmp x l) (x :: l).
Proof.
  induction l as [|y l IH]; simpl.
  - apply Permutation_refl.
  - destruct (Qle_bool (cmp x y) 0).
    + apply Permutation_refl.
    + apply Permutation_trans with (y :: x :: l).
      * apply perm_skip. exact IH.
      * apply perm_swap.
Qed.

Lemma sort_Permutation {T} (cmp : T -> T -> number) l :
  Permutation (Js.sort cmp l) l.
Proof.
  induction l as [|x l IH]; simpl.
  - apply perm_nil.
  - apply Permutation_trans with (x :: Js.sort cmp l).
    + apply insert_Permutation.
    + apply perm_skip. exact IH.
Qed.

Lemma sort_length {T} (cmp : T -> T -> number) l :
  List.length (Js.sort cmp l) = List.length l.
Proof. apply Permutation_length, sort_Permutation. Qed.

Lemma sort_Forall {T} (P : T -> Prop) (cmp : T -> T -> number) l :
  Forall P l -> Forall P (Js.sort cmp l).
Proof.
  intros H. eapply Permutation_Forall; [| exact H].
  apply Permutation_sym, sort_Permutation.
Qed.

Lemma filter_all {T} (p : T -> bool) (l : list T) :
  Forall (fun x => p x = true) l -> filter p l = l.
Proof.
  induction 1 as [|x l Hx Hl IH]; simpl; [reflexivity|].
  rewrite Hx, IH. reflexivity.
Qed.

Ltac qring := ring.

Lemma sumQ_app l1 l2 : (sumQ (l1 ++ l2) == sumQ l1 + sumQ l2)%Q.
Proof.
  induction l1 as [|x l1 IH]; simpl.
  - qring.
  - rewrite IH. qring.
Qed.

Lemma sumZ_app l1 l2 : sumZ (l1 ++ l2) = sumZ l1 + sumZ l2.
Proof. induction l1 as [|x l1 IH]; simpl; lia. Qed.

Lemma sumZ_Permutation l1 l2 : Permutation l1 l2 -> sumZ l1 = sumZ l2.
Proof. induction 1; simpl; lia. Qed.

Lemma fold_left_sumZ {T} (f : T -> Z) l a :
  fold_left (fun n x => n + f x) l a = a + sumZ (map f l).
Proof.
  revert a. induction l as [|x l IH]; intros a; simpl.
  - lia.
  - rewrite IH. lia.
Qed.

Lemma sumValid_from {T} `{RollLike T} (l : list T) (a : number) :
  (fold_left (fun sum roll => if negb (valid (getBase roll)) then sum
                              else sum + value (getBase roll)) l a
   == a + sumQ (map (fun c => value (getBase c))
                    (filter (fun c => valid (getBase c)) l)))%Q.
Proof.
  revert a. induction l as [|x l IH]; intros a; simpl.
  - qring.
  - rewrite IH. destruct (valid (getBase x)); simpl; qring.
Qed.

(** [sumValid], the [reduce] of the source, is the sum of [value] over the
    entries that have [valid = true]. *)
Lemma sumValid_spec {T} `{RollLike T} (l : list T) :
  (sumValid l == sumQ (map (fun c => value (getBase c))
                           (filter (fun c => valid (getBase c)) l)))%Q.
Proof. unfold sumValid. rewrite sumValid_from. qring. Qed.

Lemma sumValid_leaves (rolls : list DieRollBase) :
  (sumValid rolls
   == sumQ (map (fun c => value (common c))
                (filter (fun c => valid (common c)) (map DieRollLeaf rolls))))%Q.
Proof.
  rewrite sumValid_spec.
  induction rolls as [|x l IH]; simpl; [reflexivity|].
  destruct (valid (base x)); simpl; rewrite IH; reflexivity.
Qed.

(** ** What the modifiers of a die preserve *)

Lemma rand_Ok this s :
  rand this s = Ok (randFunction this (drawn s)) (mkState (S (drawn s)) (cached s)).
Proof. reflexivity. Qed.

Lemma reRoll_Ok this roll order s :
  reRoll this roll order s
  = Ok (rollAgain roll order (randFunction this (drawn s)))
       (mkState (S (drawn s)) (cached s)).
Proof. unfold reRoll, rollAgain. destruct (type roll); reflexivity. Qed.

Lemma async_reduce_from_inv {T U} (func : U -> T -> Z -> M U) (I : U -> Prop) :
  (forall u t i s u' s', I u -> func u t i s = Ok u' s' -> I u') ->
  forall array index init s r s',
    I init -> async_reduce_from func index array init s = Ok r s' -> I r.
Proof.
  intros Hstep array. induction array as [|t array IH]; intros index init s r s' Hi H.
  - simpl in H. ret_inv H. exact Hi.
  - simpl in H. bind_inv H as u s1 E.
    eapply IH; [| exact H]. eapply Hstep; eauto.
Qed.

Lemma dropLoop_Forall {T} `{RollLike T} (P : T -> Prop) toDrop :
  (forall f x, P x -> P (updBase f x)) ->
  forall rolls dropped, Forall P rolls -> Forall P (dropLoop toDrop dropped rolls).
Proof.
  intros Hupd rolls. induction rolls as [|r rest IH]; intros dropped Hf; simpl.
  - constructor.
  - inversion Hf; subst.
    destruct (Js.lt _ _); [| exact Hf].
    destruct (valid (getBase r)); constructor; auto.
Qed.

Lemma keepRolls_Forall {T} `{RollLike T} (P : T -> Prop) highlow lookup k rolls :
  (forall f x, P x -> P (updBase f x)) ->
  Forall P rolls -> Forall P (keepRolls highlow lookup k rolls).
Proof.
  intros Hupd Hf. unfold keepRolls. destruct rolls as [|r0 rest]; [exact Hf|].
  apply dropLoop_Forall; [exact Hupd|].
  apply sort_Forall, sort_Forall. exact Hf.
Qed.

Lemma dropRolls_Forall {T} `{RollLike T} (P : T -> Prop) highlow lookup k rolls :
  (forall f x, P x -> P (updBase f x)) ->
  Forall P rolls -> Forall P (dropRolls highlow lookup k rolls).
Proof.
  intros Hupd Hf. unfold dropRolls.
  apply dropLoop_Forall; [exact Hupd|].
  apply sort_Forall. exact Hf.
Qed.

Lemma map_Forall {T} (P : T -> Prop) (f : T -> T) l :
  (forall x, P x -> P (f x)) -> Forall P l -> Forall P (map f l).
Proof. intros Hf H. induction H; simpl; constructor; auto. Qed.

Section PreservedByModifiers.
Variable this : DiceRoller.
Variable fuel : nat.
Variable rt : RootType -> M RollBase.
Variable P : DieRollBase -> Prop.
Hypothesis HP : Preserved P.

Lemma explodeWhile_Forall adjust target :
  (forall x, P x -> P (adjust x)) ->
  forall budget roll i s out i' s',
    P roll ->
    explodeWhile this adjust target budget roll i s = Ok (out, i') s' ->
    Forall P out.
Proof.
  intros Hadj budget. induction budget as [|b IH]; intros roll i s out i' s' Hr H;
    simpl in H; destruct (explodeTarget target roll).
  - ret_inv H. injection H as <- <-. constructor; [exact Hr | constructor].
  - ret_inv H. injection H as <- <-. constructor; [exact Hr | constructor].
  - bind_inv H as newRoll s1 E1. rewrite reRoll_Ok in E1. injection E1 as <- <-.
    bind_inv H as [rest i2] s2 E2. ret_inv H. injection H as <- <-.
    constructor.
    + apply (pres_explode P HP). exact Hr.
    + eapply IH; [| exact E2].
      apply Hadj, (pres_again P HP), (pres_explode P HP). exact Hr.
  - ret_inv H. injection H as <- <-. constructor; [exact Hr | constructor].
Qed.

Lemma explodeFor_Forall adjust target :
  (forall x, P x -> P (adjust x)) ->
  forall rolls i s out s',
    Forall P rolls ->
    explodeFor this adjust target i rolls s = Ok out s' ->
    Forall P out.
Proof.
  intros Hadj rolls. induction rolls as [|r rest IH]; intros i s out s' Hf H;
    cbn [explodeFor compoundFor] in H.
  - ret_inv H. constructor.
  - inversion Hf; subst.
    bind_inv H as [chain i2] s1 E1. bind_inv H as tail s2 E2. ret_inv H.
    apply Forall_app. split.
    + eapply explodeWhile_Forall; [exact Hadj | | exact E1].
      apply (pres_base P HP). assumption.
    + eapply IH; eauto.
Qed.

Lemma compoundFor_Forall target :
  forall rolls i s out s',
    Forall P rolls ->
    compoundFor this target i rolls s = Ok out s' ->
    Forall P out.
Proof.
  intros rolls. induction rolls as [|r rest IH]; intros i s out s' Hf H;
    cbn [explodeFor compoundFor] in H.
  - ret_inv H. constructor.
  - inversion Hf; subst.
    bind_inv H as rollValue s1 E1. bind_inv H as tail s2 E2. ret_inv H.
    constructor.
    + apply (pres_roll P HP), (pres_base P HP).
      destruct (explodeTarget target r); [apply (pres_explode P HP)|]; assumption.
    + eapply IH; eauto.
Qed.

Lemma markRerolled_P x : P x -> P (markRerolled x).
Proof.
  intros H. unfold markRerolled.
  apply (pres_base P HP), (pres_reroll P HP). exact H.
Qed.

Lemma rerollWhile_Forall target :
  forall n roll i s out i' s',
    P roll ->
    rerollWhile this target n roll i s = Ok (out, i') s' ->
    Forall P out.
Proof.
  intros n. induction n as [|n IH]; intros roll i s out i' s' Hr H;
    simpl in H; destruct (rerollTarget target _).
  - discriminate.
  - ret_inv H. injection H as <- <-. constructor; [exact Hr | constructor].
  - bind_inv H as newRoll s1 E1. rewrite reRoll_Ok in E1. injection E1 as <- <-.
    bind_inv H as [rest i2] s2 E2. ret_inv H. injection H as <- <-.
    constructor.
    + apply markRerolled_P. exact Hr.
    + eapply IH; [| exact E2].
      apply (pres_again P HP), markRerolled_P. exact Hr.
  - ret_inv H. injection H as <- <-. constructor; [exact Hr | constructor].
Qed.

Lemma rerollFor_Forall target :
  forall rolls i s out s',
    Forall P rolls ->
    rerollFor this fuel target i rolls s = Ok out s' ->
    Forall P out.
Proof.
  intros rolls. induction rolls as [|r rest IH]; intros i s out s' Hf H; simpl in H.
  - ret_inv H. constructor.
  - inversion Hf; subst.
    bind_inv H as [chain i2] s1 E1. bind_inv H as tail s2 E2. ret_inv H.
    apply Forall_app. split.
    + eapply rerollWhile_Forall; eauto.
    + eapply IH; eauto.
Qed.

Lemma rerollOnceFor_Forall target :
  forall rolls i s out s',
    Forall P rolls ->
    rerollOnceFor this target i rolls s = Ok out s' ->
    Forall P out.
Proof.
  intros rolls. induction rolls as [|r rest IH]; intros i s out s' Hf H; simpl in H.
  - ret_inv H. constructor.
  - inversion Hf; subst.
    destruct (rerollTarget target _).
    + bind_inv H as newRoll s1 E1. rewrite reRoll_Ok in E1. injection E1 as <- <-.
      bind_inv H as tail s2 E2. ret_inv H.
      constructor; [apply markRerolled_P; assumption|].
      constructor; [apply (pres_again P HP), markRerolled_P; assumption|].
      eapply IH; eauto.
    + bind_inv H as tail s2 E2. ret_inv H.
      constructor; [assumption|]. eapply IH; eauto.
Qed.

Lemma critRolls_Forall which m lookup k rolls :
  Forall P rolls -> Forall P (critRolls which m lookup k rolls).
Proof.
  intros Hf. unfold critRolls. apply map_Forall; [| exact Hf].
  intros x Hx. destruct (negb _); [exact Hx|].
  destruct (type x); [| exact Hx].
  destruct (isTrue _); [exact Hx|].
  destruct (successTest _ _ _); [apply (pres_critical P HP); exact Hx|].
  destruct (isCrit _ _); [apply (pres_critical P HP); exact Hx | exact Hx].
Qed.

Lemma successRolls_Forall m lookup k (rolls : list DieRollBase) :
  Forall P rolls -> Forall P (successRolls m lookup k rolls).
Proof.
  intros Hf. unfold successRolls. apply map_Forall; [| exact Hf].
  intros x Hx. destruct (negb _); [exact Hx|].
  destruct (successTest _ _ _); [apply (pres_base P HP); exact Hx | exact Hx].
Qed.

Lemma failureRolls_Forall m lookup k (rolls : list DieRollBase) :
  Forall P rolls -> Forall P (failureRolls m lookup k rolls).
Proof.
  intros Hf. unfold failureRolls. apply map_Forall; [| exact Hf].
  intros x Hx. destruct (negb _); [exact Hx|].
  destruct (successTest _ _ _); [apply (pres_base P HP); exact Hx | exact Hx].
Qed.

(** Every modifier of a die keeps a preserved property of its rolls. *)
Lemma applyMod_Forall rolls mod_ s out s' :
  Forall P rolls ->
  applyMod this fuel rt rolls mod_ s = Ok out s' ->
  Forall P out.
Proof.
  intros Hf H. unfold applyMod in H. bind_inv H as method s1 E.
  destruct mod_ as [k m expr | k hl expr | k target | t]; cbn [getModMethod] in E.
  - destruct k; cbv [getSuccessMethod getFailureMethod getCritSuccessMethod
                     getCritFailureMethod] in E;
      bind_inv E as er s2 E2; ret_inv E; ret_inv H.
    + apply successRolls_Forall; exact Hf.
    + apply failureRolls_Forall; exact Hf.
    + apply critRolls_Forall; exact Hf.
    + apply critRolls_Forall; exact Hf.
  - destruct k; bind_inv E as method0 s2 E2; ret_inv E;
      cbv [getKeepMethod getDropMethod] in E2;
      bind_inv E2 as er s3 E3; ret_inv E2;
      bind_inv H as kept s4 E4; ret_inv H; ret_inv E4;
      apply sort_Forall.
    + apply keepRolls_Forall; [apply (pres_base P HP) | exact Hf].
    + apply dropRolls_Forall; [apply (pres_base P HP) | exact Hf].
  - destruct k; cbv [getExplodeMethod getCompoundMethod getPenetrateMethod
                     getReRollMethod getReRollOnceMethod] in E;
      bind_inv E as tv s2 E2; ret_inv E.
    + unfold explodeRolls in H. destruct rolls as [|r0 rest]; [discriminate|].
      destruct (match type r0 with roll_t _ _ => _ | fateroll_t => _ end);
        [discriminate|].
      eapply explodeFor_Forall; [| exact Hf | exact H]. auto.
    + unfold compoundRolls in H. destruct rolls as [|r0 rest]; [discriminate|].
      destruct (match type r0 with roll_t _ _ => _ | fateroll_t => _ end);
        [discriminate|].
      eapply compoundFor_Forall; eauto.
    + unfold penetrateRolls in H. destruct rolls as [|r0 rest].
      * destruct tv; [discriminate|]. ret_inv H. constructor.
      * destruct (match tv with Some _ => _ | None => _ end); [discriminate|].
        eapply explodeFor_Forall; [| exact Hf | exact H].
        intros x Hx. apply (pres_base P HP). exact Hx.
    + unfold rerollRolls in H. bind_inv H as u s3 E3.
      eapply rerollFor_Forall; eauto.
    + unfold rerollOnceRolls in H. bind_inv H as u s3 E3.
      eapply rerollOnceFor_Forall; eauto.
  - discriminate.
Qed.

Lemma applyMods_Forall mods rolls s out s' :
  Forall P rolls ->
  async_reduce mods (fun moddedRolls mod_ _ => applyMod this fuel rt moddedRolls mod_)
               rolls s = Ok out s' ->
  Forall P out.
Proof.
  intros Hf H. unfold async_reduce in H.
  refine (async_reduce_from_inv _ (Forall P) _ _ _ _ _ _ _ Hf H).
  intros u t i s1 u' s1' Hu Hstep. eapply applyMod_Forall; eauto.
Qed.

End PreservedByModifiers.

(** ** The value of an aggregate result (C4) *)

Lemma arrayFrom_from_Forall {T} (f : Z -> M T) (P : T -> Prop) :
  (forall i s x s', f i s = Ok x s' -> P x) ->
  forall n i s l s', arrayFrom_from f i n s = Ok l s' -> Forall P l.
Proof.
  intros Hf n. induction n as [|n IH]; intros i s l s' H; simpl in H.
  - ret_inv H. constructor.
  - bind_inv H as x s1 E1. bind_inv H as xs s2 E2. ret_inv H.
    constructor; [eapply Hf; eauto | eapply IH; eauto].
Qed.

Lemma reindex_map {A} (f : DieRollBase -> A) :
  (forall i x, f (upd_base (set_order i) x) = f x) ->
  forall l i, map f (reindex i l) = map f l.
Proof.
  intros Hf l. induction l as [|x l IH]; intros i; simpl; [reflexivity|].
  rewrite Hf, IH. reflexivity.
Qed.

Lemma reindex_filter_map {A} (p : DieRollBase -> bool) (f : DieRollBase -> A) :
  (forall i x, p (upd_base (set_order i) x) = p x) ->
  (forall i x, f (upd_base (set_order i) x) = f x) ->
  forall l i, map f (filter p (reindex i l)) = map f (filter p l).
Proof.
  intros Hp Hf l. induction l as [|x l IH]; intros i; simpl; [reflexivity|].
  rewrite Hp. destruct (p x); simpl; [rewrite Hf|]; rewrite IH; reflexivity.
Qed.

Lemma reindex_Forall (P : DieRollBase -> Prop) :
  (forall i x, P x -> P (upd_base (set_order i) x)) ->
  forall l i, Forall P l -> Forall P (reindex i l).
Proof.
  intros HP l. induction l as [|x l IH]; intros i H; simpl; [constructor|].
  inversion H; subst. constructor; auto.
Qed.

Lemma countRoll_keys map key :
  NoDup (List.map fst map) ->
  NoDup (List.map fst (countRoll map key)) /\
  (forall k, In k (List.map fst (countRoll map key)) <-> k = key \/ In k (List.map fst map)).
Proof.
  induction map as [|[k0 n] rest IH]; intros Hnd; simpl.
  - split; [constructor; [intros []| constructor]|].
    intros k. split; [intros [->|[]]; auto | intros [->|[]]; auto].
  - pose proof Hnd as Hnd0.
    simpl in Hnd. apply NoDup_cons_iff in Hnd. destruct Hnd as [Hnin Hnd].
    destruct (Z.eqb_spec k0 key) as [->|Hne]; simpl.
    + split; [exact Hnd0|]. intros k. simpl. intuition (subst; auto).
    + destruct (IH Hnd) as [IH1 IH2]. split.
      * constructor; [| exact IH1].
        intros Hin. apply IH2 in Hin. destruct Hin as [->|Hin]; [congruence|].
        contradiction.
      * intros k. simpl. rewrite IH2. intuition (subst; auto).
Qed.

Lemma counts_keys (rolls : list DieRollBase) (m : list (Z * Z)) :
  NoDup (map fst m) ->
  NoDup (map fst (fold_left (fun map roll => countRoll map (Roll.roll roll)) rolls m)) /\
  (forall k,
      In k (map fst (fold_left (fun map roll => countRoll map (Roll.roll roll)) rolls m))
      <-> In k (map roll rolls) \/ In k (map fst m)).
Proof.
  revert m. induction rolls as [|r rolls IH]; intros m Hnd; simpl.
  - split; [exact Hnd|]. intros k. tauto.
  - destruct (countRoll_keys m (roll r) Hnd) as [H1 H2].
    destruct (IH _ H1) as [IH1 IH2]. split; [exact IH1|].
    intros k. rewrite IH2, H2. intuition (subst; auto).
Qed.

Lemma filter_keys {A B} (p : A * B -> bool) (l : list (A * B)) :
  NoDup (map fst l) ->
  NoDup (map fst (filter p l)) /\ incl (map fst (filter p l)) (map fst l).
Proof.
  induction l as [|x l IH]; intros Hnd; simpl.
  - split; [constructor | intros y []].
  - simpl in Hnd. apply NoDup_cons_iff in Hnd. destruct Hnd as [Hnin Hnd].
    destruct (IH Hnd) as [IH1 IH2].
    destruct (p x); simpl.
    + split.
      * constructor; [| exact IH1]. intros Hin. apply Hnin, IH2, Hin.
      * intros y [->|Hy]; [left; reflexivity | right; apply IH2, Hy].
    + split; [exact IH1|]. intros y Hy. right. apply IH2, Hy.
Qed.

Lemma async_filter_from_keys {A B} (func : A * B -> Z -> M bool) :
  forall (l : list (A * B)) i s out s',
    NoDup (map fst l) ->
    async_filter_from func i l s = Ok out s' ->
    NoDup (map fst out) /\ incl (map fst out) (map fst l).
Proof.
  intros l. induction l as [|x l IH]; intros i s out s' Hnd H; simpl in H.
  - ret_inv H. split; [constructor | intros y []].
  - simpl in Hnd. apply NoDup_cons_iff in Hnd. destruct Hnd as [Hnin Hnd].
    bind_inv H as keep s1 E1. bind_inv H as newArr s2 E2. ret_inv H.
    destruct (IH _ _ _ _ Hnd E2) as [IH1 IH2].
    destruct keep; simpl.
    + split.
      * constructor; [| exact IH1]. intros Hin. apply Hnin, IH2, Hin.
      * intros y [->|Hy]; [left; reflexivity | right; apply IH2, Hy].
    + split; [exact IH1|]. intros y Hy. right. apply IH2, Hy.
Qed.

Lemma matched_false_Preserved : Preserved (fun x => matched x = false).
Proof.
  split; intros.
  - unfold rollAgain. destruct (type x); reflexivity.
  - assumption.
  - assumption.
  - assumption.
  - assumption.
  - unfold set_critical. destruct (type x); assumption.
Qed.

Lemma scoreRoll_scored (l : list DieRollBase) :
  Forall (fun x => value (base x) = Js.ofZ (successes (base x) - failures (base x)))
         (map scoreRoll l).
Proof. induction l; simpl; constructor; [reflexivity | assumption]. Qed.

Lemma generateDiceRoll_Ok this die order s :
  generateDiceRoll this die order s
  = Ok (dieRollOf die order (randFunction this (drawn s)))
       (mkState (S (drawn s)) (cached s)).
Proof. reflexivity. Qed.

Lemma generateFateRoll_Ok this order s :
  generateFateRoll this order s
  = Ok (fateRollOf order (randFunction this (drawn s)))
       (mkState (S (drawn s)) (cached s)).
Proof. reflexivity. Qed.

Lemma nodup_same_length (l l' : list Z) :
  (forall x, In x l <-> In x l') ->
  List.length (nodup Z.eq_dec l) = List.length (nodup Z.eq_dec l').
Proof.
  intros H. apply Permutation_length, NoDup_Permutation.
  - apply NoDup_nodup.
  - apply NoDup_nodup.
  - intros x. rewrite !nodup_In. apply H.
Qed.

Lemma existsb_eqb_In (x : Z) (l : list Z) : existsb (Z.eqb x) l = true <-> In x l.
Proof.
  rewrite existsb_exists. split.
  - intros (y & Hy & E). apply Z.eqb_eq in E. subst. exact Hy.
  - intros Hx. exists x. split; [exact Hx | apply Z.eqb_refl].
Qed.

Lemma matchedFaces_marked (rolls : list DieRollBase) (matches : list Z) :
  Forall (fun x => matched x = false) rolls ->
  NoDup matches ->
  incl matches (map roll rolls) ->
  List.length (matchedFaces (map (markMatched matches) rolls)) = List.length matches.
Proof.
  intros Hu Hnd Hincl. unfold matchedFaces.
  apply Permutation_length, NoDup_Permutation; [apply NoDup_nodup | exact Hnd |].
  intros x. rewrite nodup_In, in_map_iff. split.
  - intros (r & <- & Hr). apply filter_In in Hr. destruct Hr as [Hin Hm].
    apply in_map_iff in Hin. destruct Hin as (r0 & <- & Hin0).
    rewrite Forall_forall in Hu. specialize (Hu _ Hin0).
    unfold markMatched in *.
    destruct (existsb (Z.eqb (roll r0)) matches) eqn:Ex.
    + apply existsb_eqb_In in Ex. exact Ex.
    + congruence.
  - intros Hx. specialize (Hincl _ Hx). apply in_map_iff in Hincl.
    destruct Hincl as (r0 & <- & Hin0).
    exists (markMatched matches r0). split.
    + unfold markMatched. destruct (existsb _ _); reflexivity.
    + apply filter_In. split; [apply in_map; exact Hin0|].
      unfold markMatched.
      destruct (existsb (Z.eqb (roll r0)) matches) eqn:Ex; [reflexivity|].
      apply existsb_eqb_In in Hx. congruence.
Qed.

Lemma matchedFaces_applySort rolls mod_ :
  List.length (matchedFaces (applySort rolls mod_)) = List.length (matchedFaces rolls).
Proof.
  unfold matchedFaces, applySort.
  rewrite (reindex_filter_map matched roll); [| reflexivity | reflexivity].
  apply nodup_same_length. intros x. rewrite !in_map_iff.
  split; intros (r & E & Hr); exists r; (split; [exact E|]);
    apply filter_In in Hr; apply filter_In; destruct Hr as [Hin Hm];
    (split; [| exact Hm]).
  - eapply Permutation_in; [apply sort_Permutation | exact Hin].
  - eapply Permutation_in; [apply Permutation_sym, sort_Permutation | exact Hin].
Qed.

Lemma applySort_Forall (P : DieRollBase -> Prop) rolls mod_ :
  (forall i x, P x -> P (upd_base (set_order i) x)) ->
  Forall P rolls -> Forall P (applySort rolls mod_).
Proof.
  intros HP H. unfold applySort. apply reindex_Forall; [exact HP|].
  apply sort_Forall. exact H.
Qed.

Lemma applySort_sumZ (f : DieRollBase -> Z) rolls mod_ :
  (forall i x, f (upd_base (set_order i) x) = f x) ->
  sumZ (map f (applySort rolls mod_)) = sumZ (map f rolls).
Proof.
  intros Hf. unfold applySort. rewrite (reindex_map f Hf).
  apply sumZ_Permutation, Permutation_map, sort_Permutation.
Qed.

Lemma scored_sum (l : list DieRollBase) :
  Forall (fun x => value (base x)
                   = Js.ofZ (successes (base x) - failures (base x))) l ->
  Forall (fun x => valid (base x) = true) l ->
  (sumValid l
   == Js.ofZ (sumZ (map (fun x => successes (base x)) l)
              - sumZ (map (fun x => failures (base x)) l)))%Q.
Proof.
  intros Hs Hv. rewrite sumValid_spec. cbn [getBase RollLike_DieRollBase].
  rewrite (filter_all (fun c => valid (base c)) l Hv).
  clear Hv. induction Hs as [|x l Hx Hl IH]; [reflexivity|].
  cbn [map sumQ sumZ fold_right].
  fold (sumQ (map (fun c => value (base c)) l)).
  fold (sumZ (map (fun x => successes (base x)) l)).
  fold (sumZ (map (fun x => failures (base x)) l)).
  rewrite IH, Hx. unfold Js.ofZ. rewrite <- inject_Z_plus.
  apply inject_Z_injective. lia.
Qed.

Section AggregateRule.
Variable this : DiceRoller.
Variable fuel : nat.
Variable rt : RootType -> M RollBase.

Lemma rollDie_rule count die mods targets match_ sort s r s' :
  rollDie this fuel rt count die mods targets match_ sort s = Ok r s' ->
  aggregateRule r.
Proof.
  unfold rollDie. intros H.
  bind_inv H as cnt s1 E1.
  destruct (Js.lt _ _); [discriminate|].
  bind_inv H as [d rolls0] s2 E2.
  bind_inv H as rolls1 s3 E3.
  bind_inv H as [[rolls2 su] fa] s4 E4.
  bind_inv H as [[rolls3 isMatched] matchCount] s5 E5.
  ret_inv H.
  assert (U0 : Forall (fun x => matched x = false) rolls0).
  { assert (Hstd : forall dv z1 z2,
               bind (rt die)
                    (fun die0 =>
                       bind (arrayFrom (Js.toLength (value (common cnt)))
                                       (fun i => generateDiceRoll this
                                                   (value (common die0)) i))
                            (fun rolls => ret (die0, rolls))) z1
               = Ok (dv, rolls0) z2 ->
               Forall (fun x => matched x = false) rolls0).
    { intros dv z1 z2 Hb. bind_inv Hb as die0 z3 Eb1. bind_inv Hb as rs z4 Eb2.
      ret_inv Hb. injection Hb as <- <-.
      unfold arrayFrom in Eb2.
      eapply arrayFrom_from_Forall; [| exact Eb2].
      intros i z x z' Hx. rewrite generateDiceRoll_Ok in Hx.
      injection Hx as <- <-. reflexivity. }
    destruct die; try (eapply Hstd; exact E2).
    bind_inv E2 as rs z4 Eb2. ret_inv E2. injection E2 as <- <-.
    unfold arrayFrom in Eb2.
    eapply arrayFrom_from_Forall; [| exact Eb2].
    intros i z x z' Hx. rewrite generateFateRoll_Ok in Hx.
    injection Hx as <- <-. reflexivity. }
  assert (U1 : Forall (fun x => matched x = false) rolls1).
  { destruct mods as [ms|].
    - eapply applyMods_Forall; [apply matched_false_Preserved | exact U0 | exact E3].
    - ret_inv E3. exact U0. }
  assert (U2 : Forall (fun x => matched x = false) rolls2 /\
               (targets <> None ->
                Forall (fun x => value (base x)
                                 = Js.ofZ (successes (base x) - failures (base x)))
                       rolls2 /\
                su = sumZ (map (fun x => successes (base x)) rolls2) /\
                fa = sumZ (map (fun x => failures (base x)) rolls2))).
  { destruct targets as [ts|].
    - bind_inv E4 as rolls1' s6 E6. ret_inv E4. injection E4 as <- <- <-.
      assert (U1' : Forall (fun x => matched x = false) rolls1').
      { eapply applyMods_Forall; [apply matched_false_Preserved | exact U1 | exact E6]. }
      split.
      + apply map_Forall; [| exact U1']. intros x Hx. exact Hx.
      + intros _. split; [apply scoreRoll_scored|].
        rewrite !fold_left_sumZ, !map_map. simpl. split; reflexivity.
    - ret_inv E4. injection E4 as <- <- <-. split; [exact U1|].
      intros C. contradiction C. reflexivity. }
  destruct U2 as [U2 T2].
  assert (M3 : (isMatched = true ->
                Js.ofZ matchCount = Js.ofNat (List.length (matchedFaces rolls3))) /\
               (targets <> None ->
                Forall (fun x => value (base x)
                                 = Js.ofZ (successes (base x) - failures (base x)))
                       rolls3 /\
                su = sumZ (map (fun x => successes (base x)) rolls3) /\
                fa = sumZ (map (fun x => failures (base x)) rolls3))).
  { destruct match_ as [[mn cn m e]|].
    - bind_inv E5 as entries s6 E6. ret_inv E5. injection E5 as <- <- <-.
      split.
      + intros ->.
        unfold async_filter in E6.
        destruct (counts_keys rolls2 [] (NoDup_nil _)) as [C1 C2].
        destruct (filter_keys (fun e0 => Js.le mn (Js.ofZ (snd e0))) _ C1) as [F1 F2].
        destruct (async_filter_from_keys _ _ _ _ _ _ F1 E6) as [A1 A2].
        assert (Hincl : incl (map fst entries) (map roll rolls2)).
        { intros x Hx. apply A2, F2, C2 in Hx. destruct Hx as [Hx|[]]. exact Hx. }
        rewrite (matchedFaces_marked rolls2 (map fst entries) U2 A1 Hincl).
        reflexivity.
      + intros Ht. destruct (T2 Ht) as (Q1 & Q2 & Q3). split; [| split].
        * apply map_Forall; [| exact Q1]. intros x Hx. unfold markMatched.
          destruct (existsb _ _); exact Hx.
        * rewrite Q2, map_map. f_equal. apply map_ext. intros x.
          unfold markMatched. destruct (existsb _ _); reflexivity.
        * rewrite Q3, map_map. f_equal. apply map_ext. intros x.
          unfold markMatched. destruct (existsb _ _); reflexivity.
    - ret_inv E5. injection E5 as <- <- <-. split; [discriminate | exact T2]. }
  destruct M3 as [M3 T3].
  cbn [aggregateRule newCommon value success successes failures].
  split.
  - destruct isMatched.
    + rewrite (M3 eq_refl). destruct sort as [so|]; [| reflexivity].
      rewrite matchedFaces_applySort. reflexivity.
    + unfold sumOfValidChildren, children. apply sumValid_leaves.
  - intros Hs. assert (Ht : targets <> None).
    { destruct targets; [discriminate | contradiction Hs; reflexivity]. }
    destruct (T3 Ht) as (Q1 & Q2 & Q3).
    set (rolls4 := match sort with Some so => applySort rolls3 so | None => rolls3 end).
    assert (R1 : Forall (fun x => value (base x)
                                  = Js.ofZ (successes (base x) - failures (base x)))
                        rolls4).
    { unfold rolls4. destruct sort as [so|]; [| exact Q1].
      apply applySort_Forall; [| exact Q1]. intros i x Hx. exact Hx. }
    assert (R2 : su = sumZ (map (fun x => successes (base x)) rolls4)).
    { unfold rolls4. destruct sort as [so|]; [| exact Q2].
      rewrite Q2. symmetry. apply applySort_sumZ. reflexivity. }
    assert (R3 : fa = sumZ (map (fun x => failures (base x)) rolls4)).
    { unfold rolls4. destruct sort as [so|]; [| exact Q3].
      rewrite Q3. symmetry. apply applySort_sumZ. reflexivity. }
    split; [exact R1|]. split; [exact R2|]. split; [exact R3|].
    intros -> Hvalid. rewrite R2, R3. apply scored_sum; assumption.
Qed.

End AggregateRule.

Lemma rollType_valid this fuel input :
  forall s r s', rollType this fuel input s = Ok r s' -> valid (common r) = true.
Proof.
  induction input; intros s r s' H; rewrite rollType_unfold in H;
    bind_inv H as resp s1 E; ret_inv H; rewrite common_labelled;
    cbn [label_of].
  - ret_inv E. destruct (truthy label0); reflexivity.
  - apply IHinput in E. destruct (truthy label0); exact E.
  - apply rollDie_result in E.
    destruct E as (cnt & d & rolls & su & fa & matched & mc & ->).
    destruct (truthy label0); reflexivity.
  - apply rollDiceExpr_result in E. destruct E as (v & ds & os & ->).
    destruct (truthy label0); reflexivity.
  - apply rollExpression_result in E. destruct E as (v & ds & os & ->).
    destruct (truthy label0); reflexivity.
  - apply rollGroup_result in E. destruct E as (ds & ht & su & fa & -> & _).
    destruct (truthy label0); reflexivity.
  - apply rollFunction_result in E. destruct E as (v & e & ->).
    destruct (truthy label0); reflexivity.
  - apply doReplacement_result in E. destruct E as (v & e & ->).
    destruct (truthy label0); reflexivity.
  - discriminate.
  - discriminate.
Qed.

Lemma foldOps_plus (apply : string -> number -> number -> option number) :
  (forall a b, apply "+" a b = Some (a + b)%Q) ->
  forall ops vals acc v,
    Forall (fun op => op = "+") ops ->
    foldOps apply acc ops vals = Some v ->
    (v == acc + sumQ vals)%Q.
Proof.
  intros Happ ops. induction ops as [|op ops IH]; intros vals acc v Hops H;
    destruct vals as [|x vals]; simpl in H; try discriminate.
  - injection H as <-. simpl. ring.
  - inversion Hops; subst. rewrite Happ in H.
    apply IH in H; [| assumption]. rewrite H. simpl. ring.
Qed.

(** *** The targets of a group *)

Lemma dropLoop_fst {T} `{RollLike T} toDrop (arr : list (nat * T)) :
  forall dropped, map fst (dropLoop toDrop dropped arr) = map fst arr.
Proof.
  induction arr as [|[i x] arr IH]; intros dropped; cbn [dropLoop]; [reflexivity|].
  destruct (Js.lt _ _); [| reflexivity].
  destruct (valid _); cbn [map fst]; rewrite IH; reflexivity.
Qed.

Lemma keepRolls_ids {T} `{RollLike T} hl lookup k (arr : list (nat * T)) :
  Permutation (map fst (keepRolls hl lookup k arr)) (map fst arr).
Proof.
  unfold keepRolls. destruct arr as [|a arr]; [reflexivity|].
  rewrite dropLoop_fst. apply Permutation_map.
  eapply Permutation_trans; apply sort_Permutation.
Qed.

Lemma dropRolls_ids {T} `{RollLike T} hl lookup k (arr : list (nat * T)) :
  Permutation (map fst (dropRolls hl lookup k arr)) (map fst arr).
Proof.
  unfold dropRolls. rewrite dropLoop_fst. apply Permutation_map, sort_Permutation.
Qed.

Lemma successRolls_ids {T} `{RollLike T} m lookup k (arr : list (nat * T)) :
  map fst (successRolls m lookup k arr) = map fst arr.
Proof.
  unfold successRolls. rewrite map_map. apply map_ext. intros [i x].
  destruct (negb _); [reflexivity|]. destruct (successTest _ _ _); reflexivity.
Qed.

Lemma failureRolls_ids {T} `{RollLike T} m lookup k (arr : list (nat * T)) :
  map fst (failureRolls m lookup k arr) = map fst arr.
Proof.
  unfold failureRolls. rewrite map_map. apply map_ext. intros [i x].
  destruct (negb _); [reflexivity|]. destruct (successTest _ _ _); reflexivity.
Qed.

Lemma successRolls_Forall_gen {T} `{RollLike T} (P : T -> Prop) m lookup k rolls :
  (forall f x, P x -> P (updBase f x)) ->
  Forall P rolls -> Forall P (successRolls m lookup k rolls).
Proof.
  intros Hupd Hf. unfold successRolls. apply map_Forall; [| exact Hf].
  intros x Hx. destruct (negb _); [exact Hx|].
  destruct (successTest _ _ _); [apply Hupd|]; exact Hx.
Qed.

Lemma failureRolls_Forall_gen {T} `{RollLike T} (P : T -> Prop) m lookup k rolls :
  (forall f x, P x -> P (updBase f x)) ->
  Forall P rolls -> Forall P (failureRolls m lookup k rolls).
Proof.
  intros Hupd Hf. unfold failureRolls. apply map_Forall; [| exact Hf].
  intros x Hx. destruct (negb _); [exact Hx|].
  destruct (successTest _ _ _); [apply Hupd|]; exact Hx.
Qed.

Section GroupMods.
Variable rt : RootType -> M RollBase.
Context {T : Type} `{RollLike T}.

(** A modifier of a group returns the entries it was given, in some order
    and with their common fields updated. *)
Lemma applyGroupMod_entries (P : nat * T -> Prop) (arr : list (nat * T)) mod_ s arr' s' :
  applyGroupMod rt arr mod_ s = Ok arr' s' ->
  Permutation (map fst arr') (map fst arr) /\
  ((forall f x, P x -> P (updBase f x)) -> Forall P arr -> Forall P arr').
Proof.
  unfold applyGroupMod. intros Hm. bind_inv Hm as method s1 E.
  destruct mod_ as [k mo e | k hl e | k t | t]; try discriminate E.
  - destruct k; try discriminate E; cbn [getGroupModMethod] in E.
    + unfold getSuccessMethod in E. bind_inv E as er s2 E2.
      unfold ret in E. injection E as <- <-. unfold ret in Hm. injection Hm as <- <-.
      split; [rewrite successRolls_ids; reflexivity|].
      intros Hupd. apply successRolls_Forall_gen. exact Hupd.
    + unfold getFailureMethod in E. bind_inv E as er s2 E2.
      unfold ret in E. injection E as <- <-. unfold ret in Hm. injection Hm as <- <-.
      split; [rewrite failureRolls_ids; reflexivity|].
      intros Hupd. apply failureRolls_Forall_gen. exact Hupd.
  - destruct k; cbn [getGroupModMethod] in E.
    + unfold getKeepMethod in E. bind_inv E as er s2 E2.
      unfold ret in E. injection E as <- <-. unfold ret in Hm. injection Hm as <- <-.
      split; [apply keepRolls_ids|].
      intros Hupd. apply keepRolls_Forall. exact Hupd.
    + unfold getDropMethod in E. bind_inv E as er s2 E2.
      unfold ret in E. injection E as <- <-. unfold ret in Hm. injection Hm as <- <-.
      split; [apply dropRolls_ids|].
      intros Hupd. apply dropRolls_Forall. exact Hupd.
Qed.


Lemma entryOf_unique (l : list (nat * T)) :
  NoDup (map fst l) ->
  forall p, In p l -> entryOf l (fst p) = [snd p].
Proof.
  unfold entryOf. induction l as [|q l IH]; intros Hn p Hp; [contradiction|].
  cbn [map] in Hn. inversion Hn as [|a b Hq Hl]; subst.
  cbn [filter]. destruct Hp as [->|Hp].
  - rewrite Nat.eqb_refl. cbn [map]. f_equal.
    assert (Hnone : filter (fun q => Nat.eqb (fst q) (fst p)) l = []).
    { clear - Hq. induction l as [|x l IH]; [reflexivity|].
      cbn [filter]. destruct (Nat.eqb_spec (fst x) (fst p)) as [E|E].
      - exfalso. apply Hq. left. exact E.
      - apply IH. intros Hin. apply Hq. right. exact Hin. }
    rewrite Hnone. reflexivity.
  - destruct (Nat.eqb_spec (fst q) (fst p)) as [E|E].
    + exfalso. apply Hq. rewrite E. apply in_map. exact Hp.
    + apply IH; assumption.
Qed.

Lemma entries_in_order (l : list (nat * T)) :
  NoDup (map fst l) ->
  forall l', incl l' l -> flat_map (entryOf l) (map fst l') = map snd l'.
Proof.
  intros Hn l'. induction l' as [|p l' IH]; intros Hi; [reflexivity|].
  cbn [map flat_map]. rewrite (entryOf_unique l Hn p) by (apply Hi; left; reflexivity).
  cbn [app]. f_equal. apply IH. intros x Hx. apply Hi. right. exact Hx.
Qed.

Lemma entries_by_id (l : list (nat * T)) (io : list nat) :
  NoDup (map fst l) -> Permutation io (map fst l) ->
  Permutation (flat_map (entryOf l) io) (map snd l).
Proof.
  intros Hn Hp.
  rewrite <- (entries_in_order l Hn l) by apply incl_refl.
  apply Permutation_flat_map. exact Hp.
Qed.

Lemma tagged_fst (dice : list T) : map fst (tagged dice) = seq 0 (List.length dice).
Proof.
  unfold tagged. generalize 0%nat. induction dice as [|x dice IH]; intros n; [reflexivity|].
  cbn [List.length seq combine map fst]. rewrite IH. reflexivity.
Qed.

Lemma tagged_snd (dice : list T) : map snd (tagged dice) = dice.
Proof.
  unfold tagged. generalize 0%nat. induction dice as [|x dice IH]; intros n; [reflexivity|].
  cbn [List.length seq combine map snd]. rewrite IH. reflexivity.
Qed.

Hypothesis getBase_updBase : forall f (x : T), getBase (updBase f x) = f (getBase x).

Lemma applyGroupMods_facts mods (dice : list T) s res s' :
  applyGroupMods rt mods dice s = Ok res s' ->
  Permutation (gm_inputArray res) (gm_dice res) /\
  List.length (gm_dice res) = List.length dice /\
  (forall P : T -> Prop,
      (forall f x, P x -> P (updBase f x)) ->
      Forall P dice -> Forall P (gm_dice res)) /\
  (gm_hasTarget res = true ->
   Forall scored (map getBase (gm_dice res)) /\
   gm_successes res = sumZ (map successes (map getBase (gm_dice res))) /\
   gm_failures res = sumZ (map failures (map getBase (gm_dice res)))).
Proof.
  unfold applyGroupMods, async_reduce. intros Hm.
  bind_inv Hm as [arr [same io]] s1 E1.
  set (ids := seq 0 (List.length dice)) in *.
  assert (Hinv : Permutation (map fst arr) ids /\ Permutation io ids).
  { refine (async_reduce_from_inv _
              (fun u => Permutation (map fst (fst u)) ids /\
                        Permutation (snd (snd u)) ids)
              _ mods 0 _ _ _ _ _ E1).
    - intros [a [sm o]] t i z [a' [sm' o']] z' [Ha Ho] Hstep.
      bind_inv Hstep as a2 z2 E2. unfold ret in Hstep. injection Hstep as <- <- <- <-.
      destruct (applyGroupMod_entries (fun _ => True) _ _ _ _ _ E2) as [Hp _].
      cbn [fst snd] in *.
      assert (Ha2 : Permutation (map fst a2) ids)
        by (eapply Permutation_trans; [exact Hp | exact Ha]).
      split; [exact Ha2|].
      destruct (sm && sortsInPlace t); [exact Ha2 | exact Ho].
    - cbn [fst snd]. rewrite tagged_fst. split; reflexivity. }
  destruct Hinv as [Harr Hio].
  assert (HP : forall P : T -> Prop,
             (forall f x, P x -> P (updBase f x)) ->
             Forall P dice -> Forall (fun p => P (snd p)) arr).
  { intros P Hupd Hd.
    refine (async_reduce_from_inv _
              (fun u => Forall (fun p => P (snd p)) (fst u))
              _ mods 0 _ _ _ _ _ E1).
    - intros [a [sm o]] t i z [a' [sm' o']] z' Ha Hstep.
      bind_inv Hstep as a2 z2 E2. unfold ret in Hstep. injection Hstep as <- <- <- <-.
      destruct (applyGroupMod_entries (fun p => P (snd p)) _ _ _ _ _ E2) as [_ Hf].
      cbn [fst] in *. apply Hf; [| exact Ha].
      intros f [k x] Hx. cbn [updBase RollLike_tagged fst snd] in *. apply Hupd, Hx.
    - cbn [fst]. apply Forall_forall. intros [k x] Hin.
      rewrite Forall_forall in Hd. apply Hd. cbn [snd].
      apply (in_combine_r _ _ _ _ Hin). }
  unfold ret in Hm. injection Hm as <- <-. cbn [gm_dice gm_inputArray gm_hasTarget gm_successes gm_failures].
  match goal with |- context [map snd ?f] => set (final := f) end.
  assert (Hfst : map fst final = map fst arr).
  { unfold final. destruct (existsb isTargetMod mods); [| reflexivity].
    rewrite map_map. apply map_ext. intros [k x]. reflexivity. }
  assert (Hnd : NoDup (map fst final)).
  { rewrite Hfst. eapply Permutation_NoDup; [apply Permutation_sym; exact Harr|].
    apply seq_NoDup. }
  split.
  { apply entries_by_id; [exact Hnd|]. rewrite Hfst.
    eapply Permutation_trans; [exact Hio | apply Permutation_sym; exact Harr]. }
  split.
  { rewrite length_map. rewrite <- (length_map fst final), Hfst.
    rewrite (Permutation_length Harr). unfold ids. apply length_seq. }
  split.
  { intros P Hupd Hd. specialize (HP P Hupd Hd).
    assert (Hfin : Forall (fun p => P (snd p)) final).
    { unfold final. destruct (existsb isTargetMod mods); [| exact HP].
      apply Forall_forall. intros y Hy. apply in_map_iff in Hy.
      destruct Hy as ([k x] & <- & Hx). rewrite Forall_forall in HP.
      cbn [updBase RollLike_tagged fst snd]. apply Hupd. exact (HP _ Hx). }
    clear - Hfin. induction Hfin; cbn [map]; constructor; assumption. }
  intros Ht. unfold final. rewrite Ht.
  rewrite !map_map. cbn [updBase RollLike_tagged fst snd getBase].
  split; [| split].
  - apply Forall_forall. intros y Hy. apply in_map_iff in Hy.
    destruct Hy as ([k x] & <- & _). cbn [snd]. rewrite getBase_updBase. reflexivity.
  - rewrite fold_left_sumZ. cbn [Z.add]. f_equal. apply map_ext.
    intros [k x]. cbn [snd]. rewrite getBase_updBase. reflexivity.
  - rewrite fold_left_sumZ. cbn [Z.add]. f_equal. apply map_ext.
    intros [k x]. cbn [snd]. rewrite getBase_updBase. reflexivity.
Qed.

End GroupMods.

Lemma scored_sum_commons (l : list RollCommon) :
  Forall scored l ->
  (sumQ (map value l) == Js.ofZ (sumZ (map successes l) - sumZ (map failures l)))%Q.
Proof.
  induction 1 as [|x l Hx Hl IH]; [reflexivity|].
  cbn [map sumQ sumZ fold_right].
  fold (sumQ (map value l)). fold (sumZ (map successes l)). fold (sumZ (map failures l)).
  rewrite IH, Hx. unfold Js.ofZ. rewrite <- inject_Z_plus.
  apply inject_Z_injective. lia.
Qed.

Lemma sumValid_all_valid {T} `{RollLike T} (l : list T) :
  Forall (fun e => valid e = true) (map getBase l) ->
  (sumValid l == sumQ (map value (map getBase l)))%Q.
Proof.
  intros Hv. rewrite sumValid_spec.
  rewrite filter_all; [rewrite map_map; reflexivity|].
  rewrite Forall_map in Hv. exact Hv.
Qed.

(** The targets of a group, applied to [entries], of which [pool] is what
    the modifiers returned and [entries] the same entries in the order of
    the array they were taken from. *)
Lemma targetRule_of_pool {T} `{RollLike T} (c : RollCommon) (pool entries : list T) :
  Permutation entries pool ->
  Forall scored (map getBase pool) ->
  successes c = sumZ (map successes (map getBase pool)) ->
  failures c = sumZ (map failures (map getBase pool)) ->
  (value c == sumValid pool)%Q ->
  targetRule c (map getBase entries).
Proof.
  intros Hp Hs Hsu Hfa Hv.
  assert (Hpb : Permutation (map getBase entries) (map getBase pool))
    by (apply Permutation_map; exact Hp).
  split; [| split; [| split]].
  - eapply Permutation_Forall; [apply Permutation_sym; exact Hpb | exact Hs].
  - rewrite Hsu. apply sumZ_Permutation, Permutation_map, Permutation_sym, Hpb.
  - rewrite Hfa. apply sumZ_Permutation, Permutation_map, Permutation_sym, Hpb.
  - intros Hvalid.
    assert (Hvp : Forall (fun e => valid e = true) (map getBase pool))
      by (eapply Permutation_Forall; [exact Hpb | exact Hvalid]).
    rewrite Hv, (sumValid_all_valid pool Hvp), (scored_sum_commons _ Hs), Hsu, Hfa.
    reflexivity.
Qed.

Lemma common_upd_common f (x : RollBase) : common (upd_common f x) = f (common x).
Proof. destruct x; reflexivity. Qed.

Section GroupRule.
Variable rt : RootType -> M RollBase.
Hypothesis rt_valid :
  forall input s r s', rt input s = Ok r s' -> valid (common r) = true.

Lemma members_valid rolls :
  forall index s members s',
    async_map_from (fun roll order =>
                      r <- rt roll ;; ret (upd_common (set_order order) r))
                   index rolls s = Ok members s' ->
    Forall (fun x => valid (common x) = true) members.
Proof.
  induction rolls as [|roll rolls IH]; intros index s members s' H;
    cbn [async_map_from] in H.
  - unfold ret in H. injection H as <- <-. constructor.
  - bind_inv H as u s1 E1. bind_inv H as us s2 E2.
    unfold ret in H. injection H as <- <-.
    constructor; [| eapply IH; exact E2].
    bind_inv E1 as r0 s3 E3. unfold ret in E1. injection E1 as <- <-.
    apply rt_valid in E3. destruct r0; exact E3.
Qed.

Lemma rollGroup_targets rolls mods s c dice s' :
  rollGroup rt rolls mods s = Ok (GroupRoll c dice) s' ->
  success c <> None -> groupTargetRule c dice.
Proof.
  unfold rollGroup, async_map. intros H Hsucc.
  bind_inv H as members s1 E1.
  pose proof (members_valid _ _ _ _ _ E1) as Hvalid.
  destruct mods as [ms|].
  2: { unfold ret, groupResult in H. injection H as <- <- <-.
       contradiction Hsucc. reflexivity. }
  assert (Hwhole :
            forall c dice s2,
              (forall c0 n d rs m, members <> [DiceRollResult c0 n d rs m]) ->
              (forall c0 ds os, members <> [DiceExpressionRoll c0 ds os]) ->
              bind (applyGroupMods rt ms members)
                   (fun res => ret (groupResult (gm_dice res) (gm_hasTarget res)
                                                (gm_successes res) (gm_failures res)))
                   s1 = Ok (GroupRoll c dice) s2 ->
              success c <> None ->
              groupTargetRule c dice).
  { clear H Hsucc c dice. intros c dice s2 HnD HnE Hb Hsucc. bind_inv Hb as res s3 E3.
    unfold ret, groupResult in Hb. injection Hb as Hc Hd Hs. subst c dice s3.
    destruct (@applyGroupMods_facts rt RollBase RollLike_RollBase common_upd_common
                ms members _ _ _ E3)
      as (_ & Hlen & HP & Ht).
    assert (Ht' : gm_hasTarget res = true).
    { destruct (gm_hasTarget res); [reflexivity|]. contradiction Hsucc. reflexivity. }
    destruct (Ht Ht') as (Hsc & Hsu & Hfa).
    assert (Hrule : targetRule
                      (newCommon (sumValid (gm_dice res))
                                 (if gm_hasTarget res
                                  then Some (Js.lt 0%Q (sumValid (gm_dice res)))
                                  else None)
                                 (gm_successes res) (gm_failures res))
                      (map common (gm_dice res))).
    { match goal with
      | |- targetRule ?c0 _ =>
          refine (@targetRule_of_pool RollBase RollLike_RollBase c0 (gm_dice res)
                    (gm_dice res) _ Hsc Hsu Hfa _); reflexivity
      end. }
    assert (Hshape : Forall (fun y => match y with
                                      | DiceRollResult _ _ _ _ _
                                      | DiceExpressionRoll _ _ _ =>
                                          (2 <= List.length members)%nat
                                      | _ => True
                                      end) (gm_dice res)).
    { destruct members as [|x [|x2 rest]].
      - destruct (gm_dice res); [constructor | discriminate Hlen].
      - apply HP.
        + intros f y Hy. destruct y; exact Hy.
        + constructor; [| constructor].
          destruct x; try exact I.
          * exfalso. eapply HnD. reflexivity.
          * exfalso. eapply HnE. reflexivity.
      - apply Forall_forall. intros y _. destruct y; try exact I;
          cbn [List.length]; lia. }
    unfold groupTargetRule.
    destruct (gm_dice res) as [|y [|y2 rest]] eqn:Ed;
      [exact Hrule | | destruct y; exact Hrule].
    destruct y; try exact Hrule.
    - inversion Hshape as [|a b Hy _]; subst.
      cbn [List.length] in Hlen. lia.
    - exact I. }
  destruct members as [|roll [|roll2 rest]];
    try (eapply Hwhole; [discriminate | discriminate | exact H | exact Hsucc]).
  destruct roll;
    try (eapply Hwhole; [discriminate | discriminate | exact H | exact Hsucc]).
  - (* the rolls of the only member, a Die result *)
    bind_inv H as res s3 E3.
    unfold ret, groupResult in H. injection H as Hc Hd Hs. subst c dice s3.
    destruct (@applyGroupMods_facts rt DieRollBase RollLike_DieRollBase
                (fun f x => eq_refl) ms _ _ _ _ E3)
      as (Hperm & _ & _ & Ht).
    assert (Ht' : gm_hasTarget res = true).
    { destruct (gm_hasTarget res); [reflexivity|]. contradiction Hsucc. reflexivity. }
    destruct (Ht Ht') as (Hsc & Hsu & Hfa).
    unfold groupTargetRule.
    match goal with
    | |- targetRule ?c0 _ =>
        refine (@targetRule_of_pool DieRollBase RollLike_DieRollBase c0 (gm_dice res)
                  (gm_inputArray res) Hperm Hsc Hsu Hfa _)
    end.
    cbn [newCommon value]. unfold sumValid at 1.
    cbn [fold_left getBase RollLike_RollBase common set_value valid value].
    inversion Hvalid as [|a b Hv _]; subst. cbn [common] in Hv. rewrite Hv.
    cbn [negb]. ring.
  - (* the only member is a Dice-Expression *)
    bind_inv H as pool s3 E3. bind_inv H as res s4 E4.
    unfold ret, groupResult in H. injection H as Hc Hd Hs. subst c dice s4.
    exact I.
Qed.

End GroupRule.

Section ExpressionRule.
Variable rt : RootType -> M RollBase.
Hypothesis rt_valid :
  forall input s r s', rt input s = Ok r s' -> valid (common r) = true.

Lemma diceExpr_fold ops :
  forall index v0 rolls0 os0 s v rolls os s',
    async_reduce_from
      (fun '(headValue, (rolls, ops)) math order =>
         match math with
         | mkMath op tail =>
             tailRoll <- rt tail ;;
             let tailRoll := upd_common (set_order order) tailRoll in
             let tailValue := Roll.value (common tailRoll) in
             ret (if op =? "+" then (headValue + tailValue)%Q
                  else if op =? "-" then (headValue - tailValue)%Q
                  else headValue,
                  (rolls ++ [tailRoll], ops ++ [op])%list)
         end)
      index ops (v0, (rolls0, os0)) s = Ok (v, (rolls, os)) s' ->
    exists tails,
      rolls = (rolls0 ++ tails)%list /\
      os = (os0 ++ map opOf ops)%list /\
      Forall (fun x => valid (common x) = true) tails /\
      foldOps diceOp v0 (map opOf ops) (map (fun r => value (common r)) tails) = Some v.
Proof.
  induction ops as [|[op tail] ops IH];
    intros index v0 rolls0 os0 s v rolls os s' H; simpl in H.
  - ret_inv H. injection H as <- <- <-. exists []. rewrite !app_nil_r.
    repeat split. constructor.
  - bind_inv H as [v1 [rolls1 os1]] s1 E1.
    bind_inv E1 as tailRoll s2 E2. ret_inv E1. injection E1 as <- <- <-.
    apply IH in H. destruct H as (tails & -> & -> & Hv & Hf).
    exists (upd_common (set_order index) tailRoll :: tails).
    rewrite <- !app_assoc. simpl. repeat split.
    + constructor; [| exact Hv].
      apply rt_valid in E2. destruct tailRoll; exact E2.
    + unfold diceOp at 1.
      destruct (op =? "+"); [exact Hf|]. destruct (op =? "-"); exact Hf.
Qed.

Lemma rollDiceExpr_rule head ops s r s' :
  rollDiceExpr rt head ops s = Ok r s' -> aggregateRule r.
Proof.
  unfold rollDiceExpr, async_reduce. intros H.
  bind_inv H as headRoll s1 E1. bind_inv H as [v [rolls os]] s2 E2. ret_inv H.
  apply diceExpr_fold in E2. destruct E2 as (tails & -> & -> & Hv & Hf).
  simpl. apply rt_valid in E1.
  assert (Hall : Forall (fun x => valid (common x) = true) (headRoll :: tails)).
  { constructor; assumption. }
  split; [exact Hall|]. split; [exact Hf|].
  intros Hops. unfold sumOfValidChildren, children.
  rewrite (filter_all (fun c => valid (common c)) _ Hall). simpl.
  eapply foldOps_plus; [| exact Hops | exact Hf]. reflexivity.
Qed.

Lemma mathExpr_fold ops :
  forall index v0 rolls0 os0 s v rolls os s',
    async_reduce_from
      (fun '(headValue, (rolls, ops)) math (_ : Z) =>
         match math with
         | mkMath op tail =>
             tailRoll <- rt tail ;;
             let tailValue := Roll.value (common tailRoll) in
             v <- (if op =? "+" then ret (headValue + tailValue)%Q
                   else if op =? "-" then ret (headValue - tailValue)%Q
                   else if op =? "*" then ret (headValue * tailValue)%Q
                   else if op =? "/" then liftOption (Js.div headValue tailValue)
                   else if op =? "%" then liftOption (Js.rem headValue tailValue)
                   else if op =? "**" then liftOption (Js.pow headValue tailValue)
                   else ret headValue) ;;
             ret (v, (rolls ++ [tailRoll], ops ++ [op])%list)
         end)
      index ops (v0, (rolls0, os0)) s = Ok (v, (rolls, os)) s' ->
    exists tails,
      rolls = (rolls0 ++ tails)%list /\
      os = (os0 ++ map opOf ops)%list /\
      Forall (fun x => valid (common x) = true) tails /\
      foldOps mathOp v0 (map opOf ops) (map (fun r => value (common r)) tails) = Some v.
Proof.
  induction ops as [|[op tail] ops IH];
    intros index v0 rolls0 os0 s v rolls os s' H; simpl in H.
  - ret_inv H. injection H as <- <- <-. exists []. rewrite !app_nil_r.
    repeat split. constructor.
  - bind_inv H as [v1 [rolls1 os1]] s1 E1.
    bind_inv E1 as tailRoll s2 E2. bind_inv E1 as v2 s3 E3.
    ret_inv E1. injection E1 as <- <- <-.
    apply IH in H. destruct H as (tails & -> & -> & Hv & Hf).
    exists (tailRoll :: tails).
    rewrite <- !app_assoc. simpl. repeat split.
    + constructor; [| exact Hv]. apply rt_valid in E2. exact E2.
    + assert (Hop : mathOp op v0 (value (common tailRoll)) = Some v2).
      { unfold mathOp. unfold liftOption in E3.
        repeat match type of E3 with
               | (if ?b then _ else _) _ = _ => destruct b
               end;
          try (ret_inv E3; reflexivity);
          match type of E3 with
          | match ?o with Some _ => _ | None => _ end _ = _ =>
              destruct o; [ret_inv E3; reflexivity | discriminate]
          end. }
      rewrite Hop. exact Hf.
Qed.

Lemma rollExpression_rule head ops s r s' :
  rollExpression rt head ops s = Ok r s' -> aggregateRule r.
Proof.
  unfold rollExpression, async_reduce. intros H.
  bind_inv H as headRoll s1 E1. bind_inv H as [v [rolls os]] s2 E2. ret_inv H.
  apply mathExpr_fold in E2. destruct E2 as (tails & -> & -> & Hv & Hf).
  simpl. apply rt_valid in E1.
  assert (Hall : Forall (fun x => valid (common x) = true) (headRoll :: tails)).
  { constructor; assumption. }
  split; [exact Hall|]. split; [exact Hf|].
  intros Hops. unfold sumOfValidChildren, children.
  rewrite (filter_all (fun c => valid (common c)) _ Hall). simpl.
  eapply foldOps_plus; [| exact Hops | exact Hf]. reflexivity.
Qed.

Lemma rollGroup_rule rolls mods s r s' :
  rollGroup rt rolls mods s = Ok r s' -> aggregateRule r.
Proof.
  intros H. pose proof (rollGroup_result _ _ _ _ _ _ H) as Hr.
  destruct Hr as (dice & ht & su & fa & -> & _).
  unfold groupResult in *. cbn [aggregateRule]. split.
  - unfold sumOfValidChildren, children. cbn [newCommon value].
    exact (sumValid_spec dice).
  - exact (rollGroup_targets rt rt_valid _ _ _ _ _ _ H).
Qed.

End ExpressionRule.

Lemma aggregateRule_labelled (b : bool) l r :
  aggregateRule r -> aggregateRule (if b then upd_common (set_label l) r else r).
Proof. destruct b; [| auto]. destruct r; simpl; auto. Qed.




(** ** The pool of a group with a single member (C8) *)

(** C8 (defect of the code).  In [{(1d6 + 9) + 1d6}kh1], with the faces 2
    and 6 rolled, the pool the keep is applied to is made of the children
    of the inner expression as they are (the Die result with value 2 and
    the Number 9) and of the roll of the second die: the entry kept is the
    Number 9, and the member gets the value 9.  [rollGroup] skips the
    Numbers among the children of the member and takes the rolls of a Die
    child, but it takes the [dice] of any other child as they are: it does
    not go into a nested expression.  The pool of individual die outcomes,
    reached through the nested expression with the Number skipped, is made
    of the two rolls, and keeping its highest gives 6. *)
Lemma group_pool_is_not_recursive :
  exists member s1 dice pool c c' dice' ops s',
    rollType lowThenHigh 0 nestedExpression start = Ok member s1 /\
    children member = dice /\
    expressionPool dice s1 = Ok pool s1 /\
    map typeName pool = ["die"; "number"; "roll"] /\
    map typeName (dieOutcomes member) = ["roll"; "roll"] /\
    rollType lowThenHigh 0
             (GroupedRoll [nestedExpression] (Some [keepHighest 1]) None) start
    = Ok (GroupRoll c [DiceExpressionRoll c' dice' ops]) s' /\
    (value c' == inject_Z 9)%Q /\
    (sumValid (groupKeep (Some "h") (inject_Z 1) (dieOutcomes member)) == inject_Z 6)%Q.
Proof.
  eexists _, _, _, _, _, _, _, _, _.
  split; [vm_compute; reflexivity|].
  split; [vm_compute; reflexivity|].
  split; [vm_compute; reflexivity|].
  repeat split; vm_compute; reflexivity.
Qed.

(** ** Reroll and reroll-once (C6) *)

Lemma markRerolled_flags r :
  valid (base (markRerolled r)) = false /\ reroll (markRerolled r) = true /\
  roll (markRerolled r) = roll r /\ type (markRerolled r) = type r.
Proof. repeat split. Qed.

Lemma Fresh_flags r n :
  Fresh r n -> valid (base n) = true /\ reroll n = false.
Proof.
  intros (order & sample & ->). unfold rollAgain.
  destruct (type r); split; reflexivity.
Qed.

Lemma rerollOnceFor_spec this target rolls :
  forall i s, exists out s',
    rerollOnceFor this target i rolls s = Ok out s' /\
    RerolledOnce target rolls out.
Proof.
  induction rolls as [|r rolls IH]; intros i s; cbn [rerollOnceFor].
  - eexists _, _. split; [reflexivity | constructor].
  - destruct (rerollTarget target (Js.ofZ (roll r))) eqn:Em.
    + unfold bind at 1. rewrite reRoll_Ok.
      destruct (IH (i + 2) (mkState (S (drawn s)) (cached s))) as (out & s' & E & Hs).
      unfold bind at 1. rewrite E.
      eexists _, _. split; [reflexivity|].
      apply once_replace; [exact Em | | exact Hs].
      eexists _, _. unfold rollAgain. reflexivity.
    + destruct (IH (i + 1) s) as (out & s' & E & Hs).
      unfold bind at 1. rewrite E.
      eexists _, _. split; [reflexivity|].
      apply once_keep; [exact Em | exact Hs].
Qed.

Lemma rerollWhile_spec this target :
  forall fuel r i s chain i' s',
    rerollWhile this target fuel r i s = Ok (chain, i') s' ->
    RerollChain target r chain.
Proof.
  intros fuel. induction fuel as [|fuel IH]; intros r i s chain i' s' H;
    cbn [rerollWhile] in H;
    destruct (rerollTarget target (Js.ofZ (roll r))) eqn:Em.
  - discriminate.
  - ret_inv H. injection H as <- <-. apply chain_stop. exact Em.
  - bind_inv H as newRoll s1 E1. rewrite reRoll_Ok in E1. injection E1 as <- <-.
    bind_inv H as [rest i2] s2 E2. ret_inv H. injection H as <- <-.
    eapply chain_next; [exact Em | | eapply IH; exact E2].
    eexists _, _. unfold rollAgain. reflexivity.
  - ret_inv H. injection H as <- <-. apply chain_stop. exact Em.
Qed.

Lemma rerollFor_spec this fuel target rolls :
  forall i s out s',
    rerollFor this fuel target i rolls s = Ok out s' ->
    Rerolled target rolls out.
Proof.
  induction rolls as [|r rolls IH]; intros i s out s' H; cbn [rerollFor] in H.
  - ret_inv H. constructor.
  - bind_inv H as [chain i2] s1 E1. bind_inv H as tail s2 E2. ret_inv H.
    constructor; [eapply rerollWhile_spec; exact E1 | eapply IH; exact E2].
Qed.

Lemma rerollWhile_S this target fuel r i :
  rerollWhile this target (S fuel) r i
  = if rerollTarget target (Js.ofZ (roll r)) then
      (newRoll <- reRoll this (markRerolled r) (i + 1) ;;
       '(rest, i') <- rerollWhile this target fuel newRoll (i + 1) ;;
       ret (markRerolled r :: rest, i'))%roller
    else ret ([r], i).
Proof. reflexivity. Qed.

(** With [k - j] more matching samples to come, the loop of reroll replaces
    [k - j + 1] times. *)
Lemma rerollWhile_unbounded (k : nat) :
  forall j r i c,
    (j <= k)%nat ->
    roll r = 1 -> (exists crit, type r = roll_t (inject_Z 6) crit) ->
    exists chain i' s',
      rerollWhile (onesThenFour k) None (S (k - j)) r i (mkState j c) = Ok (chain, i') s' /\
      List.length chain = (k - j + 2)%nat /\ drawn s' = S k.
Proof.
  intros j. remember (k - j)%nat as m eqn:Em. revert j Em.
  induction m as [|m IH]; intros j Em r i c Hj Hr (crit & Ht).
  - assert (j = k) by lia. subst j.
    rewrite rerollWhile_S. unfold rerollTarget. rewrite Hr.
    change (successTest "=" 1%Q (Js.ofZ 1)) with true. cbv iota.
    unfold bind at 1. rewrite reRoll_Ok. cbn [drawn cached].
    unfold rollAgain. cbn [type markRerolled upd_base set_reroll]. rewrite Ht.
    cbn [onesThenFour rollerOf randFunction]. rewrite Nat.ltb_irrefl.
    eexists _, _, _. split; [reflexivity|]. split; reflexivity.
  - rewrite rerollWhile_S. unfold rerollTarget. rewrite Hr.
    change (successTest "=" 1%Q (Js.ofZ 1)) with true. cbv iota.
    unfold bind at 1. rewrite reRoll_Ok. cbn [drawn cached].
    unfold rollAgain. cbn [type markRerolled upd_base set_reroll]. rewrite Ht.
    cbn [onesThenFour rollerOf randFunction].
    assert (Hlt : (j <? k)%nat = true) by (apply Nat.ltb_lt; lia).
    rewrite Hlt.
    destruct (IH (S j) ltac:(lia) (dieRollOf (inject_Z 6) (i + 1) 0%Q) (i + 1) c
                 ltac:(lia) eq_refl (ex_intro _ _ eq_refl))
      as (chain & i' & s' & E & Hl & Hd).
    unfold bind at 1. fold (onesThenFour k). rewrite E.
    eexists _, _, _. split; [reflexivity|]. split; [| exact Hd].
    cbn [List.length]. rewrite Hl. lia.
Qed.

(** C6.  Reroll-once, whenever its guard lets the sequence through, returns
    the sequence in which every entry whose face matches the target is
    marked [valid = false], [reroll = true] and is followed by exactly one
    new roll, left valid whatever its face, the other entries being
    unchanged ([RerolledOnce]).  Whatever plain reroll returns has, after
    each entry, its replacements, each but the last matching the target and
    marked, the last not matching ([Rerolled]); and the number of
    replacements has no bound: for every [k] there is a source for which an
    entry is replaced [k + 1] times. *)
Theorem reroll_once_and_reroll (this : DiceRoller)
    (target : option (string * number)) (rolls : list DieRollBase) (s : State) :
  (rerollGuard target rolls s = Ok tt s ->
   exists out s',
     rerollOnceRolls this target rolls s = Ok out s' /\
     RerolledOnce target rolls out) /\
  (forall out s',
      rerollOnceRolls this target rolls s = Ok out s' ->
      RerolledOnce target rolls out) /\
  (forall fuel out s',
      rerollRolls this fuel target rolls s = Ok out s' ->
      Rerolled target rolls out) /\
  (forall r n : DieRollBase,
      Fresh r n ->
      valid (base n) = true /\ reroll n = false /\
      valid (base (markRerolled r)) = false /\ reroll (markRerolled r) = true) /\
  (forall k : nat,
      exists out s',
        rerollRolls (onesThenFour k) (S k) None [oneOfSix] start = Ok out s' /\
        List.length out = (k + 2)%nat /\
        Rerolled None [oneOfSix] out).
Proof.
  split; [| split; [| split; [| split]]].
  - intros Hg. unfold rerollOnceRolls, bind. rewrite Hg.
    apply rerollOnceFor_spec.
  - intros out s' H. unfold rerollOnceRolls in H. bind_inv H as u s1 E.
    destruct (rerollOnceFor_spec this target rolls 0 s1) as (out' & s2 & E' & Hs).
    rewrite E' in H. injection H as <- <-. exact Hs.
  - intros fuel out s' H. unfold rerollRolls in H. bind_inv H as u s1 E.
    eapply rerollFor_spec. exact H.
  - intros r n Hf. destruct (Fresh_flags r n Hf) as [H1 H2].
    repeat split; assumption.
  - intros k.
    destruct (rerollWhile_unbounded k 0 oneOfSix 0 [] ltac:(lia) eq_refl
                (ex_intro _ _ eq_refl)) as (chain & i' & s' & E & Hl & Hd).
    rewrite Nat.sub_0_r in E, Hl.
    assert (Hrun : rerollRolls (onesThenFour k) (S k) None [oneOfSix] start
                   = Ok (chain ++ [])%list s').
    { unfold rerollRolls, bind. cbn [rerollGuard oneOfSix dieRollOf type].
      change (rerollTarget None 1%Q && rerollTarget None (inject_Z 6)) with false.
      cbv iota. cbn [ret rerollFor]. unfold bind. unfold start.
      change (dieRollOf (inject_Z 6) 0 0) with oneOfSix.
      rewrite E. reflexivity. }
    eexists _, _. split; [exact Hrun|]. split.
    + rewrite app_nil_r. exact Hl.
    + eapply (rerollFor_spec (onesThenFour k) (S k) None [oneOfSix] 0 start).
      unfold rerollRolls in Hrun. bind_inv Hrun as u s1 E1.
      cbn [rerollGuard oneOfSix dieRollOf type] in E1.
      change (rerollTarget None 1%Q && rerollTarget None (inject_Z 6)) with false in E1.
      cbv iota in E1. ret_inv E1. exact Hrun.
Qed.

Lemma reroll_once_and_reroll_witness :
  (exists out s',
      rerollOnceRolls (onesThenFour 3) None [oneOfSix] start = Ok out s' /\
      RerolledOnce None [oneOfSix] out) /\
  (exists a b s',
      rerollOnceRolls (onesThenFour 3) None [oneOfSix] start = Ok [a; b] s' /\
      roll b = 1 /\ valid (base b) = true /\ reroll b = false /\
      valid (base a) = false /\ reroll a = true /\
      RerolledOnce None [oneOfSix] [a; b]) /\
  (exists out s',
      rerollRolls (onesThenFour 3) 10 None [oneOfSix] start = Ok out s' /\
      map roll out = [1; 1; 1; 1; 4] /\
      Rerolled None [oneOfSix] out).
Proof.
  split; [| split].
  - exact (proj1 (reroll_once_and_reroll (onesThenFour 3) None [oneOfSix] start)
                 eq_refl).
  - eexists _, _, _. split; [vm_compute; reflexivity|].
    repeat split.
    apply (proj1 (proj2 (reroll_once_and_reroll (onesThenFour 3) None [oneOfSix] start))
                 _ (mkState 1 [])).
    vm_compute. reflexivity.
  - eexists _, _. split; [vm_compute; reflexivity|].
    split; [reflexivity|].
    apply (proj1 (proj2 (proj2
             (reroll_once_and_reroll (onesThenFour 3) None [oneOfSix] start)))
                 10%nat _ (mkState 4 [])).
    vm_compute. reflexivity.
Defined.

(** ** Explode, compound and penetrate: the guard, and the lengths *)

(** A target that matches 1 and the number of faces matches every face in
    between. *)
Lemma successTest_between mod_ target die x :
  successTest mod_ target 1%Q = true ->
  successTest mod_ target die = true ->
  (1 <= x)%Q -> (x <= die)%Q ->
  successTest mod_ target x = true.
Proof.
  unfold successTest, Js.le, Js.eq. intros H1 Hd Hx1 Hxd.
  destruct (mod_ =? ">").
  - apply Qle_bool_iff in H1. apply Qle_bool_iff. lra.
  - destruct (mod_ =? "<").
    + apply Qle_bool_iff in Hd. apply Qle_bool_iff. lra.
    + apply Qeq_bool_iff in H1, Hd. apply Qeq_bool_iff. lra.
Qed.

(** With an explicit target that matches both 1 and the number of faces of
    the first roll, explode and compound throw before anything is rolled,
    whatever the state; penetrate does when the face of the first roll is
    within 1..faces. *)
Lemma explicit_target_is_guarded this mod_ targetValue die crit r0 rest s :
  type r0 = roll_t die crit ->
  successTest mod_ targetValue 1%Q = true ->
  successTest mod_ targetValue die = true ->
  explodeRolls this (Some (mod_, targetValue)) (r0 :: rest) s = Throw InvalidRerollTarget /\
  compoundRolls this (Some (mod_, targetValue)) (r0 :: rest) s = Throw InvalidRerollTarget /\
  ((1 <= Js.ofZ (roll r0))%Q -> (Js.ofZ (roll r0) <= die)%Q ->
   penetrateRolls this (Some (mod_, targetValue)) (r0 :: rest) s
   = Throw InvalidRerollTarget).
Proof.
  intros Ht H1 Hd. unfold explodeRolls, compoundRolls, penetrateRolls.
  rewrite Ht. cbn [explodeTargetBare explodeTarget]. rewrite H1, Hd.
  repeat split.
  intros Hlo Hhi.
  rewrite (successTest_between mod_ targetValue die _ H1 Hd Hlo Hhi).
  reflexivity.
Qed.

Lemma compoundWhile_total this target budget :
  forall roll i rollValue s,
  exists v s', compoundWhile this target budget roll i rollValue s = Ok v s'.
Proof.
  induction budget as [|b IH]; intros roll i rollValue s; cbn [compoundWhile];
    destruct (explodeTarget target roll); try (eexists _, _; reflexivity).
  unfold bind. rewrite reRoll_Ok. apply IH.
Qed.

Lemma compoundFor_cons this target i roll rest :
  compoundFor this target i (roll :: rest)
  = (rollValue <- compoundWhile this target 1000 roll i (Roll.roll roll) ;;
     let roll := if explodeTarget target roll then set_explode true roll else roll in
     let roll := set_roll rollValue (upd_base (set_value (Js.ofZ rollValue)) roll) in
     tail <- compoundFor this target (i + 1) rest ;;
     ret (roll :: tail))%roller.
Proof. reflexivity. Qed.

(** The loop of compound returns, and returns as many entries as it was
    given. *)
Lemma compoundFor_length this target rolls :
  forall i s, exists out s',
    compoundFor this target i rolls s = Ok out s' /\
    List.length out = List.length rolls.
Proof.
  induction rolls as [|r rolls IH]; intros i s.
  - eexists _, _. split; reflexivity.
  - rewrite compoundFor_cons.
    destruct (compoundWhile_total this target 1000 r i (roll r) s) as (v & s1 & E1).
    unfold bind at 1. rewrite E1.
    destruct (IH (i + 1) s1) as (out & s2 & E2 & Hl).
    unfold bind at 1. rewrite E2.
    eexists _, _. split; [reflexivity|]. cbn [List.length]. rewrite Hl. reflexivity.
Qed.

(** On a sequence that is not empty, with a target the guard lets through,
    compound returns a sequence of the same length. *)
Lemma compound_preserves_length this target r0 rest s :
  match type r0 with
  | roll_t die _ => explodeTargetBare target 1%Q && explodeTargetBare target die
  | fateroll_t => false
  end = false ->
  exists out s',
    compoundRolls this target (r0 :: rest) s = Ok out s' /\
    List.length out = List.length (r0 :: rest).
Proof.
  intros Hg. unfold compoundRolls. rewrite Hg. apply compoundFor_length.
Qed.

Lemma explodeWhile_S this adjust target budget roll i :
  explodeWhile this adjust target (S budget) roll i
  = if explodeTarget target roll then
      (newRoll <- reRoll this (set_explode true roll) (i + 1) ;;
       '(rest, i') <- explodeWhile this adjust target budget (adjust newRoll) (i + 1) ;;
       ret (set_explode true roll :: rest, i'))%roller
    else ret ([roll], i).
Proof. reflexivity. Qed.

(** The [while] of explode returns the entry followed by the new rolls: at
    least one of them when the entry matches the target. *)
Lemma explodeWhile_total this adjust target budget :
  forall roll i s,
  exists first rest i' s',
    explodeWhile this adjust target budget roll i s = Ok (first :: rest, i') s' /\
    (first = roll \/ first = set_explode true roll) /\
    (explodeTarget target roll = true -> (0 < budget)%nat ->
     first = set_explode true roll /\ rest <> []).
Proof.
  induction budget as [|b IH]; intros roll i s.
  - cbn [explodeWhile]. destruct (explodeTarget target roll);
      eexists _, _, _, _; (split; [reflexivity|]); (split; [left; reflexivity|]);
      intros; try discriminate; lia.
  - rewrite explodeWhile_S. destruct (explodeTarget target roll).
    + unfold bind at 1. rewrite reRoll_Ok.
      destruct (IH (adjust (rollAgain (set_explode true roll) (i + 1)
                                      (randFunction this (drawn s)))) (i + 1)
                   (mkState (S (drawn s)) (cached s)))
        as (f & r & i' & s' & E & _ & _).
      unfold bind at 1. rewrite E.
      eexists _, _, _, _. split; [reflexivity|]. split; [right; reflexivity|].
      intros _ _. split; [reflexivity | discriminate].
    + eexists _, _, _, _. split; [reflexivity|]. split; [left; reflexivity|].
      intros; discriminate.
Qed.

Lemma explodeFor_cons this adjust target i roll rest :
  explodeFor this adjust target i (roll :: rest)
  = ('(chain, i') <- explodeWhile this adjust target 1000
                                  (upd_base (set_order i) roll) i ;;
     tail <- explodeFor this adjust target (i' + 1) rest ;;
     ret (chain ++ tail)%list)%roller.
Proof. reflexivity. Qed.

Lemma explodeTarget_set_order target i roll :
  explodeTarget target (upd_base (set_order i) roll) = explodeTarget target roll.
Proof. destruct target as [[m t]|]; reflexivity. Qed.

(** The loop of explode returns; what it returns is at least as long as
    what it was given, and longer when an entry matches the target. *)
Lemma explodeFor_length this adjust target rolls :
  forall i s, exists out s',
    explodeFor this adjust target i rolls s = Ok out s' /\
    (List.length rolls <= List.length out)%nat /\
    (existsb (explodeTarget target) rolls = true ->
     (List.length rolls < List.length out)%nat).
Proof.
  induction rolls as [|r rolls IH]; intros i s.
  - eexists _, _. split; [reflexivity|]. split; [reflexivity | discriminate].
  - rewrite explodeFor_cons.
    destruct (explodeWhile_total this adjust target 1000
                (upd_base (set_order i) r) i s)
      as (f & rest & i' & s1 & E1 & _ & Hm).
    unfold bind at 1. rewrite E1.
    destruct (IH (i' + 1) s1) as (out & s2 & E2 & Hle & Hlt).
    unfold bind at 1. rewrite E2.
    eexists _, _. split; [reflexivity|].
    rewrite explodeTarget_set_order in Hm.
    cbn [List.length app existsb]. rewrite length_app. split; [lia|].
    intros Hex. apply orb_true_iff in Hex. destruct Hex as [Hr|Hrest].
    + destruct (Hm Hr ltac:(lia)) as [_ Hne].
      destruct rest; [contradiction Hne; reflexivity|]. cbn [List.length]. lia.
    + specialize (Hlt Hrest). lia.
Qed.

(** On a sequence that is not empty, with a target the guard lets through,
    explode returns a sequence that is longer than its input whenever an
    entry matches the target. *)
Lemma explode_grows this target r0 rest s :
  match type r0 with
  | roll_t die _ => explodeTargetBare target 1%Q && explodeTargetBare target die
  | fateroll_t => false
  end = false ->
  exists out s',
    explodeRolls this target (r0 :: rest) s = Ok out s' /\
    (List.length (r0 :: rest) <= List.length out)%nat /\
    (existsb (explodeTarget target) (r0 :: rest) = true ->
     (List.length (r0 :: rest) < List.length out)%nat).
Proof.
  intros Hg. unfold explodeRolls. rewrite Hg. apply explodeFor_length.
Qed.

(** ** Doubles *)

Lemma pow2_pos k : (0 < Js.pow2 k)%Q.
Proof. apply Qpower_0_lt. reflexivity. Qed.

Lemma pow2_add a b : (Js.pow2 (a + b) == Js.pow2 a * Js.pow2 b)%Q.
Proof. apply Qpower_plus. intros H. discriminate H. Qed.

Lemma pow2_le a b : a <= b -> (Js.pow2 a <= Js.pow2 b)%Q.
Proof. intros H. apply Qpower_le_compat_l; [exact H | discriminate]. Qed.

Lemma pow2_lt a b : a < b -> (Js.pow2 a < Js.pow2 b)%Q.
Proof. intros H. apply Qpower_lt_compat_l; [exact H | reflexivity]. Qed.

Lemma pow2_lt_inv a b : (Js.pow2 a < Js.pow2 b)%Q -> a < b.
Proof. intros H. eapply Qpower_lt_compat_l_inv; [exact H | reflexivity]. Qed.

Lemma pow2_Z k : 0 <= k -> (Js.pow2 k == inject_Z (2 ^ k))%Q.
Proof. intros H. unfold Js.pow2. rewrite Zpower_Qpower by exact H. reflexivity. Qed.

(** [ilog2 x] is the exponent of [x]. *)
Lemma ilog2_spec (x : Q) :
  (0 < x)%Q -> (Js.pow2 (Js.ilog2 x) <= x)%Q /\ (x < Js.pow2 (Js.ilog2 x + 1))%Q.
Proof.
  intros Hx. destruct x as [n d].
  assert (Hn : 0 < n).
  { unfold Qlt in Hx. cbn in Hx. lia. }
  unfold Js.ilog2. cbn [Qnum Qden].
  set (ln := Z.log2 n). set (ld := Z.log2 (Z.pos d)).
  destruct (Z.log2_spec n Hn) as [Hn1 Hn2]. fold ln in Hn1, Hn2.
  destruct (Z.log2_spec (Z.pos d) (Pos2Z.is_pos d)) as [Hd1 Hd2]. fold ld in Hd1, Hd2.
  assert (Hln : 0 <= ln) by apply Z.log2_nonneg.
  assert (Hld : 0 <= ld) by apply Z.log2_nonneg.
  assert (Hq : (n # d == inject_Z n / inject_Z (Z.pos d))%Q) by apply Qmake_Qdiv.
  assert (Hdpos : (0 < inject_Z (Z.pos d))%Q) by reflexivity.
  assert (Hlow : (Js.pow2 (ln - ld - 1) < n # d)%Q).
  { rewrite Hq. apply Qlt_shift_div_l; [exact Hdpos|].
    apply Qlt_le_trans with (Js.pow2 (ln - ld - 1) * Js.pow2 (ld + 1))%Q.
    - apply Qmult_lt_l; [apply pow2_pos|].
      rewrite pow2_Z by lia. rewrite <- Zlt_Qlt. replace (Z.succ ld) with (ld + 1) in Hd2 by lia.
      exact Hd2.
    - rewrite <- pow2_add. replace (ln - ld - 1 + (ld + 1)) with ln by lia.
      rewrite pow2_Z by lia. rewrite <- Zle_Qle. exact Hn1. }
  assert (Hhigh : (n # d < Js.pow2 (ln - ld + 1))%Q).
  { rewrite Hq. apply Qlt_shift_div_r; [exact Hdpos|].
    apply Qlt_le_trans with (Js.pow2 (ln + 1)).
    - rewrite pow2_Z by lia. rewrite <- Zlt_Qlt.
      replace (Z.succ ln) with (ln + 1) in Hn2 by lia. exact Hn2.
    - replace (ln + 1) with (ln - ld + 1 + ld) by lia. rewrite pow2_add.
      apply Qmult_le_l; [apply pow2_pos|].
      rewrite pow2_Z by lia. rewrite <- Zle_Qle. exact Hd1. }
  destruct (Qle_bool (Js.pow2 (ln - ld)) (n # d)) eqn:E.
  - apply Qle_bool_iff in E. split; [exact E | exact Hhigh].
  - split; [apply Qlt_le_weak; exact Hlow|].
    replace (ln - ld - 1 + 1) with (ln - ld) by lia.
    apply Qnot_le_lt. intros C. apply Qle_bool_iff in C. congruence.
Qed.

Lemma ilog2_unique (x : Q) (e : Z) :
  (Js.pow2 e <= x)%Q -> (x < Js.pow2 (e + 1))%Q -> Js.ilog2 x = e.
Proof.
  intros H1 H2.
  assert (Hx : (0 < x)%Q) by (eapply Qlt_le_trans; [apply pow2_pos | exact H1]).
  destruct (ilog2_spec x Hx) as [S1 S2].
  assert (A : Js.ilog2 x < e + 1).
  { apply pow2_lt_inv. eapply Qle_lt_trans; [exact S1 | exact H2]. }
  assert (B : e < Js.ilog2 x + 1).
  { apply pow2_lt_inv. eapply Qle_lt_trans; [exact H1 | exact S2]. }
  lia.
Qed.

(** [rne t] is an integer nearest to [t], and an even one when [t] is half
    way between two integers. *)
Lemma rne_spec (t : Q) :
  (inject_Z (Js.rne t) - (1 # 2) <= t)%Q /\
  (t <= inject_Z (Js.rne t) + (1 # 2))%Q /\
  ((t == inject_Z (Js.rne t) + (1 # 2))%Q -> Z.even (Js.rne t) = true) /\
  ((t == inject_Z (Js.rne t) - (1 # 2))%Q -> Z.even (Js.rne t) = true).
Proof.
  unfold Js.rne.
  pose proof (Qfloor_le t) as Hlo. pose proof (Qlt_floor t) as Hhi.
  rewrite inject_Z_plus in Hhi. change (inject_Z 1) with 1%Q in Hhi.
  set (f := Qfloor t) in *.
  destruct (Qle_bool (t - inject_Z f) (1 # 2)) eqn:E1.
  - apply Qle_bool_iff in E1.
    destruct (Qle_bool (1 # 2) (t - inject_Z f)) eqn:E2.
    + apply Qle_bool_iff in E2.
      destruct (Z.even f) eqn:Ev.
      * split; [lra|]. split; [lra|]. split; [intros _; exact Ev | intros H; lra].
      * rewrite inject_Z_plus. change (inject_Z 1) with 1%Q.
        split; [lra|]. split; [lra|]. split; [intros H; lra|].
        intros _. rewrite Z.even_add, Ev. reflexivity.
    + assert (H2 : (t - inject_Z f < 1 # 2)%Q).
      { apply Qnot_le_lt. intros C. apply Qle_bool_iff in C. congruence. }
      split; [lra|]. split; [lra|]. split; intros H; lra.
  - assert (H1 : (1 # 2 < t - inject_Z f)%Q).
    { apply Qnot_le_lt. intros C. apply Qle_bool_iff in C. congruence. }
    rewrite inject_Z_plus. change (inject_Z 1) with 1%Q.
    split; [lra|]. split; [lra|]. split; intros H; lra.
Qed.

(** What [round64] is on a positive real: the multiple of the last bit that
    is nearest to it. *)
Lemma round64_pos (x : Q) :
  (0 < x)%Q ->
  exists e z,
    (Js.pow2 e <= x)%Q /\ (x < Js.pow2 (e + 1))%Q /\
    (Js.round64 x == inject_Z z * Js.pow2 (Js.lastBit e))%Q /\
    ((inject_Z z - (1 # 2)) * Js.pow2 (Js.lastBit e) <= x)%Q /\
    (x <= (inject_Z z + (1 # 2)) * Js.pow2 (Js.lastBit e))%Q /\
    ((x == (inject_Z z + (1 # 2)) * Js.pow2 (Js.lastBit e))%Q -> Z.even z = true) /\
    ((x == (inject_Z z - (1 # 2)) * Js.pow2 (Js.lastBit e))%Q -> Z.even z = true).
Proof.
  intros Hx.
  assert (Ha : (Qabs x == x)%Q) by (apply Qabs_pos; lra).
  assert (Hapos : (0 < Qabs x)%Q) by (rewrite Ha; exact Hx).
  destruct (ilog2_spec (Qabs x) Hapos) as [S1 S2].
  set (e := Js.ilog2 (Qabs x)) in *.
  exists e, (Js.rne (Qabs x / Js.pow2 (Js.lastBit e))).
  rewrite Ha in S1, S2. split; [exact S1|]. split; [exact S2|].
  pose proof (pow2_pos (Js.lastBit e)) as Hp.
  destruct (rne_spec (Qabs x / Js.pow2 (Js.lastBit e))) as (R1 & R2 & R3 & R4).
  set (z := Js.rne (Qabs x / Js.pow2 (Js.lastBit e))) in *.
  assert (Hdiv : (Qabs x / Js.pow2 (Js.lastBit e) * Js.pow2 (Js.lastBit e) == x)%Q).
  { rewrite Ha. field. intros C. rewrite C in Hp. discriminate Hp. }
  split.
  { unfold Js.round64.
    destruct (Qeq_bool x 0) eqn:E0.
    - apply Qeq_bool_iff in E0. rewrite E0 in Hx. discriminate Hx.
    - destruct (Qle_bool 0 x) eqn:E1.
      + reflexivity.
      + exfalso. assert (Qle_bool 0 x = true) by (apply Qle_bool_iff; lra). congruence. }
  split.
  { rewrite <- Hdiv. apply Qmult_le_compat_r; [exact R1 | lra]. }
  split.
  { rewrite <- Hdiv at 1. apply Qmult_le_compat_r; [exact R2 | lra]. }
  split.
  - intros H. apply R3. rewrite <- Hdiv in H.
    apply Qmult_inj_r in H; [exact H|]. intros C. rewrite C in Hp. discriminate Hp.
  - intros H. apply R4. rewrite <- Hdiv in H.
    apply Qmult_inj_r in H; [exact H|]. intros C. rewrite C in Hp. discriminate Hp.
Qed.

Lemma round64_at (x : Q) (e : Z) :
  (Js.pow2 e <= x)%Q -> (x < Js.pow2 (e + 1))%Q ->
  exists z,
    (Js.round64 x == inject_Z z * Js.pow2 (Js.lastBit e))%Q /\
    ((inject_Z z - (1 # 2)) * Js.pow2 (Js.lastBit e) <= x)%Q /\
    (x <= (inject_Z z + (1 # 2)) * Js.pow2 (Js.lastBit e))%Q /\
    ((x == (inject_Z z + (1 # 2)) * Js.pow2 (Js.lastBit e))%Q -> Z.even z = true) /\
    ((x == (inject_Z z - (1 # 2)) * Js.pow2 (Js.lastBit e))%Q -> Z.even z = true).
Proof.
  intros H1 H2.
  assert (Hx : (0 < x)%Q) by (eapply Qlt_le_trans; [apply pow2_pos | exact H1]).
  destruct (round64_pos x Hx) as (e' & z & S1 & S2 & R).
  assert (A : e' < e + 1).
  { apply pow2_lt_inv. eapply Qle_lt_trans; [exact S1 | exact H2]. }
  assert (B : e < e' + 1).
  { apply pow2_lt_inv. eapply Qle_lt_trans; [exact H1 | exact S2]. }
  assert (e' = e) by lia. subst e'. exists z. exact R.
Qed.

Lemma round64_zero (x : Q) : (x == 0)%Q -> Js.round64 x = 0%Q.
Proof.
  intros H. unfold Js.round64.
  assert (E : Qeq_bool x 0 = true) by (apply Qeq_bool_iff; exact H).
  rewrite E. reflexivity.
Qed.

Lemma inject_Z_half_le (a b : Z) :
  (inject_Z a - (1 # 2) <= inject_Z b)%Q -> a <= b.
Proof.
  intros H. assert (L : (inject_Z a < inject_Z (b + 1))%Q).
  { rewrite inject_Z_plus. change (inject_Z 1) with 1%Q. lra. }
  rewrite <- Zlt_Qlt in L. lia.
Qed.

Lemma inject_Z_le_half (a b : Z) :
  (inject_Z a <= inject_Z b + (1 # 2))%Q -> a <= b.
Proof.
  intros H. assert (L : (inject_Z a < inject_Z (b + 1))%Q).
  { rewrite inject_Z_plus. change (inject_Z 1) with 1%Q. lra. }
  rewrite <- Zlt_Qlt in L. lia.
Qed.

(** A multiple of a power of two is a multiple of every smaller one. *)
Lemma grid_refine (k q q0 : Z) :
  q0 <= q ->
  (inject_Z k * Js.pow2 q == inject_Z (k * 2 ^ (q - q0)) * Js.pow2 q0)%Q.
Proof.
  intros H. replace q with ((q - q0) + q0) at 1 by lia.
  rewrite pow2_add, pow2_Z by lia. rewrite inject_Z_mult. ring.
Qed.

(** Rounding never crosses a double: a bound that is a multiple of a power
    of two not below the last bit of [x] bounds the double nearest to [x]
    as well. *)
Lemma round64_le_grid (x : Q) (k q b : Z) :
  (0 < x)%Q -> (x < Js.pow2 b)%Q -> Z.max (b - 53) (-1074) <= q ->
  (x <= inject_Z k * Js.pow2 q)%Q ->
  (Js.round64 x <= inject_Z k * Js.pow2 q)%Q.
Proof.
  intros Hx Hb Hq Hk.
  destruct (round64_pos x Hx) as (e & z & S1 & S2 & R0 & R1 & R2 & _).
  assert (A : e < b).
  { apply pow2_lt_inv. eapply Qle_lt_trans; [exact S1 | exact Hb]. }
  assert (Hq0 : Js.lastBit e <= q) by (unfold Js.lastBit; lia).
  pose proof (pow2_pos (Js.lastBit e)) as Hp.
  rewrite (grid_refine k q (Js.lastBit e) Hq0) in Hk |- *.
  set (K := k * 2 ^ (q - Js.lastBit e)) in *.
  rewrite R0. apply Qmult_le_compat_r; [| lra].
  rewrite <- Zle_Qle. apply inject_Z_half_le.
  apply Qmult_le_r with (Js.pow2 (Js.lastBit e)); [exact Hp|].
  eapply Qle_trans; [exact R1 | exact Hk].
Qed.

Lemma round64_ge_grid (x : Q) (k q b : Z) :
  (0 < x)%Q -> (x < Js.pow2 b)%Q -> Z.max (b - 53) (-1074) <= q ->
  (inject_Z k * Js.pow2 q <= x)%Q ->
  (inject_Z k * Js.pow2 q <= Js.round64 x)%Q.
Proof.
  intros Hx Hb Hq Hk.
  destruct (round64_pos x Hx) as (e & z & S1 & S2 & R0 & R1 & R2 & _).
  assert (A : e < b).
  { apply pow2_lt_inv. eapply Qle_lt_trans; [exact S1 | exact Hb]. }
  assert (Hq0 : Js.lastBit e <= q) by (unfold Js.lastBit; lia).
  pose proof (pow2_pos (Js.lastBit e)) as Hp.
  rewrite (grid_refine k q (Js.lastBit e) Hq0) in Hk |- *.
  set (K := k * 2 ^ (q - Js.lastBit e)) in *.
  rewrite R0. apply Qmult_le_compat_r; [| lra].
  rewrite <- Zle_Qle. apply inject_Z_le_half.
  apply Qmult_le_r with (Js.pow2 (Js.lastBit e)); [exact Hp|].
  eapply Qle_trans; [exact Hk | exact R2].
Qed.

Lemma round64_nonneg (x : Q) : (0 <= x)%Q -> (0 <= Js.round64 x)%Q.
Proof.
  intros H. destruct (Qeq_dec x 0) as [E|E].
  - rewrite (round64_zero x E). lra.
  - assert (Hx : (0 < x)%Q).
    { apply Qle_lteq in H. destruct H as [H|H]; [exact H|]. exfalso. apply E. symmetry. exact H. }
    destruct (round64_pos x Hx) as (e & z & _ & _ & R0 & _ & R2 & _).
    pose proof (pow2_pos (Js.lastBit e)) as Hp.
    rewrite R0. apply Qmult_le_0_compat; [| lra].
    change 0%Q with (inject_Z 0). rewrite <- Zle_Qle.
    assert (L : (0 < inject_Z z + (1 # 2))%Q).
    { destruct (Qlt_le_dec 0 (inject_Z z + (1 # 2))) as [L|L]; [exact L|].
      exfalso. assert ((inject_Z z + (1 # 2)) * Js.pow2 (Js.lastBit e) <= 0)%Q by nra. lra. }
    assert (L' : (inject_Z (-1) < inject_Z z)%Q) by (change (inject_Z (-1)) with (-1 # 1)%Q; lra).
    rewrite <- Zlt_Qlt in L'. lia.
Qed.

(** The double nearest to a real below an integer of at most 53 bits is not
    above the integer. *)
Lemma round64_below (x : Q) (n : Z) :
  (0 <= x)%Q -> (x < inject_Z n)%Q -> n <= 2 ^ 53 ->
  (0 <= Js.round64 x)%Q /\ (Js.round64 x <= inject_Z n)%Q.
Proof.
  intros H0 Hn Hb. split; [apply round64_nonneg; exact H0|].
  destruct (Qeq_dec x 0) as [E|E].
  - rewrite (round64_zero x E). lra.
  - assert (Hx : (0 < x)%Q).
    { apply Qle_lteq in H0. destruct H0 as [H|H]; [exact H|]. exfalso. apply E. symmetry. exact H. }
    assert (G : (Js.round64 x <= inject_Z n * Js.pow2 0)%Q).
    { apply round64_le_grid with (b := 53).
      - exact Hx.
      - eapply Qlt_le_trans; [exact Hn|]. rewrite pow2_Z by lia. rewrite <- Zle_Qle. exact Hb.
      - lia.
      - change (Js.pow2 0) with 1%Q. lra. }
    change (Js.pow2 0) with 1%Q in G. lra.
Qed.

Lemma Qfloor_is (y : Q) (n : Z) :
  (inject_Z n <= y)%Q -> (y < inject_Z n + 1)%Q -> Qfloor y = n.
Proof.
  intros H1 H2.
  pose proof (Qfloor_le y) as A. pose proof (Qlt_floor y) as B.
  rewrite inject_Z_plus in B. change (inject_Z 1) with 1%Q in B.
  assert (L1 : (inject_Z n < inject_Z (Qfloor y + 1))%Q).
  { rewrite inject_Z_plus. change (inject_Z 1) with 1%Q. lra. }
  assert (L2 : (inject_Z (Qfloor y) < inject_Z (n + 1))%Q).
  { rewrite inject_Z_plus. change (inject_Z 1) with 1%Q. lra. }
  rewrite <- Zlt_Qlt in L1, L2. lia.
Qed.

(** [toFixed] below 1e21: the nearest integer, halves away from zero. *)
Lemma toFixed0_small (y : Q) :
  (0 <= y)%Q -> (y < 1000000000000000000000 # 1)%Q ->
  Js.toFixed0 y = Qfloor (y + (1 # 2)).
Proof.
  intros H0 H1. unfold Js.toFixed0.
  assert (Ha : (Qabs y == y)%Q) by (apply Qabs_pos; exact H0).
  destruct (Qle_bool (1000000000000000000000 # 1) (Qabs y)) eqn:E.
  { apply Qle_bool_iff in E. rewrite Ha in E. lra. }
  assert (E0 : Qle_bool 0 y = true) by (apply Qle_bool_iff; exact H0).
  rewrite E0. apply Qfloor_comp. rewrite Ha. reflexivity.
Qed.

Lemma toFixed0_range (x : Q) (faces : Z) :
  (0 <= x)%Q -> (x < inject_Z faces)%Q -> faces <= 2 ^ 53 ->
  0 <= Js.toFixed0 (Js.round64 x) <= faces.
Proof.
  intros H0 Hf Hb.
  destruct (round64_below x faces H0 Hf Hb) as [Y0 Y1].
  assert (Hbig : (inject_Z faces <= inject_Z (2 ^ 53))%Q) by (rewrite <- Zle_Qle; exact Hb).
  assert (Hc : (inject_Z (2 ^ 53) < 1000000000000000000000 # 1)%Q) by reflexivity.
  rewrite toFixed0_small by lra.
  split.
  - change 0 with (Qfloor 0). apply Qfloor_resp_le. lra.
  - assert (H : (inject_Z (Qfloor (Js.round64 x + (1 # 2))) < inject_Z (faces + 1))%Q).
    { eapply Qle_lt_trans; [apply Qfloor_le|]. rewrite inject_Z_plus.
      change (inject_Z 1) with 1%Q. lra. }
    rewrite <- Zlt_Qlt in H. lia.
Qed.

(** The integer that [round64] picks in a given binade, against the
    integers around it; a real half way between two doubles goes to the
    one with the even significand. *)
Lemma round64_binade (x : Q) (e : Z) :
  (Js.pow2 e <= x)%Q -> (x < Js.pow2 (e + 1))%Q ->
  exists z,
    (Js.round64 x == inject_Z z * Js.pow2 (Js.lastBit e))%Q /\
    (forall k, (inject_Z k * Js.pow2 (Js.lastBit e) <= x)%Q -> k <= z) /\
    (forall k, (x <= inject_Z k * Js.pow2 (Js.lastBit e))%Q -> z <= k) /\
    (forall k, (x < (inject_Z k - (1 # 2)) * Js.pow2 (Js.lastBit e))%Q -> z < k) /\
    (forall k, ((inject_Z k - (1 # 2)) * Js.pow2 (Js.lastBit e) <= x)%Q ->
               Z.even k = true -> k <= z).
Proof.
  intros H1 H2. destruct (round64_at x e H1 H2) as (z & R0 & R1 & R2 & R3 & R4).
  pose proof (pow2_pos (Js.lastBit e)) as Hp.
  set (p := Js.pow2 (Js.lastBit e)) in *.
  exists z. split; [exact R0|].
  split; [| split; [| split]].
  - intros k Hk. apply inject_Z_le_half.
    apply Qmult_le_r with p; [exact Hp|]. eapply Qle_trans; [exact Hk | exact R2].
  - intros k Hk. apply inject_Z_half_le.
    apply Qmult_le_r with p; [exact Hp|]. eapply Qle_trans; [exact R1 | exact Hk].
  - intros k Hk.
    assert (L : ((inject_Z z - (1 # 2)) * p < (inject_Z k - (1 # 2)) * p)%Q)
      by (eapply Qle_lt_trans; [exact R1 | exact Hk]).
    apply Qmult_lt_r in L; [| exact Hp].
    rewrite Zlt_Qlt. lra.
  - intros k Hk Hev.
    assert (L : ((inject_Z k - (1 # 2)) * p <= (inject_Z z + (1 # 2)) * p)%Q)
      by (eapply Qle_trans; [exact Hk | exact R2]).
    apply Qmult_le_r in L; [| exact Hp].
    assert (L' : (inject_Z (k - 1) <= inject_Z z)%Q).
    { replace (k - 1) with (k + -1) by lia. rewrite inject_Z_plus.
      change (inject_Z (-1)) with (-1 # 1)%Q. lra. }
    rewrite <- Zle_Qle in L'.
    destruct (Z.eq_dec z (k - 1)) as [E|E]; [| lia].
    exfalso.
    assert (Hz : Z.even z = true).
    { apply R3. apply Qle_antisym; [exact R2|].
      eapply Qle_trans; [| exact Hk]. apply Qmult_le_compat_r; [| lra].
      rewrite E. replace (k - 1) with (k + -1) by lia. rewrite inject_Z_plus.
      change (inject_Z (-1)) with (-1 # 1)%Q. lra. }
    rewrite E in Hz. replace (k - 1) with (Z.pred k) in Hz by lia.
    rewrite Z.even_pred in Hz. rewrite <- Z.negb_even in Hz. rewrite Hev in Hz. discriminate Hz.
Qed.

(** ** A standard die without modifiers *)

(** What [generateDiceRoll] yields for a sample in [0, 1) and a die of at
    most [2 ^ 53] faces: a face between 1 and the number of faces plus
    one. *)
Lemma dieRollOf_face_range (faces order : Z) (r : Q) :
  1 <= faces -> faces <= 2 ^ 53 -> (0 <= r)%Q -> (r < 1)%Q ->
  1 <= roll (dieRollOf (inject_Z faces) order r) <= faces + 1.
Proof.
  intros Hf Hb H0 H1. cbn [dieRollOf roll]. unfold Js.mul.
  assert (Hpos : (0 < inject_Z faces)%Q).
  { change 0%Q with (inject_Z 0). rewrite <- Zlt_Qlt. lia. }
  assert (Hlo : (0 <= r * inject_Z faces)%Q) by nra.
  assert (Hhi : (r * inject_Z faces < inject_Z faces)%Q) by nra.
  pose proof (toFixed0_range _ _ Hlo Hhi Hb). lia.
Qed.

(** The face is the number of faces plus one for every sample in the last
    half step below 1, on a die of at most [2 ^ 52] faces. *)
Lemma dieRollOf_face_above (faces order : Z) (r : Q) :
  1 <= faces -> faces <= 2 ^ 52 -> (r < 1)%Q ->
  (inject_Z faces - (1 # 2) <= r * inject_Z faces)%Q ->
  roll (dieRollOf (inject_Z faces) order r) = faces + 1.
Proof.
  intros Hf Hb H1 Hr. cbn [dieRollOf roll]. unfold Js.mul. f_equal.
  assert (Hpos : (0 < inject_Z faces)%Q).
  { change 0%Q with (inject_Z 0). rewrite <- Zlt_Qlt. lia. }
  assert (Hone : (1 <= inject_Z faces)%Q).
  { change 1%Q with (inject_Z 1). rewrite <- Zle_Qle. lia. }
  assert (Hx : (0 < r * inject_Z faces)%Q) by lra.
  assert (Hhi : (r * inject_Z faces < inject_Z faces)%Q) by nra.
  set (x := (r * inject_Z faces)%Q) in *.
  assert (Hb53 : faces <= 2 ^ 53) by (change (2 ^ 52) with 4503599627370496 in Hb;
                                      change (2 ^ 53) with 9007199254740992; lia).
  destruct (round64_below x faces ltac:(lra) Hhi Hb53) as [Y0 Y1].
  assert (Hbig : (inject_Z faces <= inject_Z (2 ^ 52))%Q) by (rewrite <- Zle_Qle; exact Hb).
  assert (Hge : (inject_Z (2 * faces - 1) * Js.pow2 (-1) <= Js.round64 x)%Q).
  { apply round64_ge_grid with (b := 52).
    - exact Hx.
    - eapply Qlt_le_trans; [exact Hhi|]. rewrite pow2_Z by lia. exact Hbig.
    - unfold Z.max. cbn. lia.
    - change (Js.pow2 (-1)) with (1 # 2)%Q.
      replace (2 * faces - 1) with (2 * faces + -1) by lia.
      rewrite inject_Z_plus, inject_Z_mult.
      change (inject_Z (-1)) with (-1 # 1)%Q. change (inject_Z 2) with 2%Q. lra. }
  change (Js.pow2 (-1)) with (1 # 2)%Q in Hge.
  replace (2 * faces - 1) with (2 * faces + -1) in Hge by lia.
  rewrite inject_Z_plus, inject_Z_mult in Hge.
  change (inject_Z (-1)) with (-1 # 1)%Q in Hge. change (inject_Z 2) with 2%Q in Hge.
  assert (Hc : (inject_Z (2 ^ 52) < 1000000000000000000000 # 1)%Q) by reflexivity.
  rewrite toFixed0_small by lra.
  apply Qfloor_is; lra.
Qed.

(** The face comes from the product as a double.  The double nearest to
    0.3 times 5 is below 1.5 as a real and is [1.5] as a double, which
    [toFixed] prints as 2: the face is 3. *)
Lemma generateDiceRoll_rounds_the_product :
  (threeTenths * 5 < 3 # 2)%Q /\
  (Js.mul threeTenths 5 == 3 # 2)%Q /\
  roll (dieRollOf 5 0 threeTenths) = 3.
Proof. repeat split; vm_compute; reflexivity. Qed.

Lemma arrayFrom_generateDiceRoll this die n :
  forall i s,
    arrayFrom_from (generateDiceRoll this die) i n s
    = Ok (map (fun k => dieRollOf die (i + Z.of_nat k)
                                  (randFunction this (drawn s + k)))
              (seq 0 n))
         (mkState (drawn s + n) (cached s)).
Proof.
  induction n as [|n IH]; intros i s.
  - cbn. rewrite Nat.add_0_r. destruct s; reflexivity.
  - cbn [arrayFrom_from]. unfold bind at 1. rewrite generateDiceRoll_Ok.
    unfold bind at 1. rewrite IH. unfold ret. cbn [drawn cached seq map].
    rewrite <- seq_shift, map_map.
    apply f_equal2.
    + apply f_equal2.
      * rewrite Z.add_0_r, Nat.add_0_r. reflexivity.
      * apply map_ext. intros k.
        replace (i + 1 + Z.of_nat k) with (i + Z.of_nat (S k)) by lia.
        replace (S (drawn s) + k)%nat with (drawn s + S k)%nat by lia.
        reflexivity.
    + replace (S (drawn s) + n)%nat with (drawn s + S n)%nat by lia. reflexivity.
Qed.

(** A standard die of at most [2 ^ 53] faces without modifiers, targets
    and match: as many rolls as the count says, each freshly generated,
    with a face between 1 and the number of faces plus one, and a value
    that is the sum of the values of the rolls. *)
Lemma plain_die_rolls this fuel count die sort label s cnt s1 d s2 (faces : Z) :
  (forall n, 0 <= randFunction this n /\ randFunction this n < 1)%Q ->
  (forall l, die <> FateExpr l) ->
  rollType this fuel count s = Ok cnt s1 ->
  Js.lt (maxRollCount this) (value (common cnt)) = false ->
  rollType this fuel die s1 = Ok d s2 ->
  value (common d) = inject_Z faces ->
  1 <= faces -> faces <= 2 ^ 53 ->
  exists c rolls s',
    rollType this fuel (FullRoll count die None None None sort label) s
    = Ok (DiceRollResult c cnt d rolls false) s' /\
    List.length rolls = Js.toLength (value (common cnt)) /\
    Forall (fun x => 1 <= roll x <= faces + 1 /\ valid (base x) = true /\
                     value (base x) = Js.ofZ (roll x)) rolls /\
    (value c == sumQ (map (fun x => value (base x)) rolls))%Q.
Proof.
  intros Hrand Hdie Hcnt Hmax Hd Hfaces Hpos Hbound.
  set (gen := map (fun k => dieRollOf (inject_Z faces) (0 + Z.of_nat k)
                                      (randFunction this (drawn s2 + k)))
                  (seq 0 (Js.toLength (value (common cnt))))).
  assert (Hgen : (die0 <- rollType this fuel die ;;
                  rolls <- arrayFrom (Js.toLength (value (common cnt)))
                             (fun i => generateDiceRoll this (value (common die0)) i) ;;
                  ret (die0, rolls))%roller s1
                 = Ok (d, gen) (mkState (drawn s2 + Js.toLength (value (common cnt)))
                                        (cached s2))).
  { unfold bind at 1. rewrite Hd. unfold arrayFrom, bind.
    rewrite Hfaces.
    rewrite (arrayFrom_generateDiceRoll this (inject_Z faces)). reflexivity. }
  assert (Hsel : match die with
                 | FateExpr _ =>
                     (rolls <- arrayFrom (Js.toLength (value (common cnt)))
                                (fun i => generateFateRoll this i) ;;
                      ret (FateMarker {| value := 0%Q; valid := false; success := None;
                                         successes := 0; failures := 0; order := 0;
                                         label := None; drop := false |}, rolls))%roller
                 | _ =>
                     (die0 <- rollType this fuel die ;;
                      rolls <- arrayFrom (Js.toLength (value (common cnt)))
                                 (fun i => generateDiceRoll this (value (common die0)) i) ;;
                      ret (die0, rolls))%roller
                 end s1
                 = Ok (d, gen) (mkState (drawn s2 + Js.toLength (value (common cnt)))
                                        (cached s2))).
  { destruct die; try exact Hgen. exfalso. eapply Hdie. reflexivity. }
  assert (Hall : Forall (fun x => 1 <= roll x <= faces + 1 /\ valid (base x) = true /\
                                  value (base x) = Js.ofZ (roll x)) gen).
  { unfold gen. apply Forall_forall. intros x Hx. apply in_map_iff in Hx.
    destruct Hx as (k & <- & _). split; [| split; reflexivity].
    apply dieRollOf_face_range; [exact Hpos | exact Hbound | apply Hrand | apply Hrand]. }
  set (rolls := match sort with Some so => applySort gen so | None => gen end).
  assert (Hall' : Forall (fun x => 1 <= roll x <= faces + 1 /\ valid (base x) = true /\
                                   value (base x) = Js.ofZ (roll x)) rolls).
  { unfold rolls. destruct sort as [so|]; [| exact Hall].
    apply applySort_Forall; [| exact Hall]. intros i x Hx. exact Hx. }
  assert (Hrun : rollDie this fuel (rollType this fuel) count die None None None sort s
                 = Ok (DiceRollResult (newCommon (sumValid rolls) None 0 0)
                                      cnt d rolls false)
                      (mkState (drawn s2 + Js.toLength (value (common cnt)))
                               (cached s2))).
  { unfold rollDie. rewrite (bind_Ok_intro _ _ _ _ _ Hcnt). rewrite Hmax.
    rewrite (bind_Ok_intro _ _ _ _ _ Hsel). reflexivity. }
  rewrite rollType_unfold. rewrite (bind_Ok_intro _ _ _ _ _ Hrun).
  cbn [label_of]. unfold ret.
  assert (Hlen : List.length rolls = Js.toLength (value (common cnt))).
  { unfold rolls. destruct sort as [so|].
    + unfold applySort.
      assert (Hri : forall l i, List.length (reindex i l) = List.length l).
      { intros l. induction l as [|x l IHl]; intros i; simpl; [reflexivity|].
        rewrite IHl. reflexivity. }
      rewrite Hri, sort_length. unfold gen. rewrite length_map, length_seq. reflexivity.
    + unfold gen. rewrite length_map, length_seq. reflexivity. }
  assert (Hv : (sumValid rolls == sumQ (map (fun x => value (base x)) rolls))%Q).
  { rewrite sumValid_spec.
    rewrite (filter_all (fun c => valid (getBase c)) rolls); [reflexivity|].
    eapply Forall_impl; [| exact Hall']. intros x (_ & Hx & _). exact Hx. }
  destruct (truthy label); eexists _, rolls, _;
    (split; [reflexivity|]); (split; [exact Hlen|]); (split; [exact Hall'|]);
    exact Hv.
Qed.

(** ** Keep the highest: what holds on each path *)

Section SortByKey.
Context {T : Type}.
Variable cmp : T -> T -> number.
Variable key : T -> Q.
Hypothesis cmp_key : forall a b, (cmp a b <= 0)%Q <-> (key a <= key b)%Q.

Let R (a b : T) : Prop := (key a <= key b)%Q.

Lemma insert_StronglySorted x l :
  StronglySorted R l -> StronglySorted R (Js.insert cmp x l).
Proof.
  induction 1 as [|y l Hs IH Hy]; cbn [Js.insert].
  - constructor; constructor.
  - destruct (Qle_bool (cmp x y) 0) eqn:E.
    + apply Qle_bool_iff, cmp_key in E.
      constructor; [constructor; assumption|].
      constructor; [exact E|].
      eapply Forall_impl; [| exact Hy]. intros z Hz. unfold R in *. lra.
    + assert (Hlt : (key y < key x)%Q).
      { destruct (Qlt_le_dec (key y) (key x)) as [Hl|Hl]; [exact Hl|].
        apply cmp_key, Qle_bool_iff in Hl. congruence. }
      constructor; [exact IH|].
      eapply Permutation_Forall.
      * apply Permutation_sym, insert_Permutation.
      * constructor; [unfold R; lra | exact Hy].
Qed.

(** The sort returns a list in the order of the keys. *)
Lemma sort_StronglySorted l : StronglySorted R (Js.sort cmp l).
Proof.
  induction l as [|x l IH]; cbn [Js.sort fold_right].
  - constructor.
  - apply insert_StronglySorted. exact IH.
Qed.

(** The sort is stable: a list already in the order of the keys comes back
    as it is. *)
Lemma sort_sorted_id l : StronglySorted R l -> Js.sort cmp l = l.
Proof.
  induction 1 as [|x l Hs IH Hx]; [reflexivity|].
  cbn [Js.sort fold_right]. fold (Js.sort cmp l). rewrite IH.
  destruct l as [|y l']; [reflexivity|].
  cbn [Js.insert]. inversion Hx; subst.
  assert (E : Qle_bool (cmp x y) 0 = true) by (apply Qle_bool_iff, cmp_key; assumption).
  rewrite E. reflexivity.
Qed.

(** A list in the order of the keys that is a permutation of a list with
    strictly increasing keys is that list. *)
Lemma sorted_unique l1 :
  forall l2,
    StronglySorted R l1 ->
    StronglySorted (fun a b => (key a < key b)%Q) l2 ->
    Permutation l1 l2 -> l1 = l2.
Proof.
  induction l1 as [|y q IH]; intros l2 H1 H2 Hp.
  - apply Permutation_nil in Hp. subst. reflexivity.
  - destruct l2 as [|x l'].
    { apply Permutation_sym, Permutation_nil in Hp. discriminate. }
    inversion H1 as [|? ? Hq Hy]; subst. inversion H2 as [|? ? Hl' Hx]; subst.
    assert (Hyx : y = x).
    { assert (Hin1 : In y (x :: l')).
      { eapply Permutation_in; [exact Hp | left; reflexivity]. }
      assert (Hin2 : In x (y :: q)).
      { eapply Permutation_in; [apply Permutation_sym; exact Hp | left; reflexivity]. }
      destruct Hin1 as [E|Hin1]; [symmetry; exact E|].
      destruct Hin2 as [E|Hin2]; [exact E|].
      rewrite Forall_forall in Hy, Hx.
      specialize (Hy _ Hin2). specialize (Hx _ Hin1). unfold R in Hy. lra. }
    subst y. f_equal. apply IH; [assumption | assumption |].
    eapply Permutation_cons_inv. exact Hp.
Qed.

Lemma sort_of_permutation p l :
  Permutation p l ->
  StronglySorted (fun a b => (key a < key b)%Q) l ->
  Js.sort cmp p = l.
Proof.
  intros Hp Hl. apply sorted_unique; [apply sort_StronglySorted | exact Hl |].
  eapply Permutation_trans; [apply sort_Permutation | exact Hp].
Qed.

End SortByKey.

(** The sort only looks at its list through the comparisons: two lists
    related entry by entry, by a relation the comparisons do not see, are
    sorted alike. *)
Lemma sort_Forall2 {T} (cmp : T -> T -> number) (Rel : T -> T -> Prop) :
  (forall a a' b b', Rel a a' -> Rel b b' ->
                     Qle_bool (cmp a b) 0 = Qle_bool (cmp a' b') 0) ->
  forall l l', Forall2 Rel l l' -> Forall2 Rel (Js.sort cmp l) (Js.sort cmp l').
Proof.
  intros Hrel.
  assert (Hins : forall x x', Rel x x' ->
                 forall l l', Forall2 Rel l l' ->
                              Forall2 Rel (Js.insert cmp x l) (Js.insert cmp x' l')).
  { intros x x' Hx l l' Hl. induction Hl as [|y y' l l' Hy Hl IH]; cbn [Js.insert].
    - constructor; [exact Hx | constructor].
    - rewrite (Hrel x x' y y' Hx Hy).
      destruct (Qle_bool (cmp x' y') 0).
      + constructor; [exact Hx|]. constructor; assumption.
      + constructor; assumption. }
  intros l l' Hl. induction Hl as [|y y' l l' Hy Hl IH]; cbn [Js.sort fold_right].
  - constructor.
  - apply Hins; assumption.
Qed.

Lemma dropLoop_all_valid {T} `{RollLike T} (toDrop : Q) (td : Z) :
  (toDrop == inject_Z td)%Q ->
  forall (l : list T) d,
    Forall (fun x => valid (getBase x) = true) l ->
    dropLoop toDrop d l
    = (map dropped (firstn (Z.to_nat (td - d)) l) ++ skipn (Z.to_nat (td - d)) l)%list.
Proof.
  intros Htd l. induction l as [|x l IH]; intros d Hv; cbn [dropLoop].
  - rewrite firstn_nil, skipn_nil. reflexivity.
  - inversion Hv as [|? ? Hx Hl]; subst.
    unfold Js.lt, Js.ofZ. destruct (Qle_bool toDrop (inject_Z d)) eqn:E; cbn [negb].
    + apply Qle_bool_iff in E. rewrite Htd in E. rewrite <- Zle_Qle in E.
      replace (Z.to_nat (td - d)) with 0%nat by lia. reflexivity.
    + assert (Hlt : d < td).
      { destruct (Z_lt_le_dec d td) as [Hl'|Hl']; [exact Hl'|].
        assert (C : Qle_bool toDrop (inject_Z d) = true).
        { apply Qle_bool_iff. rewrite Htd. rewrite <- Zle_Qle. exact Hl'. }
        congruence. }
      rewrite Hx. rewrite (IH (d + 1) Hl).
      replace (Z.to_nat (td - d)) with (S (Z.to_nat (td - (d + 1)))) by lia.
      reflexivity.
Qed.

Lemma countValid_all {T} `{RollLike T} (l : list T) :
  Forall (fun x => valid (getBase x) = true) l ->
  countValid l = Z.of_nat (List.length l).
Proof.
  unfold countValid. intros Hv.
  assert (G : forall a, fold_left (fun value roll =>
                          (if valid (getBase roll) then 1 else 0) + value) l a
                        = a + Z.of_nat (List.length l)).
  { induction Hv as [|x l Hx Hl IH]; intros a; cbn [fold_left List.length].
    - lia.
    - rewrite Hx, IH. lia. }
  rewrite G. lia.
Qed.

(** Keep-highest on entries that are all valid: the entries sorted by
    increasing value, the first [n - min(k, n)] of them discarded. *)
Lemma keepRolls_all_valid {T} `{RollLike T} (lookup : T -> number) (kz : Z)
    (rolls : list T) :
  0 <= kz ->
  Forall (fun x => valid (getBase x) = true) rolls ->
  let p := Js.sort (fun a b => (lookup a - lookup b)%Q) rolls in
  let m := (List.length rolls - Z.to_nat kz)%nat in
  keepRolls (Some "h") lookup (inject_Z kz) rolls
  = (map dropped (firstn m p) ++ skipn m p)%list.
Proof.
  intros Hk Hv p m.
  destruct rolls as [|r0 rest]; [reflexivity|].
  unfold keepRolls. cbv iota.
  set (rolls := r0 :: rest) in *. clearbody rolls.
  fold p.
  assert (Hvp : Forall (fun x => valid (getBase x) = true) p).
  { apply sort_Forall. exact Hv. }
  assert (Hid : Js.sort (fun a b => (boolNum (valid (getBase a))
                                     - boolNum (valid (getBase b)))%Q) p = p).
  { apply (sort_sorted_id _ (fun a => boolNum (valid (getBase a)))).
    - intros a b. lra.
    - clear - Hvp. induction Hvp as [|x l Hx Hl IH]; constructor; [exact IH|].
      eapply Forall_impl; [| exact Hl]. intros y Hy. cbv beta. rewrite Hx, Hy.
      apply Qle_refl. }
  rewrite Hid.
  assert (Hlen : List.length p = List.length rolls) by apply sort_length.
  rewrite (dropLoop_all_valid _ (Z.of_nat (List.length rolls)
                                 - Z.min kz (Z.of_nat (List.length rolls)))).
  - replace (Z.to_nat (Z.of_nat (List.length rolls)
                       - Z.min kz (Z.of_nat (List.length rolls)) - 0)) with m by lia.
    reflexivity.
  - rewrite (countValid_all p Hvp), Hlen. unfold Js.ofZ, Js.ofNat.
    assert (Hkeep : (Qmax (Qmin (inject_Z kz) (inject_Z (Z.of_nat (List.length rolls)))) 0
                     == inject_Z (Z.min kz (Z.of_nat (List.length rolls))))%Q).
    { destruct (Z_le_gt_dec kz (Z.of_nat (List.length rolls))) as [Hle|Hgt].
      + rewrite Z.min_l by exact Hle.
        rewrite (Q.min_l (inject_Z kz)) by (rewrite <- Zle_Qle; exact Hle).
        apply Q.max_l. change 0%Q with (inject_Z 0). rewrite <- Zle_Qle. exact Hk.
      + rewrite Z.min_r by lia.
        rewrite (Q.min_r (inject_Z kz)) by (rewrite <- Zle_Qle; lia).
        apply Q.max_l. change 0%Q with (inject_Z 0). rewrite <- Zle_Qle. lia. }
    rewrite Hkeep. unfold Z.sub. rewrite inject_Z_plus, inject_Z_opp. reflexivity.
  - exact Hvp.
Qed.

Lemma StronglySorted_impl {T} (R R' : T -> T -> Prop) l :
  (forall a b, R a b -> R' a b) -> StronglySorted R l -> StronglySorted R' l.
Proof.
  intros HR. induction 1 as [|x l Hs IH Hx]; constructor; [exact IH|].
  eapply Forall_impl; [| exact Hx]. intros y. apply HR.
Qed.

Lemma StronglySorted_app_le {T} (R : T -> T -> Prop) l1 l2 :
  StronglySorted R (l1 ++ l2) ->
  forall a b, In a l1 -> In b l2 -> R a b.
Proof.
  induction l1 as [|x l1 IH]; intros Hs a b Ha Hb; [destruct Ha|].
  cbn [app] in Hs. inversion Hs as [|? ? Hs' Hx]; subst.
  destruct Ha as [<-|Ha].
  - rewrite Forall_forall in Hx. apply Hx. apply in_or_app. right. exact Hb.
  - apply IH; assumption.
Qed.

Lemma filter_length_Permutation {T} (p : T -> bool) l l' :
  Permutation l l' -> List.length (filter p l) = List.length (filter p l').
Proof.
  induction 1 as [| x l l' Hp IH | x y l | l l' l'' H1 IH1 H2 IH2]; cbn [filter].
  - reflexivity.
  - destruct (p x); cbn [List.length]; rewrite IH; reflexivity.
  - destruct (p x), (p y); reflexivity.
  - rewrite IH1. exact IH2.
Qed.

Section KeepFacts.
Context {T : Type} `{RollLike T}.
Hypothesis getBase_updBase : forall f (x : T), getBase (updBase f x) = f (getBase x).

Lemma dropped_flags (x : T) :
  valid (getBase (dropped x)) = false /\ drop (getBase (dropped x)) = true /\
  value (getBase (dropped x)) = value (getBase x) /\
  order (getBase (dropped x)) = order (getBase x).
Proof. unfold dropped. rewrite getBase_updBase. repeat split. Qed.

(** The list [p] with its first [m] entries discarded. *)
Lemma discard_prefix_facts (p : list T) (m : nat) :
  Forall (fun x => valid (getBase x) = true) p ->
  let q := (map dropped (firstn m p) ++ skipn m p)%list in
  Forall2 KeptOrDropped p q /\
  List.length (filter (fun x => valid (getBase x)) q) = (List.length p - m)%nat /\
  Forall (fun y => valid (getBase y) = false -> drop (getBase y) = true) q /\
  (forall x y, In x q -> In y q ->
               valid (getBase x) = true -> valid (getBase y) = false ->
               exists x0 y0, In y0 (firstn m p) /\ In x0 (skipn m p) /\
                             x = x0 /\ y = dropped y0).
Proof.
  intros Hv q. subst q. revert m. induction Hv as [|a p Ha Hp IH]; intros m.
  - rewrite firstn_nil, skipn_nil. cbn. repeat split; try constructor.
    intros x y [].
  - destruct m as [|m].
    + cbn [firstn skipn map app]. repeat split.
      * constructor; [left; reflexivity|].
        clear. induction p; constructor; [left; reflexivity | assumption].
      * rewrite (filter_all (fun x => valid (getBase x)) (a :: p));
          [cbn [List.length]; lia | constructor; assumption].
      * constructor; [intros C; congruence|].
        eapply Forall_impl; [| exact Hp]. intros y Hy C. congruence.
      * intros x y Hx Hy Hvx Hvy. exfalso.
        assert (Hall : Forall (fun z => valid (getBase z) = true) (a :: p))
          by (constructor; assumption).
        rewrite Forall_forall in Hall. specialize (Hall _ Hy). congruence.
    + cbn [firstn skipn map app].
      destruct (IH m) as (F2 & Fl & Fd & Fo).
      destruct (dropped_flags a) as (D1 & D2 & _).
      repeat split.
      * constructor; [right; reflexivity | exact F2].
      * cbn [filter]. rewrite D1. rewrite Fl. cbn [List.length]. lia.
      * constructor; [intros _; exact D2 | exact Fd].
      * intros x y Hx Hy Hvx Hvy.
        destruct Hx as [<-|Hx]; [congruence|].
        destruct Hy as [<-|Hy].
        -- apply in_app_or in Hx. destruct Hx as [Hx|Hx].
           ++ apply in_map_iff in Hx. destruct Hx as (x0 & <- & _).
              destruct (dropped_flags x0) as (C & _). congruence.
           ++ exists x, a. repeat split; [left; reflexivity | exact Hx].
        -- destruct (Fo x y Hx Hy Hvx Hvy) as (x0 & y0 & I1 & I2 & -> & ->).
           exists x0, y0. repeat split; [right; exact I1 | exact I2].
Qed.

(** Keep-highest with the count [kz] on [n] entries that are all valid,
    before any sort by [order]: no entry is lost, [min(kz, n)] entries stay
    valid, the others are discarded ([valid = false], [drop = true]), no
    discarded entry has a higher value than a kept one, and the result is
    in the order of the values. *)
Lemma keepRolls_highest (lookup : T -> number) (kz : Z) (rolls : list T) :
  (forall x, lookup (dropped x) = lookup x) ->
  0 <= kz ->
  Forall (fun x => valid (getBase x) = true) rolls ->
  let out := keepRolls (Some "h") lookup (inject_Z kz) rolls in
  (exists p, Permutation p rolls /\ Forall2 KeptOrDropped p out) /\
  List.length out = List.length rolls /\
  List.length (filter (fun x => valid (getBase x)) out)
  = Nat.min (Z.to_nat kz) (List.length rolls) /\
  Forall (fun y => valid (getBase y) = false -> drop (getBase y) = true) out /\
  (forall x y, In x out -> In y out ->
               valid (getBase x) = true -> valid (getBase y) = false ->
               (lookup y <= lookup x)%Q) /\
  StronglySorted (fun a b => (lookup a <= lookup b)%Q) out.
Proof.
  intros Hlook Hk Hv out. subst out.
  rewrite (keepRolls_all_valid lookup kz rolls Hk Hv).
  set (p := Js.sort (fun a b => (lookup a - lookup b)%Q) rolls).
  set (m := (List.length rolls - Z.to_nat kz)%nat).
  assert (Hpp : Permutation p rolls) by apply sort_Permutation.
  assert (Hvp : Forall (fun x => valid (getBase x) = true) p).
  { apply sort_Forall. exact Hv. }
  assert (Hsorted : StronglySorted (fun a b => (lookup a <= lookup b)%Q) p).
  { apply (sort_StronglySorted _ lookup). intros a b. lra. }
  destruct (discard_prefix_facts p m Hvp) as (F2 & Fl & Fd & Fo).
  assert (Hlen : List.length p = List.length rolls) by apply sort_length.
  split; [exists p; split; assumption|].
  split; [rewrite <- Hlen; symmetry; eapply Forall2_length; exact F2|].
  split; [rewrite Fl, Hlen; unfold m; lia|].
  split; [exact Fd|].
  split.
  - intros x y Hx Hy Hvx Hvy.
    destruct (Fo x y Hx Hy Hvx Hvy) as (x0 & y0 & I1 & I2 & -> & ->).
    rewrite Hlook.
    rewrite <- (firstn_skipn m p) in Hsorted.
    exact (StronglySorted_app_le _ _ _ Hsorted y0 x0 I1 I2).
  - assert (G : forall l l', Forall2 KeptOrDropped l l' ->
                StronglySorted (fun a b => (lookup a <= lookup b)%Q) l ->
                StronglySorted (fun a b => (lookup a <= lookup b)%Q) l').
    { clear - Hlook. intros l l' HF. induction HF as [|a a' l l' Ha HF IH]; intros Hs.
      - constructor.
      - inversion Hs as [|? ? Hs' Hx]; subst. constructor; [apply IH; exact Hs'|].
        assert (Ea : lookup a' = lookup a).
        { destruct Ha as [->| ->]; [reflexivity | apply Hlook]. }
        rewrite Ea. clear - HF Hx Hlook.
        induction HF as [|b b' l l' Hb HF IH]; [constructor|].
        inversion Hx; subst. constructor; [| apply IH; assumption].
        destruct Hb as [->| ->]; [assumption | rewrite Hlook; assumption]. }
    exact (G _ _ F2 Hsorted).
Qed.

End KeepFacts.

Lemma order_cmp_key (a b : DieRollBase) :
  (Js.ofZ (order (base a) - order (base b)) <= 0)%Q
  <-> (inject_Z (order (base a)) <= inject_Z (order (base b)))%Q.
Proof.
  unfold Js.ofZ. change 0%Q with (inject_Z 0). rewrite <- !Zle_Qle. lia.
Qed.

(** Keep-highest of a die, with the count [kz], on [n] rolls that are all
    valid.  No roll is removed; [min(kz, n)] rolls stay valid and every
    other one has [valid = false] and [drop = true]; no discarded roll has
    a higher face than a kept one; the rolls come back sorted by [order],
    and when they were given with increasing [order] they come back in the
    positions they had. *)
Lemma die_keep_highest (kz : Z) (rolls : list DieRollBase) :
  0 <= kz ->
  Forall (fun x => valid (base x) = true) rolls ->
  let out := dieKeep (Some "h") (inject_Z kz) rolls in
  List.length out = List.length rolls /\
  List.length (filter (fun x => valid (base x)) out)
  = Nat.min (Z.to_nat kz) (List.length rolls) /\
  Forall (fun y => valid (base y) = false -> drop (base y) = true) out /\
  (exists l', Permutation l' rolls /\ Forall2 KeptOrDropped l' out) /\
  StronglySorted (fun a b => order (base a) <= order (base b)) out /\
  (StronglySorted (fun a b => order (base a) < order (base b)) rolls ->
   Forall2 KeptOrDropped rolls out) /\
  (forall x y, In x out -> In y out ->
               valid (base x) = true -> valid (base y) = false ->
               roll y <= roll x).
Proof.
  intros Hk Hv out. subst out. unfold dieKeep.
  assert (Hlaw : forall f (x : DieRollBase), getBase (updBase f x) = f (getBase x)).
  { intros f x. reflexivity. }
  assert (Hface : forall x : DieRollBase, face (dropped x) = face x).
  { intros x. reflexivity. }
  destruct (keepRolls_highest Hlaw face kz rolls Hface Hk Hv)
    as ((p & Hpp & F2) & Hlen & Hcount & Hdrop & Hhigh & _).
  set (q := keepRolls (Some "h") face (inject_Z kz) rolls) in *.
  assert (Hperm : Permutation (sortByOrder q) q) by apply sort_Permutation.
  assert (F2' : Forall2 KeptOrDropped (sortByOrder p) (sortByOrder q)).
  { unfold sortByOrder. apply sort_Forall2; [| exact F2].
    intros a a' b b' [->| ->] [->| ->]; reflexivity. }
  split; [unfold sortByOrder; rewrite sort_length; exact Hlen|].
  split; [rewrite (filter_length_Permutation _ _ _ Hperm); exact Hcount|].
  split; [eapply Permutation_Forall; [apply Permutation_sym, Hperm | exact Hdrop]|].
  split.
  { exists (sortByOrder p). split; [| exact F2'].
    eapply Permutation_trans; [apply sort_Permutation | exact Hpp]. }
  split.
  { eapply StronglySorted_impl;
      [| apply (sort_StronglySorted _ (fun a => inject_Z (order (base a)))
                                    order_cmp_key)].
    intros a b Hab. cbv beta in Hab. rewrite <- Zle_Qle in Hab. exact Hab. }
  split.
  { intros Hinc.
    assert (E : sortByOrder p = rolls).
    { apply (sort_of_permutation _ (fun a => inject_Z (order (base a))) order_cmp_key);
        [exact Hpp|].
      eapply StronglySorted_impl; [| exact Hinc].
      intros a b Hab. cbv beta. rewrite <- Zlt_Qlt. exact Hab. }
    rewrite <- E. exact F2'. }
  intros x y Hx Hy Hvx Hvy.
  assert (Hx' : In x q) by (eapply Permutation_in; [exact Hperm | exact Hx]).
  assert (Hy' : In y q) by (eapply Permutation_in; [exact Hperm | exact Hy]).
  specialize (Hhigh x y Hx' Hy' Hvx Hvy). unfold face, Js.ofZ in Hhigh.
  rewrite <- Zle_Qle in Hhigh. exact Hhigh.
Qed.

(** Through [applyMod]: a keep-highest modifier of a die whose count
    expression evaluates to [k] returns [dieKeep]. *)
Lemma applyMod_keep this fuel rt expr k s1 rolls s :
  rt expr s = Ok k s1 ->
  applyMod this fuel rt rolls (KeepDropModType keep_k (Some "h") expr) s
  = Ok (dieKeep (Some "h") (value (common k)) rolls) s1.
Proof.
  intros Hk. unfold applyMod, getModMethod, getKeepMethod, bind. rewrite Hk.
  reflexivity.
Qed.

(** Keep-highest of a group, with the count [kz], on [n] entries that are
    all valid: the same, except for the order, which is the order of the
    values. *)
Lemma group_keep_highest (kz : Z) (rolls : list RollBase) :
  0 <= kz ->
  Forall (fun x => valid (common x) = true) rolls ->
  let out := groupKeep (Some "h") (inject_Z kz) rolls in
  (exists p, Permutation p rolls /\ Forall2 KeptOrDropped p out) /\
  List.length out = List.length rolls /\
  List.length (filter (fun x => valid (common x)) out)
  = Nat.min (Z.to_nat kz) (List.length rolls) /\
  Forall (fun y => valid (common y) = false -> drop (common y) = true) out /\
  (forall x y, In x out -> In y out ->
               valid (common x) = true -> valid (common y) = false ->
               (value (common y) <= value (common x))%Q) /\
  StronglySorted (fun a b => (value (common a) <= value (common b))%Q) out.
Proof.
  intros Hk Hv.
  assert (Hlaw : forall f (x : RollBase), getBase (updBase f x) = f (getBase x)).
  { intros f x. destruct x; reflexivity. }
  apply (keepRolls_highest Hlaw (fun roll => value (common roll)) kz rolls);
    [| exact Hk | exact Hv].
  intros x. destruct x; reflexivity.
Qed.

(** ** The fate die *)

Lemma pow2_m54 : Js.pow2 (-54) = (1 # 18014398509481984)%Q.
Proof. vm_compute. reflexivity. Qed.

Lemma pow2_m53 : Js.pow2 (-53) = (1 # 9007199254740992)%Q.
Proof. vm_compute. reflexivity. Qed.

Lemma pow2_m52 : Js.pow2 (-52) = (1 # 4503599627370496)%Q.
Proof. vm_compute. reflexivity. Qed.

Lemma pow2_m51 : Js.pow2 (-51) = (1 # 2251799813685248)%Q.
Proof. vm_compute. reflexivity. Qed.

Ltac double_consts :=
  change (Js.lastBit (-1)) with (-53) in *; change (Js.lastBit 0) with (-52) in *;
  change (Js.lastBit 1) with (-51) in *;
  change (-1 + 1) with 0 in *; change (0 + 1) with 1 in *; change (1 + 1) with 2 in *;
  rewrite ?pow2_m51, ?pow2_m52, ?pow2_m53, ?pow2_m54 in *;
  change (Js.pow2 (-1)) with (1 # 2)%Q in *; change (Js.pow2 0) with 1%Q in *;
  change (Js.pow2 1) with 2%Q in *; change (Js.pow2 2) with 4%Q in *.

(** Below [1 - 2^-54] the product is a double below 1. *)
Lemma round64_fate_low (x : Q) :
  (0 <= x)%Q -> (x < 1 - Js.pow2 (-54))%Q ->
  (0 <= Js.round64 x)%Q /\ (Js.round64 x < 1)%Q.
Proof.
  intros H0 H1. split; [apply round64_nonneg; exact H0|].
  destruct (Qlt_le_dec x (1 # 2)) as [Hs|Hs].
  - destruct (Qeq_dec x 0) as [E|E]; [rewrite (round64_zero x E); reflexivity|].
    assert (Hx : (0 < x)%Q).
    { apply Qle_lteq in H0. destruct H0 as [H|H]; [exact H|]. exfalso. apply E. symmetry. exact H. }
    assert (G : (Js.round64 x <= inject_Z 1 * Js.pow2 (-1))%Q).
    { apply round64_le_grid with (b := -1); [exact Hx | exact Hs | lia |].
      change (inject_Z 1 * Js.pow2 (-1))%Q with (1 * (1 # 2))%Q. lra. }
    change (inject_Z 1 * Js.pow2 (-1))%Q with (1 * (1 # 2))%Q in G. lra.
  - destruct (round64_binade x (-1)) as (z & R0 & _ & _ & Rlt & _).
    + exact Hs.
    + double_consts. lra.
    + assert (Hz : z < 9007199254740992).
      { apply Rlt. double_consts.
        change (inject_Z 9007199254740992) with (9007199254740992 # 1)%Q. lra. }
      assert (Hz' : (inject_Z z <= inject_Z 9007199254740991)%Q) by (rewrite <- Zle_Qle; lia).
      change (inject_Z 9007199254740991) with (9007199254740991 # 1)%Q in Hz'.
      double_consts. rewrite R0. lra.
Qed.

(** From [1 - 2^-54] to below [2 - 2^-53] it is a double from 1 to below 2. *)
Lemma round64_fate_mid (x : Q) :
  (1 - Js.pow2 (-54) <= x)%Q -> (x < 2 - Js.pow2 (-53))%Q ->
  (1 <= Js.round64 x)%Q /\ (Js.round64 x < 2)%Q.
Proof.
  intros H0 H1. double_consts.
  destruct (Qlt_le_dec x 1) as [Hs|Hs].
  - destruct (round64_binade x (-1)) as (z & R0 & _ & Rle & _ & Rev).
    + change (Js.pow2 (-1)) with (1 # 2)%Q. lra.
    + exact Hs.
    + assert (Hz : 9007199254740992 <= z).
      { apply Rev; [| reflexivity]. double_consts.
        change (inject_Z 9007199254740992) with (9007199254740992 # 1)%Q. lra. }
      assert (Hz2 : z <= 9007199254740992).
      { apply Rle. double_consts.
        change (inject_Z 9007199254740992) with (9007199254740992 # 1)%Q. lra. }
      rewrite Zle_Qle in Hz, Hz2.
      change (inject_Z 9007199254740992) with (9007199254740992 # 1)%Q in Hz, Hz2.
      double_consts. rewrite R0. split; lra.
  - destruct (round64_binade x 0) as (z & R0 & Rge & _ & Rlt & _).
    + exact Hs.
    + change (Js.pow2 (0 + 1)) with 2%Q. lra.
    + assert (Hz : 4503599627370496 <= z).
      { apply Rge. double_consts.
        change (inject_Z 4503599627370496) with (4503599627370496 # 1)%Q. lra. }
      assert (Hz2 : z < 9007199254740992).
      { apply Rlt. double_consts.
        change (inject_Z 9007199254740992) with (9007199254740992 # 1)%Q. lra. }
      assert (Hz3 : (inject_Z z <= inject_Z 9007199254740991)%Q) by (rewrite <- Zle_Qle; lia).
      rewrite Zle_Qle in Hz.
      change (inject_Z 4503599627370496) with (4503599627370496 # 1)%Q in Hz.
      change (inject_Z 9007199254740991) with (9007199254740991 # 1)%Q in Hz3.
      double_consts. rewrite R0. split; lra.
Qed.

(** From [2 - 2^-53] up to three times the last double below 1 it is a
    double from 2 to below 3. *)
Lemma round64_fate_high (x : Q) :
  (2 - Js.pow2 (-53) <= x)%Q -> (x <= (1 - Js.pow2 (-53)) * 3)%Q ->
  (2 <= Js.round64 x)%Q /\ (Js.round64 x < 3)%Q.
Proof.
  intros H0 H1. double_consts.
  destruct (Qlt_le_dec x 2) as [Hs|Hs].
  - destruct (round64_binade x 0) as (z & R0 & _ & Rle & _ & Rev).
    + change (Js.pow2 0) with 1%Q. lra.
    + exact Hs.
    + assert (Hz : 9007199254740992 <= z).
      { apply Rev; [| reflexivity]. double_consts.
        change (inject_Z 9007199254740992) with (9007199254740992 # 1)%Q. lra. }
      assert (Hz2 : z <= 9007199254740992).
      { apply Rle. double_consts.
        change (inject_Z 9007199254740992) with (9007199254740992 # 1)%Q. lra. }
      rewrite Zle_Qle in Hz, Hz2.
      change (inject_Z 9007199254740992) with (9007199254740992 # 1)%Q in Hz, Hz2.
      double_consts. rewrite R0. split; lra.
  - destruct (round64_binade x 1) as (z & R0 & Rge & _ & Rlt & _).
    + exact Hs.
    + change (Js.pow2 (1 + 1)) with 4%Q. lra.
    + assert (Hz : 4503599627370496 <= z).
      { apply Rge. double_consts.
        change (inject_Z 4503599627370496) with (4503599627370496 # 1)%Q. lra. }
      assert (Hz2 : z < 6755399441055744).
      { apply Rlt. double_consts.
        change (inject_Z 6755399441055744) with (6755399441055744 # 1)%Q. lra. }
      assert (Hz3 : (inject_Z z <= inject_Z 6755399441055743)%Q) by (rewrite <- Zle_Qle; lia).
      rewrite Zle_Qle in Hz.
      change (inject_Z 4503599627370496) with (4503599627370496 # 1)%Q in Hz.
      change (inject_Z 6755399441055743) with (6755399441055743 # 1)%Q in Hz3.
      double_consts. rewrite R0. split; lra.
Qed.

(** The floor of the product of a sample and 3, as [generateFateRoll]
    computes it. *)
Lemma fate_product_cases (r : Q) :
  (0 <= r)%Q -> (r <= 1 - Js.pow2 (-53))%Q ->
  (Qfloor (Js.mul r 3) = 0 <-> (r * 3 < 1 - Js.pow2 (-54))%Q) /\
  (Qfloor (Js.mul r 3) = 1 <->
     (1 - Js.pow2 (-54) <= r * 3)%Q /\ (r * 3 < 2 - Js.pow2 (-53))%Q) /\
  (Qfloor (Js.mul r 3) = 2 <-> (2 - Js.pow2 (-53) <= r * 3)%Q).
Proof.
  intros H0 H1. unfold Js.mul.
  assert (Hx0 : (0 <= r * 3)%Q) by lra.
  assert (Hx1 : (r * 3 <= (1 - Js.pow2 (-53)) * 3)%Q) by lra.
  set (x := (r * 3)%Q) in *. clearbody x.
  assert (Hlow : (x < 1 - Js.pow2 (-54))%Q -> Qfloor (Js.round64 x) = 0).
  { intros H. destruct (round64_fate_low x Hx0 H). apply Qfloor_is.
    - exact H2.
    - change (inject_Z 0 + 1)%Q with 1%Q. exact H3. }
  assert (Hmid : (1 - Js.pow2 (-54) <= x)%Q -> (x < 2 - Js.pow2 (-53))%Q ->
                 Qfloor (Js.round64 x) = 1).
  { intros Ha Hb. destruct (round64_fate_mid x Ha Hb). apply Qfloor_is.
    - exact H.
    - change (inject_Z 1 + 1)%Q with 2%Q. exact H2. }
  assert (Hhigh : (2 - Js.pow2 (-53) <= x)%Q -> Qfloor (Js.round64 x) = 2).
  { intros Ha. destruct (round64_fate_high x Ha Hx1). apply Qfloor_is.
    - exact H.
    - change (inject_Z 2 + 1)%Q with 3%Q. exact H2. }
  assert (Hord : (1 - Js.pow2 (-54) < 2 - Js.pow2 (-53))%Q) by (double_consts; reflexivity).
  destruct (Qlt_le_dec x (1 - Js.pow2 (-54))) as [A|A].
  - rewrite (Hlow A). intuition (try discriminate; try lra).
  - destruct (Qlt_le_dec x (2 - Js.pow2 (-53))) as [B|B].
    + rewrite (Hmid A B). intuition (try discriminate; try lra).
    + rewrite (Hhigh B). intuition (try discriminate; try lra).
Qed.

(** X1. A fate die, on a sample [r] of the random source with
    [0 <= r <= 1 - 2^-53] (the doubles of [0, 1)), returns a roll of type
    ["fateroll"] whose value is its face, draws that one sample and leaves
    the cache alone.  The face is the floor of the double nearest to
    [r * 3], less one: it is [-1] when [r * 3 < 1 - 2^-54], [0] when
    [1 - 2^-54 <= r * 3 < 2 - 2^-53], and [1] when [2 - 2^-53 <= r * 3],
    where [r * 3] is the exact product.  So the sample just below a third
    whose product is half way between two doubles has the face [0]. *)
Theorem generateFateRoll_faces (this : DiceRoller) (order : Z) (s : State) :
  (0 <= randFunction this (drawn s))%Q ->
  (randFunction this (drawn s) <= 1 - Js.pow2 (-53))%Q ->
  exists d,
    generateFateRoll this order s = Ok d (mkState (S (drawn s)) (cached s)) /\
    type d = fateroll_t /\
    value (base d) = Js.ofZ (roll d) /\
    (roll d = -1 <-> (randFunction this (drawn s) * 3 < 1 - Js.pow2 (-54))%Q) /\
    (roll d = 0 <-> (1 - Js.pow2 (-54) <= randFunction this (drawn s) * 3)%Q /\
                    (randFunction this (drawn s) * 3 < 2 - Js.pow2 (-53))%Q) /\
    (roll d = 1 <-> (2 - Js.pow2 (-53) <= randFunction this (drawn s) * 3)%Q).
Proof.
  intros H0 H1. rewrite generateFateRoll_Ok. eexists. split; [reflexivity|].
  split; [reflexivity|]. split; [reflexivity|].
  cbn [fateRollOf roll].
  destruct (fate_product_cases _ H0 H1) as (A & B & C).
  set (y := Qfloor (Js.mul (randFunction this (drawn s)) 3)) in *.
  repeat split; intros; try (apply A; lia); try (apply B; lia); try (apply C; lia).
  - assert (y = 0) by (apply A; assumption). lia.
  - assert (y = 1) by (apply B; assumption). lia.
  - assert (y = 2) by (apply C; assumption). lia.
Qed.

Lemma generateFateRoll_faces_witness :
  exists d,
    generateFateRoll (rollerOf (fun _ => 6004799503160661 # 18014398509481984)) 0 start
    = Ok d (mkState 1 []) /\
    ((6004799503160661 # 18014398509481984) < 1 # 3)%Q /\
    roll d = 0.
Proof.
  destruct (generateFateRoll_faces
              (rollerOf (fun _ => 6004799503160661 # 18014398509481984)) 0 start)
    as (d & E & _ & _ & _ & Hz & _).
  - vm_compute. discriminate.
  - vm_compute. discriminate.
  - exists d. split; [exact E|]. split; [reflexivity|].
    apply Hz. split; vm_compute; [discriminate | reflexivity].
Defined.

(** ** Drop and keep *)

Lemma sortValid_id {T} `{RollLike T} (p : list T) :
  Forall (fun x => valid (getBase x) = true) p ->
  Js.sort (fun a b => (boolNum (valid (getBase a)) - boolNum (valid (getBase b)))%Q) p = p.
Proof.
  intros Hvp.
  apply (sort_sorted_id _ (fun a => boolNum (valid (getBase a)))).
  - intros a b. lra.
  - induction Hvp as [|x l Hx Hl IH]; constructor; [exact IH|].
    eapply Forall_impl; [| exact Hl]. intros y Hy. cbv beta. rewrite Hx, Hy.
    apply Qle_refl.
Qed.

Lemma clamp_Z (kz n : Z) :
  0 <= kz -> 0 <= n ->
  (Qmax (Qmin (inject_Z kz) (inject_Z n)) 0 == inject_Z (Z.min kz n))%Q.
Proof.
  intros Hk Hn.
  destruct (Z_le_gt_dec kz n) as [Hle|Hgt].
  - rewrite Z.min_l by exact Hle.
    rewrite (Q.min_l (inject_Z kz)) by (rewrite <- Zle_Qle; exact Hle).
    apply Q.max_l. change 0%Q with (inject_Z 0). rewrite <- Zle_Qle. exact Hk.
  - rewrite Z.min_r by lia.
    rewrite (Q.min_r (inject_Z kz)) by (rewrite <- Zle_Qle; lia).
    apply Q.max_l. change 0%Q with (inject_Z 0). rewrite <- Zle_Qle. lia.
Qed.

(** Drop on entries that are all valid, for a sorted list [p]. *)
Lemma dropLoop_drop_all_valid {T} `{RollLike T} (kz : Z) (p : list T) :
  0 <= kz ->
  Forall (fun x => valid (getBase x) = true) p ->
  let m := Nat.min (Z.to_nat kz) (List.length p) in
  dropLoop (Qmax (Qmin (inject_Z kz) (Js.ofNat (List.length p))) 0) 0 p
  = (map dropped (firstn m p) ++ skipn m p)%list.
Proof.
  intros Hk Hv m.
  rewrite (dropLoop_all_valid _ (Z.min kz (Z.of_nat (List.length p)))).
  - replace (Z.to_nat (Z.min kz (Z.of_nat (List.length p)) - 0)) with m by lia.
    reflexivity.
  - unfold Js.ofNat. apply clamp_Z; lia.
  - exact Hv.
Qed.

Lemma dropLoop_keep_all_valid {T} `{RollLike T} (kz : Z) (p : list T) :
  0 <= kz ->
  Forall (fun x => valid (getBase x) = true) p ->
  let m := (List.length p - Z.to_nat kz)%nat in
  dropLoop (Js.ofZ (countValid p)
            - Qmax (Qmin (inject_Z kz) (Js.ofNat (List.length p))) 0)%Q 0 p
  = (map dropped (firstn m p) ++ skipn m p)%list.
Proof.
  intros Hk Hv m.
  rewrite (dropLoop_all_valid _ (Z.of_nat (List.length p)
                                 - Z.min kz (Z.of_nat (List.length p)))).
  - replace (Z.to_nat (Z.of_nat (List.length p)
                       - Z.min kz (Z.of_nat (List.length p)) - 0)) with m by lia.
    reflexivity.
  - rewrite (countValid_all p Hv). unfold Js.ofZ, Js.ofNat.
    rewrite clamp_Z by lia.
    unfold Z.sub. rewrite inject_Z_plus, inject_Z_opp. reflexivity.
  - exact Hv.
Qed.

Lemma keep_drop_core {T} `{RollLike T} (cmp : T -> T -> number) (kz : Z)
    (rolls : list T) :
  0 <= kz <= Z.of_nat (List.length rolls) ->
  Forall (fun x => valid (getBase x) = true) rolls ->
  let p := Js.sort cmp rolls in
  let q := Js.sort (fun a b => (boolNum (valid (getBase a))
                                - boolNum (valid (getBase b)))%Q) p in
  dropLoop (Qmax (Qmin (inject_Z kz) (Js.ofNat (List.length p))) 0) 0 p
  = dropLoop (Js.ofZ (countValid q)
              - Qmax (Qmin (inject_Z (Z.of_nat (List.length rolls) - kz))
                           (Js.ofNat (List.length q))) 0)%Q 0 q.
Proof.
  intros Hk Hv p q.
  assert (Hvp : Forall (fun x => valid (getBase x) = true) p).
  { apply sort_Forall. exact Hv. }
  assert (Hq : q = p) by (apply sortValid_id; exact Hvp).
  rewrite Hq.
  assert (Hlen : List.length p = List.length rolls) by apply sort_length.
  rewrite dropLoop_drop_all_valid by (lia || exact Hvp).
  rewrite dropLoop_keep_all_valid by (lia || exact Hvp).
  rewrite Hlen.
  replace (List.length rolls - Z.to_nat (Z.of_nat (List.length rolls) - kz))%nat
    with (Nat.min (Z.to_nat kz) (List.length rolls)) by lia.
  reflexivity.
Qed.

(** X2. On rolls that are all valid, dropping [k] of the [n] rolls
    ([0 <= k <= n]) is keeping the other [n - k]: drop lowest is keep
    highest, drop without a side is keep without a side, and drop highest
    is keep lowest, entry for entry. *)
Theorem drop_is_keep_of_the_rest {T} `{RollLike T} (lookup : T -> number) (kz : Z)
    (rolls : list T) :
  0 <= kz <= Z.of_nat (List.length rolls) ->
  Forall (fun x => valid (getBase x) = true) rolls ->
  let rest := inject_Z (Z.of_nat (List.length rolls) - kz) in
  dropRolls (Some "l") lookup (inject_Z kz) rolls
  = keepRolls (Some "h") lookup rest rolls /\
  dropRolls None lookup (inject_Z kz) rolls = keepRolls None lookup rest rolls /\
  dropRolls (Some "h") lookup (inject_Z kz) rolls
  = keepRolls (Some "l") lookup rest rolls.
Proof.
  intros Hk Hv rest. subst rest.
  destruct rolls as [|r0 rolls0].
  - repeat split.
  - set (rolls := r0 :: rolls0) in *.
    unfold dropRolls, keepRolls. fold rolls.
    assert (Hne : match rolls with [] => True | _ => rolls = r0 :: rolls0 end)
      by reflexivity.
    repeat split.
    + apply (keep_drop_core (fun a b => (lookup a - lookup b)%Q) kz rolls Hk Hv).
    + apply (keep_drop_core (fun a b => (lookup a - lookup b)%Q) kz rolls Hk Hv).
    + apply (keep_drop_core (fun a b => (lookup b - lookup a)%Q) kz rolls Hk Hv).
Qed.

Lemma drop_is_keep_of_the_rest_witness :
  dropRolls (Some "l") face (inject_Z 1) threeRolls
  = keepRolls (Some "h") face (inject_Z 2) threeRolls.
Proof.
  refine (proj1 (drop_is_keep_of_the_rest face 1 threeRolls _ _)).
  - cbn. lia.
  - repeat constructor.
Defined.

Lemma dropRolls_lowest_all_valid {T} `{RollLike T} (hl : option string)
    (lookup : T -> number) (kz : Z) (rolls : list T) :
  hl = None \/ hl = Some "l" ->
  0 <= kz ->
  Forall (fun x => valid (getBase x) = true) rolls ->
  let p := Js.sort (fun a b => (lookup a - lookup b)%Q) rolls in
  let m := Nat.min (Z.to_nat kz) (List.length rolls) in
  dropRolls hl lookup (inject_Z kz) rolls
  = (map dropped (firstn m p) ++ skipn m p)%list.
Proof.
  intros Hhl Hk Hv p m.
  assert (Hvp : Forall (fun x => valid (getBase x) = true) p).
  { apply sort_Forall. exact Hv. }
  assert (Hlen : List.length p = List.length rolls) by apply sort_length.
  assert (E : dropRolls hl lookup (inject_Z kz) rolls
              = dropLoop (Qmax (Qmin (inject_Z kz) (Js.ofNat (List.length p))) 0) 0 p).
  { destruct Hhl as [-> | ->]; reflexivity. }
  rewrite E, dropLoop_drop_all_valid by assumption.
  rewrite Hlen. reflexivity.
Qed.

(** X3. The drop modifier of a die, without a side or with ["l"], for a count
    [k >= 0] and rolls that are all valid: it evaluates the count
    expression and nothing else, keeps every roll in the result, leaves
    [n - k] of them valid (none when [k > n]) and marks the others as
    dropped, changes nothing else of a roll, returns the rolls sorted by
    their order (in their places when the orders were strictly increasing),
    and no discarded roll has a higher face than a roll that is kept. *)
Theorem die_drop_lowest this fuel rt (hl : option string) expr s k s1 (kz : Z)
    (rolls : list DieRollBase) :
  hl = None \/ hl = Some "l" ->
  rt expr s = Ok k s1 ->
  value (common k) = inject_Z kz ->
  0 <= kz ->
  Forall (fun x => valid (base x) = true) rolls ->
  exists out,
    applyMod this fuel rt rolls (KeepDropModType drop_k hl expr) s = Ok out s1 /\
    List.length out = List.length rolls /\
    List.length (filter (fun x => valid (base x)) out)
    = (List.length rolls - Z.to_nat kz)%nat /\
    Forall (fun y => valid (base y) = false -> drop (base y) = true) out /\
    (exists l', Permutation l' rolls /\ Forall2 KeptOrDropped l' out) /\
    StronglySorted (fun a b => order (base a) <= order (base b)) out /\
    (StronglySorted (fun a b => order (base a) < order (base b)) rolls ->
     Forall2 KeptOrDropped rolls out) /\
    (forall x y, In x out -> In y out ->
                 valid (base x) = true -> valid (base y) = false ->
                 roll y <= roll x).
Proof.
  intros Hhl Hexpr Hkz Hk Hv.
  exists (sortByOrder (dropRolls hl face (inject_Z kz) rolls)).
  split.
  { unfold applyMod, getModMethod, getDropMethod, bind. rewrite Hexpr.
    unfold ret. rewrite Hkz. reflexivity. }
  assert (Hlaw : forall f (x : DieRollBase), getBase (updBase f x) = f (getBase x)).
  { intros f x. reflexivity. }
  rewrite (@dropRolls_lowest_all_valid DieRollBase RollLike_DieRollBase
             hl face kz rolls Hhl Hk Hv).
  set (p := Js.sort (fun a b => (face a - face b)%Q) rolls).
  set (m := Nat.min (Z.to_nat kz) (List.length rolls)).
  assert (Hpp : Permutation p rolls) by apply sort_Permutation.
  assert (Hvp : Forall (fun x => valid (getBase x) = true) p).
  { apply sort_Forall. exact Hv. }
  assert (Hsorted : StronglySorted (fun a b => (face a <= face b)%Q) p).
  { apply (sort_StronglySorted _ face). intros a b. lra. }
  destruct (@discard_prefix_facts DieRollBase RollLike_DieRollBase Hlaw p m Hvp)
    as (F2 & Fl & Fd & Fo).
  assert (Hlen : List.length p = List.length rolls) by apply sort_length.
  set (q := (map dropped (firstn m p) ++ skipn m p)%list) in *.
  assert (Hperm : Permutation (sortByOrder q) q) by apply sort_Permutation.
  assert (F2' : Forall2 KeptOrDropped (sortByOrder p) (sortByOrder q)).
  { unfold sortByOrder. apply sort_Forall2; [| exact F2].
    intros a a' b b' [->| ->] [->| ->]; reflexivity. }
  split.
  { unfold sortByOrder. rewrite sort_length. rewrite <- Hlen. symmetry.
    eapply Forall2_length. exact F2. }
  split.
  { rewrite (filter_length_Permutation _ _ _ Hperm).
    cbn [getBase RollLike_DieRollBase] in Fl. rewrite Fl, Hlen. unfold m. lia. }
  split.
  { eapply Permutation_Forall; [apply Permutation_sym, Hperm | exact Fd]. }
  split.
  { exists (sortByOrder p). split; [| exact F2'].
    eapply Permutation_trans; [apply sort_Permutation | exact Hpp]. }
  split.
  { eapply StronglySorted_impl;
      [| apply (sort_StronglySorted _ (fun a => inject_Z (order (base a)))
                                    order_cmp_key)].
    intros a b Hab. cbv beta in Hab. rewrite <- Zle_Qle in Hab. exact Hab. }
  split.
  { intros Hinc.
    assert (E : sortByOrder p = rolls).
    { apply (sort_of_permutation _ (fun a => inject_Z (order (base a))) order_cmp_key);
        [exact Hpp|].
      eapply StronglySorted_impl; [| exact Hinc].
      intros a b Hab. cbv beta. rewrite <- Zlt_Qlt. exact Hab. }
    rewrite <- E. exact F2'. }
  intros x y Hx Hy Hvx Hvy.
  assert (Hx' : In x q) by (eapply Permutation_in; [exact Hperm | exact Hx]).
  assert (Hy' : In y q) by (eapply Permutation_in; [exact Hperm | exact Hy]).
  destruct (Fo x y Hx' Hy' Hvx Hvy) as (x0 & y0 & I1 & I2 & -> & ->).
  rewrite <- (firstn_skipn m p) in Hsorted.
  pose proof (StronglySorted_app_le _ _ _ Hsorted y0 x0 I1 I2) as Hle.
  unfold face, Js.ofZ in Hle. rewrite <- Zle_Qle in Hle. exact Hle.
Qed.

Lemma die_drop_lowest_witness :
  exists out,
    applyMod (rollerOf (fun _ => 0%Q)) 0 (rollType (rollerOf (fun _ => 0%Q)) 0)
             threeRolls (KeepDropModType drop_k (Some "l") (lit 1)) start
    = Ok out start /\
    map roll out = [4; 1; 6] /\
    map (fun x => valid (base x)) out = [true; false; true].
Proof.
  destruct (die_drop_lowest (rollerOf (fun _ => 0%Q)) 0
              (rollType (rollerOf (fun _ => 0%Q)) 0) (Some "l") (lit 1) start
              _ start 1 threeRolls (or_intror eq_refl) eq_refl eq_refl)
    as (out & E & _).
  - lia.
  - repeat constructor.
  - exists out. split; [exact E|].
    vm_compute in E. injection E as <-. split; reflexivity.
Defined.

Lemma countValid_filter {T} `{RollLike T} (l : list T) :
  countValid l = Z.of_nat (List.length (filter (fun x => valid (getBase x)) l)).
Proof.
  unfold countValid.
  assert (G : forall a, fold_left (fun value roll =>
                          (if valid (getBase roll) then 1 else 0) + value) l a
                        = a + Z.of_nat (List.length
                                          (filter (fun x => valid (getBase x)) l))).
  { induction l as [|x l IH]; intros a; cbn [fold_left filter List.length].
    - lia.
    - rewrite IH. destruct (valid (getBase x)); cbn [List.length]; lia. }
  rewrite G. lia.
Qed.

Section DropLoopFacts.
Context {T : Type} `{RollLike T}.
Hypothesis getBase_updBase : forall f (x : T), getBase (updBase f x) = f (getBase x).

Lemma dropLoop_general (toDrop : Q) (td : Z) :
  (toDrop == inject_Z td)%Q ->
  forall (l : list T) d,
    Forall2 KeptOrNewlyDropped l (dropLoop toDrop d l) /\
    Z.of_nat (List.length (filter (fun x => valid (getBase x)) (dropLoop toDrop d l)))
    = Z.of_nat (List.length (filter (fun x => valid (getBase x)) l))
      - Z.min (Z.of_nat (List.length (filter (fun x => valid (getBase x)) l)))
              (Z.max 0 (td - d)).
Proof.
  intros Htd l. induction l as [|x l IH]; intros d; cbn [dropLoop].
  - split; [constructor | cbn; lia].
  - unfold Js.lt, Js.ofZ. destruct (Qle_bool toDrop (inject_Z d)) eqn:E; cbn [negb].
    + apply Qle_bool_iff in E. rewrite Htd in E. rewrite <- Zle_Qle in E.
      split.
      * clear. induction (x :: l); constructor; [left; reflexivity | assumption].
      * lia.
    + assert (Hlt : d < td).
      { destruct (Z_lt_le_dec d td) as [Hl'|Hl']; [exact Hl'|].
        assert (C : Qle_bool toDrop (inject_Z d) = true).
        { apply Qle_bool_iff. rewrite Htd. rewrite <- Zle_Qle. exact Hl'. }
        congruence. }
      destruct (valid (getBase x)) eqn:Hx.
      * destruct (IH (d + 1)) as [F2 Hc]. split.
        -- constructor; [right; split; [exact Hx | reflexivity] | exact F2].
        -- cbn [filter]. rewrite getBase_updBase. cbn [valid set_drop set_valid].
           rewrite Hx. cbn [List.length]. lia.
      * destruct (IH d) as [F2 Hc]. split.
        -- constructor; [left; reflexivity | exact F2].
        -- cbn [filter]. rewrite Hx. lia.
Qed.

Lemma keepRolls_general (hl : option string) (lookup : T -> number) (kz : Z)
    (rolls : list T) :
  0 <= kz ->
  let out := keepRolls hl lookup (inject_Z kz) rolls in
  (exists p, Permutation p rolls /\ Forall2 KeptOrNewlyDropped p out) /\
  List.length (filter (fun x => valid (getBase x)) out)
  = Nat.min (Z.to_nat kz) (List.length (filter (fun x => valid (getBase x)) rolls)).
Proof.
  intros Hk out. subst out.
  destruct rolls as [|r0 rolls0].
  { cbn. split; [exists []; split; constructor | lia]. }
  unfold keepRolls. cbv iota.
  set (rolls := r0 :: rolls0).
  set (cmp := fun a b : T => match hl with
                             | Some "l" => (lookup b - lookup a)%Q
                             | _ => (lookup a - lookup b)%Q
                             end).
  set (q := Js.sort (fun a b => (boolNum (valid (getBase a))
                                 - boolNum (valid (getBase b)))%Q)
                    (Js.sort cmp rolls)).
  assert (Hq : Permutation q rolls).
  { eapply Permutation_trans; apply sort_Permutation. }
  assert (Hlen : List.length q = List.length rolls) by (apply Permutation_length, Hq).
  set (V := List.length (filter (fun x => valid (getBase x)) rolls)).
  assert (HV : List.length (filter (fun x => valid (getBase x)) q) = V).
  { apply filter_length_Permutation. exact Hq. }
  assert (HVn : (V <= List.length rolls)%nat) by apply filter_length_le.
  assert (Htd : (Js.ofZ (countValid q)
                 - Qmax (Qmin (inject_Z kz) (Js.ofNat (List.length q))) 0
                 == inject_Z (Z.of_nat V - Z.min kz (Z.of_nat (List.length rolls))))%Q).
  { rewrite countValid_filter, HV, Hlen. unfold Js.ofZ, Js.ofNat.
    rewrite clamp_Z by lia.
    unfold Z.sub. rewrite inject_Z_plus, inject_Z_opp. reflexivity. }
  destruct (dropLoop_general _ _ Htd q 0) as [F2 Hc].
  split.
  - exists q. split; assumption.
  - rewrite HV in Hc. lia.
Qed.

End DropLoopFacts.

(** X4. The keep modifier of a die for a count [k >= 0], on rolls of which some
    may already be invalid (rerolled or dropped before): the valid rolls of
    the result are [min k v] in number, for [v] the valid rolls it was
    given; a roll is returned as it was or, when it was valid, discarded;
    the result has as many rolls as before, sorted by their order. *)
Theorem die_keep_among_invalid this fuel rt (hl : option string) expr s k s1 (kz : Z)
    (rolls : list DieRollBase) :
  rt expr s = Ok k s1 ->
  value (common k) = inject_Z kz ->
  0 <= kz ->
  exists out,
    applyMod this fuel rt rolls (KeepDropModType keep_k hl expr) s = Ok out s1 /\
    List.length out = List.length rolls /\
    List.length (filter (fun x => valid (base x)) out)
    = Nat.min (Z.to_nat kz) (List.length (filter (fun x => valid (base x)) rolls)) /\
    (exists l', Permutation l' rolls /\ Forall2 KeptOrNewlyDropped l' out) /\
    StronglySorted (fun a b => order (base a) <= order (base b)) out.
Proof.
  intros Hexpr Hkz Hk.
  exists (sortByOrder (keepRolls hl face (inject_Z kz) rolls)).
  split.
  { unfold applyMod, getModMethod, getKeepMethod, bind. rewrite Hexpr.
    unfold ret. rewrite Hkz. reflexivity. }
  assert (Hlaw : forall f (x : DieRollBase), getBase (updBase f x) = f (getBase x)).
  { intros f x. reflexivity. }
  destruct (@keepRolls_general DieRollBase RollLike_DieRollBase Hlaw hl face kz rolls Hk)
    as ((p & Hp & F2) & Hc).
  set (q := keepRolls hl face (inject_Z kz) rolls) in *.
  assert (Hperm : Permutation (sortByOrder q) q) by apply sort_Permutation.
  split.
  { unfold sortByOrder. rewrite sort_length.
    rewrite <- (Forall2_length F2). apply Permutation_length. exact Hp. }
  split.
  { rewrite (filter_length_Permutation _ _ _ Hperm). exact Hc. }
  split.
  { exists (sortByOrder p). split.
    - eapply Permutation_trans; [apply sort_Permutation | exact Hp].
    - unfold sortByOrder. apply sort_Forall2; [| exact F2].
      intros a a' b b' [->| [_ ->]] [->| [_ ->]]; reflexivity. }
  eapply StronglySorted_impl;
    [| apply (sort_StronglySorted _ (fun a => inject_Z (order (base a)))
                                  order_cmp_key)].
  intros a b Hab. cbv beta in Hab. rewrite <- Zle_Qle in Hab. exact Hab.
Qed.

Lemma die_keep_among_invalid_witness :
  exists out,
    applyMod (rollerOf (fun _ => 0%Q)) 0 (rollType (rollerOf (fun _ => 0%Q)) 0)
             rerolledThenTwo (KeepDropModType keep_k (Some "h") (lit 1)) start
    = Ok out start /\
    map (fun x => valid (base x)) out = [false; false; true].
Proof.
  destruct (die_keep_among_invalid (rollerOf (fun _ => 0%Q)) 0
              (rollType (rollerOf (fun _ => 0%Q)) 0) (Some "h") (lit 1) start
              _ start 1 rerolledThenTwo eq_refl eq_refl)
    as (out & E & _).
  - lia.
  - exists out. split; [exact E|].
    vm_compute in E. injection E as <-. reflexivity.
Defined.

(** ** Sort *)

Lemma sumQ_Permutation l1 l2 : Permutation l1 l2 -> (sumQ l1 == sumQ l2)%Q.
Proof.
  induction 1 as [| x l l' Hp IH | x y l | l l' l'' H1 IH1 H2 IH2]; cbn [sumQ fold_right].
  - reflexivity.
  - fold (sumQ l). fold (sumQ l'). rewrite IH. reflexivity.
  - ring.
  - rewrite IH1. exact IH2.
Qed.

Lemma filter_Permutation {T} (p : T -> bool) l l' :
  Permutation l l' -> Permutation (filter p l) (filter p l').
Proof.
  induction 1 as [| x l l' Hp IH | x y l | l l' l'' H1 IH1 H2 IH2]; cbn [filter].
  - constructor.
  - destruct (p x); [constructor|]; exact IH.
  - destruct (p x), (p y); try apply Permutation_refl. apply perm_swap.
  - eapply Permutation_trans; eassumption.
Qed.

Lemma reindex_orders l :
  forall i, map (fun x => order (base x)) (reindex i l)
            = map (fun k => i + Z.of_nat k) (seq 0 (List.length l)).
Proof.
  induction l as [|x l IH]; intros i; cbn [reindex map List.length seq].
  - reflexivity.
  - rewrite IH, <- seq_shift, map_map. f_equal; [cbn; lia|].
    apply map_ext. intros k. lia.
Qed.

Lemma reindex_Forall2 l :
  forall i, Forall2 (fun x y => exists j, y = upd_base (set_order j) x) l (reindex i l).
Proof.
  induction l as [|x l IH]; intros i; cbn [reindex]; constructor.
  - exists i. reflexivity.
  - apply IH.
Qed.

Lemma Forall2_StronglySorted {T} (R : T -> T -> Prop) (Rel : T -> T -> Prop) l l' :
  (forall a a' b b', Rel a a' -> Rel b b' -> R a b -> R a' b') ->
  Forall2 Rel l l' -> StronglySorted R l -> StronglySorted R l'.
Proof.
  intros HR HF. induction HF as [|a a' l l' Ha HF IH]; intros Hs.
  - constructor.
  - inversion Hs as [|? ? Hs' Hx]; subst. constructor; [apply IH; exact Hs'|].
    clear - HR Ha HF Hx.
    induction HF as [|b b' l l' Hb HF IH]; [constructor|].
    inversion Hx; subst. constructor; [| apply IH; assumption].
    eapply HR; eassumption.
Qed.

(** X5. The sort of a die roll returns the same rolls, with only their order
    changed: sorted by face, ascending or descending as asked, numbered
    [0, 1, ...] in that sequence, and with the same sum of the valid
    values. *)
Theorem applySort_sorts (rolls : list DieRollBase) (mod_ : SortRollType) :
  let out := applySort rolls mod_ in
  map (fun x => order (base x)) out
  = map Z.of_nat (seq 0 (List.length rolls)) /\
  StronglySorted (fun a b => if asc mod_ then roll a <= roll b else roll b <= roll a)
                 out /\
  (exists p, Permutation p rolls /\
             Forall2 (fun x y => exists i, y = upd_base (set_order i) x) p out) /\
  (sumValid out == sumValid rolls)%Q.
Proof.
  intros out. subst out. unfold applySort.
  set (cmp := fun a b : DieRollBase =>
                if asc mod_ then Js.ofZ (roll a - roll b) else Js.ofZ (roll b - roll a)).
  set (p := Js.sort cmp rolls).
  assert (Hp : Permutation p rolls) by apply sort_Permutation.
  split; [| split; [| split]].
  - rewrite reindex_orders. unfold p. rewrite sort_length. reflexivity.
  - eapply Forall2_StronglySorted; [| apply (reindex_Forall2 p 0) |].
    { intros a a' b b' [i ->] [j ->] Hab. exact Hab. }
    destruct (asc mod_) eqn:Ea.
    + eapply StronglySorted_impl;
        [| apply (sort_StronglySorted cmp (fun a => inject_Z (roll a)))].
      * intros a b Hab. cbv beta in Hab. rewrite <- Zle_Qle in Hab. exact Hab.
      * intros a b. unfold cmp, Js.ofZ.
        change 0%Q with (inject_Z 0). rewrite <- !Zle_Qle. lia.
    + eapply StronglySorted_impl;
        [| apply (sort_StronglySorted cmp (fun a => inject_Z (- roll a)))].
      * intros a b Hab. cbv beta in Hab. rewrite <- Zle_Qle in Hab. lia.
      * intros a b. unfold cmp, Js.ofZ.
        change 0%Q with (inject_Z 0). rewrite <- !Zle_Qle. lia.
  - exists p. split; [exact Hp | apply reindex_Forall2].
  - rewrite !sumValid_spec. cbn [getBase RollLike_DieRollBase].
    rewrite (reindex_filter_map (fun c => valid (base c)) (fun c => value (base c)));
      [| reflexivity | reflexivity].
    apply sumQ_Permutation, Permutation_map, filter_Permutation. exact Hp.
Qed.

(** ** Explode *)

Lemma rollAgain_order x order r : Roll.order (base (rollAgain x order r)) = order.
Proof. unfold rollAgain. destruct (type x); reflexivity. Qed.

Lemma rollAgain_explode x order r : explode (rollAgain x order r) = false.
Proof. unfold rollAgain. destruct (type x); reflexivity. Qed.

Lemma seq_map_shift (i : Z) (a b : nat) :
  map (fun k => i + Z.of_nat k) (seq a b)
  = map (fun k => i + Z.of_nat a + Z.of_nat k) (seq 0 b).
Proof.
  revert a. induction b as [|b IH]; intros a; cbn [seq map]; [reflexivity|].
  f_equal; [lia|]. rewrite IH, <- seq_shift, map_map.
  apply map_ext. intros k. lia.
Qed.

Section ExplodeLoop.
Variable this : DiceRoller.
Variable adjust : DieRollBase -> DieRollBase.
Variable target : option (string * number).
Hypothesis adjust_order : forall x, order (base (adjust x)) = order (base x).

Lemma explodeWhile_orders :
  forall budget roll i s chain i' s',
    order (base roll) = i ->
    explodeWhile this adjust target budget roll i s = Ok (chain, i') s' ->
    map (fun x => order (base x)) chain
    = map (fun k => i + Z.of_nat k) (seq 0 (List.length chain)) /\
    i' = i + Z.of_nat (List.length chain) - 1 /\
    (1 <= List.length chain <= budget + 1)%nat /\
    drawn s' = (drawn s + (List.length chain - 1))%nat /\
    cached s' = cached s.
Proof.
  induction budget as [|b IH]; intros roll i s chain i' s' Ho H; subst i.
  - cbn [explodeWhile] in H.
    assert (E : chain = [roll] /\ i' = order (base roll) /\ s' = s).
    { destruct (explodeTarget target roll); ret_inv H; injection H as <- <-;
        repeat split. }
    destruct E as (-> & -> & ->). cbn.
    repeat split; try lia. f_equal. lia.
  - rewrite explodeWhile_S in H. destruct (explodeTarget target roll).
    + bind_inv H as newRoll s1 E1. rewrite reRoll_Ok in E1. injection E1 as <- <-.
      bind_inv H as [rest i2] s2 E2. ret_inv H. injection H as <- <-.
      apply IH in E2; [| rewrite adjust_order; apply rollAgain_order].
      destruct E2 as (Hm & Hi & Hl & Hd & Hc).
      cbn [map List.length seq]. cbn [drawn cached] in Hd, Hc.
      rewrite Hm, <- seq_shift, map_map.
      split; [| split; [| split; [| split]]].
      * f_equal; [cbn; lia|]. apply map_ext. intros k. lia.
      * lia.
      * lia.
      * lia.
      * exact Hc.
    + ret_inv H. injection H as <- <-. cbn.
      repeat split; try lia. f_equal. lia.
Qed.

Lemma explodeFor_orders :
  forall rolls i s out s',
    explodeFor this adjust target i rolls s = Ok out s' ->
    map (fun x => order (base x)) out
    = map (fun k => i + Z.of_nat k) (seq 0 (List.length out)) /\
    (List.length rolls <= List.length out <= 1001 * List.length rolls)%nat /\
    drawn s' = (drawn s + (List.length out - List.length rolls))%nat /\
    cached s' = cached s.
Proof.
  induction rolls as [|r rest IH]; intros i s out s' H.
  - cbn [explodeFor] in H. ret_inv H. cbn. repeat split; lia.
  - rewrite explodeFor_cons in H.
    bind_inv H as [chain i2] s1 E1. bind_inv H as tail s2 E2. ret_inv H.
    apply explodeWhile_orders in E1; [| reflexivity].
    destruct E1 as (Hm & Hi & Hl & Hd & Hc).
    apply IH in E2. destruct E2 as (Hm2 & Hl2 & Hd2 & Hc2).
    rewrite length_app.
    split; [| split; [| split]].
    + rewrite map_app, Hm, Hm2, seq_app, map_app. apply f_equal.
      cbn [Nat.add]. rewrite (seq_map_shift i (List.length chain) (List.length tail)).
      apply map_ext. intros k. lia.
    + cbn [List.length]. lia.
    + cbn [List.length]. lia.
    + congruence.
Qed.

End ExplodeLoop.

(** X6. After the explode or the penetrate modifier, the order of every roll
    is its position in the returned list: the rolls are renumbered
    [0, 1, ...], the new rolls in between. *)
Theorem explode_orders_are_positions (this : DiceRoller)
    (target : option (string * number)) (rolls out : list DieRollBase) (s s' : State) :
  explodeRolls this target rolls s = Ok out s' \/
  penetrateRolls this target rolls s = Ok out s' ->
  map (fun x => order (base x)) out = map Z.of_nat (seq 0 (List.length out)).
Proof.
  intros [H|H].
  - unfold explodeRolls in H. destruct rolls as [|r0 rest]; [discriminate|].
    destruct (match type r0 with roll_t _ _ => _ | fateroll_t => _ end);
      [discriminate|].
    apply explodeFor_orders in H; [| reflexivity].
    destruct H as (Hm & _). rewrite Hm. apply map_ext. intros k. lia.
  - unfold penetrateRolls in H. destruct rolls as [|r0 rest].
    + destruct target; [discriminate|]. ret_inv H. reflexivity.
    + destruct (match target with Some _ => _ | None => _ end); [discriminate|].
      apply explodeFor_orders in H; [| reflexivity].
      destruct H as (Hm & _). rewrite Hm. apply map_ext. intros k. lia.
Qed.

(** X7. The explode and the penetrate modifier return at least as many rolls
    as they were given and at most 1000 more for each of them; they draw
    exactly one sample per added roll and do not touch the cache. *)
Theorem explode_draws_one_sample_per_new_roll (this : DiceRoller)
    (target : option (string * number)) (rolls out : list DieRollBase) (s s' : State) :
  explodeRolls this target rolls s = Ok out s' \/
  penetrateRolls this target rolls s = Ok out s' ->
  (List.length rolls <= List.length out <= 1001 * List.length rolls)%nat /\
  drawn s' = (drawn s + (List.length out - List.length rolls))%nat /\
  cached s' = cached s.
Proof.
  intros [H|H].
  - unfold explodeRolls in H. destruct rolls as [|r0 rest]; [discriminate|].
    destruct (match type r0 with roll_t _ _ => _ | fateroll_t => _ end);
      [discriminate|].
    apply explodeFor_orders in H; [| reflexivity].
    destruct H as (_ & H). exact H.
  - unfold penetrateRolls in H. destruct rolls as [|r0 rest].
    + destruct target; [discriminate|]. ret_inv H. cbn. repeat split; lia.
    + destruct (match target with Some _ => _ | None => _ end); [discriminate|].
      apply explodeFor_orders in H; [| reflexivity].
      destruct H as (_ & H). exact H.
Qed.

(** ** Penetrate against explode *)

Lemma explodeTarget_same target x y :
  type x = type y -> roll x = roll y ->
  explodeTarget target x = explodeTarget target y.
Proof.
  intros Ht Hr. unfold explodeTarget. rewrite Ht, Hr. reflexivity.
Qed.

Lemma rollAgain_same x y order r :
  type x = type y -> rollAgain x order r = rollAgain y order r.
Proof. intros Ht. unfold rollAgain. rewrite Ht. reflexivity. Qed.

Lemma last_cons_default {A} (l : list A) :
  forall a d, last (a :: l) d = last l a.
Proof.
  induction l as [|b l IH]; intros a d; [reflexivity|].
  change (last (a :: b :: l) d) with (last (b :: l) d).
  rewrite IH. symmetry. apply IH.
Qed.

Lemma last_app_cons {A} (l1 : list A) x l2 :
  forall d, last (l1 ++ x :: l2) d = last (x :: l2) d.
Proof.
  induction l1 as [|a l1 IH]; intros d; [reflexivity|].
  cbn [app]. rewrite last_cons_default, IH, !last_cons_default. reflexivity.
Qed.

Lemma lessOneAfterExplode_app after l1 l2 :
  lessOneAfterExplode after (l1 ++ l2)
  = (lessOneAfterExplode after l1
     ++ lessOneAfterExplode (last (map explode l1) after) l2)%list.
Proof.
  revert after. induction l1 as [|x l1 IH]; intros after; cbn [app lessOneAfterExplode map].
  - reflexivity.
  - rewrite IH, last_cons_default. reflexivity.
Qed.

Lemma explodeWhile_penetrated this target :
  forall budget roll (after : bool) i s chain i' s',
    explode roll = false ->
    explodeWhile this (fun newRoll => newRoll) target budget roll i s
    = Ok (chain, i') s' ->
    explodeWhile this penetrated target budget
                 (if after then penetrated roll else roll) i s
    = Ok (lessOneAfterExplode after chain, i') s' /\
    last (map explode chain) true = false.
Proof.
  induction budget as [|b IH]; intros roll after i s chain i' s' Hx H.
  - cbn [explodeWhile] in H |- *.
    assert (Et : explodeTarget target (if after then penetrated roll else roll)
                 = explodeTarget target roll).
    { destruct after; reflexivity. }
    rewrite Et.
    assert (E : chain = [roll] /\ i' = i /\ s' = s).
    { destruct (explodeTarget target roll); ret_inv H; injection H as <- <-;
        repeat split. }
    destruct E as (-> & -> & ->).
    split; [| exact Hx].
    destruct (explodeTarget target roll); reflexivity.
  - rewrite explodeWhile_S in H. rewrite explodeWhile_S.
    assert (Et : explodeTarget target (if after then penetrated roll else roll)
                 = explodeTarget target roll).
    { destruct after; reflexivity. }
    rewrite Et.
    destruct (explodeTarget target roll).
    + bind_inv H as newRoll s1 E1. rewrite reRoll_Ok in E1. injection E1 as <- <-.
      bind_inv H as [rest i2] s2 E2. ret_inv H. injection H as <- <-.
      destruct (IH _ true _ _ _ _ _ (rollAgain_explode _ _ _) E2) as [Hp Hl].
      unfold bind at 1. rewrite reRoll_Ok.
      assert (Er : rollAgain (set_explode true (if after then penetrated roll else roll))
                             (i + 1) (randFunction this (drawn s))
                   = rollAgain (set_explode true roll) (i + 1)
                               (randFunction this (drawn s))).
      { apply rollAgain_same. destruct after; reflexivity. }
      rewrite Er. unfold bind at 1. cbv iota beta in Hp. rewrite Hp.
      split.
      * unfold ret. cbn [lessOneAfterExplode explode set_explode].
        destruct after; reflexivity.
      * cbn [map]. destruct rest as [|y rest]; [discriminate Hl | exact Hl].
    + ret_inv H. injection H as <- <-. split; [| exact Hx].
      destruct after; reflexivity.
Qed.

Lemma explodeFor_penetrated this target :
  forall rolls i s out s',
    Forall (fun x => explode x = false) rolls ->
    explodeFor this (fun newRoll => newRoll) target i rolls s = Ok out s' ->
    explodeFor this penetrated target i rolls s
    = Ok (lessOneAfterExplode false out) s' /\
    last (map explode out) false = false.
Proof.
  induction rolls as [|r rest IH]; intros i s out s' Hx H.
  - cbn [explodeFor] in H |- *. ret_inv H. split; reflexivity.
  - rewrite explodeFor_cons in H. rewrite explodeFor_cons.
    inversion Hx as [|? ? Hr Hrest]; subst.
    bind_inv H as [chain i2] s1 E1. bind_inv H as tail s2 E2. ret_inv H.
    destruct (explodeWhile_penetrated this target 1000 (upd_base (set_order i) r)
                false i s chain i2 s1 Hr E1) as [Hp Hl].
    destruct (IH _ _ _ _ Hrest E2) as [Hp2 Hl2].
    unfold bind at 1. cbv iota in Hp. rewrite Hp.
    unfold bind at 1. rewrite Hp2. unfold ret.
    assert (Hlast : forall d, last (map explode chain) d = false).
    { intros d. destruct chain as [|c0 chain]; [discriminate Hl|].
      cbn [map] in *. rewrite last_cons_default in *. exact Hl. }
    split.
    + rewrite lessOneAfterExplode_app, Hlast. reflexivity.
    + rewrite map_app. destruct tail as [|t0 tail].
      * rewrite app_nil_r. apply Hlast.
      * cbn [map]. rewrite last_app_cons. exact Hl2.
Qed.

Lemma lessOneAfterExplode_faces after l :
  map roll (lessOneAfterExplode after l) = map roll l.
Proof.
  revert after. induction l as [|x l IH]; intros after; [reflexivity|].
  cbn [lessOneAfterExplode map]. rewrite IH. destruct after; reflexivity.
Qed.


(** ** Compound against explode *)

Lemma rollAgain_face x y o1 o2 r :
  type x = type y -> roll (rollAgain x o1 r) = roll (rollAgain y o2 r).
Proof. intros Ht. unfold rollAgain. rewrite Ht. destruct (type y); reflexivity. Qed.

Lemma explodeTarget_rollAgain target x y o1 o2 r :
  type x = type y ->
  explodeTarget target (rollAgain x o1 r) = explodeTarget target (rollAgain y o2 r).
Proof.
  intros Ht. unfold explodeTarget, rollAgain. rewrite Ht.
  destruct (type y); reflexivity.
Qed.

Lemma rollAgain_dieOf x y order r :
  dieOf x = dieOf y -> rollAgain x order r = rollAgain y order r.
Proof.
  unfold dieOf, rollAgain. destruct (type x), (type y); intros E;
    try discriminate; [injection E as ->|]; reflexivity.
Qed.

Lemma dieOf_rollAgain x order r : dieOf (rollAgain x order r) = dieOf x.
Proof. unfold dieOf, rollAgain. destruct (type x); reflexivity. Qed.

Lemma explodeTarget_dieOf target x y :
  dieOf x = dieOf y -> roll x = roll y ->
  explodeTarget target x = explodeTarget target y.
Proof.
  unfold dieOf, explodeTarget. intros Hd Hr. rewrite Hr.
  destruct (type x), (type y); try discriminate; [injection Hd as ->|]; reflexivity.
Qed.

Lemma compoundWhile_explodeWhile this target :
  forall budget roll roll' i j rv s chain i' s',
    dieOf roll' = dieOf roll ->
    Roll.roll roll' = Roll.roll roll ->
    explodeWhile this (fun newRoll => newRoll) target budget roll i s
    = Ok (chain, i') s' ->
    compoundWhile this target budget roll' j rv s
    = Ok (rv + sumZ (map Roll.roll (tl chain))) s' /\
    Roll.roll (hd roll chain) = Roll.roll roll /\ chain <> [].
Proof.
  induction budget as [|b IH]; intros roll roll' i j rv s chain i' s' Hd Hr H;
    pose proof (explodeTarget_dieOf target _ _ Hd Hr) as Ht.
  - cbn [explodeWhile] in H. cbn [compoundWhile]. rewrite Ht.
    assert (E : chain = [roll] /\ s' = s).
    { destruct (explodeTarget target roll); ret_inv H; injection H as <- <-;
        repeat split. }
    destruct E as (-> & ->). cbn [tl map sumZ fold_right hd].
    rewrite Z.add_0_r.
    split; [| split; [reflexivity | discriminate]].
    destruct (explodeTarget target roll); reflexivity.
  - rewrite explodeWhile_S in H. cbn [compoundWhile]. rewrite Ht.
    destruct (explodeTarget target roll).
    + bind_inv H as newRoll s1 E1. rewrite reRoll_Ok in E1. injection E1 as <- <-.
      bind_inv H as [rest i2] s2 E2. ret_inv H. injection H as <- <-.
      unfold bind at 1. rewrite reRoll_Ok.
      set (n := rollAgain (set_explode true roll) (i + 1) (randFunction this (drawn s)))
        in *.
      set (n' := rollAgain roll' (j + 1) (randFunction this (drawn s))).
      assert (Hdn : dieOf n' = dieOf n).
      { unfold n', n. rewrite !dieOf_rollAgain. exact Hd. }
      assert (Hrn : Roll.roll n' = Roll.roll n).
      { unfold n', n. rewrite (rollAgain_dieOf roll' (set_explode true roll)) by exact Hd.
        apply rollAgain_face. reflexivity. }
      destruct (IH n n' (i + 1) j (rv + Roll.roll n') _ _ _ _ Hdn Hrn E2)
        as (Hc & Hh & Hne).
      rewrite Hc. cbn [tl hd].
      split; [| split; [reflexivity | discriminate]].
      assert (Ev : rv + Roll.roll n' + sumZ (map Roll.roll (tl rest))
                   = rv + sumZ (map Roll.roll rest)).
      { destruct rest as [|c0 rest]; [contradiction Hne; reflexivity|].
        cbn [hd] in Hh. cbn [tl map sumZ fold_right]. rewrite Hh, Hrn.
        fold (sumZ (map Roll.roll rest)). lia. }
      rewrite Ev. reflexivity.
    + ret_inv H. injection H as <- <-. cbn [tl map sumZ fold_right hd].
      rewrite Z.add_0_r. split; [reflexivity | split; [reflexivity | discriminate]].
Qed.

Lemma compoundFor_explodeFor this target :
  forall rolls i j s out s',
    explodeFor this (fun newRoll => newRoll) target i rolls s = Ok out s' ->
    exists out2,
      compoundFor this target j rolls s = Ok out2 s' /\
      sumZ (map Roll.roll out2) = sumZ (map Roll.roll out) /\
      List.length out2 = List.length rolls /\
      Forall (fun x => value (base x) = Js.ofZ (Roll.roll x)) out2.
Proof.
  induction rolls as [|r rest IH]; intros i j s out s' H.
  - cbn [explodeFor] in H. ret_inv H. exists []. cbn [compoundFor].
    repeat split. constructor.
  - rewrite explodeFor_cons in H. rewrite compoundFor_cons.
    bind_inv H as [chain i2] s1 E1. bind_inv H as tail s2 E2. ret_inv H.
    destruct (compoundWhile_explodeWhile this target 1000 (upd_base (set_order i) r) r
                i j (Roll.roll r) s chain i2 s1 eq_refl eq_refl E1)
      as (Hc & Hh & Hne).
    destruct (IH (i2 + 1) (j + 1) s1 tail s' E2) as (out2 & Ho & Hs & Hl & Hv).
    unfold bind at 1. rewrite Hc. unfold bind at 1. rewrite Ho.
    eexists. split; [reflexivity|].
    split; [| split].
    + cbn [map sumZ fold_right Roll.roll set_roll].
      fold (sumZ (map Roll.roll out2)). rewrite Hs, map_app, sumZ_app.
      destruct chain as [|c0 chain]; [contradiction Hne; reflexivity|].
      cbn [hd Roll.roll upd_base] in Hh. cbn [tl map sumZ fold_right].
      fold (sumZ (map Roll.roll chain)). lia.
    + cbn [List.length]. rewrite Hl. reflexivity.
    + constructor; [reflexivity | exact Hv].
Qed.



Lemma explode_orders_are_positions_witness :
  exists out s',
    explodeRolls sixThenOnes None [aSix; aSix] start = Ok out s' /\
    map roll out = [6; 6; 1; 6; 1] /\
    map (fun x => order (base x)) out = [0; 1; 2; 3; 4].
Proof.
  eassert (He : explodeRolls sixThenOnes None [aSix; aSix] start = Ok _ _)
    by (vm_compute; reflexivity).
  pose proof (explode_orders_are_positions _ _ _ _ _ _ (or_introl He)) as Ho.
  eexists _, _. split; [exact He|]. split; [reflexivity | exact Ho].
Defined.

Lemma explode_draws_one_sample_per_new_roll_witness :
  exists out s',
    penetrateRolls sixThenOnes None [aSix; aSix] start = Ok out s' /\
    List.length out = 5%nat /\ drawn s' = 3%nat.
Proof.
  eassert (He : penetrateRolls sixThenOnes None [aSix; aSix] start = Ok _ _)
    by (vm_compute; reflexivity).
  pose proof (explode_draws_one_sample_per_new_roll _ _ _ _ _ _ (or_intror He))
    as (_ & Hd & _).
  eexists _, _. split; [exact He|]. split; [reflexivity | exact Hd].
Defined.


(** ** The guards *)

Lemma rerollWhile_never_throws this target :
  forall fuel r i s e, rerollWhile this target fuel r i s <> Throw e.
Proof.
  induction fuel as [|f IH]; intros r i s e; cbn [rerollWhile];
    destruct (rerollTarget target (Js.ofZ (roll r))); try discriminate.
  unfold bind at 1. rewrite reRoll_Ok. unfold bind at 1.
  specialize (IH (rollAgain (markRerolled r) (i + 1) (randFunction this (drawn s)))
                 (i + 1) (mkState (S (drawn s)) (cached s)) e).
  destruct (rerollWhile this target f _ _ _) as [[c i'] s'| | |];
    try discriminate. exact IH.
Qed.

Lemma rerollFor_never_throws this fuel target :
  forall rolls i s e, rerollFor this fuel target i rolls s <> Throw e.
Proof.
  induction rolls as [|r rest IH]; intros i s e; cbn [rerollFor]; [discriminate|].
  unfold bind at 1.
  pose proof (fun e' => rerollWhile_never_throws this target fuel r i s e') as Hw.
  destruct (rerollWhile this target fuel r i s) as [[c i'] s'| e0 | |];
    try discriminate; [| contradiction (Hw e0); reflexivity].
  unfold bind at 1. specialize (IH (i' + 1) s' e).
  destruct (rerollFor this fuel target (i' + 1) rest s') as [t s2| | |];
    try discriminate. exact IH.
Qed.

Lemma rerollTarget_between target die x :
  rerollTarget target 1%Q = true ->
  rerollTarget target die = true ->
  (1 <= x)%Q -> (x <= die)%Q ->
  rerollTarget target x = true.
Proof.
  unfold rerollTarget. destruct target as [[m t]|]; apply successTest_between.
Qed.

Section Guards.
Variable this : DiceRoller.
Variable fuel : nat.
Variable target : option (string * number).
Variables (r0 : DieRollBase) (rest : list DieRollBase) (s : State).
Variables (faces : Z) (crit : option CriticalType).
Hypothesis r0_type : type r0 = roll_t (inject_Z faces) crit.
Hypothesis faces_pos : 1 <= faces.

Local Abbreviation always :=
  (forall x, 1 <= x <= faces -> rerollTarget target (Js.ofZ x) = true).

Lemma always_guard :
  always <-> rerollTarget target 1%Q && rerollTarget target (inject_Z faces) = true.
Proof.
  split.
  - intros Ha. apply andb_true_iff. split.
    + apply (Ha 1). lia.
    + apply (Ha faces). lia.
  - intros Hg x Hx. apply andb_true_iff in Hg. destruct Hg as [H1 Hd].
    apply (rerollTarget_between target (inject_Z faces)); try assumption;
      unfold Js.ofZ.
    + change 1%Q with (inject_Z 1). rewrite <- Zle_Qle. lia.
    + rewrite <- Zle_Qle. lia.
Qed.

Lemma reroll_guard_exact :
  rerollRolls this fuel target (r0 :: rest) s = Throw InvalidRerollTarget <-> always.
Proof.
  rewrite always_guard. unfold rerollRolls, bind. cbn [rerollGuard]. rewrite r0_type.
  destruct (rerollTarget target 1%Q && rerollTarget target (inject_Z faces)).
  - split; reflexivity.
  - cbn [ret]. split; [| discriminate]. intros H.
    exfalso. exact (rerollFor_never_throws _ _ _ _ _ _ _ H).
Qed.

Lemma rerollOnce_guard_exact :
  rerollOnceRolls this target (r0 :: rest) s = Throw InvalidRerollTarget <-> always.
Proof.
  rewrite always_guard. unfold rerollOnceRolls, bind. cbn [rerollGuard]. rewrite r0_type.
  destruct (rerollTarget target 1%Q && rerollTarget target (inject_Z faces)).
  - split; reflexivity.
  - cbn [ret]. split; [| discriminate]. intros H.
    destruct (rerollOnceFor_spec this target (r0 :: rest) 0 s) as (out & s' & E & _).
    rewrite E in H. discriminate.
Qed.

Lemma explode_guard_exact m t :
  target = Some (m, t) ->
  (explodeRolls this target (r0 :: rest) s = Throw InvalidRerollTarget <-> always) /\
  (compoundRolls this target (r0 :: rest) s = Throw InvalidRerollTarget <-> always).
Proof.
  intros E. rewrite always_guard. unfold explodeRolls, compoundRolls.
  rewrite r0_type, E. cbn [explodeTargetBare rerollTarget].
  destruct (successTest m t 1 && successTest m t (inject_Z faces)).
  - repeat split.
  - split; (split; [| discriminate]); intros H.
    + destruct (explodeFor_length this (fun n => n) (Some (m, t)) (r0 :: rest) 0 s)
        as (out & s' & E' & _).
      rewrite E' in H. discriminate.
    + destruct (compoundFor_length this (Some (m, t)) (r0 :: rest) 0 s)
        as (out & s' & E' & _).
      rewrite E' in H. discriminate.
Qed.

End Guards.

(** X10. For rolls that start with a roll of a die of [faces >= 1] faces, reroll
    and reroll-once throw the invalid-target error exactly when the target
    matches every face from 1 to [faces], and so do explode and compound
    when a target is given: a target that some face escapes is never
    rejected, and one that no face escapes always is. *)
Theorem guard_rejects_the_targets_no_face_escapes (this : DiceRoller) (fuel : nat)
    (target : option (string * number)) (r0 : DieRollBase) (rest : list DieRollBase)
    (s : State) (faces : Z) (crit : option CriticalType) :
  type r0 = roll_t (inject_Z faces) crit ->
  1 <= faces ->
  (rerollRolls this fuel target (r0 :: rest) s = Throw InvalidRerollTarget
   <-> forall x, 1 <= x <= faces -> rerollTarget target (Js.ofZ x) = true) /\
  (rerollOnceRolls this target (r0 :: rest) s = Throw InvalidRerollTarget
   <-> forall x, 1 <= x <= faces -> rerollTarget target (Js.ofZ x) = true) /\
  (forall m t,
      target = Some (m, t) ->
      (explodeRolls this target (r0 :: rest) s = Throw InvalidRerollTarget
       <-> forall x, 1 <= x <= faces -> successTest m t (Js.ofZ x) = true) /\
      (compoundRolls this target (r0 :: rest) s = Throw InvalidRerollTarget
       <-> forall x, 1 <= x <= faces -> successTest m t (Js.ofZ x) = true)).
Proof.
  intros Ht Hf. split; [| split].
  - exact (reroll_guard_exact this fuel target r0 rest s faces crit Ht Hf).
  - exact (rerollOnce_guard_exact this target r0 rest s faces crit Ht Hf).
  - intros m t E.
    pose proof (explode_guard_exact this target r0 rest s faces crit Ht Hf m t E) as H.
    subst target. exact H.
Qed.

Lemma guard_rejects_the_targets_no_face_escapes_witness :
  rerollRolls (rollerOf (fun _ => 0%Q)) 0 (Some (">", 1%Q)) [aSix] start
  = Throw InvalidRerollTarget /\
  rerollOnceRolls (rollerOf (fun _ => 0%Q)) (Some ("<", 5%Q)) [aSix] start
  <> Throw InvalidRerollTarget.
Proof.
  destruct (guard_rejects_the_targets_no_face_escapes
              (rollerOf (fun _ => 0%Q)) 0 (Some (">", 1%Q)) aSix [] start 6
              (Some crit_success) eq_refl ltac:(lia)) as [[_ H1] _].
  destruct (guard_rejects_the_targets_no_face_escapes
              (rollerOf (fun _ => 0%Q)) 0 (Some ("<", 5%Q)) aSix [] start 6
              (Some crit_success) eq_refl ltac:(lia)) as [_ [[H2 _] _]].
  split.
  - apply H1. intros x Hx. cbn [rerollTarget]. unfold successTest. cbn.
    apply Qle_bool_iff. unfold Js.ofZ. change 1%Q with (inject_Z 1).
    rewrite <- Zle_Qle. lia.
  - intros C. specialize (H2 C 6 ltac:(lia)). vm_compute in H2. discriminate.
Defined.

(** ** Plain reroll stops at the first sample that does not match *)

Lemma rollAgain_face_dieOf x y o1 o2 r :
  dieOf x = dieOf y -> roll (rollAgain x o1 r) = roll (rollAgain y o2 r).
Proof.
  intros Hd. rewrite (rollAgain_dieOf x y o1 r Hd). apply rollAgain_face. reflexivity.
Qed.

Lemma rerollWhile_stops this target r :
  forall k fuel r0 i s,
    dieOf r0 = dieOf r ->
    (k < fuel)%nat ->
    rerollTarget target
      (Js.ofZ (roll (rollAgain r 0 (randFunction this (drawn s + k))))) = false ->
    exists chain i' s',
      rerollWhile this target fuel r0 i s = Ok (chain, i') s' /\
      (List.length chain <= k + 2)%nat /\
      (drawn s' <= drawn s + k + 1)%nat.
Proof.
  induction k as [|k IH]; intros fuel r0 i s Hd Hk Hmiss;
    (destruct fuel as [|f]; [lia|]); rewrite rerollWhile_S;
    destruct (rerollTarget target (Js.ofZ (roll r0)));
    try (eexists _, _, _; split; [reflexivity|]; cbn; split; lia).
  - unfold bind at 1. rewrite reRoll_Ok.
    set (n := rollAgain (markRerolled r0) (i + 1) (randFunction this (drawn s))).
    assert (Hn : rerollTarget target (Js.ofZ (roll n)) = false).
    { rewrite Nat.add_0_r in Hmiss. rewrite <- Hmiss. unfold n.
      f_equal. f_equal. apply rollAgain_face_dieOf. exact Hd. }
    assert (E : rerollWhile this target f n (i + 1)
                            (mkState (S (drawn s)) (cached s))
                = Ok ([n], i + 1) (mkState (S (drawn s)) (cached s))).
    { destruct f; cbn [rerollWhile]; rewrite Hn; reflexivity. }
    unfold bind at 1. rewrite E.
    eexists _, _, _. split; [reflexivity|]. cbn. split; lia.
  - unfold bind at 1. rewrite reRoll_Ok.
    set (n := rollAgain (markRerolled r0) (i + 1) (randFunction this (drawn s))).
    destruct (IH f n (i + 1) (mkState (S (drawn s)) (cached s)))
      as (chain & i' & s' & E & Hl & Hdr).
    + unfold n. rewrite dieOf_rollAgain. exact Hd.
    + lia.
    + cbn [drawn]. replace (S (drawn s) + k)%nat with (drawn s + S k)%nat by lia.
      exact Hmiss.
    + unfold bind at 1. rewrite E.
      eexists _, _, _. split; [reflexivity|]. cbn [List.length drawn] in *.
      split; lia.
Qed.



(** On a source that never misses the target the loop of reroll does not
    end: on a die of 5 whose every sample is the double 0.3, every face is
    3, and the reroll of the threes runs through whatever fuel it is
    given. *)
Lemma rerollWhile_runs_on (fuel : nat) :
  forall r i s,
    roll r = 3 -> (exists crit, type r = roll_t (inject_Z 5) crit) ->
    rerollWhile alwaysThreeTenths (Some ("=", inject_Z 3)) fuel r i s = OutOfFuel.
Proof.
  induction fuel as [|fuel IH]; intros r i s Hr (crit & Ht);
    cbn [rerollWhile]; unfold rerollTarget; rewrite Hr;
    change (successTest "=" (inject_Z 3) (Js.ofZ 3)) with true; cbv iota.
  - reflexivity.
  - unfold bind at 1. rewrite reRoll_Ok.
    unfold rollAgain. cbn [type markRerolled upd_base set_reroll]. rewrite Ht.
    cbn [alwaysThreeTenths rollerOf randFunction].
    unfold bind at 1. rewrite IH; [reflexivity | | eexists; reflexivity].
    cbn [dieRollOf roll]. vm_compute. reflexivity.
Qed.

Lemma reroll_of_threes_runs_on (fuel : nat) :
  rerollRolls alwaysThreeTenths fuel (Some ("=", inject_Z 3))
              [dieRollOf (inject_Z 5) 0 threeTenths] start
  = OutOfFuel.
Proof.
  unfold rerollRolls, bind.
  change (rerollGuard (Some ("=", inject_Z 3)) [dieRollOf (inject_Z 5) 0 threeTenths] start)
    with (Ok tt start).
  cbn [rerollFor]. unfold bind.
  rewrite rerollWhile_runs_on; [reflexivity | vm_compute; reflexivity |].
  eexists. reflexivity.
Qed.

(** ** The rolls a die starts from *)

Lemma arrayFrom_from_length {T} (f : Z -> M T) :
  forall n i s l s', arrayFrom_from f i n s = Ok l s' -> List.length l = n.
Proof.
  induction n as [|n IH]; intros i s l s' H; cbn [arrayFrom_from] in H.
  - ret_inv H. reflexivity.
  - bind_inv H as x s1 E1. bind_inv H as xs s2 E2. ret_inv H.
    cbn [List.length]. f_equal. eapply IH. exact E2.
Qed.

(** What [rollDie] generates before the modifiers: [n] rolls of the die. *)
Lemma generated_rolls this (rt : RootType -> M RollBase) die n s d rolls s' :
  match die with
  | FateExpr _ =>
      (rolls <- arrayFrom n (fun i => generateFateRoll this i) ;;
       ret (FateMarker {| value := 0%Q; valid := false; success := None;
                          successes := 0; failures := 0; order := 0;
                          label := None; drop := false |}, rolls))%roller
  | _ =>
      (die0 <- rt die ;;
       rolls <- arrayFrom n (fun i => generateDiceRoll this (value (common die0)) i) ;;
       ret (die0, rolls))%roller
  end s = Ok (d, rolls) s' ->
  List.length rolls = n /\
  Forall (fun x => valid (base x) = true /\ successes (base x) = 0 /\
                   failures (base x) = 0 /\ matched x = false /\
                   explode x = false /\ reroll x = false /\
                   dieOf x = match die with
                             | FateExpr _ => None
                             | _ => Some (value (common d))
                             end) rolls.
Proof.
  intros H.
  assert (Hstd : forall z1 z2,
             bind (rt die)
                  (fun die0 =>
                     bind (arrayFrom n (fun i => generateDiceRoll this
                                                   (value (common die0)) i))
                          (fun rolls => ret (die0, rolls))) z1
             = Ok (d, rolls) z2 ->
             List.length rolls = n /\
             Forall (fun x => valid (base x) = true /\ successes (base x) = 0 /\
                              failures (base x) = 0 /\ matched x = false /\
                              explode x = false /\ reroll x = false /\
                              dieOf x = Some (value (common d))) rolls).
  { intros z1 z2 Hb. bind_inv Hb as die0 z3 Eb1. bind_inv Hb as rs z4 Eb2.
    ret_inv Hb. injection Hb as <- <-. unfold arrayFrom in Eb2. split.
    - eapply arrayFrom_from_length. exact Eb2.
    - eapply arrayFrom_from_Forall; [| exact Eb2].
      intros i z x z' Hx. rewrite generateDiceRoll_Ok in Hx.
      injection Hx as <- <-. repeat split. }
  destruct die; try (apply Hstd in H; exact H).
  bind_inv H as rs z4 Eb2. ret_inv H. injection H as <- <-.
  unfold arrayFrom in Eb2. split.
  - eapply arrayFrom_from_length. exact Eb2.
  - eapply arrayFrom_from_Forall; [| exact Eb2].
    intros i z x z' Hx. rewrite generateFateRoll_Ok in Hx.
    injection Hx as <- <-. repeat split.
Qed.

Lemma reindex_length l : forall i, List.length (reindex i l) = List.length l.
Proof.
  induction l as [|x l IH]; intros i; cbn [reindex List.length]; [reflexivity|].
  rewrite IH. reflexivity.
Qed.

Lemma applySort_length rolls mod_ :
  List.length (applySort rolls mod_) = List.length rolls.
Proof. unfold applySort. rewrite reindex_length. apply sort_length. Qed.

Lemma toLength_bound (v lim : Q) :
  Js.lt lim v = false -> (Js.ofNat (Js.toLength v) <= Qmax 0 lim)%Q.
Proof.
  unfold Js.lt, Js.ofNat, Js.toLength, Js.trunc. intros H.
  apply negb_false_iff, Qle_bool_iff in H.
  destruct (Qle_bool 0 v) eqn:E.
  - apply Qle_bool_iff in E.
    assert (H0 : 0 <= Qfloor v).
    { change 0 with (Qfloor 0). apply Qfloor_resp_le. exact E. }
    rewrite Z2Nat.id by exact H0.
    eapply Qle_trans; [apply Qfloor_le|]. eapply Qle_trans; [exact H|].
    apply Q.le_max_r.
  - assert (Hneg : (v < 0)%Q).
    { destruct (Qlt_le_dec v 0) as [Hl|Hl]; [exact Hl|].
      apply Qle_bool_iff in Hl. congruence. }
    assert (Hc : Qceiling v <= 0).
    { unfold Qceiling. assert (0 <= Qfloor (- v)).
      { change 0 with (Qfloor 0). apply Qfloor_resp_le. lra. }
      lia. }
    replace (Z.of_nat (Z.to_nat (Qceiling v))) with 0 by lia.
    apply Q.le_max_l.
Qed.

(** X12. A die roll whose count evaluates to more than [maxRollCount] throws
    the too-many-dice error, whatever its modifiers. A die roll without
    modifiers and targets that returns has [toLength(count)] rolls (the
    count truncated, none when it is negative), and so at most
    [max(0, maxRollCount)]. *)
Theorem die_count_limit (this : DiceRoller) (fuel : nat) (count die : RootType) :
  (forall mods targets match_ sort label s cnt s1,
      rollType this fuel count s = Ok cnt s1 ->
      (maxRollCount this < value (common cnt))%Q ->
      rollType this fuel (FullRoll count die mods targets match_ sort label) s
      = Throw TooManyDice) /\
  (forall match_ sort label s c cnt d rolls m s',
      rollType this fuel (FullRoll count die None None match_ sort label) s
      = Ok (DiceRollResult c cnt d rolls m) s' ->
      List.length rolls = Js.toLength (value (common cnt)) /\
      (Js.ofNat (List.length rolls) <= Qmax 0 (maxRollCount this))%Q).
Proof.
  split.
  - intros mods targets match_ sort label s cnt s1 Hc Hlt.
    rewrite rollType_unfold. unfold rollDie, bind. rewrite Hc.
    assert (E : Js.lt (maxRollCount this) (value (common cnt)) = true).
    { unfold Js.lt. apply negb_true_iff.
      destruct (Qle_bool (value (common cnt)) (maxRollCount this)) eqn:E;
        [| reflexivity].
      apply Qle_bool_iff in E. lra. }
    rewrite E. reflexivity.
  - intros match_ sort label s c cnt d rolls m s' H.
    rewrite rollType_unfold in H. bind_inv H as resp s0 E. ret_inv H.
    unfold rollDie in E.
    bind_inv E as cnt0 s1 E1.
    destruct (Js.lt (maxRollCount this) (value (common cnt0))) eqn:Hmax;
      [discriminate|].
    bind_inv E as [d0 rolls0] s2 E2.
    bind_inv E as rolls1 s3 E3. ret_inv E3.
    bind_inv E as [[rolls2 su] fa] s4 E4. ret_inv E4. injection E4 as <- <- <-.
    bind_inv E as [[rolls3 isMatched] matchCount] s5 E5.
    ret_inv E.
    apply generated_rolls in E2. destruct E2 as [Hlen _].
    assert (H3 : List.length rolls3 = List.length rolls1).
    { destruct match_ as [[mn cn mm e]|].
      - bind_inv E5 as entries s6 E6. ret_inv E5. injection E5 as <- _ _.
        apply length_map.
      - ret_inv E5. injection E5 as <- _ _. reflexivity. }
    assert (Hshape : DiceRollResult c cnt d rolls m
                     = upd_common (fun x => x)
                         (DiceRollResult c cnt d rolls m)) by reflexivity.
    assert (Hrolls : cnt = cnt0 /\
                     rolls = match sort with
                             | Some so => applySort rolls3 so
                             | None => rolls3
                             end).
    { cbn [label_of] in H. destruct (truthy label); cbn [upd_common] in H;
        injection H as _ <- _ <- _; split; reflexivity. }
    destruct Hrolls as [-> ->].
    assert (Hl : List.length (match sort with
                              | Some so => applySort rolls3 so
                              | None => rolls3
                              end) = Js.toLength (value (common cnt0))).
    { destruct sort; [rewrite applySort_length|]; congruence. }
    split; [exact Hl|]. rewrite Hl. apply toLength_bound. exact Hmax.
Qed.

Lemma die_count_limit_witness :
  rollType (rollerOf (fun _ => 0%Q)) 0 (dice 1001 6 None) start = Throw TooManyDice /\
  exists c cnt d rolls m s',
    rollType (rollerOf (fun _ => 0%Q)) 0 (dice (-2) 6 None) start
    = Ok (DiceRollResult c cnt d rolls m) s' /\
    List.length rolls = 0%nat.
Proof.
  split.
  - refine (proj1 (die_count_limit (rollerOf (fun _ => 0%Q)) 0 (lit 1001) (lit 6))
              None None None None None start _ start eq_refl _).
    vm_compute. reflexivity.
  - eassert (He : rollType (rollerOf (fun _ => 0%Q)) 0 (dice (-2) 6 None) start
                  = Ok (DiceRollResult _ _ _ _ _) _) by (vm_compute; reflexivity).
    pose proof (proj2 (die_count_limit (rollerOf (fun _ => 0%Q)) 0 (lit (-2)) (lit 6))
                  None None None start _ _ _ _ _ _ He) as [Hl _].
    eexists _, _, _, _, _, _. split; [exact He | exact Hl].
Defined.

(** ** Counting successes *)

Lemma rollType_literal this fuel t l s :
  exists r, rollType this fuel (NumberType t l) s = Ok r s /\ value (common r) = t.
Proof.
  rewrite rollType_unfold. cbn [label_of]. unfold bind, ret.
  destruct (truthy l); eexists; split; reflexivity.
Qed.

Lemma sumZ_indicator {T} (p : T -> bool) (f : T -> Z) (l : list T) :
  Forall (fun x => f x = if p x then 1 else 0) l ->
  sumZ (map f l) = Z.of_nat (List.length (filter p l)).
Proof.
  induction 1 as [|x l Hx Hl IH]; cbn [map sumZ fold_right filter List.length];
    [reflexivity|].
  fold (sumZ (map f l)). rewrite IH, Hx.
  destruct (p x); cbn [List.length]; lia.
Qed.

Lemma sumZ_zero {T} (f : T -> Z) (l : list T) :
  Forall (fun x => f x = 0) l -> sumZ (map f l) = 0.
Proof.
  induction 1 as [|x l Hx Hl IH]; cbn [map sumZ fold_right]; [reflexivity|].
  fold (sumZ (map f l)). rewrite IH, Hx. reflexivity.
Qed.

Lemma lt_ofZ (z : Z) : Js.lt 0%Q (Js.ofZ z) = (0 <? z)%Z.
Proof.
  unfold Js.lt, Js.ofZ.
  destruct (Z.ltb_spec 0 z) as [H|H].
  - apply negb_true_iff. destruct (Qle_bool (inject_Z z) 0) eqn:E; [| reflexivity].
    apply Qle_bool_iff in E. change 0%Q with (inject_Z 0) in E.
    rewrite <- Zle_Qle in E. lia.
  - apply negb_false_iff, Qle_bool_iff. change 0%Q with (inject_Z 0).
    rewrite <- Zle_Qle. exact H.
Qed.

Lemma lt_Qeq (a b : Q) : (a == b)%Q -> Js.lt 0%Q a = Js.lt 0%Q b.
Proof.
  intros E. unfold Js.lt. f_equal.
  destruct (Qle_bool a 0) eqn:Ha, (Qle_bool b 0) eqn:Hb; try reflexivity.
  - apply Qle_bool_iff in Ha. rewrite E in Ha. apply Qle_bool_iff in Ha. congruence.
  - apply Qle_bool_iff in Hb. rewrite <- E in Hb. apply Qle_bool_iff in Hb. congruence.
Qed.

(** X13. A die roll without modifiers whose only target is a success test
    against a literal number: the successes of the result are the number
    of rolls whose face passes the test, its failures are 0, its value
    equals its successes, it is a success exactly when there is at least
    one, and every roll is valid with the value 1 when it passes and 0
    when it does not. *)
Theorem die_counts_successes (this : DiceRoller) (fuel : nat) (count die : RootType)
    (m : string) (t : number) (l0 : option string) (sort : option SortRollType)
    (label : option string) (s s' : State) (c : RollCommon) (cnt d : RollBase)
    (rolls : list DieRollBase) (mt : bool) :
  rollType this fuel
    (FullRoll count die None
       (Some [SuccessFailureCritModType success_k m (NumberType t l0)])
       None sort label) s
  = Ok (DiceRollResult c cnt d rolls mt) s' ->
  successes c
  = Z.of_nat (List.length (filter (fun x => successTest m t (face x)) rolls)) /\
  failures c = 0 /\
  (value c == Js.ofZ (successes c))%Q /\
  success c = Some (0 <? successes c)%Z /\
  Forall (fun x => valid (base x) = true /\
                   value (base x) = Js.ofZ (if successTest m t (face x) then 1 else 0))
         rolls.
Proof.
  intros H.
  rewrite rollType_unfold in H. bind_inv H as resp s0 E. ret_inv H.
  unfold rollDie in E.
  bind_inv E as cnt0 s1 E1.
  destruct (Js.lt (maxRollCount this) (value (common cnt0))); [discriminate|].
  bind_inv E as [d0 rolls0] s2 E2.
  bind_inv E as rolls1 s3 E3. ret_inv E3.
  bind_inv E as [[rolls2 su] fa] s4 E4.
  bind_inv E as [[rolls3 isMatched] matchCount] s5 E5.
  ret_inv E5. injection E5 as <- <- <-. ret_inv E.
  apply generated_rolls in E2. destruct E2 as [_ Hgen].
  bind_inv E4 as scored s6 E6. ret_inv E4. injection E4 as <- <- <-.
  unfold async_reduce in E6. cbn [async_reduce_from] in E6.
  bind_inv E6 as after s7 E7. ret_inv E6.
  unfold applyMod in E7. bind_inv E7 as method s8 E8.
  cbn [getModMethod] in E8. unfold getSuccessMethod in E8.
  bind_inv E8 as er s9 E9. ret_inv E8. ret_inv E7.
  match type of E9 with
  | rollType _ _ _ ?st = _ =>
      destruct (rollType_literal this fuel t l0 st) as (r & Er & Hv)
  end.
  rewrite Er in E9. injection E9 as <- <-. rewrite Hv in H.
  set (P := fun x : DieRollBase =>
              valid (base x) = true /\ failures (base x) = 0 /\
              successes (base x) = (if successTest m t (face x) then 1 else 0) /\
              value (base x) = Js.ofZ (successes (base x) - failures (base x))).
  assert (HP : Forall P (map scoreRoll (successRolls m face t rolls1))).
  { unfold successRolls. rewrite map_map. apply Forall_forall. intros y Hy.
    apply in_map_iff in Hy. destruct Hy as (x & <- & Hx).
    rewrite Forall_forall in Hgen. destruct (Hgen x Hx) as (Hva & Hsu & Hfa & _).
    cbn [getBase RollLike_DieRollBase updBase]. rewrite Hva. cbn [negb].
    unfold P, face.
    destruct (successTest m t (Js.ofZ (roll x))) eqn:Et;
      cbn [scoreRoll upd_base base valid set_success set_value set_successes
           failures successes value roll];
      rewrite ?Et, ?Hsu, ?Hfa; repeat split; try assumption; reflexivity. }
  set (final := match sort with
                | Some so => applySort (map scoreRoll (successRolls m face t rolls1)) so
                | None => map scoreRoll (successRolls m face t rolls1)
                end) in *.
  assert (HPf : Forall P final).
  { unfold final. destruct sort as [so|]; [| exact HP].
    apply applySort_Forall; [| exact HP]. intros i x Hx. exact Hx. }
  assert (Hsu : sumZ (map (fun x => successes (base x)) final)
                = fold_left (fun n roll => n + successes (base roll))
                            (successRolls m face t rolls1) 0).
  { rewrite fold_left_sumZ. unfold final. destruct sort as [so|].
    - rewrite applySort_sumZ by reflexivity. rewrite map_map. reflexivity.
    - rewrite map_map. reflexivity. }
  assert (Hfa : sumZ (map (fun x => failures (base x)) final)
                = fold_left (fun n roll => n + failures (base roll))
                            (successRolls m face t rolls1) 0).
  { rewrite fold_left_sumZ. unfold final. destruct sort as [so|].
    - rewrite applySort_sumZ by reflexivity. rewrite map_map. reflexivity.
    - rewrite map_map. reflexivity. }
  assert (Hcount : sumZ (map (fun x => successes (base x)) final)
                   = Z.of_nat (List.length
                                 (filter (fun x => successTest m t (face x)) final))).
  { apply sumZ_indicator. eapply Forall_impl; [| exact HPf].
    intros x (_ & _ & Hx & _). exact Hx. }
  assert (Hzero : sumZ (map (fun x => failures (base x)) final) = 0).
  { apply sumZ_zero. eapply Forall_impl; [| exact HPf].
    intros x (_ & Hx & _). exact Hx. }
  assert (Hval : (sumValid final
                  == Js.ofZ (sumZ (map (fun x => successes (base x)) final)
                             - sumZ (map (fun x => failures (base x)) final)))%Q).
  { apply scored_sum; (eapply Forall_impl; [| exact HPf]).
    - intros x (_ & _ & _ & Hx). exact Hx.
    - intros x (Hx & _). exact Hx. }
  rewrite Hzero, Z.sub_0_r in Hval.
  assert (Hres : c = set_label (Roll.label c)
                       (newCommon (sumValid final) (Some (Js.lt 0%Q (sumValid final)))
                          (fold_left (fun n roll => n + successes (base roll))
                                     (successRolls m face t rolls1) 0)
                          (fold_left (fun n roll => n + failures (base roll))
                                     (successRolls m face t rolls1) 0)) /\
                 rolls = final).
  { cbn [label_of] in H. destruct (truthy label); cbn [upd_common] in H;
      injection H as <- _ _ <- _; split; reflexivity. }
  destruct Hres as [Hc ->].
  rewrite Hc. cbn [successes failures value success set_label newCommon].
  rewrite <- Hsu, <- Hfa, Hzero.
  split; [exact Hcount|]. split; [reflexivity|]. split; [exact Hval|].
  split.
  - rewrite (lt_Qeq _ _ Hval), lt_ofZ. reflexivity.
  - eapply Forall_impl; [| exact HPf].
    intros x (Hva & Hfa' & Hsu' & Hv'). split; [exact Hva|].
    rewrite Hv', Hfa', Hsu', Z.sub_0_r. reflexivity.
Qed.

Lemma die_counts_successes_witness :
  exists c cnt d rolls mt s',
    rollType fourOneSix 0 threeD6AtLeast4 start
    = Ok (DiceRollResult c cnt d rolls mt) s' /\
    map roll rolls = [4; 1; 6] /\
    successes c = 2.
Proof.
  eassert (He : rollType fourOneSix 0 threeD6AtLeast4 start
                = Ok (DiceRollResult _ _ _ _ _) _)
    by (vm_compute; reflexivity).
  pose proof (die_counts_successes _ _ _ _ _ _ _ _ _ _ _ _ _ _ _ _ He) as [Hs _].
  eexists _, _, _, _, _, _. split; [exact He|]. split; [reflexivity | exact Hs].
Defined.

(** ** Match *)

Lemma countOf_countRoll m f k :
  countOf (countRoll m f) k = countOf m k + (if (k =? f)%Z then 1 else 0).
Proof.
  unfold countOf. induction m as [|[k0 n0] rest IH]; cbn [countRoll find fst snd].
  - rewrite (Z.eqb_sym f k). destruct (k =? f)%Z; reflexivity.
  - destruct (Z.eqb_spec k0 f) as [E0|N0]; cbn [find fst snd].
    + destruct (Z.eqb_spec k0 k) as [E1|N1], (Z.eqb_spec k f) as [E2|N2];
        cbn [snd]; try lia; congruence.
    + destruct (Z.eqb_spec k0 k) as [E1|N1]; [| exact IH].
      destruct (Z.eqb_spec k f) as [E2|N2]; cbn [snd]; [congruence | lia].
Qed.

Lemma countOf_counts (rolls : list DieRollBase) :
  forall m k,
    countOf (fold_left (fun map roll => countRoll map (Roll.roll roll)) rolls m) k
    = countOf m k + Z.of_nat (count_occ Z.eq_dec (map roll rolls) k).
Proof.
  induction rolls as [|r rolls IH]; intros m k; cbn [fold_left map count_occ].
  - lia.
  - rewrite IH, countOf_countRoll.
    destruct (Z.eq_dec (roll r) k) as [->|Hne].
    + rewrite Z.eqb_refl. lia.
    + destruct (Z.eqb_spec k (roll r)) as [->|_]; [contradiction | lia].
Qed.

Lemma countOf_In m k n :
  NoDup (map fst m) -> In (k, n) m -> countOf m k = n.
Proof.
  unfold countOf. induction m as [|[k0 n0] rest IH]; intros Hnd Hin; [destruct Hin|].
  cbn [map fst] in Hnd. apply NoDup_cons_iff in Hnd. destruct Hnd as [Hnin Hnd].
  cbn [find fst snd]. destruct Hin as [E|Hin].
  - injection E as -> ->. rewrite Z.eqb_refl. reflexivity.
  - destruct (Z.eqb_spec k0 k) as [->|Hne].
    + exfalso. apply Hnin. apply in_map_iff. exists (k, n). split; [reflexivity | exact Hin].
    + apply IH; assumption.
Qed.

Lemma async_filter_from_true {T} (func : T -> Z -> M bool) :
  (forall x i s, func x i s = Ok true s) ->
  forall l i s, async_filter_from func i l s = Ok l s.
Proof.
  intros Hf l. induction l as [|x l IH]; intros i s; cbn [async_filter_from].
  - reflexivity.
  - unfold bind at 1. rewrite Hf. unfold bind at 1. rewrite IH. reflexivity.
Qed.

Lemma existsb_iff_bool (x : Z) (l : list Z) (b : bool) :
  (In x l <-> b = true) -> existsb (Z.eqb x) l = b.
Proof.
  intros H. destruct b.
  - apply existsb_eqb_In, H. reflexivity.
  - destruct (existsb (Z.eqb x) l) eqn:E; [| reflexivity].
    apply existsb_eqb_In, H in E. discriminate.
Qed.

(** The faces [rollDie] reports as matched, when the match has no
    comparator: those that occur at least [min] times. *)
Lemma matches_are_repeated (rolls : list DieRollBase) (mn : number) :
  let counts := fold_left (fun map roll => countRoll map (Roll.roll roll)) rolls [] in
  let matches := map fst (filter (fun e => Js.le mn (Js.ofZ (snd e))) counts) in
  NoDup matches /\
  forall k, In k matches
            <-> In k (map roll rolls) /\
                Js.le mn (Js.ofNat (count_occ Z.eq_dec (map roll rolls) k)) = true.
Proof.
  intros counts matches.
  destruct (counts_keys rolls [] (NoDup_nil _)) as [C1 C2]. fold counts in C1, C2.
  destruct (filter_keys (fun e0 => Js.le mn (Js.ofZ (snd e0))) counts C1) as [F1 _].
  split; [exact F1|].
  assert (Hn : forall k n, In (k, n) counts ->
                           n = Z.of_nat (count_occ Z.eq_dec (map roll rolls) k)).
  { intros k n Hin. rewrite <- (countOf_In counts k n C1 Hin).
    unfold counts. rewrite countOf_counts. reflexivity. }
  intros k. unfold matches. rewrite in_map_iff. split.
  - intros ([k0 n] & E & Hin). cbn in E. subst k0.
    apply filter_In in Hin. destruct Hin as [Hin Hle]. cbn [snd] in Hle.
    split.
    + assert (Hk : In k (map fst counts)).
      { apply in_map_iff. exists (k, n). split; [reflexivity | exact Hin]. }
      apply C2 in Hk. destruct Hk as [Hk|[]]. exact Hk.
    + rewrite (Hn k n Hin) in Hle. exact Hle.
  - intros [Hk Hle].
    assert (Hkey : In k (map fst counts)) by (apply C2; left; exact Hk).
    apply in_map_iff in Hkey. destruct Hkey as ([k0 n] & E & Hin). cbn in E. subst k0.
    exists (k, n). split; [reflexivity|]. apply filter_In. split; [exact Hin|].
    cbn [snd]. rewrite (Hn k n Hin). exact Hle.
Qed.

(** What [rollDie] has done when it reaches [input.match]: [rolls2] are
    the rolls after the modifiers and the targets, and they have every
    property of the generated rolls that the modifiers preserve. *)
Lemma rollDie_stages this fuel rt count die mods targets match_ sort s r s' :
  rollDie this fuel rt count die mods targets match_ sort s = Ok r s' ->
  exists cnt d rolls2 su fa s4 rolls3 (isMatched : bool) mc,
    (forall P : DieRollBase -> Prop,
        Preserved P ->
        (forall x, matched x = false ->
                   dieOf x = match die with
                             | FateExpr _ => None
                             | _ => Some (value (common d))
                             end -> P x) ->
        Forall P rolls2) /\
    match match_ with
    | Some (mkMatch min count m expr as match0) =>
        (let counts :=
           fold_left (fun map roll => countRoll map (Roll.roll roll)) rolls2 [] in
         entries <-
           async_filter
             (filter (fun e => Js.le min (Js.ofZ (snd e))) counts)
             (fun e _ => matchTest rt match0 (fst e)) ;;
         let matches := map fst entries in
         let rolls := map (markMatched matches) rolls2 in
         ret (rolls, count, if count then Z.of_nat (List.length matches) else 0))%roller
    | None => ret (rolls2, false, 0)
    end s4 = Ok (rolls3, isMatched, mc) s' /\
    r = (let rolls := match sort with
                      | Some sort => applySort rolls3 sort
                      | None => rolls3
                      end in
         DiceRollResult
           (newCommon (if isMatched then Js.ofZ mc else sumValid rolls)
                      (match targets with
                       | Some _ => Some (Js.lt 0%Q (sumValid rolls))
                       | None => None
                       end) su fa)
           cnt d rolls isMatched).
Proof.
  unfold rollDie. intros H.
  bind_inv H as cnt s1 E1.
  destruct (Js.lt _ _); [discriminate|].
  bind_inv H as [d rolls0] s2 E2.
  bind_inv H as rolls1 s3 E3.
  bind_inv H as [[rolls2 su] fa] s4 E4.
  bind_inv H as [[rolls3 isMatched] matchCount] s5 E5.
  ret_inv H.
  exists cnt, d, rolls2, su, fa, s4, rolls3, isMatched, matchCount.
  split; [| split; [exact E5 | reflexivity]].
  intros P HP Hgen.
  apply generated_rolls in E2. destruct E2 as [_ G0].
  assert (U0 : Forall P rolls0).
  { eapply Forall_impl; [| exact G0].
    intros x (_ & _ & _ & Hm & _ & _ & Hd). apply Hgen; assumption. }
  assert (U1 : Forall P rolls1).
  { destruct mods as [ms|].
    - eapply applyMods_Forall; [exact HP | exact U0 | exact E3].
    - ret_inv E3. exact U0. }
  destruct targets as [ts|].
  - bind_inv E4 as rolls1' s6 E6. ret_inv E4. injection E4 as <- <- <-.
    apply map_Forall.
    + intros x Hx. apply (pres_base P HP). exact Hx.
    + eapply applyMods_Forall; [exact HP | exact U1 | exact E6].
  - ret_inv E4. injection E4 as <- <- <-. exact U1.
Qed.

Lemma dieOf_Preserved D : Preserved (fun x => dieOf x = D).
Proof.
  split; intros; try assumption.
  - unfold dieOf, rollAgain in *. destruct (type x); exact H.
  - unfold dieOf, set_critical in *.
    destruct (type x) eqn:Et; cbn [type set_type]; [exact H | rewrite Et; exact H].
Qed.

Lemma result_rolls (b : bool) l c cnt d rolls m c' cnt' d' rolls' m' :
  (if b then upd_common (set_label l) (DiceRollResult c cnt d rolls m)
   else DiceRollResult c cnt d rolls m) = DiceRollResult c' cnt' d' rolls' m' ->
  cnt' = cnt /\ d' = d /\ rolls' = rolls /\ m' = m /\
  value c' = value c /\ success c' = success c /\
  successes c' = successes c /\ failures c' = failures c.
Proof.
  destruct b; cbn [upd_common]; intros H; injection H as <- <- <- <- <-;
    repeat split.
Qed.

(** X14. Every roll in the result of a die roll -- the first ones and the ones
    that exploding, compounding, penetrating or rerolling added -- is a
    roll of the die that the result reports: a fate roll for a fate die,
    and a roll of [die.value] faces otherwise. *)
Theorem die_rolls_are_of_the_die (this : DiceRoller) (fuel : nat)
    (count die : RootType) (mods targets : option (list ModType))
    (match_ : option MatchModType) (sort : option SortRollType)
    (label : option string) (s s' : State) (c : RollCommon) (cnt d : RollBase)
    (rolls : list DieRollBase) (m : bool) :
  rollType this fuel (FullRoll count die mods targets match_ sort label) s
  = Ok (DiceRollResult c cnt d rolls m) s' ->
  Forall (fun x => dieOf x = match die with
                             | FateExpr _ => None
                             | _ => Some (value (common d))
                             end) rolls.
Proof.
  intros H.
  rewrite rollType_unfold in H. bind_inv H as resp s0 E. ret_inv H.
  apply rollDie_stages in E.
  destruct E as (cnt0 & d0 & rolls2 & su & fa & s4 & rolls3 & isM & mc & HP & Em & ->).
  cbn [label_of] in H. cbv zeta in H.
  apply result_rolls in H. destruct H as (-> & -> & -> & _).
  set (D := match die with
            | FateExpr _ => None
            | _ => Some (value (common d0))
            end) in *.
  assert (U2 : Forall (fun x => dieOf x = D) rolls2).
  { apply HP; [apply dieOf_Preserved|]. intros x _ Hx. exact Hx. }
  assert (U3 : Forall (fun x => dieOf x = D) rolls3).
  { destruct match_ as [[mn cn mm e]|].
    - cbv zeta in Em. bind_inv Em as entries s6 E6. ret_inv Em.
      injection Em as <- _ _.
      apply map_Forall; [| exact U2]. intros x Hx. unfold markMatched.
      destruct (existsb _ _); exact Hx.
    - ret_inv Em. injection Em as <- _ _. exact U2. }
  destruct sort as [so|]; [| exact U3].
  apply applySort_Forall; [| exact U3]. intros i x Hx. exact Hx.
Qed.

Lemma die_rolls_are_of_the_die_witness :
  exists c cnt d rolls m s',
    rollType sixThenOnes 0 (dice 2 6 (Some [ReRollMod explode_k None])) start
    = Ok (DiceRollResult c cnt d rolls m) s' /\
    List.length rolls = 3%nat /\
    Forall (fun x => dieOf x = Some (inject_Z 6)) rolls.
Proof.
  eassert (He : rollType sixThenOnes 0 (dice 2 6 (Some [ReRollMod explode_k None]))
                         start
                = Ok (DiceRollResult _ _ _ _ _) _)
    by (vm_compute; reflexivity).
  pose proof (die_rolls_are_of_the_die _ _ _ _ _ _ _ _ _ _ _ _ _ _ _ _ He) as Hd.
  eexists _, _, _, _, _, _. split; [exact He|]. split; [reflexivity | exact Hd].
Defined.

(** X15. A die roll with a match modifier that has no comparison: a roll is
    marked as matched exactly when its face occurs at least [min] times
    among the rolls of the result; the result is marked as matched exactly
    when the match is a counting one, and then its value is the number of
    different faces that occur at least [min] times. *)
Theorem die_match_marks_repeated_faces (this : DiceRoller) (fuel : nat)
    (count die : RootType) (mods targets : option (list ModType))
    (min : number) (cn : bool) (e : option RootType) (sort : option SortRollType)
    (label : option string) (s s' : State) (c : RollCommon) (cnt d : RollBase)
    (rolls : list DieRollBase) (m : bool) :
  rollType this fuel
    (FullRoll count die mods targets (Some (mkMatch min cn None e)) sort label) s
  = Ok (DiceRollResult c cnt d rolls m) s' ->
  let times := count_occ Z.eq_dec (map roll rolls) in
  Forall (fun x => matched x = Js.le min (Js.ofNat (times (roll x)))) rolls /\
  m = cn /\
  (cn = true ->
   value c
   = Js.ofNat (List.length (filter (fun f => Js.le min (Js.ofNat (times f)))
                                   (nodup Z.eq_dec (map roll rolls))))).
Proof.
  intros H times.
  rewrite rollType_unfold in H. bind_inv H as resp s0 E. ret_inv H.
  apply rollDie_stages in E.
  destruct E as (cnt0 & d0 & rolls2 & su & fa & s4 & rolls3 & isM & mc & HP & Em & ->).
  cbn [label_of] in H. cbv zeta in H.
  apply result_rolls in H. destruct H as (-> & -> & Hrolls & -> & Hval & _).
  assert (U2 : Forall (fun x => matched x = false) rolls2).
  { apply HP; [apply matched_false_Preserved|]. intros x Hx _. exact Hx. }
  cbv zeta in Em. bind_inv Em as entries s6 E6.
  unfold async_filter in E6.
  rewrite async_filter_from_true in E6 by (intros; reflexivity).
  injection E6 as <- <-.
  unfold ret in Em. injection Em as E3 EM Emc _.
  destruct (matches_are_repeated rolls2 min) as [Hnd Hin]. cbv zeta in Hnd, Hin.
  set (matches := map fst (filter (fun e0 => Js.le min (Js.ofZ (snd e0)))
                                  (fold_left (fun map roll => countRoll map (Roll.roll roll))
                                             rolls2 []))) in *.
  assert (Hfaces3 : map roll rolls3 = map roll rolls2).
  { rewrite <- E3, map_map. apply map_ext. intros x. unfold markMatched.
    destruct (existsb _ _); reflexivity. }
  assert (Hperm : Permutation (map roll rolls) (map roll rolls2)).
  { rewrite Hrolls, <- Hfaces3. destruct sort as [so|]; [| apply Permutation_refl].
    unfold applySort. rewrite (reindex_map roll) by reflexivity.
    apply Permutation_map, sort_Permutation. }
  assert (Htimes : forall k, times k = count_occ Z.eq_dec (map roll rolls2) k).
  { intros k. unfold times. revert k. apply Permutation_count_occ. exact Hperm. }
  assert (H3 : Forall (fun x => matched x = Js.le min (Js.ofNat (times (roll x))))
                      rolls3).
  { rewrite <- E3. apply Forall_forall. intros y Hy. apply in_map_iff in Hy.
    destruct Hy as (x & <- & Hx).
    rewrite Forall_forall in U2. specialize (U2 x Hx).
    assert (Ex : existsb (Z.eqb (roll x)) matches
                 = Js.le min (Js.ofNat (times (roll x)))).
    { apply existsb_iff_bool. rewrite Hin, Htimes. split; [tauto|].
      intros Hle. split; [apply in_map; exact Hx | exact Hle]. }
    unfold markMatched. rewrite Ex.
    destruct (Js.le min (Js.ofNat (times (roll x)))) eqn:El.
    - cbn [matched set_matched roll]. rewrite El. reflexivity.
    - rewrite El. exact U2. }
  split; [| split; [symmetry; exact EM|]].
  - rewrite Hrolls. destruct sort as [so|]; [| exact H3].
    apply applySort_Forall; [| exact H3]. intros i x Hx. exact Hx.
  - intros Hcn. rewrite Hval. cbn [value newCommon]. rewrite <- EM, Hcn.
    rewrite <- Emc, Hcn. unfold Js.ofZ, Js.ofNat.
    do 2 f_equal. apply Permutation_length, NoDup_Permutation.
    + exact Hnd.
    + apply NoDup_filter, NoDup_nodup.
    + intros k. rewrite Hin, filter_In, nodup_In, Htimes.
      split; intros [Ha Hb]; (split; [| exact Hb]).
      * eapply Permutation_in; [apply Permutation_sym, Hperm | exact Ha].
      * eapply Permutation_in; [exact Hperm | exact Ha].
Qed.

Lemma die_match_marks_repeated_faces_witness :
  exists c cnt d rolls m s',
    rollType fourOneFourSix 0 fourD6Matched start
    = Ok (DiceRollResult c cnt d rolls m) s' /\
    map roll rolls = [4; 1; 4; 6] /\
    Forall (fun x => matched x
                     = Js.le 2%Q (Js.ofNat (count_occ Z.eq_dec (map roll rolls) (roll x))))
           rolls /\
    map matched rolls = [true; false; true; false].
Proof.
  eassert (He : rollType fourOneFourSix 0 fourD6Matched start
                = Ok (DiceRollResult _ _ _ _ _) _)
    by (vm_compute; reflexivity).
  pose proof (die_match_marks_repeated_faces _ _ _ _ _ _ _ _ _ _ _ _ _ _ _ _ _ _ He)
    as [Hm _].
  eexists _, _, _, _, _, _. split; [exact He|]. split; [reflexivity|].
  split; [exact Hm | reflexivity].
Defined.

(** ** Successes against failures *)

Lemma sumZ_nonneg {T} (f : T -> Z) (l : list T) :
  Forall (fun x => 0 <= f x) l -> 0 <= sumZ (map f l).
Proof.
  induction 1 as [|x l Hx Hl IH]; cbn [map sumZ fold_right]; [lia|].
  fold (sumZ (map f l)). lia.
Qed.

(** Success and failure targets leave every roll valid and only count up. *)
Lemma targets_tally this fuel rt (targets : list ModType) :
  Forall (fun m => isTargetMod m = true) targets ->
  forall index rolls s out s',
    async_reduce_from
      (fun moddedRolls target (_ : Z) => applyMod this fuel rt moddedRolls target)
      index targets rolls s = Ok out s' ->
    Forall (fun x => valid (base x) = true /\ 0 <= successes (base x) /\
                     0 <= failures (base x)) rolls ->
    Forall (fun x => valid (base x) = true /\ 0 <= successes (base x) /\
                     0 <= failures (base x)) out.
Proof.
  induction 1 as [|m targets Hm Ht IH]; intros index rolls s out s' H Hr.
  - cbn [async_reduce_from] in H. ret_inv H. exact Hr.
  - cbn [async_reduce_from] in H. bind_inv H as after s1 E.
    eapply IH; [exact H|]. clear H IH.
    unfold applyMod in E. bind_inv E as method s2 E2.
    destruct m as [k mo e | k hl e | k t | t]; try discriminate Hm.
    destruct k; try discriminate Hm; cbn [getModMethod] in E2.
    + unfold getSuccessMethod in E2. bind_inv E2 as er s3 E3.
      unfold ret in E2. injection E2 as <- <-.
      unfold ret in E. injection E as <- <-.
      unfold successRolls. apply Forall_forall. intros y Hy.
      apply in_map_iff in Hy. destruct Hy as (x & <- & Hx).
      rewrite Forall_forall in Hr. destruct (Hr x Hx) as (Hv & Hs & Hf).
      cbn [getBase RollLike_DieRollBase updBase]. rewrite Hv. cbn [negb].
      destruct (successTest mo _ _); [| auto].
      cbn [upd_base base valid set_successes successes failures].
      repeat split; try assumption; lia.
    + unfold getFailureMethod in E2. bind_inv E2 as er s3 E3.
      unfold ret in E2. injection E2 as <- <-.
      unfold ret in E. injection E as <- <-.
      unfold failureRolls. apply Forall_forall. intros y Hy.
      apply in_map_iff in Hy. destruct Hy as (x & <- & Hx).
      rewrite Forall_forall in Hr. destruct (Hr x Hx) as (Hv & Hs & Hf).
      cbn [getBase RollLike_DieRollBase updBase]. rewrite Hv. cbn [negb].
      destruct (successTest mo _ _); [| auto].
      cbn [upd_base base valid set_failures successes failures].
      repeat split; try assumption; lia.
Qed.

(** X22. A die roll without modifiers whose targets are success and failure
    tests: the successes and the failures of the result are the sums of
    those of its rolls and are not negative, its value equals its successes
    minus its failures, and it is a success exactly when that is positive;
    every roll is valid, its value is its successes minus its failures, and
    it is a success exactly when that is positive. *)
Theorem die_value_is_net_successes (this : DiceRoller) (fuel : nat)
    (count die : RootType) (targets : list ModType) (sort : option SortRollType)
    (label : option string) (s s' : State) (c : RollCommon) (cnt d : RollBase)
    (rolls : list DieRollBase) (mt : bool) :
  Forall (fun m => isTargetMod m = true) targets ->
  rollType this fuel (FullRoll count die None (Some targets) None sort label) s
  = Ok (DiceRollResult c cnt d rolls mt) s' ->
  successes c = sumZ (map (fun x => successes (base x)) rolls) /\
  failures c = sumZ (map (fun x => failures (base x)) rolls) /\
  0 <= successes c /\ 0 <= failures c /\
  (value c == Js.ofZ (successes c - failures c))%Q /\
  success c = Some (0 <? successes c - failures c)%Z /\
  Forall (fun x =>
            valid (base x) = true /\
            0 <= successes (base x) /\ 0 <= failures (base x) /\
            value (base x) = Js.ofZ (successes (base x) - failures (base x)) /\
            success (base x) = Some (0 <? successes (base x) - failures (base x))%Z)
         rolls.
Proof.
  intros Ht H.
  rewrite rollType_unfold in H. bind_inv H as resp s0 E.
  unfold ret in H. injection H as H _.
  unfold rollDie in E.
  bind_inv E as cnt0 s1 E1.
  destruct (Js.lt (maxRollCount this) (value (common cnt0))); [discriminate|].
  bind_inv E as [d0 rolls0] s2 E2.
  bind_inv E as rolls1 s3 E3. unfold ret in E3. injection E3 as <- <-.
  bind_inv E as [[rolls2 su] fa] s4 E4.
  bind_inv E as [[rolls3 isMatched] matchCount] s5 E5.
  unfold ret in E5. injection E5 as <- <- <- <-.
  unfold ret in E. injection E as <- _.
  apply generated_rolls in E2. destruct E2 as [_ Hgen].
  bind_inv E4 as tallied s6 E6.
  unfold ret in E4. injection E4 as <- <- <- <-.
  unfold async_reduce in E6.
  assert (Htal : Forall (fun x => valid (base x) = true /\ 0 <= successes (base x) /\
                                  0 <= failures (base x)) tallied).
  { eapply targets_tally; [exact Ht | exact E6 |].
    eapply Forall_impl; [| exact Hgen].
    intros x (Hv & Hs & Hf & _). rewrite Hv, Hs, Hf. repeat split; lia. }
  set (P := fun x : DieRollBase =>
              valid (base x) = true /\
              0 <= successes (base x) /\ 0 <= failures (base x) /\
              value (base x) = Js.ofZ (successes (base x) - failures (base x)) /\
              success (base x)
              = Some (0 <? successes (base x) - failures (base x))%Z).
  assert (HP : Forall P (map scoreRoll tallied)).
  { apply Forall_forall. intros y Hy. apply in_map_iff in Hy.
    destruct Hy as (x & <- & Hx). rewrite Forall_forall in Htal.
    destruct (Htal x Hx) as (Hv & Hs & Hf). unfold P.
    cbn [scoreRoll upd_base base valid set_success set_value successes failures
         value success].
    repeat split; assumption. }
  set (final := match sort with
                | Some so => applySort (map scoreRoll tallied) so
                | None => map scoreRoll tallied
                end) in *.
  assert (HPf : Forall P final).
  { unfold final. destruct sort as [so|]; [| exact HP].
    apply applySort_Forall; [| exact HP]. intros i x Hx. exact Hx. }
  assert (Hsu : sumZ (map (fun x => successes (base x)) final)
                = fold_left (fun n roll => n + successes (base roll)) tallied 0).
  { rewrite fold_left_sumZ. unfold final. destruct sort as [so|].
    - rewrite applySort_sumZ by reflexivity. rewrite map_map. reflexivity.
    - rewrite map_map. reflexivity. }
  assert (Hfa : sumZ (map (fun x => failures (base x)) final)
                = fold_left (fun n roll => n + failures (base roll)) tallied 0).
  { rewrite fold_left_sumZ. unfold final. destruct sort as [so|].
    - rewrite applySort_sumZ by reflexivity. rewrite map_map. reflexivity.
    - rewrite map_map. reflexivity. }
  assert (Hval : (sumValid final
                  == Js.ofZ (sumZ (map (fun x => successes (base x)) final)
                             - sumZ (map (fun x => failures (base x)) final)))%Q).
  { apply scored_sum; (eapply Forall_impl; [| exact HPf]).
    - intros x (_ & _ & _ & Hx & _). exact Hx.
    - intros x (Hx & _). exact Hx. }
  assert (Hres : c = set_label (Roll.label c)
                       (newCommon (sumValid final) (Some (Js.lt 0%Q (sumValid final)))
                          (fold_left (fun n roll => n + successes (base roll)) tallied 0)
                          (fold_left (fun n roll => n + failures (base roll)) tallied 0))
                 /\ rolls = final).
  { cbn [label_of] in H. destruct (truthy label); cbn [upd_common] in H;
      injection H as <- _ _ <- _; split; reflexivity. }
  destruct Hres as [Hc ->].
  rewrite Hc. cbn [successes failures value success set_label newCommon].
  rewrite <- Hsu, <- Hfa.
  split; [reflexivity|]. split; [reflexivity|].
  split. { apply sumZ_nonneg. eapply Forall_impl; [| exact HPf].
           intros x (_ & Hx & _). exact Hx. }
  split. { apply sumZ_nonneg. eapply Forall_impl; [| exact HPf].
           intros x (_ & _ & Hx & _). exact Hx. }
  split; [exact Hval|].
  split; [| exact HPf].
  rewrite (lt_Qeq _ _ Hval), lt_ofZ. reflexivity.
Qed.

Lemma die_value_is_net_successes_witness :
  exists c cnt d rolls mt s',
    rollType fourOneSix 0 threeD6AtLeast4Fail1 start
    = Ok (DiceRollResult c cnt d rolls mt) s' /\
    map roll rolls = [4; 1; 6] /\
    successes c = 2 /\ failures c = 1 /\
    (value c == 1)%Q.
Proof.
  eassert (He : rollType fourOneSix 0 threeD6AtLeast4Fail1 start
                = Ok (DiceRollResult _ _ _ _ _) _)
    by (vm_compute; reflexivity).
  assert (Ht : Forall (fun m => isTargetMod m = true)
                  [SuccessFailureCritModType success_k ">" (NumberType 4%Q None);
                   SuccessFailureCritModType failure_k "=" (NumberType 1%Q None)])
    by (repeat constructor).
  pose proof (die_value_is_net_successes fourOneSix 0 (lit 3) (lit 6) _
                None None _ _ _ _ _ _ _ Ht He)
    as (_ & _ & _ & _ & Hv & _).
  eexists _, _, _, _, _, _. split; [exact He|].
  split; [reflexivity|]. split; [reflexivity|]. split; [reflexivity|]. exact Hv.
Defined.

(** ** Critical successes and failures *)

Lemma generated_naturals this (rt : RootType -> M RollBase) die n s d rolls s' :
  match die with
  | FateExpr _ =>
      (rolls <- arrayFrom n (fun i => generateFateRoll this i) ;;
       ret (FateMarker {| value := 0%Q; valid := false; success := None;
                          successes := 0; failures := 0; order := 0;
                          label := None; drop := false |}, rolls))%roller
  | _ =>
      (die0 <- rt die ;;
       rolls <- arrayFrom n (fun i => generateDiceRoll this (value (common die0)) i) ;;
       ret (die0, rolls))%roller
  end s = Ok (d, rolls) s' ->
  Forall (fun x => valid (base x) = true /\ success (base x) = None /\
                   critical x = naturalCritical x) rolls.
Proof.
  intros H.
  assert (Hstd : forall z1 z2,
             bind (rt die)
                  (fun die0 =>
                     bind (arrayFrom n (fun i => generateDiceRoll this
                                                   (value (common die0)) i))
                          (fun rolls => ret (die0, rolls))) z1
             = Ok (d, rolls) z2 ->
             Forall (fun x => valid (base x) = true /\ success (base x) = None /\
                              critical x = naturalCritical x) rolls).
  { intros z1 z2 Hb. bind_inv Hb as die0 z3 Eb1. bind_inv Hb as rs z4 Eb2.
    unfold ret in Hb. injection Hb as <- <- <-. unfold arrayFrom in Eb2.
    eapply arrayFrom_from_Forall; [| exact Eb2].
    intros i z x z' Hx. rewrite generateDiceRoll_Ok in Hx.
    injection Hx as <- <-. repeat split. }
  destruct die; try (apply Hstd in H; exact H).
  bind_inv H as rs z4 Eb2. unfold ret in H. injection H as <- <- <-.
  unfold arrayFrom in Eb2.
  eapply arrayFrom_from_Forall; [| exact Eb2].
  intros i z x z' Hx. rewrite generateFateRoll_Ok in Hx.
  injection Hx as <- <-. repeat split.
Qed.

(** What [critRolls] makes of a roll that is as [generateDiceRoll] left it. *)
Lemma critRolls_natural which m t (rolls : list DieRollBase) :
  Forall (fun x => valid (base x) = true /\ success (base x) = None /\
                   critical x = naturalCritical x) rolls ->
  Forall (fun x => critical x
                   = match type x with
                     | fateroll_t => None
                     | roll_t _ _ =>
                         if successTest m t (face x) then Some which
                         else if isCrit which (naturalCritical x) then None
                              else naturalCritical x
                     end)
         (critRolls which m face t rolls).
Proof.
  intros H. unfold critRolls. apply Forall_forall. intros y Hy.
  apply in_map_iff in Hy. destruct Hy as (x & <- & Hx).
  rewrite Forall_forall in H. destruct (H x Hx) as (Hv & Hs & Hc).
  rewrite Hv, Hs. cbn [negb isTrue].
  destruct x as [b ty r mt rr ex]. destruct ty as [dv cr|]; [| reflexivity].
  unfold critical, naturalCritical, face in *. cbn [type roll] in *. subst cr.
  destruct (successTest m t (Js.ofZ r)) eqn:Et.
  - cbn. rewrite Et. reflexivity.
  - destruct (isCrit which _) eqn:Ec; cbn; rewrite Et, ?Ec; reflexivity.
Qed.

(** X23. A die roll whose only modifier is a critical test against a literal
    number. For a critical-success test, a roll of a die is a critical
    success exactly when its face passes the test (the highest face is
    none when it does not pass), and a critical failure exactly when its
    face does not pass, is 1 and is not the highest face. For a
    critical-failure test, a roll is a critical failure exactly when its
    face passes, and a critical success exactly when its face does not
    pass and is the highest face. *)
Theorem die_critical_follows_the_modifier (this : DiceRoller) (fuel : nat)
    (count die : RootType) (k : SuccessFailureCritKind) (m : string) (t : number)
    (l0 : option string) (sort : option SortRollType) (label : option string)
    (s s' : State) (c : RollCommon) (cnt d : RollBase) (rolls : list DieRollBase)
    (mt : bool) :
  rollType this fuel
    (FullRoll count die (Some [SuccessFailureCritModType k m (NumberType t l0)])
              None None sort label) s
  = Ok (DiceRollResult c cnt d rolls mt) s' ->
  (k = crit_k ->
   Forall (fun x => forall dv, dieOf x = Some dv ->
             (critical x = Some crit_success <-> successTest m t (face x) = true) /\
             (critical x = Some crit_failure <->
              successTest m t (face x) = false /\ roll x = 1 /\
              Js.eq (face x) dv = false)) rolls) /\
  (k = critfail_k ->
   Forall (fun x => forall dv, dieOf x = Some dv ->
             (critical x = Some crit_failure <-> successTest m t (face x) = true) /\
             (critical x = Some crit_success <->
              successTest m t (face x) = false /\ Js.eq (face x) dv = true)) rolls).
Proof.
  intros H.
  rewrite rollType_unfold in H. bind_inv H as resp s0 E.
  unfold ret in H. injection H as H _.
  unfold rollDie in E.
  bind_inv E as cnt0 s1 E1.
  destruct (Js.lt (maxRollCount this) (value (common cnt0))); [discriminate|].
  bind_inv E as [d0 rolls0] s2 E2.
  bind_inv E as rolls1 s3 E3.
  bind_inv E as [[rolls2 su] fa] s4 E4.
  unfold ret in E4. injection E4 as <- <- <- <-.
  bind_inv E as [[rolls3 isMatched] matchCount] s5 E5.
  unfold ret in E5. injection E5 as <- <- <- <-.
  unfold ret in E. injection E as <- _.
  apply generated_naturals in E2.
  unfold async_reduce in E3. cbn [async_reduce_from] in E3.
  bind_inv E3 as after s7 E7. unfold ret in E3. injection E3 as <- <-.
  unfold applyMod in E7. bind_inv E7 as method s8 E8.
  assert (Hrolls : rolls = match sort with
                           | Some so => applySort after so
                           | None => after
                           end).
  { cbn [label_of] in H. destruct (truthy label); cbn [upd_common] in H;
      injection H as _ _ _ <- _; reflexivity. }
  assert (Hlit : forall st er st', rollType this fuel (NumberType t l0) st = Ok er st' ->
                                   value (common er) = t).
  { intros st er st' Her.
    destruct (rollType_literal this fuel t l0 st) as (r & Er & Hv).
    rewrite Er in Her. injection Her as <- _. exact Hv. }
  assert (Hsort : forall P : DieRollBase -> Prop,
             (forall i x, P x -> P (upd_base (set_order i) x)) ->
             Forall P after -> Forall P rolls).
  { intros P HP Ha. rewrite Hrolls. destruct sort as [so|]; [| exact Ha].
    apply applySort_Forall; assumption. }
  split; intros ->; cbn [getModMethod] in E8.
  - unfold getCritSuccessMethod in E8. bind_inv E8 as er s9 E9.
    unfold ret in E8. injection E8 as <- <-.
    unfold ret in E7. injection E7 as <- <-.
    rewrite (Hlit _ _ _ E9) in Hsort.
    apply Hsort.
    { intros i x Hx. exact Hx. }
    eapply Forall_impl; [| apply (critRolls_natural crit_success m t _ E2)].
    intros x Hx dv Hd. unfold dieOf in Hd. unfold naturalCritical in Hx.
    destruct (type x) as [dv' cr|] eqn:Ety; [| discriminate Hd].
    injection Hd as ->. fold (face x) in Hx.
    destruct (successTest m t (face x)).
    + rewrite Hx. intuition (discriminate || congruence).
    + destruct (Js.eq (face x) dv) eqn:Eq; cbn [isCrit] in Hx.
      * rewrite Hx. intuition (discriminate || congruence).
      * destruct (Z.eqb_spec (roll x) 1) as [E1'|E1']; cbn [isCrit] in Hx; rewrite Hx;
          intuition (discriminate || congruence).
  - unfold getCritFailureMethod in E8. bind_inv E8 as er s9 E9.
    unfold ret in E8. injection E8 as <- <-.
    unfold ret in E7. injection E7 as <- <-.
    rewrite (Hlit _ _ _ E9) in Hsort.
    apply Hsort.
    { intros i x Hx. exact Hx. }
    eapply Forall_impl; [| apply (critRolls_natural crit_failure m t _ E2)].
    intros x Hx dv Hd. unfold dieOf in Hd. unfold naturalCritical in Hx.
    destruct (type x) as [dv' cr|] eqn:Ety; [| discriminate Hd].
    injection Hd as ->. fold (face x) in Hx.
    destruct (successTest m t (face x)).
    + rewrite Hx. intuition (discriminate || congruence).
    + destruct (Js.eq (face x) dv) eqn:Eq; cbn [isCrit] in Hx.
      * rewrite Hx. intuition (discriminate || congruence).
      * destruct (Z.eqb_spec (roll x) 1) as [E1'|E1']; cbn [isCrit] in Hx; rewrite Hx;
          intuition (discriminate || congruence).
Qed.

Lemma die_critical_follows_the_modifier_witness :
  exists c cnt d rolls mt s',
    rollType fourOneSix 0 threeD6CritAbove4 start
    = Ok (DiceRollResult c cnt d rolls mt) s' /\
    map roll rolls = [4; 1; 6] /\
    Forall (fun x => forall dv, dieOf x = Some dv ->
              (critical x = Some crit_success <-> successTest ">" 4%Q (face x) = true) /\
              (critical x = Some crit_failure <->
               successTest ">" 4%Q (face x) = false /\ roll x = 1 /\
               Js.eq (face x) dv = false)) rolls.
Proof.
  eassert (He : rollType fourOneSix 0 threeD6CritAbove4 start
                = Ok (DiceRollResult _ _ _ _ _) _)
    by (vm_compute; reflexivity).
  pose proof (die_critical_follows_the_modifier fourOneSix 0 (lit 3) (lit 6) crit_k
                ">" 4%Q None None None _ _ _ _ _ _ _ He) as [Hc _].
  eexists _, _, _, _, _, _. split; [exact He|].
  split; [reflexivity | exact (Hc eq_refl)].
Defined.

(** ** Induction on parsed rolls *)

Section RootTypeInduction.
Variable P : RootType -> Prop.

Hypothesis H_number : forall v l, P (NumberType v l).
Hypothesis H_inline : forall e l, P e -> P (InlineExpression e l).
Hypothesis H_full : forall count die mods targets match_ sort l,
    P count -> P die -> onMods P mods -> onMods P targets -> onMatch P match_ ->
    P (FullRoll count die mods targets match_ sort l).
Hypothesis H_diceExpr : forall head ops l,
    P head -> Forall (onMath P) ops -> P (RollExpressionType head ops l).
Hypothesis H_expr : forall head ops l,
    P head -> Forall (onMath P) ops -> P (MathExpression head ops l).
Hypothesis H_group : forall rolls mods l,
    Forall P rolls -> onMods P mods -> P (GroupedRoll rolls mods l).
Hypothesis H_function : forall op e l, P e -> P (MathFunctionExpression op e l).
Hypothesis H_replacement : forall called e l,
    P e -> P (CustomReplacementExpression called e l).
Hypothesis H_fate : forall l, P (FateExpr l).
Hypothesis H_other : forall t l, P (OtherType t l).

Lemma RootType_nested_ind : forall input, P input.
Proof.
  fix IH 1.
  intros [v l | e l | count die mods targets match_ sort l | head ops l
         | head ops l | rolls mods l | op e l | called e l | l | t l].
  - apply H_number.
  - apply H_inline, IH.
  - apply H_full.
    + apply IH.
    + apply IH.
    + destruct mods as [ms|]; [| exact I]. cbn [onMods].
      induction ms as [|m ms IHms]; constructor; [| exact IHms].
      destruct m as [k mo e | k hl e | k [[mo v]|] | t]; cbn [onMod onTarget];
        try exact I; apply IH.
    + destruct targets as [ms|]; [| exact I]. cbn [onMods].
      induction ms as [|m ms IHms]; constructor; [| exact IHms].
      destruct m as [k mo e | k hl e | k [[mo v]|] | t]; cbn [onMod onTarget];
        try exact I; apply IH.
    + destruct match_ as [[mn cn mm [e|]]|]; cbn [onMatch]; try exact I. apply IH.
  - apply H_diceExpr; [apply IH|].
    induction ops as [|[op tail] ops IHops]; constructor; [apply IH | exact IHops].
  - apply H_expr; [apply IH|].
    induction ops as [|[op tail] ops IHops]; constructor; [apply IH | exact IHops].
  - apply H_group.
    + induction rolls as [|r rolls IHr]; constructor; [apply IH | exact IHr].
    + destruct mods as [ms|]; [| exact I]. cbn [onMods].
      induction ms as [|m ms IHms]; constructor; [| exact IHms].
      destruct m as [k mo e | k hl e | k [[mo v]|] | t]; cbn [onMod onTarget];
        try exact I; apply IH.
  - apply H_function, IH.
  - apply H_replacement, IH.
  - apply H_fate.
  - apply H_other.
Qed.

End RootTypeInduction.

(** ** What an evaluation does to the state *)

Lemma StateGrows_refl this s : StateGrows this s s.
Proof. split; [lia | auto | auto]. Qed.

Lemma StateGrows_trans this s1 s2 s3 :
  StateGrows this s1 s2 -> StateGrows this s2 s3 -> StateGrows this s1 s3.
Proof.
  intros [D1 K1 N1] [D2 K2 N2]. split.
  - lia.
  - intros called f H. apply K2, K1, H.
  - intros called f H. destruct (N2 called f H) as [H2|H2]; [| right; exact H2].
    apply N1, H2.
Qed.

Section GrowsFacts.
Variable this : DiceRoller.

Lemma Grows_ret {A} (a : A) : Grows this (ret a).
Proof. intros s b s' H. ret_inv H. apply StateGrows_refl. Qed.

Lemma Grows_throw {A} e : Grows this (@throw A e).
Proof. intros s b s' H. discriminate. Qed.

Lemma Grows_unmodelled {A} : Grows this (@unmodelled A).
Proof. intros s b s' H. discriminate. Qed.

Lemma Grows_outOfFuel {A} : Grows this (@outOfFuel A).
Proof. intros s b s' H. discriminate. Qed.

Lemma Grows_liftOption {A} (o : option A) : Grows this (liftOption o).
Proof. destruct o; [apply Grows_ret | apply Grows_unmodelled]. Qed.

Lemma Grows_bind {A B} (m : M A) (k : A -> M B) :
  Grows this m -> (forall a, Grows this (k a)) -> Grows this (bind m k).
Proof.
  intros Hm Hk s b s' H. bind_inv H as a s1 E.
  eapply StateGrows_trans; [eapply Hm; exact E | eapply Hk; exact H].
Qed.

Lemma Grows_rand : Grows this (rand this).
Proof.
  intros s a s' H. rewrite rand_Ok in H. injection H as _ <-.
  split; cbn [drawn cached]; [lia | auto | auto].
Qed.

Lemma Grows_reRoll roll order : Grows this (reRoll this roll order).
Proof.
  intros s a s' H. rewrite reRoll_Ok in H. injection H as _ <-.
  split; cbn [drawn cached]; [lia | auto | auto].
Qed.

Lemma Grows_generateDiceRoll die order : Grows this (generateDiceRoll this die order).
Proof. apply Grows_bind; [apply Grows_rand | intros; apply Grows_ret]. Qed.

Lemma Grows_generateFateRoll order : Grows this (generateFateRoll this order).
Proof. apply Grows_bind; [apply Grows_rand | intros; apply Grows_ret]. Qed.

Lemma Grows_async_reduce_from {T U} (func : U -> T -> Z -> M U) (array : list T) :
  Forall (fun t => forall u i, Grows this (func u t i)) array ->
  forall index init, Grows this (async_reduce_from func index array init).
Proof.
  induction 1 as [|t array Ht Harr IH]; intros index init; cbn [async_reduce_from].
  - apply Grows_ret.
  - apply Grows_bind; [apply Ht | intros; apply IH].
Qed.

Lemma Grows_async_map_from {T U} (func : T -> Z -> M U) (array : list T) :
  Forall (fun t => forall i, Grows this (func t i)) array ->
  forall index, Grows this (async_map_from func index array).
Proof.
  induction 1 as [|t array Ht Harr IH]; intros index; cbn [async_map_from].
  - apply Grows_ret.
  - apply Grows_bind; [apply Ht|]. intros u.
    apply Grows_bind; [apply IH | intros; apply Grows_ret].
Qed.

Lemma Grows_async_filter_from {T} (func : T -> Z -> M bool) (array : list T) :
  (forall t i, Grows this (func t i)) ->
  forall index, Grows this (async_filter_from func index array).
Proof.
  intros Hf. induction array as [|t array IH]; intros index; cbn [async_filter_from].
  - apply Grows_ret.
  - apply Grows_bind; [apply Hf|]. intros keep.
    apply Grows_bind; [apply IH | intros; apply Grows_ret].
Qed.

Lemma Grows_arrayFrom_from {T} (f : Z -> M T) :
  (forall i, Grows this (f i)) ->
  forall n i, Grows this (arrayFrom_from f i n).
Proof.
  intros Hf n. induction n as [|n IH]; intros i; cbn [arrayFrom_from].
  - apply Grows_ret.
  - apply Grows_bind; [apply Hf|]. intros x.
    apply Grows_bind; [apply IH | intros; apply Grows_ret].
Qed.

Lemma Grows_explodeWhile adjust target :
  forall budget roll i, Grows this (explodeWhile this adjust target budget roll i).
Proof.
  induction budget as [|b IH]; intros roll i.
  - cbn [explodeWhile]. destruct (explodeTarget target roll); apply Grows_ret.
  - rewrite explodeWhile_S. destruct (explodeTarget target roll); [| apply Grows_ret].
    apply Grows_bind; [apply Grows_reRoll|]. intros newRoll.
    apply Grows_bind; [apply IH|]. intros [rest i']. apply Grows_ret.
Qed.

Lemma Grows_explodeFor adjust target :
  forall rolls i, Grows this (explodeFor this adjust target i rolls).
Proof.
  induction rolls as [|r rest IH]; intros i.
  - apply Grows_ret.
  - rewrite explodeFor_cons.
    apply Grows_bind; [apply Grows_explodeWhile|]. intros [chain i'].
    apply Grows_bind; [apply IH | intros; apply Grows_ret].
Qed.

Lemma Grows_compoundWhile target :
  forall budget roll i rv, Grows this (compoundWhile this target budget roll i rv).
Proof.
  induction budget as [|b IH]; intros roll i rv; cbn [compoundWhile];
    destruct (explodeTarget target roll); try apply Grows_ret.
  apply Grows_bind; [apply Grows_reRoll | intros; apply IH].
Qed.

Lemma Grows_compoundFor target :
  forall rolls i, Grows this (compoundFor this target i rolls).
Proof.
  induction rolls as [|r rest IH]; intros i.
  - apply Grows_ret.
  - rewrite compoundFor_cons.
    apply Grows_bind; [apply Grows_compoundWhile|]. intros rv. cbv zeta.
    apply Grows_bind; [apply IH | intros; apply Grows_ret].
Qed.

Lemma Grows_rerollWhile target :
  forall fuel roll i, Grows this (rerollWhile this target fuel roll i).
Proof.
  induction fuel as [|f IH]; intros roll i.
  - cbn [rerollWhile]. destruct (rerollTarget target _);
      [apply Grows_outOfFuel | apply Grows_ret].
  - rewrite rerollWhile_S. destruct (rerollTarget target _); [| apply Grows_ret].
    apply Grows_bind; [apply Grows_reRoll|]. intros newRoll.
    apply Grows_bind; [apply IH|]. intros [rest i']. apply Grows_ret.
Qed.

Lemma Grows_rerollFor fuel target :
  forall rolls i, Grows this (rerollFor this fuel target i rolls).
Proof.
  induction rolls as [|r rest IH]; intros i; cbn [rerollFor].
  - apply Grows_ret.
  - apply Grows_bind; [apply Grows_rerollWhile|]. intros [chain i'].
    apply Grows_bind; [apply IH | intros; apply Grows_ret].
Qed.

Lemma Grows_rerollOnceFor target :
  forall rolls i, Grows this (rerollOnceFor this target i rolls).
Proof.
  induction rolls as [|r rest IH]; intros i; cbn [rerollOnceFor].
  - apply Grows_ret.
  - destruct (rerollTarget target _).
    + apply Grows_bind; [apply Grows_reRoll|]. intros newRoll.
      apply Grows_bind; [apply IH | intros; apply Grows_ret].
    + apply Grows_bind; [apply IH | intros; apply Grows_ret].
Qed.

Lemma Grows_rerollGuard target rolls : Grows this (rerollGuard target rolls).
Proof.
  unfold rerollGuard. destruct rolls as [|r0 rest]; [apply Grows_throw|].
  destruct (match type r0 with roll_t _ _ => _ | fateroll_t => _ end);
    [apply Grows_throw | apply Grows_ret].
Qed.

Lemma Grows_explodeRolls target rolls : Grows this (explodeRolls this target rolls).
Proof.
  unfold explodeRolls. destruct rolls as [|r0 rest]; [apply Grows_throw|].
  destruct (match type r0 with roll_t _ _ => _ | fateroll_t => _ end);
    [apply Grows_throw | apply Grows_explodeFor].
Qed.

Lemma Grows_compoundRolls target rolls : Grows this (compoundRolls this target rolls).
Proof.
  unfold compoundRolls. destruct rolls as [|r0 rest]; [apply Grows_throw|].
  destruct (match type r0 with roll_t _ _ => _ | fateroll_t => _ end);
    [apply Grows_throw | apply Grows_compoundFor].
Qed.

Lemma Grows_penetrateRolls target rolls :
  Grows this (penetrateRolls this target rolls).
Proof.
  unfold penetrateRolls. destruct rolls as [|r0 rest].
  - destruct target; [apply Grows_throw | apply Grows_ret].
  - destruct (match target with Some _ => _ | None => _ end);
      [apply Grows_throw | apply Grows_explodeFor].
Qed.

Lemma Grows_rerollRolls fuel target rolls :
  Grows this (rerollRolls this fuel target rolls).
Proof.
  apply Grows_bind; [apply Grows_rerollGuard | intros; apply Grows_rerollFor].
Qed.

Lemma Grows_rerollOnceRolls target rolls :
  Grows this (rerollOnceRolls this target rolls).
Proof.
  apply Grows_bind; [apply Grows_rerollGuard | intros; apply Grows_rerollOnceFor].
Qed.

End GrowsFacts.

Section GrowsMethods.
Variable this : DiceRoller.
Variable fuel : nat.
Variable rt : RootType -> M RollBase.

Let P (e : RootType) : Prop := Grows this (rt e).

Lemma GrowsMethod_pure {T} (expr : RootType) (f : RollBase -> list T -> list T) :
  P expr ->
  GrowsMethod this (exprResult <- rt expr ;; ret (fun rolls => ret (f exprResult rolls))).
Proof.
  intros He s method s' H. bind_inv H as er s1 E. ret_inv H.
  split; [eapply He; exact E | intros rolls; apply Grows_ret].
Qed.

Lemma Grows_resolveTarget target :
  onTarget P target -> Grows this (resolveTarget rt target).
Proof.
  destruct target as [[mo v]|]; cbn [onTarget resolveTarget]; intros H.
  - apply Grows_bind; [exact H | intros; apply Grows_ret].
  - apply Grows_ret.
Qed.

Lemma GrowsMethod_target target (f : option (string * number) -> ModMethod) :
  onTarget P target ->
  (forall tv rolls, Grows this (f tv rolls)) ->
  GrowsMethod this (targetValue <- resolveTarget rt target ;; ret (f targetValue)).
Proof.
  intros Ht Hf s method s' H. bind_inv H as tv s1 E. ret_inv H.
  split; [eapply Grows_resolveTarget; eassumption | intros rolls; apply Hf].
Qed.

Lemma getModMethod_grows mod_ :
  onMod P mod_ -> GrowsMethod this (getModMethod this fuel rt mod_).
Proof.
  destruct mod_ as [k mo e | k hl e | k target | t]; cbn [onMod getModMethod]; intros H.
  - destruct k.
    + apply (GrowsMethod_pure e (fun er => successRolls mo _ (value (common er)))), H.
    + apply (GrowsMethod_pure e (fun er => failureRolls mo _ (value (common er)))), H.
    + apply (GrowsMethod_pure e (fun er => critRolls crit_success mo _
                                            (value (common er)))), H.
    + apply (GrowsMethod_pure e (fun er => critRolls crit_failure mo _
                                            (value (common er)))), H.
  - destruct k; intros s method s' Hm; bind_inv Hm as method0 s1 E; ret_inv Hm.
    + apply (GrowsMethod_pure e (fun er => keepRolls hl _ (value (common er))) H) in E.
      destruct E as [Hs Hr]. split; [exact Hs|]. intros rolls.
      apply Grows_bind; [apply Hr | intros; apply Grows_ret].
    + apply (GrowsMethod_pure e (fun er => dropRolls hl _ (value (common er))) H) in E.
      destruct E as [Hs Hr]. split; [exact Hs|]. intros rolls.
      apply Grows_bind; [apply Hr | intros; apply Grows_ret].
  - destruct k.
    + apply (GrowsMethod_target target (explodeRolls this) H).
      intros; apply Grows_explodeRolls.
    + apply (GrowsMethod_target target (compoundRolls this) H).
      intros; apply Grows_compoundRolls.
    + apply (GrowsMethod_target target (penetrateRolls this) H).
      intros; apply Grows_penetrateRolls.
    + apply (GrowsMethod_target target (rerollRolls this fuel) H).
      intros; apply Grows_rerollRolls.
    + apply (GrowsMethod_target target (rerollOnceRolls this) H).
      intros; apply Grows_rerollOnceRolls.
  - intros s method s' Hm. discriminate.
Qed.

Lemma applyMod_grows rolls mod_ :
  onMod P mod_ -> Grows this (applyMod this fuel rt rolls mod_).
Proof.
  intros H s a s' Ha. unfold applyMod in Ha. bind_inv Ha as method s1 E.
  destruct (getModMethod_grows mod_ H _ _ _ E) as [Hs Hr].
  eapply StateGrows_trans; [exact Hs | eapply Hr; exact Ha].
Qed.

Lemma getGroupModMethod_grows {T} `{RollLike T} mod_ :
  onMod P mod_ -> GrowsMethod this (@getGroupModMethod rt T _ mod_).
Proof.
  destruct mod_ as [k mo e | k hl e | k target | t];
    cbn [onMod getGroupModMethod]; intros Hm.
  - destruct k; try (intros s method s' Hx; discriminate).
    + apply (GrowsMethod_pure e (fun er => successRolls mo _ (value (common er)))), Hm.
    + apply (GrowsMethod_pure e (fun er => failureRolls mo _ (value (common er)))), Hm.
  - destruct k.
    + apply (GrowsMethod_pure e (fun er => keepRolls hl _ (value (common er)))), Hm.
    + apply (GrowsMethod_pure e (fun er => dropRolls hl _ (value (common er)))), Hm.
  - intros s method s' Hx. discriminate.
  - intros s method s' Hx. discriminate.
Qed.

Lemma applyGroupMod_grows {T} `{RollLike T} (rolls : list T) mod_ :
  onMod P mod_ -> Grows this (applyGroupMod rt rolls mod_).
Proof.
  intros Hm s a s' Ha. unfold applyGroupMod in Ha. bind_inv Ha as method s1 E.
  destruct (getGroupModMethod_grows mod_ Hm _ _ _ E) as [Hs Hr].
  eapply StateGrows_trans; [exact Hs | eapply Hr; exact Ha].
Qed.

Lemma applyGroupMods_grows {T} `{RollLike T} mods (dice : list T) :
  Forall (onMod P) mods -> Grows this (applyGroupMods rt mods dice).
Proof.
  intros Hm. unfold applyGroupMods.
  apply Grows_bind.
  - unfold async_reduce. apply Grows_async_reduce_from.
    eapply Forall_impl; [| exact Hm]. intros mod_ Hmod [arr [same io]] i.
    apply Grows_bind; [apply applyGroupMod_grows; exact Hmod |].
    intros; apply Grows_ret.
  - intros [arr [same io]]. apply Grows_ret.
Qed.

Lemma Grows_concatDice dice : Grows this (concatDice dice).
Proof.
  induction dice as [|die rest IH]; cbn [concatDice]; [apply Grows_ret|].
  apply Grows_bind.
  - unfold diceOf. destruct die; try apply Grows_ret; apply Grows_throw.
  - intros ds. apply Grows_bind; [exact IH | intros; apply Grows_ret].
Qed.

Lemma rollGroup_grows rolls mods :
  Forall P rolls -> onMods P mods -> Grows this (rollGroup rt rolls mods).
Proof.
  intros Hr Hm. unfold rollGroup.
  apply Grows_bind.
  - unfold async_map. apply Grows_async_map_from.
    eapply Forall_impl; [| exact Hr]. intros roll Hroll i.
    apply Grows_bind; [exact Hroll | intros; apply Grows_ret].
  - intros members. destruct mods as [ms|]; [| apply Grows_ret].
    cbn [onMods] in Hm.
    assert (Hwhole : Grows this
                       (res <- applyGroupMods rt ms members ;;
                        ret (groupResult (gm_dice res) (gm_hasTarget res)
                                         (gm_successes res) (gm_failures res)))).
    { apply Grows_bind; [apply applyGroupMods_grows; exact Hm |].
      intros; apply Grows_ret. }
    destruct members as [|roll [|roll2 rest]]; try exact Hwhole.
    destruct roll; try exact Hwhole.
    + apply Grows_bind; [apply applyGroupMods_grows; exact Hm |].
      intros; apply Grows_ret.
    + apply Grows_bind; [apply Grows_concatDice|]. intros pool.
      apply Grows_bind; [apply applyGroupMods_grows; exact Hm |].
      intros; apply Grows_ret.
Qed.

Lemma matchTest_grows match_ val :
  onMatch P (Some match_) -> Grows this (matchTest rt match_ val).
Proof.
  destruct match_ as [mn cn [mm|] [e|]]; cbn [onMatch matchTest]; intros H;
    try apply Grows_ret.
  destruct (truthy (Some mm)); [| apply Grows_ret].
  apply Grows_bind; [exact H | intros; apply Grows_ret].
Qed.

Lemma rollDie_grows count die mods targets match_ sort :
  P count -> P die -> onMods P mods -> onMods P targets -> onMatch P match_ ->
  Grows this (rollDie this fuel rt count die mods targets match_ sort).
Proof.
  intros Hc Hd Hm Ht Hma. unfold rollDie.
  apply Grows_bind; [exact Hc|]. intros cnt.
  destruct (Js.lt _ _); [apply Grows_throw|].
  apply Grows_bind.
  { assert (Hstd : Grows this
                     (die0 <- rt die ;;
                      rolls <- arrayFrom (Js.toLength (value (common cnt)))
                                 (fun i => generateDiceRoll this (value (common die0)) i) ;;
                      ret (die0, rolls))).
    { apply Grows_bind; [exact Hd|]. intros die0.
      apply Grows_bind; [| intros; apply Grows_ret].
      apply Grows_arrayFrom_from. intros; apply Grows_generateDiceRoll. }
    destruct die; try exact Hstd.
    apply Grows_bind; [| intros; apply Grows_ret].
    apply Grows_arrayFrom_from. intros; apply Grows_generateFateRoll. }
  intros [d rolls0].
  apply Grows_bind.
  { destruct mods as [ms|]; [| apply Grows_ret].
    unfold async_reduce. apply Grows_async_reduce_from.
    eapply Forall_impl; [| exact Hm]. intros mod_ Hmod u i.
    apply applyMod_grows. exact Hmod. }
  intros rolls1.
  apply Grows_bind.
  { destruct targets as [ts|]; [| apply Grows_ret].
    apply Grows_bind; [| intros; apply Grows_ret].
    unfold async_reduce. apply Grows_async_reduce_from.
    eapply Forall_impl; [| exact Ht]. intros mod_ Hmod u i.
    apply applyMod_grows. exact Hmod. }
  intros [[rolls2 su] fa].
  apply Grows_bind; [| intros [[rolls3 isM] mc]; apply Grows_ret].
  destruct match_ as [[mn cn mm e]|]; [| apply Grows_ret].
  apply Grows_bind; [| intros; apply Grows_ret].
  unfold async_filter. apply Grows_async_filter_from.
  intros t i. apply matchTest_grows. exact Hma.
Qed.

Lemma rollDiceExpr_grows head ops :
  P head -> Forall (onMath P) ops -> Grows this (rollDiceExpr rt head ops).
Proof.
  intros Hh Ho. unfold rollDiceExpr.
  apply Grows_bind; [exact Hh|]. intros headRoll.
  apply Grows_bind; [| intros [v [rolls os]]; apply Grows_ret].
  unfold async_reduce. apply Grows_async_reduce_from.
  eapply Forall_impl; [| exact Ho]. intros [op tail] Hmath [hv [rolls os]] i.
  apply Grows_bind; [exact Hmath | intros; apply Grows_ret].
Qed.

Lemma rollExpression_grows head ops :
  P head -> Forall (onMath P) ops -> Grows this (rollExpression rt head ops).
Proof.
  intros Hh Ho. unfold rollExpression.
  apply Grows_bind; [exact Hh|]. intros headRoll.
  apply Grows_bind; [| intros [v [rolls os]]; apply Grows_ret].
  unfold async_reduce. apply Grows_async_reduce_from.
  eapply Forall_impl; [| exact Ho]. intros [op tail] Hmath [hv [rolls os]] i.
  apply Grows_bind; [exact Hmath|]. intros tailRoll. cbv zeta.
  apply Grows_bind; [| intros; apply Grows_ret].
  repeat (match goal with
          | |- Grows _ (if ?b then _ else _) => destruct b
          end);
    try apply Grows_ret; apply Grows_liftOption.
Qed.

Lemma rollFunction_grows op expr :
  P expr -> Grows this (rollFunction rt op expr).
Proof.
  intros He. apply Grows_bind; [exact He | intros; apply Grows_ret].
Qed.

Lemma getCached_cachedFor called s :
  getCached called s
  = Ok (match cachedFor called s with
        | Some f => Stored f
        | None => if inherited called then Inherited else Absent
        end) s.
Proof.
  unfold getCached, cachedFor.
  destruct (find (fun p => fst p =? called) (cached s)); reflexivity.
Qed.

Lemma callInherited_not_Ok {A} called s (a : A) s' :
  @callInherited A called s <> Ok a s'.
Proof.
  unfold callInherited.
  destruct ((called =? "toString") || (called =? "isPrototypeOf")
            || (called =? "constructor")); [discriminate|].
  destruct (called =? "__proto__"); discriminate.
Qed.

Lemma cachedFor_setCached called f c s :
  cachedFor c (mkState (drawn s) ((called, f) :: cached s))
  = if called =? c then Some f else cachedFor c s.
Proof.
  unfold cachedFor. cbn [cached find fst]. destruct (called =? c); reflexivity.
Qed.

Lemma doReplacement_grows called expr :
  P expr -> Grows this (doReplacement this rt called expr).
Proof.
  intros He s a s' H. unfold doReplacement in H.
  bind_inv H as roll s1 E1. bind_inv H as hit s2 E2.
  rewrite getCached_cachedFor in E2. injection E2 as <- <-.
  bind_inv H as f s3 E3. ret_inv H.
  eapply StateGrows_trans; [eapply He; exact E1|].
  destruct (cachedFor called s1) as [h|] eqn:Ehit.
  - ret_inv E3. apply StateGrows_refl.
  - destruct (inherited called); [apply callInherited_not_Ok in E3; contradiction|].
    destruct (replacementFunctions this called) as [g|] eqn:Eg; [| discriminate].
    bind_inv E3 as u s4 E4. ret_inv E3. unfold setCached in E4. injection E4 as _ <-.
    split.
    + cbn [drawn]. lia.
    + intros c h Hc. rewrite cachedFor_setCached.
      destruct (String.eqb_spec called c) as [Ec|Hne]; [| exact Hc].
      rewrite <- Ec in Hc. congruence.
    + intros c h Hc. rewrite cachedFor_setCached in Hc.
      destruct (String.eqb_spec called c) as [Ec|Hne]; [| left; exact Hc].
      right. rewrite <- Ec. congruence.
Qed.

End GrowsMethods.

(** Whatever is evaluated, the state only grows. *)
Lemma rollType_grows this fuel :
  forall input, Grows this (rollType this fuel input).
Proof.
  apply RootType_nested_ind; intros; rewrite rollType_unfold;
    (apply Grows_bind; [| intros; apply Grows_ret]).
  - apply Grows_ret.
  - assumption.
  - apply rollDie_grows; assumption.
  - apply rollDiceExpr_grows; assumption.
  - apply rollExpression_grows; assumption.
  - apply rollGroup_grows; assumption.
  - apply rollFunction_grows; assumption.
  - apply doReplacement_grows; assumption.
  - apply Grows_throw.
  - apply Grows_throw.
Qed.

(** X16. An evaluation that returns never takes a sample back and never
    forgets or replaces a cached replacement function: what was cached
    under a name still is, and what is cached afterwards was cached before
    or is the function that the resolver of this roller answers for the
    name. *)
Theorem evaluation_only_adds_to_the_cache (this : DiceRoller) (fuel : nat)
    (input : RootType) (s s' : State) (r : RollBase) :
  rollType this fuel input s = Ok r s' ->
  (drawn s <= drawn s')%nat /\
  (forall called f, cachedFor called s = Some f -> cachedFor called s' = Some f) /\
  (forall called f, cachedFor called s' = Some f ->
                    cachedFor called s = Some f \/
                    replacementFunctions this called = Some f).
Proof.
  intros H. destruct (rollType_grows this fuel input s r s' H) as [Hd Hk Hn].
  split; [exact Hd | split; [exact Hk | exact Hn]].
Qed.

Lemma evaluation_only_adds_to_the_cache_witness :
  exists r s',
    rollType doublingRoller 0
             (CustomReplacementExpression "double" (dice 2 6 None) None) start
    = Ok r s' /\
    (drawn start <= drawn s')%nat /\
    drawn s' = 2%nat /\
    exists f, cachedFor "double" s' = Some f /\
              replacementFunctions doublingRoller "double" = Some f.
Proof.
  eassert (He : rollType doublingRoller 0
                         (CustomReplacementExpression "double" (dice 2 6 None) None)
                         start = Ok _ _)
    by (vm_compute; reflexivity).
  destruct (evaluation_only_adds_to_the_cache _ _ _ _ _ _ He) as (Hd & _ & Hn).
  eexists _, _. split; [exact He|]. split; [exact Hd|]. split; [reflexivity|].
  eexists. split; [reflexivity|].
  destruct (Hn "double" _ eq_refl) as [C|E]; [discriminate C | exact E].
Defined.

(** X17. For a name that [this.cached] does not inherit from
    [Object.prototype]: after a replacement of that name has been
    evaluated, its function is stored in [this.cached] under the name and
    the result is that function applied to the value of the argument. From
    then on any replacement of that name applies the same function, and
    returns whenever its argument does -- for any roller run on that
    state, also one whose resolver rejects the name. *)
Theorem cached_replacement_is_reused (this : DiceRoller) (fuel : nat)
    (called : string) (e1 : RootType) (l1 : option string) (s0 s1 : State)
    (r1 : RollBase) :
  inherited called = false ->
  rollType this fuel (CustomReplacementExpression called e1 l1) s0 = Ok r1 s1 ->
  exists f,
    cachedFor called s1 = Some f /\
    (exists c child, r1 = ReplacementRoll c called child /\
                     value c = f (value (common child))) /\
    forall (this' : DiceRoller) (fuel' : nat) e2 l2 child2 s3,
      rollType this' fuel' e2 s1 = Ok child2 s3 ->
      exists r2,
        rollType this' fuel' (CustomReplacementExpression called e2 l2) s1 = Ok r2 s3 /\
        value (common r2) = f (value (common child2)).
Proof.
  intros Hown H. rewrite rollType_unfold in H. cbn [label_of] in H.
  bind_inv H as resp s' E. unfold ret in H. injection H as Hr1 Hs. subst s'.
  unfold doReplacement in E.
  bind_inv E as child s2 E1. bind_inv E as hit s3 E2.
  rewrite getCached_cachedFor in E2. injection E2 as Eh Es. subst s3 hit.
  bind_inv E as f s4 E3. unfold ret in E. injection E as Eresp Es. subst s4.
  assert (Hc : cachedFor called s1 = Some f).
  { destruct (cachedFor called s2) as [h|] eqn:Ehit.
    - unfold ret in E3. injection E3 as Ef Es. subst s2 h. exact Ehit.
    - rewrite Hown in E3.
      destruct (replacementFunctions this called) as [g|]; [| discriminate].
      bind_inv E3 as u s5 E4. unfold ret in E3. injection E3 as Ef Es. subst s5 g.
      unfold setCached in E4. injection E4 as Es. subst s1.
      rewrite cachedFor_setCached, String.eqb_refl. reflexivity. }
  exists f. split; [exact Hc|]. split.
  { rewrite <- Hr1, <- Eresp.
    destruct (truthy l1); eexists _, child; split; reflexivity. }
  intros this' fuel' e2 l2 child2 s3 H2.
  pose proof (grows_kept _ _ _ (rollType_grows this' fuel' e2 s1 child2 s3 H2)
                called f Hc) as Hc3.
  rewrite rollType_unfold. cbn [label_of]. unfold doReplacement, bind.
  rewrite H2, getCached_cachedFor, Hc3.
  unfold ret. eexists. split; [reflexivity|].
  rewrite common_labelled. destruct (truthy l2); reflexivity.
Qed.

Lemma cached_replacement_is_reused_witness :
  exists r1 s1 r2,
    rollType doublingRoller 0 (CustomReplacementExpression "double" (lit 3) None) start
    = Ok r1 s1 /\
    rollType rejectingRoller 0 (CustomReplacementExpression "double" (lit 5) None) s1
    = Ok r2 s1 /\
    value (common r2) = (2 * inject_Z 5)%Q /\
    rollType rejectingRoller 0 (CustomReplacementExpression "double" (lit 5) None) start
    = Throw (ResolverRejected "double").
Proof.
  eassert (He : rollType doublingRoller 0
                         (CustomReplacementExpression "double" (lit 3) None) start
                = Ok _ _)
    by (vm_compute; reflexivity).
  destruct (cached_replacement_is_reused doublingRoller 0 "double" (lit 3) None
              start _ _ eq_refl He)
    as (f & Hc & _ & Hre).
  destruct (Hre rejectingRoller 0%nat (lit 5) None _ _ eq_refl) as (r2 & E2 & Hv).
  eexists _, _, r2. split; [exact He|]. split; [exact E2|].
  split; [| reflexivity].
  vm_compute in Hc. injection Hc as <-. exact Hv.
Defined.

(** A name that [this.cached] inherits is never resolved: the member of
    [Object.prototype] is what gets called.  For [valueOf] the call throws,
    whatever the resolver would have answered. *)
Lemma inherited_name_is_not_resolved (this : DiceRoller) (fuel : nat)
    (called : string) (e : RootType) (l : option string) (s : State) :
  inherited called = true ->
  (forall child s1, rollType this fuel e s = Ok child s1 -> cachedFor called s1 = None) ->
  forall r s', rollType this fuel (CustomReplacementExpression called e l) s <> Ok r s'.
Proof.
  intros Hin Hnone r s' H. rewrite rollType_unfold in H. cbn [label_of] in H.
  bind_inv H as resp s2 E. unfold doReplacement in E.
  bind_inv E as child s1 E1. bind_inv E as hit s3 E2.
  rewrite getCached_cachedFor in E2. injection E2 as Eh Es. subst s3 hit.
  rewrite (Hnone child s1 E1), Hin in E.
  bind_inv E as f s4 E3. eapply callInherited_not_Ok. exact E3.
Qed.

Lemma valueOf_replacement_throws :
  rollType doublingRoller 0 (CustomReplacementExpression "valueOf" (lit 3) None) start
  = Throw (JsTypeError "Cannot convert undefined or null to object").
Proof. vm_compute. reflexivity. Qed.

(** ** The helpers of [async_map_funcs] *)

Lemma indexedFrom_cons {T} (index : Z) (x : T) (array : list T) :
  indexedFrom index (x :: array) = (x, index) :: indexedFrom (index + 1) array.
Proof.
  unfold indexedFrom. cbn [List.length seq map combine].
  rewrite Z.add_0_r. f_equal. f_equal.
  rewrite <- seq_shift, map_map. apply map_ext. intros k. lia.
Qed.

Lemma async_reduce_from_pure {T U} (f : U -> T -> Z -> U) (array : list T) :
  forall index init s,
    async_reduce_from (fun u t i => ret (f u t i)) index array init s
    = Ok (fold_left (fun u ti => f u (fst ti) (snd ti)) (indexedFrom index array) init) s.
Proof.
  induction array as [|x array IH]; intros index init s.
  - reflexivity.
  - rewrite indexedFrom_cons. cbn [async_reduce_from fold_left fst snd].
    unfold bind, ret at 1. apply IH.
Qed.

Lemma async_map_from_pure {T U} (g : T -> Z -> U) (array : list T) :
  forall index s,
    async_map_from (fun t i => ret (g t i)) index array s
    = Ok (map (fun ti => g (fst ti) (snd ti)) (indexedFrom index array)) s.
Proof.
  induction array as [|x array IH]; intros index s.
  - reflexivity.
  - rewrite indexedFrom_cons. cbn [async_map_from map fst snd].
    unfold bind at 1, ret at 1. unfold bind at 1. rewrite IH. reflexivity.
Qed.

Lemma async_filter_from_pure {T} (p : T -> Z -> bool) (array : list T) :
  forall index s,
    async_filter_from (fun t i => ret (p t i)) index array s
    = Ok (map fst (filter (fun ti => p (fst ti) (snd ti)) (indexedFrom index array))) s.
Proof.
  induction array as [|x array IH]; intros index s.
  - reflexivity.
  - rewrite indexedFrom_cons. cbn [async_filter_from filter fst snd].
    unfold bind at 1, ret at 1. unfold bind at 1. rewrite IH. unfold ret.
    destruct (p x index); reflexivity.
Qed.

(** X18. On callbacks that only compute, [async_reduce] is the left fold,
    [async_map] the map and [async_filter] the filter of the array, each
    callback receiving the element and its index, the first index being 0;
    the state is left as it was. *)
Theorem async_helpers_on_pure_callbacks {T U : Type} (array : list T) (s : State) :
  (forall (f : U -> T -> Z -> U) (init : U),
      async_reduce array (fun u t i => ret (f u t i)) init s
      = Ok (fold_left (fun u ti => f u (fst ti) (snd ti)) (indexed array) init) s) /\
  (forall g : T -> Z -> U,
      async_map array (fun t i => ret (g t i)) s
      = Ok (map (fun ti => g (fst ti) (snd ti)) (indexed array)) s) /\
  (forall p : T -> Z -> bool,
      async_filter array (fun t i => ret (p t i)) s
      = Ok (map fst (filter (fun ti => p (fst ti) (snd ti)) (indexed array))) s).
Proof.
  split; [| split]; intros.
  - apply async_reduce_from_pure.
  - apply async_map_from_pure.
  - apply async_filter_from_pure.
Qed.

Lemma async_reduce_from_app {T U} (func : U -> T -> Z -> M U) (pre post : list T) :
  forall index init s,
    async_reduce_from func index (pre ++ post) init s
    = match async_reduce_from func index pre init s with
      | Ok u s1 => async_reduce_from func (index + Z.of_nat (List.length pre)) post u s1
      | Throw e => Throw e
      | OutOfFuel => OutOfFuel
      | Unmodelled => Unmodelled
      end.
Proof.
  induction pre as [|x pre IH]; intros index init s.
  - cbn [app async_reduce_from List.length]. unfold ret. rewrite Z.add_0_r. reflexivity.
  - cbn [app async_reduce_from List.length]. unfold bind.
    destruct (func init x index s) as [u s1|e| |]; try reflexivity.
    rewrite IH. replace (index + 1 + Z.of_nat (List.length pre))
      with (index + Z.of_nat (S (List.length pre))) by lia.
    reflexivity.
Qed.

Lemma async_filter_from_app {T} (func : T -> Z -> M bool) (pre post : list T) :
  forall index s,
    async_filter_from func index (pre ++ post) s
    = match async_filter_from func index pre s with
      | Ok out s1 =>
          match async_filter_from func (index + Z.of_nat (List.length pre)) post s1 with
          | Ok out2 s2 => Ok (out ++ out2)%list s2
          | Throw e => Throw e
          | OutOfFuel => OutOfFuel
          | Unmodelled => Unmodelled
          end
      | Throw e => Throw e
      | OutOfFuel => OutOfFuel
      | Unmodelled => Unmodelled
      end.
Proof.
  induction pre as [|x pre IH]; intros index s.
  - cbn [app async_filter_from List.length]. unfold ret. rewrite Z.add_0_r.
    destruct (async_filter_from func index post s); reflexivity.
  - cbn [app async_filter_from List.length]. unfold bind.
    destruct (func x index s) as [keep s1|e| |]; try reflexivity.
    rewrite IH.
    replace (index + 1 + Z.of_nat (List.length pre))
      with (index + Z.of_nat (S (List.length pre))) by lia.
    set (j := index + Z.of_nat (S (List.length pre))).
    destruct (async_filter_from func (index + 1) pre s1) as [out s2|e| |];
      try reflexivity.
    unfold ret.
    destruct keep; destruct (async_filter_from func j post s2) as [out2 s3|e| |];
      reflexivity.
Qed.

(** X19. [async_reduce] and [async_filter] run the callback on the elements in
    order: when the callback has returned for the elements before [x] and
    throws on [x] (called with the index of [x], and for the reduction with
    the value accumulated so far), the helper throws the same error,
    whatever follows [x] in the array. *)
Theorem async_helpers_stop_at_the_first_throw {T U : Type} (pre post : list T) (x : T)
    (e : Error) (s s1 : State) :
  (forall (func : U -> T -> Z -> M U) (init u : U),
      async_reduce pre func init s = Ok u s1 ->
      func u x (Z.of_nat (List.length pre)) s1 = Throw e ->
      async_reduce (pre ++ x :: post) func init s = Throw e) /\
  (forall (func : T -> Z -> M bool) (out : list T),
      async_filter pre func s = Ok out s1 ->
      func x (Z.of_nat (List.length pre)) s1 = Throw e ->
      async_filter (pre ++ x :: post) func s = Throw e).
Proof.
  split.
  - intros func init u Hpre Hx. unfold async_reduce in *.
    rewrite async_reduce_from_app, Hpre. cbn [async_reduce_from Z.add].
    unfold bind. rewrite Hx. reflexivity.
  - intros func out Hpre Hx. unfold async_filter in *.
    rewrite async_filter_from_app, Hpre. cbn [async_filter_from Z.add].
    unfold bind at 1. rewrite Hx. reflexivity.
Qed.

Lemma async_helpers_stop_at_the_first_throw_witness :
  async_reduce [1; 2; 3]
    (fun u t _ => if (t =? 2)%Z then throw TooManyDice else ret (u + t)) 0 start
  = Throw TooManyDice.
Proof.
  refine (proj1 (async_helpers_stop_at_the_first_throw [1] [3] 2 TooManyDice start start)
                (fun u t _ => if (t =? 2)%Z then throw TooManyDice else ret (u + t))
                0 1 eq_refl eq_refl).
Defined.

(** ** Properties of the renderer *)

Lemma removeStrikes_head c t :
  isTilde c = false -> exists t', removeStrikes (String c t) = String c t'.
Proof.
  intros Hc. destruct t as [|c' rest]; cbn [removeStrikes].
  - eexists. reflexivity.
  - rewrite Hc. cbn [andb]. eexists. reflexivity.
Qed.

Lemma removeStrikes_two c c' rest :
  removeStrikes (String c (String c' rest))
  = if isTilde c && isTilde c' then removeStrikes rest
    else String c (removeStrikes (String c' rest)).
Proof. reflexivity. Qed.

Lemma hasStrike_two c c' rest :
  hasStrike (String c (String c' rest))
  = (isTilde c && isTilde c') || hasStrike (String c' rest).
Proof. reflexivity. Qed.

Lemma removeStrikes_no_strike_upto (n : nat) :
  forall s, (String.length s <= n)%nat -> hasStrike (removeStrikes s) = false.
Proof.
  induction n as [|n IH]; intros s Hl.
  - destruct s; [reflexivity | cbn in Hl; lia].
  - destruct s as [|c t]; [reflexivity|].
    destruct t as [|c' rest]; [reflexivity|].
    rewrite removeStrikes_two.
    destruct (isTilde c && isTilde c') eqn:E.
    + apply IH. cbn [String.length] in Hl. lia.
    + assert (Ht : hasStrike (removeStrikes (String c' rest)) = false).
      { apply IH. cbn [String.length] in Hl |- *. lia. }
      destruct (removeStrikes (String c' rest)) as [|h R] eqn:ER; [reflexivity|].
      rewrite hasStrike_two, Ht, orb_false_r.
      destruct (isTilde c) eqn:Hc; [| reflexivity]. cbn [andb] in E |- *.
      destruct (removeStrikes_head c' rest E) as (t' & Et).
      rewrite Et in ER. injection ER as <- _. exact E.
Qed.

(** What is left after [replace(/~~/g, "")] holds no ["~~"]. *)
Lemma removeStrikes_no_strike s : hasStrike (removeStrikes s) = false.
Proof. apply (removeStrikes_no_strike_upto (String.length s)). lia. Qed.

Section RendererFacts.
Variable show : number -> string.

Lemma doRender_aggregate roll root s :
  isAggregate roll = true ->
  doRender show roll root = Rendered s ->
  exists render, s = finish (common roll) root render.
Proof.
  intros Ha H. destruct roll as [r|c|c|c cnt d rolls m|c ds ops|c ds|c ds ops|c e op|c called e];
    try discriminate Ha; cbn [doRender common] in H |- *.
  - destruct (if negb (isNumberOrFate d) || negb (isNumberRoll cnt)
              then _ else _) as [reply|e|]; cbn [andThen] in H; try discriminate.
    injection H as <-. eexists. reflexivity.
  - match type of H with
    | andThen ?x _ = _ => destruct x as [replies|e|]
    end; cbn [andThen] in H; try discriminate.
    destruct replies as [|r0 [|r1 rest]]; try discriminate;
      injection H as <-; eexists; reflexivity.
  - match type of H with
    | andThen ?x _ = _ => destruct x as [replies|e|]
    end; cbn [andThen] in H; try discriminate.
    injection H as <-. eexists. reflexivity.
  - destruct ds as [|d0 [|d1 rest]]; try discriminate.
    + destruct (isNumberRoll d0).
      * injection H as <-. eexists. reflexivity.
      * destruct (doRender show d0 false) as [reply|e|]; cbn [andThen] in H;
          try discriminate.
        injection H as <-. eexists. reflexivity.
    + match type of H with
      | andThen ?x _ = _ => destruct x as [replies|e|]
      end; cbn [andThen] in H; try discriminate.
      injection H as <-. eexists. reflexivity.
Qed.

End RendererFacts.

(** X20. When the renderer returns a string for an invalid die result, dice
    expression, group or expression, that string is one struck-through
    text, ["~~" body "~~"], whose body holds no ["~~"] (the strike-throughs
    of its members are removed); at the root that is the whole string, and
    elsewhere it stands in parentheses, after the label and [": "] when the
    result has a label. *)
Theorem invalid_aggregate_is_struck_once (show : number -> string)
    (roll : RollBase) (root : bool) (s : string) :
  isAggregate roll = true ->
  valid (common roll) = false ->
  doRender show roll root = Rendered s ->
  exists body,
    hasStrike body = false /\
    s = if root then "~~" ++ body ++ "~~"
        else if labelled (common roll)
             then "(" ++ labelText (common roll) ++ ": "
                  ++ ("~~" ++ body ++ "~~") ++ ")"
             else "(" ++ ("~~" ++ body ++ "~~") ++ ")".
Proof.
  intros Ha Hv H.
  destruct (doRender_aggregate show roll root s Ha H) as (render & ->).
  exists (removeStrikes render). split; [apply removeStrikes_no_strike|].
  unfold finish. rewrite Hv. cbn [negb].
  destruct root; [reflexivity|]. destruct (labelled (common roll)); reflexivity.
Qed.

Lemma invalid_aggregate_is_struck_once_witness :
  exists c member other s',
    rollType oneThenFour 0 groupOfKeptDieAndTwenty start
    = Ok (GroupRoll c [member; other]) s' /\
    valid (common member) = false /\
    doRender showInt member true = Rendered "~~(1, 4) = 4~~" /\
    exists body,
      hasStrike body = false /\
      doRender showInt member false = Rendered ("(" ++ ("~~" ++ body ++ "~~") ++ ")").
Proof.
  eassert (He : rollType oneThenFour 0 groupOfKeptDieAndTwenty start
                = Ok (GroupRoll _ [_; _]) _)
    by (vm_compute; reflexivity).
  match type of He with
  | _ = Ok (GroupRoll _ [?m; _]) _ =>
      eassert (Hr : doRender showInt m false = Rendered _)
        by (vm_compute; reflexivity);
      destruct (invalid_aggregate_is_struck_once showInt m false _ eq_refl eq_refl Hr)
        as (body & Hb & Es)
  end.
  eexists _, _, _, _. split; [exact He|]. split; [reflexivity|].
  split; [vm_compute; reflexivity|].
  exists body. split; [exact Hb|]. rewrite Hr. f_equal. exact Es.
Defined.

Lemma doRender_relabelled show (b : bool) l r :
  (exists c e op, r = MathFunctionRoll c e op) \/
  (exists c called e, r = ReplacementRoll c called e) ->
  doRender show (if b then upd_common (set_label l) r else r) true
  = RenderThrows UnableToRenderRoll.
Proof.
  intros [(c & e & op & ->)|(c & called & e & ->)]; destruct b; reflexivity.
Qed.

Lemma doRender_root_relabel show l r :
  doRender show r true = RenderThrows UnableToRenderRoll ->
  doRender show (upd_common (set_label l) r) true = RenderThrows UnableToRenderRoll.
Proof.
  destruct r;
    try discriminate; try reflexivity; intros H; exact H.
Qed.

(** X21. The renderer throws its unable-to-render error on every result that
    [DiceRoller] returns for a math function or a custom replacement, also
    when the input wraps it in inline expressions: such results do not
    render. *)
Theorem functions_and_replacements_are_not_rendered (show : number -> string)
    (this : DiceRoller) (fuel : nat) (input : RootType) :
  rollsToFunction input = true ->
  forall s r s',
    rollType this fuel input s = Ok r s' ->
    render show r = RenderThrows UnableToRenderRoll.
Proof.
  unfold render.
  induction input; intros Hf s r s' H; try discriminate Hf;
    rewrite rollType_unfold in H; bind_inv H as resp s1 E; ret_inv H;
    cbn [label_of].
  - cbn [rollsToFunction] in Hf. specialize (IHinput Hf _ _ _ E).
    destruct (truthy label0); [| exact IHinput].
    apply doRender_root_relabel. exact IHinput.
  - apply doRender_relabelled. left.
    apply rollFunction_result in E. destruct E as (v & e & ->). eauto.
  - apply doRender_relabelled. right.
    apply doReplacement_result in E. destruct E as (v & e & ->). eauto.
Qed.

Lemma functions_and_replacements_are_not_rendered_witness :
  exists r s',
    rollType doublingRoller 0
      (InlineExpression (MathFunctionExpression "floor" (dice 1 6 None) None) None) start
    = Ok r s' /\
    render showInt r = RenderThrows UnableToRenderRoll.
Proof.
  eassert (He : rollType doublingRoller 0
                  (InlineExpression (MathFunctionExpression "floor" (dice 1 6 None) None)
                                    None) start
                = Ok _ _)
    by (vm_compute; reflexivity).
  eexists _, _. split; [exact He|].
  exact (functions_and_replacements_are_not_rendered showInt doublingRoller 0
           (InlineExpression (MathFunctionExpression "floor" (dice 1 6 None) None) None)
           eq_refl _ _ _ He).
Defined.
